(** * Linked containers of the [manual] namespace

    A shallow embedding of [manual::LinkedList] (linkedlist.h) and
    [manual::DoublyLinkedList] (doublylinkedlist.h).

    Nodes live in a heap, a finite map from addresses to node records; a
    pointer is an optional address, [None] standing for [nullptr].  A member
    function becomes a computation in a small state-and-failure monad over
    the heap.  Its outcome is a value, a thrown exception, or undefined
    behaviour (a null or dangling dereference, or a loop that never ends). *)

From stdpp Require Import gmap list strings pretty.

Local Open Scope N_scope.

(** ** Outcomes *)

Inductive outcome (A : Type) : Type :=
  | Ok (a : A)
  | Throws (what : string)
  | Undefined.
Arguments Ok {A} a.
Arguments Throws {A} what.
Arguments Undefined {A}.

(** ** [size_t]: 64-bit unsigned arithmetic, wrap-around written out *)

Definition SIZE_MAX : N := 18446744073709551615.
Definition size_modulus : N := 18446744073709551616.

Definition size_incr (n : N) : N := (n + 1) mod size_modulus.
Definition size_decr (n : N) : N := (n + SIZE_MAX) mod size_modulus.
Definition size_sub (a b : N) : N := (a + size_modulus - b) mod size_modulus.

Arguments size_incr : simpl never.
Arguments size_decr : simpl never.
Arguments size_sub : simpl never.

(** [std::to_string] on a [size_t]: the decimal digits. *)
Definition to_string (n : N) : string := pretty n.

(** ** The heap and its monad *)

Definition loc := positive.
Definition ptr := option loc.

Section Memory.
Context {Node : Type}.

Definition M (A : Type) : Type := gmap loc Node → outcome (A * gmap loc Node).

Definition ret {A} (a : A) : M A := λ h, Ok (a, h).

Definition bind {A B} (m : M A) (f : A → M B) : M B :=
  λ h, match m h with
       | Ok (a, h') => f a h'
       | Throws e => Throws e
       | Undefined => Undefined
       end.

Definition undefined {A} : M A := λ _, Undefined.

(** Number of nodes in use; only read to bound the loops that follow
    links until a test on the nodes succeeds (see [pop_back]). *)
Definition heap_size : M nat := λ h, Ok (size h, h).
Definition throw {A} (what : string) : M A := λ _, Throws what.

(** [*p]: reading through a null or a dangling pointer is undefined. *)
Definition load (p : ptr) : M Node :=
  λ h, match p with
       | None => Undefined
       | Some a => match h !! a with
                   | Some n => Ok (n, h)
                   | None => Undefined
                   end
       end.

(** [*p = n]: likewise for writing. *)
Definition store (p : ptr) (n : Node) : M unit :=
  λ h, match p with
       | None => Undefined
       | Some a => match h !! a with
                   | Some _ => Ok (tt, <[a:=n]> h)
                   | None => Undefined
                   end
       end.

(** [new Node]: an address that is not in use. *)
Definition new (n : Node) : M ptr :=
  λ h, let a := fresh (dom h) in Ok (Some a, <[a:=n]> h).

(** [delete p]: releases the node; nothing happens for [nullptr]. *)
Definition delete (p : ptr) : M unit :=
  λ h, match p with
       | None => Ok (tt, h)
       | Some a => match h !! a with
                   | Some _ => Ok (tt, base.delete a h)
                   | None => Undefined
                   end
       end.
End Memory.

Notation "'let*' x ':=' m 'in' f" := (bind m (λ x, f))
  (at level 10, x name, m at level 100, f at level 200,
   format "'[v' 'let*'  x  ':='  m  'in' '/' f ']'").
Notation "'do' m 'then' f" := (bind m (λ _, f))
  (at level 10, m at level 100, f at level 200,
   format "'[v' 'do'  m  'then' '/' f ']'").

(** ** Counted loops

    [for (size_t i = 0; i < n; ++i) body] and
    [for (size_t i = start; i > stop; --i) body], with the counter kept as
    the code keeps it.  The fuel is the distance between the bounds, which
    the counter covers one unit per round, so the [undefined] branch of the
    fuel is never taken by a counter that is a [size_t]. *)

Section Loops.
Context {Node St : Type}.
Implicit Types body : St → @M Node St.

Fixpoint loop_up (fuel : nat) (i n : N) body (s : St) : @M Node St :=
  if i <? n then
    match fuel with
    | O => undefined
    | S fuel' => let* s' := body s in loop_up fuel' (size_incr i) n body s'
    end
  else ret s.

Definition for_up (n : N) body (s : St) : @M Node St :=
  loop_up (N.to_nat n) 0 n body s.

Fixpoint loop_down (fuel : nat) (i stop : N) body (s : St) : @M Node St :=
  if stop <? i then
    match fuel with
    | O => undefined
    | S fuel' => let* s' := body s in loop_down fuel' (size_decr i) stop body s'
    end
  else ret s.

Definition for_down (start stop : N) body (s : St) : @M Node St :=
  loop_down (N.to_nat (start - stop)) start stop body s.

(** [k] rounds of [body], one after the other. *)
Fixpoint repeatM (k : nat) body (s : St) : @M Node St :=
  match k with
  | O => ret s
  | S k' => let* s' := body s in repeatM k' body s'
  end.
End Loops.

(** [(size_-1 - index) < index], the test commented "closer to the end". *)
Definition closer_to_end (size index : N) : bool :=
  size_sub (size_sub size 1) index <? index.

(** ** Recording the nodes a walk visits

    A step of a pointer along a link, extended so that it also appends the
    node it arrives at to a record; [forget_visited] drops the record. *)

Section Visiting.
Context {Node : Type}.

Definition visiting (step : ptr → @M Node ptr) (st : ptr * list ptr) :
    @M Node (ptr * list ptr) :=
  let* p := step st.1 in ret (p, st.2 ++ [p]).

Definition forget_visited (r : outcome ((ptr * list ptr) * gmap loc Node)) :
    outcome (ptr * gmap loc Node) :=
  match r with
  | Ok (st, h) => Ok (st.1, h)
  | Throws e => Throws e
  | Undefined => Undefined
  end.
End Visiting.

(** ** Chains of cells

    A container is described by the list of its cells, in order: the
    address of each node with the value it holds. *)

Definition first_loc {T} (cs : list (loc * T)) (dflt : ptr) : ptr :=
  match cs with
  | [] => dflt
  | c :: _ => Some c.1
  end.

Definition last_loc {T} (cs : list (loc * T)) (dflt : ptr) : ptr :=
  match last cs with
  | None => dflt
  | Some c => Some c.1
  end.

(** What is in use outside a container is what was in use outside it
    before, unchanged: [cs] are the cells of the container in the heap [h],
    [cs'] its cells in the heap [h'].  A node that left the container is no
    longer in use, and nothing else has appeared or gone. *)
Definition outside_unchanged {Node T} (cs cs' : list (loc * T))
    (h h' : gmap loc Node) : Prop :=
  ∀ a, a ∉ cs'.*1 → h' !! a = if decide (a ∈ cs.*1) then None else h !! a.

(** * [manual::DoublyLinkedList] *)

Module DoublyLinkedList.
Section Container.
Context {T : Type}.

Record Node : Type := mkNode { value : T; next : ptr; previous : ptr }.

(** The data members [head_], [tail_] and [size_]. *)
Record object : Type := mkList { head_ : ptr; tail_ : ptr; size_ : N }.

Local Abbreviation M := (@M Node).

(** Field access through a pointer: [p->value], [p->next], [p->previous]. *)
Definition get_value (p : ptr) : M T := let* n := load p in ret (value n).
Definition get_next (p : ptr) : M ptr := let* n := load p in ret (next n).
Definition get_previous (p : ptr) : M ptr := let* n := load p in ret (previous n).
Definition set_next (p v : ptr) : M unit :=
  let* n := load p in store p (mkNode (value n) v (previous n)).
Definition set_previous (p v : ptr) : M unit :=
  let* n := load p in store p (mkNode (value n) (next n) v).

(** [new Node] followed by the assignment of its value.  The two links of
    the fresh node are indeterminate in the code until they are assigned;
    they are written before they are read, and start as [nullptr] here. *)
Definition new_node (val : T) : M ptr := new (mkNode val None None).

(** ** Constructors *)

Definition default_ctor : object := mkList None None 0.

(** The copying loop [while(other_current->next)].  It ends when the chain
    of [other] ends; a chain that never ends keeps it running for ever,
    which the fuel (the number of nodes in use when it starts, plus one)
    turns into [undefined]. *)
Fixpoint copy_rest (fuel : nat) (current other_current : ptr) : M ptr :=
  let* other_next := get_next other_current in
  match other_next with
  | None => ret current
  | Some _ =>
      match fuel with
      | O => undefined
      | S fuel' =>
          let* v := get_value other_next in
          let* fresh_node := new_node v in
          do set_next current fresh_node then
          let* cn := get_next current in
          do set_previous cn current then
          let* cn := get_next current in
          do set_next cn None then
          let* current' := get_next current in
          let* other_current' := get_next other_current in
          copy_rest fuel' current' other_current'
      end
  end.

(** The body shared by the copy constructor and the copy assignment, run
    on an object whose [head_] and [tail_] are null.  A value is read
    from [other] before the node that receives it is allocated; the code
    allocates first, which gives the same outcome, allocation having no
    effect on the nodes of [other]. *)
Definition copy_nodes (other : object) : M object :=
  if size_ other =? 0 then ret (mkList None None (size_ other))
  else
    let* fuel := heap_size in
    let* v := get_value (head_ other) in
    let* head := new_node v in
    do set_previous head None then
    do set_next head None then
    let* current := copy_rest (S fuel) head (head_ other) in
    ret (mkList head current (size_ other)).

Definition copy_ctor (other : object) : M object := copy_nodes other.

(** The move constructor returns the new object and what is left of
    [other]. *)
Definition move_ctor (other : object) : object * object :=
  (mkList (head_ other) (tail_ other) (size_ other), mkList None None 0).

(** ** Capacity *)

Definition size (this : object) : N := size_ this.
Definition empty (this : object) : bool := negb (bool_decide (is_Some (head_ this))).

(** ** Element access *)

Definition front (this : object) : M T := get_value (head_ this).
Definition back (this : object) : M T := get_value (tail_ this).

(** The walk of [operator[]], [insert] and [remove] to the node at
    [index], from the closest end. *)
Definition walk_to (index : N) (this : object) : M ptr :=
  if closer_to_end (size_ this) index then
    for_down (size_sub (size_ this) 1) index get_previous (tail_ this)
  else
    for_up index get_next (head_ this).

Definition operator_index (index : N) (this : object) : M T :=
  let* current := walk_to index this in
  get_value current.

(** The same walk, also recording every node [current] points to, from
    the end it starts at to the node it stops on. *)
Definition walk_to_visited (index : N) (this : object) : M (ptr * list ptr) :=
  if closer_to_end (size_ this) index then
    for_down (size_sub (size_ this) 1) index (visiting get_previous)
      (tail_ this, [tail_ this])
  else
    for_up index (visiting get_next) (head_ this, [head_ this]).

(** The cells [operator[]] reads through on its way to the cell at
    index [i] of the cells [cs]: the cells from [i] on when it walks
    backward from the tail, the cells up to [i] when it walks forward
    from the head. *)
Definition read_by_lookup (this : object) (cs : list (loc * T)) (i : nat)
    : list (loc * T) :=
  if closer_to_end (size_ this) (N.of_nat i) then drop i cs else take (S i) cs.

(** A lookup that only ever walks forward from [head_]. *)
Definition naive_lookup (index : N) (this : object) : M T :=
  let* current := for_up index get_next (head_ this) in
  get_value current.

Definition out_of_range (index size : N) : string :=
  "[Out of range error] - manual::DoublyLinkedList::at() - (index: "
    +:+ to_string index +:+ ", size: " +:+ to_string size +:+ ").".

Definition at_ (index : N) (this : object) : M T :=
  if size_ this <=? index then throw (out_of_range index (size_ this))
  else operator_index index this.

(** ** Modifiers *)

Definition clear (this : object) : M object :=
  if size_ this =? 0 then ret this
  else
    do for_up (size_ this)
         (λ current, let* tmp := get_next current in
                     do delete current then ret tmp)
         (head_ this) then
    ret (mkList None None 0).

Definition push_back (val : T) (this : object) : M object :=
  let* tmp := new_node val in
  do set_next tmp None then
  do set_previous tmp (tail_ this) then
  if size_ this =? 0 then
    ret (mkList tmp tmp (size_incr (size_ this)))
  else
    do set_next (tail_ this) tmp then
    ret (mkList (head_ this) tmp (size_incr (size_ this))).

Definition push_front (val : T) (this : object) : M object :=
  let* tmp := new_node val in
  do set_previous tmp None then
  do set_next tmp (head_ this) then
  if size_ this =? 0 then
    ret (mkList tmp tmp (size_incr (size_ this)))
  else
    do set_previous (head_ this) tmp then
    ret (mkList tmp (tail_ this) (size_incr (size_ this))).

Definition pop_back (this : object) : M object :=
  if size_ this =? 0 then ret this
  else if size_ this =? 1 then
    do delete (tail_ this) then
    ret (mkList None None (size_decr (size_ this)))
  else
    let* tmp := get_previous (tail_ this) in
    do set_next tmp None then
    do delete (tail_ this) then
    ret (mkList (head_ this) tmp (size_decr (size_ this))).

Definition pop_front (this : object) : M object :=
  if size_ this =? 0 then ret this
  else if size_ this =? 1 then
    do delete (head_ this) then
    ret (mkList None None (size_decr (size_ this)))
  else
    let* tmp := get_next (head_ this) in
    do set_previous tmp None then
    do delete (head_ this) then
    ret (mkList tmp (tail_ this) (size_decr (size_ this))).

Definition insert (index : N) (val : T) (this : object) : M object :=
  if index <=? size_ this then
    if index =? 0 then push_front val this
    else if index =? size_ this then push_back val this
    else
      let* tmp := new_node val in
      let* current := walk_to index this in
      let* before := get_previous current in
      do set_next before tmp then
      let* before := get_previous current in
      do set_previous tmp before then
      do set_next tmp current then
      do set_previous current tmp then
      ret (mkList (head_ this) (tail_ this) (size_incr (size_ this)))
  else ret this.

Definition remove (index : N) (this : object) : M object :=
  if index <? size_ this then
    if index =? 0 then pop_front this
    else if index =? size_sub (size_ this) 1 then pop_back this
    else
      let* current := walk_to index this in
      let* before := get_previous current in
      let* after := get_next current in
      do set_next before after then
      let* after := get_next current in
      let* before := get_previous current in
      do set_previous after before then
      do delete current then
      ret (mkList (head_ this) (tail_ this) (size_decr (size_ this)))
  else ret this.

(** ** Assignment

    [same] tells whether [other] is the object assigned to
    ([this == &other]); the result of a move is the pair of the object
    assigned to and what is left of [other]. *)
Definition copy_assign (same : bool) (other this : object) : M object :=
  if same then ret this
  else
    let* this := clear this in
    if size_ other =? 0 then ret (mkList (head_ this) (tail_ this) (size_ other))
    else copy_nodes other.

Definition move_assign (same : bool) (other this : object) : M (object * object) :=
  if same then ret (this, this)
  else
    do clear this then
    ret (mkList (head_ other) (tail_ other) (size_ other), mkList None None 0).

(** ** Cursors

    [Iterator], [ConstIterator], [ReverseIterator] and
    [ConstReverseIterator] all hold one [Node *]; the class decides which
    link a step follows.  A cursor is its class and its pointer. *)

Inductive cursor_class : Type :=
  | Iterator
  | ConstIterator
  | ReverseIterator
  | ConstReverseIterator.

Record cursor : Type := mkCursor { class_of : cursor_class; node : ptr }.

Definition forward (k : cursor_class) : bool :=
  match k with
  | Iterator | ConstIterator => true
  | ReverseIterator | ConstReverseIterator => false
  end.

(** [operator==] and [operator!=]: identity of the referenced node. *)
Definition cursor_eq (lhs rhs : cursor) : bool := bool_decide (node lhs = node rhs).
Definition cursor_neq (lhs rhs : cursor) : bool := negb (cursor_eq lhs rhs).

(** [operator*]. *)
Definition deref (it : cursor) : M T := get_value (node it).

(** Prefix [operator++]: forward cursors follow [next], reverse cursors
    follow [previous]; the sentinel stays where it is. *)
Definition incr (it : cursor) : M cursor :=
  match node it with
  | None => ret it
  | Some _ =>
      match class_of it with
      | Iterator | ConstIterator =>
          let* n := get_next (node it) in ret (mkCursor (class_of it) n)
      | ReverseIterator | ConstReverseIterator =>
          let* n := get_previous (node it) in ret (mkCursor (class_of it) n)
      end
  end.

(** Prefix [operator--]. *)
Definition decr (it : cursor) : M cursor :=
  match node it with
  | None => ret it
  | Some _ =>
      match class_of it with
      | Iterator | ConstIterator =>
          let* n := get_previous (node it) in ret (mkCursor (class_of it) n)
      | ReverseIterator | ConstReverseIterator =>
          let* n := get_next (node it) in ret (mkCursor (class_of it) n)
      end
  end.

(** [operator+=] and [operator-=]. *)
Definition plus_assign (rhs : N) (it : cursor) : M cursor := for_up rhs incr it.
Definition minus_assign (rhs : N) (it : cursor) : M cursor := for_up rhs decr it.

Definition begin (this : object) : M cursor := ret (mkCursor Iterator (head_ this)).
Definition end_ (this : object) : M cursor :=
  let* n := get_next (tail_ this) in ret (mkCursor Iterator n).
Definition cbegin (this : object) : M cursor := ret (mkCursor ConstIterator (head_ this)).
Definition cend (this : object) : M cursor :=
  let* n := get_next (tail_ this) in ret (mkCursor ConstIterator n).
Definition rbegin (this : object) : M cursor := ret (mkCursor ReverseIterator (tail_ this)).
Definition rend (this : object) : M cursor :=
  let* n := get_previous (head_ this) in ret (mkCursor ReverseIterator n).
Definition crbegin (this : object) : M cursor :=
  ret (mkCursor ConstReverseIterator (tail_ this)).
Definition crend (this : object) : M cursor :=
  let* n := get_previous (head_ this) in ret (mkCursor ConstReverseIterator n).

(** [iterator_cast<IT_type>]: the [static_assert] admits every target
    from a mutable cursor and only the two const classes from a const
    one; a refused cast has no result. *)
Definition iterator_cast (target : cursor_class) (it : cursor) : option cursor :=
  match class_of it, target with
  | (Iterator | ReverseIterator), _ => Some (mkCursor target (node it))
  | (ConstIterator | ConstReverseIterator), (ConstIterator | ConstReverseIterator) =>
      Some (mkCursor target (node it))
  | _, _ => None
  end.

(** The loop [for (it = first; it != last; ++it)] reading [*it] of a caller,
    returning the values in the order of the visits.  A cursor that never
    meets [last] keeps stepping: after more rounds than there are nodes
    it is either the sentinel, which no step moves, or on a node it has
    seen, so the loop never ends; the fuel turns that into
    [undefined]. *)
Fixpoint visit_until (fuel : nat) (it last : cursor) : M (list T) :=
  if cursor_neq it last then
    match fuel with
    | O => undefined
    | S fuel' =>
        let* x := deref it in
        let* it' := incr it in
        let* rest := visit_until fuel' it' last in
        ret (x :: rest)
    end
  else ret [].

Definition traverse (first last : object → M cursor) (this : object) : M (list T) :=
  let* fuel := heap_size in
  let* b := first this in
  let* e := last this in
  visit_until (S fuel) b e.

(** ** The remaining members *)

(** The constructor from a [std::initializer_list]: the loop
    [for(++it; it != init_list.end(); ++it)] over the elements after the
    first. *)
Fixpoint init_rest (rest : list T) (current : ptr) : M ptr :=
  match rest with
  | [] => ret current
  | x :: rest' =>
      let* fresh_node := new_node x in
      do set_next current fresh_node then
      let* cn := get_next current in
      do set_previous cn current then
      let* cn := get_next current in
      do set_next cn None then
      let* current' := get_next current in
      init_rest rest' current'
  end.

Definition init_ctor (init_list : list T) : M object :=
  let size := N.of_nat (length init_list) in
  if size =? 0 then ret (mkList None None size)
  else
    match init_list with
    | [] => undefined
    | x :: rest =>
        let* head := new_node x in
        do set_previous head None then
        do set_next head None then
        let* current := init_rest rest head in
        ret (mkList head current size)
    end.

(** The destructor: the loop of [clear], the data members left as they
    are. *)
Definition dtor (this : object) : M unit :=
  if size_ this =? 0 then ret tt
  else
    do for_up (size_ this)
         (λ current, let* tmp := get_next current in
                     do delete current then ret tmp)
         (head_ this) then
    ret tt.

(** Postfix [operator++] and [operator--]: the cursor returned, then the
    cursor after the step. *)
Definition post_incr (it : cursor) : M (cursor * cursor) :=
  let tmp := it in
  let* it' := incr it in ret (tmp, it').
Definition post_decr (it : cursor) : M (cursor * cursor) :=
  let tmp := it in
  let* it' := decr it in ret (tmp, it').

(** [operator+] and [operator-], with the cursor on either side. *)
Definition plus (lhs : cursor) (rhs : N) : M cursor := plus_assign rhs lhs.
Definition plus_left (lhs : N) (rhs : cursor) : M cursor := plus rhs lhs.
Definition minus (lhs : cursor) (rhs : N) : M cursor := minus_assign rhs lhs.
Definition minus_left (lhs : N) (rhs : cursor) : M cursor := minus rhs lhs.

(** A caller's sequence of calls to the modifiers, and what each call
    does to the sequence a container holds. *)
Inductive call : Type :=
  | PushBack (v : T)
  | PushFront (v : T)
  | PopBack
  | PopFront
  | Insert (index : N) (v : T)
  | Remove (index : N)
  | Clear.

Definition perform (c : call) (this : object) : M object :=
  match c with
  | PushBack v => push_back v this
  | PushFront v => push_front v this
  | PopBack => pop_back this
  | PopFront => pop_front this
  | Insert index v => insert index v this
  | Remove index => remove index this
  | Clear => clear this
  end.

Fixpoint perform_all (calls : list call) (this : object) : M object :=
  match calls with
  | [] => ret this
  | c :: rest => let* this' := perform c this in perform_all rest this'
  end.

Definition effect (xs : list T) (c : call) : list T :=
  match c with
  | PushBack v => xs ++ [v]
  | PushFront v => v :: xs
  | PopBack => take (length xs - 1) xs
  | PopFront => drop 1 xs
  | Insert index v =>
      if decide (N.to_nat index ≤ length xs)%nat
      then take (N.to_nat index) xs ++ v :: drop (N.to_nat index) xs
      else xs
  | Remove index => base.delete (N.to_nat index) xs
  | Clear => []
  end.

(** A cursor never becomes mutable again: the classes a chain of casts
    can go through. *)
Definition is_const (k : cursor_class) : bool :=
  match k with
  | ConstIterator | ConstReverseIterator => true
  | Iterator | ReverseIterator => false
  end.

Fixpoint cast_chain (targets : list cursor_class) (it : cursor) : option cursor :=
  match targets with
  | [] => Some it
  | k :: rest =>
      match iterator_cast k it with
      | Some it' => cast_chain rest it'
      | None => None
      end
  end.

(** [first() + n] and [*(first() + n)] of a caller, for [first] one of
    the members that return a cursor. *)
Definition cursor_at_offset (first : object → M cursor) (n : N)
    (this : object) : M cursor :=
  let* it := first this in plus it n.
Definition element_at_offset (first : object → M cursor) (n : N)
    (this : object) : M T :=
  let* it := cursor_at_offset first n this in deref it.

(** ** Well-formed containers *)

(** The cells [cs] are linked in both directions in [h]: the node before
    the first one is [before], the node after the last one is [after]. *)
Fixpoint dseg (h : gmap loc Node) (before : ptr) (cs : list (loc * T))
    (after : ptr) : Prop :=
  match cs with
  | [] => True
  | c :: cs' =>
      h !! c.1 = Some (mkNode c.2 (first_loc cs' after) before)
      ∧ dseg h (Some c.1) cs' after
  end.

(** [this] owns exactly the cells [cs] of the heap [h]. *)
Record Rep (this : object) (h : gmap loc Node) (cs : list (loc * T)) : Prop :=
  mkRep {
    rep_nodup : NoDup cs.*1;
    rep_size : size_ this = N.of_nat (length cs);
    rep_bound : N.of_nat (length cs) ≤ SIZE_MAX;
    rep_head : head_ this = first_loc cs None;
    rep_tail : tail_ this = last_loc cs None;
    rep_seg : dseg h None cs None
  }.

(** Nodes in use that are not among the cells [cs] are left as they are. *)
Definition others_kept (cs : list (loc * T)) (h h' : gmap loc Node) : Prop :=
  ∀ a n, a ∉ cs.*1 → h !! a = Some n → h' !! a = Some n.

Definition well_formed (this : object) (h : gmap loc Node) : Prop :=
  ∃ cs, Rep this h cs.

(** Two containers of one heap that share no node. *)
Definition separate (this other : object) (h : gmap loc Node) : Prop :=
  ∃ cs1 cs2, Rep this h cs1 ∧ Rep other h cs2 ∧ cs1.*1 ## cs2.*1.

(** The nodes met on the way from [p] along [next]. *)
Inductive reachable (h : gmap loc Node) : ptr → loc → Prop :=
  | reach_here a : reachable h (Some a) a
  | reach_next a n b :
      h !! a = Some n → reachable h (next n) b → reachable h (Some a) b.

(** The invariants of the data model, as the specification lists them. *)
Definition size_zero_iff_no_head (this : object) : Prop :=
  size_ this = 0 ↔ head_ this = None.
Definition no_head_iff_no_tail (this : object) : Prop :=
  head_ this = None ↔ tail_ this = None.
Definition size_one_iff_head_is_tail (this : object) : Prop :=
  size_ this = 1 ↔ head_ this = tail_ this.
Definition size_one_iff_one_node (this : object) : Prop :=
  size_ this = 1 ↔ (head_ this = tail_ this ∧ is_Some (head_ this)).
Definition back_links (this : object) (h : gmap loc Node) : Prop :=
  ∀ a n b, reachable h (head_ this) a → h !! a = Some n → next n = Some b →
           ∃ m, h !! b = Some m ∧ previous m = Some a.
Definition ends_closed (this : object) (h : gmap loc Node) : Prop :=
  (∀ a n, head_ this = Some a → h !! a = Some n → previous n = None)
  ∧ (∀ a n, tail_ this = Some a → h !! a = Some n → next n = None).

(** The invariants with [size == 1 ⇔ head == tail] read literally ... *)
Definition claimed_invariants (this : object) (h : gmap loc Node) : Prop :=
  size_zero_iff_no_head this ∧ no_head_iff_no_tail this
  ∧ size_one_iff_head_is_tail this ∧ back_links this h ∧ ends_closed this h.

(** ... and with [head == tail] meaning one node that is both. *)
Definition invariants (this : object) (h : gmap loc Node) : Prop :=
  size_zero_iff_no_head this ∧ no_head_iff_no_tail this
  ∧ size_one_iff_one_node this ∧ back_links this h ∧ ends_closed this h.

(** A modifier ends normally, on a well-formed container that meets the
    invariants. *)
Definition preserves (op : object → M object) (this : object)
    (h : gmap loc Node) : Prop :=
  ∃ this' h', op this h = Ok (this', h') ∧ well_formed this' h'
              ∧ invariants this' h'.
End Container.
Arguments Node : clear implicits.
Arguments call : clear implicits.

End DoublyLinkedList.

(** * [manual::LinkedList] *)

Module LinkedList.
Section Container.
Context {T : Type}.

Record Node : Type := mkNode { value : T; next : ptr }.

(** The data members [head_], [tail_] and [size_]. *)
Record object : Type := mkList { head_ : ptr; tail_ : ptr; size_ : N }.

Local Abbreviation M := (@M Node).

(** Field access through a pointer: [p->value] and [p->next]. *)
Definition get_value (p : ptr) : M T := let* n := load p in ret (value n).
Definition get_next (p : ptr) : M ptr := let* n := load p in ret (next n).
Definition set_next (p v : ptr) : M unit :=
  let* n := load p in store p (mkNode (value n) v).

(** [new Node] followed by the assignment of its value; [next] is
    [nullptr] by its default member initializer. *)
Definition new_node (val : T) : M ptr := new (mkNode val None).

(** ** Constructors *)

Definition default_ctor : object := mkList None None 0.

(** The copying loop [while(other_current->next)], bounded as in the
    doubly-linked list. *)
Fixpoint copy_rest (fuel : nat) (current other_current : ptr) : M ptr :=
  let* other_next := get_next other_current in
  match other_next with
  | None => ret current
  | Some _ =>
      match fuel with
      | O => undefined
      | S fuel' =>
          let* v := get_value other_next in
          let* fresh_node := new_node v in
          do set_next current fresh_node then
          let* cn := get_next current in
          do set_next cn None then
          let* current' := get_next current in
          let* other_current' := get_next other_current in
          copy_rest fuel' current' other_current'
      end
  end.

Definition copy_nodes (other : object) : M object :=
  if size_ other =? 0 then ret (mkList None None (size_ other))
  else
    let* fuel := heap_size in
    let* v := get_value (head_ other) in
    let* head := new_node v in
    do set_next head None then
    let* current := copy_rest (S fuel) head (head_ other) in
    ret (mkList head current (size_ other)).

Definition copy_ctor (other : object) : M object := copy_nodes other.

Definition move_ctor (other : object) : object * object :=
  (mkList (head_ other) (tail_ other) (size_ other), mkList None None 0).

(** ** Capacity *)

Definition size (this : object) : N := size_ this.
Definition empty (this : object) : bool := negb (bool_decide (is_Some (head_ this))).

(** ** Element access *)

Definition front (this : object) : M T := get_value (head_ this).
Definition back (this : object) : M T := get_value (tail_ this).

Definition operator_index (index : N) (this : object) : M T :=
  let* current := for_up index get_next (head_ this) in
  get_value current.

Definition out_of_range (index size : N) : string :=
  "[Out of range error] - manual::LinkedList::at() - (index: "
    +:+ to_string index +:+ ", size: " +:+ to_string size +:+ ").".

Definition at_ (index : N) (this : object) : M T :=
  if size_ this <=? index then throw (out_of_range index (size_ this))
  else operator_index index this.

(** ** Modifiers *)

Definition clear (this : object) : M object :=
  if size_ this =? 0 then ret this
  else
    do for_up (size_ this)
         (λ current, let* tmp := get_next current in
                     do delete current then ret tmp)
         (head_ this) then
    ret (mkList None None 0).

Definition push_back (val : T) (this : object) : M object :=
  let* tmp := new_node val in
  do set_next tmp None then
  if size_ this =? 0 then
    ret (mkList tmp tmp (size_incr (size_ this)))
  else
    do set_next (tail_ this) tmp then
    ret (mkList (head_ this) tmp (size_incr (size_ this))).

Definition push_front (val : T) (this : object) : M object :=
  let* tmp := new_node val in
  do set_next tmp (head_ this) then
  if size_ this =? 0 then
    ret (mkList tmp tmp (size_incr (size_ this)))
  else
    ret (mkList tmp (tail_ this) (size_incr (size_ this))).

(** The loop [while(!stop)] of [pop_back]: it ends on the node whose
    [next] is [tail_].  If no node before [tail_] is found among as many
    nodes as are in use, the walk is on a cycle and the loop never ends,
    which the fuel turns into [undefined]. *)
Fixpoint before_tail (fuel : nat) (tail current : ptr) : M ptr :=
  match fuel with
  | O => undefined
  | S fuel' =>
      let* nx := get_next current in
      if bool_decide (nx = tail) then ret current
      else before_tail fuel' tail nx
  end.

Definition pop_back (this : object) : M object :=
  if size_ this =? 0 then ret this
  else if size_ this =? 1 then
    do delete (head_ this) then
    ret (mkList None None (size_decr (size_ this)))
  else
    let* fuel := heap_size in
    let* current := before_tail (S fuel) (tail_ this) (head_ this) in
    let* last := get_next current in
    do delete last then
    do set_next current None then
    ret (mkList (head_ this) current (size_decr (size_ this))).

Definition pop_front (this : object) : M object :=
  if size_ this =? 0 then ret this
  else
    let* tmp := get_next (head_ this) in
    do delete (head_ this) then
    if size_ this =? 1 then
      ret (mkList tmp None (size_decr (size_ this)))
    else
      ret (mkList tmp (tail_ this) (size_decr (size_ this))).

(** The loop of [insert] and [remove]: [prev] follows [current]. *)
Definition advance (st : ptr * ptr) : M (ptr * ptr) :=
  let* n := get_next st.2 in ret (st.2, n).

Definition insert (index : N) (val : T) (this : object) : M object :=
  if index <=? size_ this then
    if index =? 0 then push_front val this
    else if index =? size_ this then push_back val this
    else
      let* tmp := new_node val in
      let* found := for_up index advance (None, head_ this) in
      let prev := found.1 in
      let current := found.2 in
      do set_next prev tmp then
      do set_next tmp current then
      ret (mkList (head_ this) (tail_ this) (size_incr (size_ this)))
  else ret this.

Definition remove (index : N) (this : object) : M object :=
  if index <? size_ this then
    if index =? 0 then pop_front this
    else if index =? size_sub (size_ this) 1 then pop_back this
    else
      let* found := for_up index advance (None, head_ this) in
      let prev := found.1 in
      let current := found.2 in
      let* after := get_next current in
      do set_next prev after then
      do delete current then
      ret (mkList (head_ this) (tail_ this) (size_decr (size_ this)))
  else ret this.

(** ** Assignment, as in the doubly-linked list *)
Definition copy_assign (same : bool) (other this : object) : M object :=
  if same then ret this
  else
    let* this := clear this in
    if size_ other =? 0 then ret (mkList (head_ this) (tail_ this) (size_ other))
    else copy_nodes other.

Definition move_assign (same : bool) (other this : object) : M (object * object) :=
  if same then ret (this, this)
  else
    do clear this then
    ret (mkList (head_ other) (tail_ other) (size_ other), mkList None None 0).

(** ** Cursors: [Iterator] and [ConstIterator] *)

Inductive cursor_class : Type :=
  | Iterator
  | ConstIterator.

Record cursor : Type := mkCursor { class_of : cursor_class; node : ptr }.

Definition cursor_eq (lhs rhs : cursor) : bool := bool_decide (node lhs = node rhs).
Definition cursor_neq (lhs rhs : cursor) : bool := negb (cursor_eq lhs rhs).

Definition deref (it : cursor) : M T := get_value (node it).

(** Prefix [operator++]. *)
Definition incr (it : cursor) : M cursor :=
  match node it with
  | None => ret it
  | Some _ => let* n := get_next (node it) in ret (mkCursor (class_of it) n)
  end.

Definition plus_assign (rhs : N) (it : cursor) : M cursor := for_up rhs incr it.

Definition begin (this : object) : M cursor := ret (mkCursor Iterator (head_ this)).
Definition end_ (this : object) : M cursor :=
  let* n := get_next (tail_ this) in ret (mkCursor Iterator n).
Definition cbegin (this : object) : M cursor := ret (mkCursor ConstIterator (head_ this)).
Definition cend (this : object) : M cursor :=
  let* n := get_next (tail_ this) in ret (mkCursor ConstIterator n).

(** [iterator_cast<IT_type>(const Iterator &)], the only overload. *)
Definition iterator_cast (target : cursor_class) (it : cursor) : option cursor :=
  match class_of it with
  | Iterator => Some (mkCursor target (node it))
  | ConstIterator => None
  end.

(** The loop of a caller from [first] until [last], as for the
    doubly-linked list. *)
Fixpoint visit_until (fuel : nat) (it last : cursor) : M (list T) :=
  if cursor_neq it last then
    match fuel with
    | O => undefined
    | S fuel' =>
        let* x := deref it in
        let* it' := incr it in
        let* rest := visit_until fuel' it' last in
        ret (x :: rest)
    end
  else ret [].

Definition traverse (first last : object → M cursor) (this : object) : M (list T) :=
  let* fuel := heap_size in
  let* b := first this in
  let* e := last this in
  visit_until (S fuel) b e.

(** ** The remaining members *)

Fixpoint init_rest (rest : list T) (current : ptr) : M ptr :=
  match rest with
  | [] => ret current
  | x :: rest' =>
      let* fresh_node := new_node x in
      do set_next current fresh_node then
      let* cn := get_next current in
      do set_next cn None then
      let* current' := get_next current in
      init_rest rest' current'
  end.

Definition init_ctor (init_list : list T) : M object :=
  let size := N.of_nat (length init_list) in
  if size =? 0 then ret (mkList None None size)
  else
    match init_list with
    | [] => undefined
    | x :: rest =>
        let* head := new_node x in
        do set_next head None then
        let* current := init_rest rest head in
        ret (mkList head current size)
    end.

Definition dtor (this : object) : M unit :=
  if size_ this =? 0 then ret tt
  else
    do for_up (size_ this)
         (λ current, let* tmp := get_next current in
                     do delete current then ret tmp)
         (head_ this) then
    ret tt.

Definition post_incr (it : cursor) : M (cursor * cursor) :=
  let tmp := it in
  let* it' := incr it in ret (tmp, it').

Definition plus (lhs : cursor) (rhs : N) : M cursor := plus_assign rhs lhs.
Definition plus_left (lhs : N) (rhs : cursor) : M cursor := plus rhs lhs.

Inductive call : Type :=
  | PushBack (v : T)
  | PushFront (v : T)
  | PopBack
  | PopFront
  | Insert (index : N) (v : T)
  | Remove (index : N)
  | Clear.

Definition perform (c : call) (this : object) : M object :=
  match c with
  | PushBack v => push_back v this
  | PushFront v => push_front v this
  | PopBack => pop_back this
  | PopFront => pop_front this
  | Insert index v => insert index v this
  | Remove index => remove index this
  | Clear => clear this
  end.

Fixpoint perform_all (calls : list call) (this : object) : M object :=
  match calls with
  | [] => ret this
  | c :: rest => let* this' := perform c this in perform_all rest this'
  end.

Definition effect (xs : list T) (c : call) : list T :=
  match c with
  | PushBack v => xs ++ [v]
  | PushFront v => v :: xs
  | PopBack => take (length xs - 1) xs
  | PopFront => drop 1 xs
  | Insert index v =>
      if decide (N.to_nat index ≤ length xs)%nat
      then take (N.to_nat index) xs ++ v :: drop (N.to_nat index) xs
      else xs
  | Remove index => base.delete (N.to_nat index) xs
  | Clear => []
  end.

(** A cursor never becomes mutable again. *)
Definition is_const (k : cursor_class) : bool :=
  match k with
  | ConstIterator => true
  | Iterator => false
  end.

Fixpoint cast_chain (targets : list cursor_class) (it : cursor) : option cursor :=
  match targets with
  | [] => Some it
  | k :: rest =>
      match iterator_cast k it with
      | Some it' => cast_chain rest it'
      | None => None
      end
  end.

(** [first() + n] and [*(first() + n)] of a caller, for [first] one of
    the members that return a cursor. *)
Definition cursor_at_offset (first : object → M cursor) (n : N)
    (this : object) : M cursor :=
  let* it := first this in plus it n.
Definition element_at_offset (first : object → M cursor) (n : N)
    (this : object) : M T :=
  let* it := cursor_at_offset first n this in deref it.

(** ** Well-formed containers *)

Fixpoint sseg (h : gmap loc Node) (cs : list (loc * T)) (after : ptr) : Prop :=
  match cs with
  | [] => True
  | c :: cs' =>
      h !! c.1 = Some (mkNode c.2 (first_loc cs' after)) ∧ sseg h cs' after
  end.

Record Rep (this : object) (h : gmap loc Node) (cs : list (loc * T)) : Prop :=
  mkRep {
    rep_nodup : NoDup cs.*1;
    rep_size : size_ this = N.of_nat (length cs);
    rep_bound : N.of_nat (length cs) ≤ SIZE_MAX;
    rep_head : head_ this = first_loc cs None;
    rep_tail : tail_ this = last_loc cs None;
    rep_seg : sseg h cs None
  }.

Definition others_kept (cs : list (loc * T)) (h h' : gmap loc Node) : Prop :=
  ∀ a n, a ∉ cs.*1 → h !! a = Some n → h' !! a = Some n.

Definition well_formed (this : object) (h : gmap loc Node) : Prop :=
  ∃ cs, Rep this h cs.

Definition separate (this other : object) (h : gmap loc Node) : Prop :=
  ∃ cs1 cs2, Rep this h cs1 ∧ Rep other h cs2 ∧ cs1.*1 ## cs2.*1.

Definition size_zero_iff_no_head (this : object) : Prop :=
  size_ this = 0 ↔ head_ this = None.
Definition no_head_iff_no_tail (this : object) : Prop :=
  head_ this = None ↔ tail_ this = None.
Definition size_one_iff_head_is_tail (this : object) : Prop :=
  size_ this = 1 ↔ head_ this = tail_ this.
Definition size_one_iff_one_node (this : object) : Prop :=
  size_ this = 1 ↔ (head_ this = tail_ this ∧ is_Some (head_ this)).

Definition claimed_invariants (this : object) : Prop :=
  size_zero_iff_no_head this ∧ no_head_iff_no_tail this
  ∧ size_one_iff_head_is_tail this.

Definition invariants (this : object) : Prop :=
  size_zero_iff_no_head this ∧ no_head_iff_no_tail this
  ∧ size_one_iff_one_node this.

Definition preserves (op : object → M object) (this : object)
    (h : gmap loc Node) : Prop :=
  ∃ this' h', op this h = Ok (this', h') ∧ well_formed this' h'
              ∧ invariants this'.
End Container.
Arguments Node : clear implicits.
Arguments call : clear implicits.
End LinkedList.

(** * Sample containers

    The list [10, 20, 30] as each container holds it, with its nodes at the
    addresses 1, 2 and 3. *)

Definition dl_heap : gmap loc (DoublyLinkedList.Node nat) :=
  <[1%positive:=DoublyLinkedList.mkNode 10%nat (Some 2%positive) None]>
    (<[2%positive:=DoublyLinkedList.mkNode 20%nat (Some 3%positive) (Some 1%positive)]>
       (<[3%positive:=DoublyLinkedList.mkNode 30%nat None (Some 2%positive)]> ∅)).

Definition dl_list : DoublyLinkedList.object :=
  DoublyLinkedList.mkList (Some 1%positive) (Some 3%positive) 3.

Definition sl_heap : gmap loc (LinkedList.Node nat) :=
  <[1%positive:=LinkedList.mkNode 10%nat (Some 2%positive)]>
    (<[2%positive:=LinkedList.mkNode 20%nat (Some 3%positive)]>
       (<[3%positive:=LinkedList.mkNode 30%nat None]> ∅)).

Definition sl_list : LinkedList.object :=
  LinkedList.mkList (Some 1%positive) (Some 3%positive) 3.

Definition sample_cells : list (loc * nat) :=
  [(1%positive, 10%nat); (2%positive, 20%nat); (3%positive, 30%nat)].

(** The list [10] alone, and the empty heap. *)
Definition dl_heap_one : gmap loc (DoublyLinkedList.Node nat) :=
  <[1%positive:=DoublyLinkedList.mkNode 10%nat None None]> ∅.
Definition dl_list_one : DoublyLinkedList.object :=
  DoublyLinkedList.mkList (Some 1%positive) (Some 1%positive) 1.
Definition sl_heap_one : gmap loc (LinkedList.Node nat) :=
  <[1%positive:=LinkedList.mkNode 10%nat None]> ∅.
Definition sl_list_one : LinkedList.object :=
  LinkedList.mkList (Some 1%positive) (Some 1%positive) 1.

(** * Facts shared by the two containers *)

(** ** [size_t] arithmetic away from the wrap-around *)

Lemma size_incr_small (n : N) : n < SIZE_MAX → size_incr n = n + 1.
Proof.
  intros Hn. unfold size_incr. apply N.mod_small.
  unfold SIZE_MAX, size_modulus in *. lia.
Qed.

Lemma size_decr_pos (n : N) : 0 < n → n ≤ SIZE_MAX → size_decr n = n - 1.
Proof.
  intros Hpos Hn. unfold size_decr.
  replace (n + SIZE_MAX) with ((n - 1) + 1 * size_modulus)
    by (unfold SIZE_MAX, size_modulus; lia).
  rewrite N.Div0.mod_add. apply N.mod_small.
  unfold SIZE_MAX, size_modulus in *. lia.
Qed.

Lemma size_sub_le (a b : N) : b ≤ a → a ≤ SIZE_MAX → size_sub a b = a - b.
Proof.
  intros Hba Ha. unfold size_sub.
  replace (a + size_modulus - b) with ((a - b) + 1 * size_modulus) by lia.
  rewrite N.Div0.mod_add. apply N.mod_small.
  unfold SIZE_MAX, size_modulus in *. lia.
Qed.

Lemma closer_to_end_in_range (size index : N) :
  index < size → size ≤ SIZE_MAX →
  closer_to_end size index = (size - 1 - index <? index).
Proof.
  intros Hi Hs. unfold closer_to_end.
  rewrite (size_sub_le size 1) by lia.
  rewrite size_sub_le by lia. done.
Qed.

(** ** The monad *)

Section MonadFacts.
Context {Node : Type}.
Local Abbreviation M := (@M Node).

Lemma bind_Ok {A B} (m : M A) (f : A → M B) h a h' :
  m h = Ok (a, h') → bind m f h = f a h'.
Proof. unfold bind. by intros ->. Qed.

Lemma load_Some (h : gmap loc Node) a n :
  h !! a = Some n → load (Some a) h = Ok (n, h).
Proof. unfold load. by intros ->. Qed.

Lemma store_Some (h : gmap loc Node) a n n' :
  h !! a = Some n → store (Some a) n' h = Ok (tt, <[a:=n']> h).
Proof. unfold store. by intros ->. Qed.

Lemma delete_Some (h : gmap loc Node) a n :
  h !! a = Some n → delete (Some a) h = Ok (tt, base.delete a h).
Proof. unfold delete. by intros ->. Qed.

Lemma fresh_unused (h : gmap loc Node) : h !! fresh (dom h) = None.
Proof. apply not_elem_of_dom, is_fresh. Qed.

(** Distinct nodes in use are no more than the nodes in use. *)
Lemma nodes_le_heap_size (h : gmap loc Node) (ps : list loc) :
  NoDup ps → (∀ a, a ∈ ps → is_Some (h !! a)) → (length ps ≤ size h)%nat.
Proof.
  intros Hnd Hin.
  rewrite <- (size_list_to_set (C:=gset loc) ps Hnd), <- size_dom.
  apply subseteq_size. intros a Ha.
  apply elem_of_list_to_set in Ha. by apply elem_of_dom, Hin.
Qed.

(** ** Counted loops run as many rounds as their bounds say *)

Context {St : Type}.
Implicit Types body : St → M St.

Lemma loop_up_repeat fuel i n body s h :
  i ≤ n → n ≤ SIZE_MAX → fuel = N.to_nat (n - i) →
  loop_up fuel i n body s h = repeatM fuel body s h.
Proof.
  revert i s h. induction fuel as [|fuel IH]; intros i s h Hin Hn Hf; simpl.
  - assert (i = n) as -> by lia. by rewrite N.ltb_irrefl.
  - assert (i < n) as Hlt by lia.
    apply N.ltb_lt in Hlt as ->. unfold bind.
    destruct (body s h) as [[s' h']| |]; [|done..].
    apply IH; rewrite ?size_incr_small; lia.
Qed.

Lemma for_up_repeat n body s h :
  n ≤ SIZE_MAX → for_up n body s h = repeatM (N.to_nat n) body s h.
Proof. intros Hn. unfold for_up. apply loop_up_repeat; lia. Qed.

Lemma loop_down_repeat fuel i stop body s h :
  i ≤ SIZE_MAX → fuel = N.to_nat (i - stop) →
  loop_down fuel i stop body s h = repeatM fuel body s h.
Proof.
  revert i s h. induction fuel as [|fuel IH]; intros i s h Hi Hf; simpl.
  - assert (i ≤ stop) as Hle by lia.
    apply N.ltb_ge in Hle as ->. done.
  - assert (stop < i) as Hlt by lia.
    apply N.ltb_lt in Hlt as ->. unfold bind.
    destruct (body s h) as [[s' h']| |]; [|done..].
    apply IH; rewrite ?size_decr_pos; lia.
Qed.

Lemma for_down_repeat start stop body s h :
  start ≤ SIZE_MAX →
  for_down start stop body s h = repeatM (N.to_nat (start - stop)) body s h.
Proof. intros Hs. unfold for_down. by apply loop_down_repeat. Qed.

Lemma repeatM_S_Ok k body s h s' h' :
  body s h = Ok (s', h') →
  repeatM (S k) body s h = repeatM k body s' h'.
Proof. intros Hb. simpl. by apply bind_Ok. Qed.
End MonadFacts.

(** ** The record of a walk does not change the walk *)

Section VisitingFacts.
Context {Node : Type}.
Implicit Types step : ptr → @M Node ptr.

Lemma loop_up_visiting fuel i n step p vs h :
  forget_visited (loop_up fuel i n (visiting step) (p, vs) h)
  = loop_up fuel i n step p h.
Proof.
  revert i p vs h. induction fuel as [|fuel IH]; intros i p vs h; simpl.
  - by destruct (i <? n).
  - destruct (i <? n); [|done]. unfold bind, visiting at 1, bind. simpl.
    destruct (step p h) as [[q h']| |]; [|done..]. apply IH.
Qed.

Lemma loop_down_visiting fuel i stop step p vs h :
  forget_visited (loop_down fuel i stop (visiting step) (p, vs) h)
  = loop_down fuel i stop step p h.
Proof.
  revert i p vs h. induction fuel as [|fuel IH]; intros i p vs h; simpl.
  - by destruct (stop <? i).
  - destruct (stop <? i); [|done]. unfold bind, visiting at 1, bind. simpl.
    destruct (step p h) as [[q h']| |]; [|done..]. apply IH.
Qed.
End VisitingFacts.

(** ** Ends of a chain of cells *)

Section Cells.
Context {T : Type}.
Implicit Types cs : list (loc * T).

Lemma first_loc_app cs1 cs2 d :
  first_loc (cs1 ++ cs2) d = first_loc cs1 (first_loc cs2 d).
Proof. by destruct cs1. Qed.

Lemma last_loc_snoc cs c d : last_loc (cs ++ [c]) d = Some c.1.
Proof. unfold last_loc. by rewrite last_snoc. Qed.

Lemma last_loc_app cs1 cs2 d :
  last_loc (cs1 ++ cs2) d = last_loc cs2 (last_loc cs1 d).
Proof.
  destruct cs2 as [|c cs2 _] using rev_ind.
  - by rewrite app_nil_r.
  - by rewrite app_assoc, !last_loc_snoc.
Qed.

Lemma last_loc_cons c cs d : last_loc (c :: cs) d = last_loc cs (Some c.1).
Proof. apply (last_loc_app [c] cs d). Qed.

Lemma first_loc_drop cs i c d :
  cs !! i = Some c → first_loc (drop i cs) d = Some c.1.
Proof. intros Hc. by rewrite (drop_S _ _ _ Hc). Qed.

Lemma last_loc_take cs i c d :
  cs !! i = Some c → last_loc (take (S i) cs) d = Some c.1.
Proof. intros Hc. by rewrite (take_S_r _ _ _ Hc), last_loc_snoc. Qed.

Lemma NoDup_fst_insert cs1 cs2 (c : loc * T) :
  NoDup (cs1 ++ cs2).*1 → c.1 ∉ (cs1 ++ cs2).*1 → NoDup (cs1 ++ c :: cs2).*1.
Proof.
  rewrite !fmap_app, fmap_cons. intros Hnd Hc.
  rewrite <- Permutation_middle. by apply NoDup_cons.
Qed.

Lemma NoDup_fst_middle cs1 (c : loc * T) cs2 :
  NoDup (cs1 ++ c :: cs2).*1 →
  (c.1 ∉ cs1.*1) ∧ (c.1 ∉ cs2.*1) ∧ NoDup (cs1 ++ cs2).*1.
Proof.
  rewrite !fmap_app, fmap_cons. rewrite <- Permutation_middle.
  intros [Hc Hnd]%NoDup_cons. by apply not_elem_of_app in Hc as [? ?].
Qed.

(** A list split around the two cells at [i - 1] and [i]. *)
Lemma split_two cs (i : nat) :
  (0 < i)%nat → (i < length cs)%nat →
  ∃ l1 p c l2, cs = l1 ++ p :: c :: l2 ∧ length l1 = (i - 1)%nat.
Proof.
  intros Hi Hlt. exists (take (i - 1) cs).
  pose proof (take_drop (i - 1) cs) as Hsplit.
  assert (length (drop (i - 1) cs) = length cs - (i - 1))%nat as Hlen
    by apply length_drop.
  destruct (drop (i - 1) cs) as [|p [|c l2]]; simpl in Hlen; [lia..|].
  exists p, c, l2. split; [done|]. rewrite length_take. lia.
Qed.

(** ... and around the three cells at [i - 1], [i] and [i + 1]. *)
Lemma split_three cs (i : nat) :
  (0 < i)%nat → (i + 1 < length cs)%nat →
  ∃ l1 p c n l2, cs = l1 ++ p :: c :: n :: l2 ∧ length l1 = (i - 1)%nat.
Proof.
  intros Hi Hlt. exists (take (i - 1) cs).
  pose proof (take_drop (i - 1) cs) as Hsplit.
  assert (length (drop (i - 1) cs) = length cs - (i - 1))%nat as Hlen
    by apply length_drop.
  destruct (drop (i - 1) cs) as [|p [|c [|n l2]]]; simpl in Hlen; [lia..|].
  exists p, c, n, l2. split; [done|]. rewrite length_take. lia.
Qed.

Lemma exists_last_or_nil cs : cs = [] ∨ ∃ l c, cs = l ++ [c].
Proof. induction cs as [|c l _] using rev_ind; eauto. Qed.

Lemma first_loc_None cs : first_loc cs None = None ↔ cs = [].
Proof. by destruct cs. Qed.

Lemma last_loc_None cs : last_loc cs None = None ↔ cs = [].
Proof.
  destruct cs as [|c cs _] using rev_ind; [done|].
  rewrite last_loc_snoc. split; [done|]. by destruct cs.
Qed.
End Cells.

(** * Facts about [manual::DoublyLinkedList] *)

Module DoublyLinkedListFacts.
Import DoublyLinkedList.
Section Facts.
Context {T : Type}.
Local Abbreviation Node := (Node T).
Local Abbreviation heap := (gmap loc Node).
Implicit Types (h : heap) (cs : list (loc * T)) (this : object).

(** ** Field access *)

Lemma dl_get_value_at h a n : h !! a = Some n → get_value (Some a) h = Ok (value n, h).
Proof. intros Ha. unfold get_value. by rewrite (bind_Ok _ _ _ _ _ (load_Some _ _ _ Ha)). Qed.

Lemma dl_get_next_at h a n : h !! a = Some n → get_next (Some a) h = Ok (next n, h).
Proof. intros Ha. unfold get_next. by rewrite (bind_Ok _ _ _ _ _ (load_Some _ _ _ Ha)). Qed.

Lemma dl_get_previous_at h a n :
  h !! a = Some n → get_previous (Some a) h = Ok (previous n, h).
Proof. intros Ha. unfold get_previous. by rewrite (bind_Ok _ _ _ _ _ (load_Some _ _ _ Ha)). Qed.

Lemma dl_set_next_at h a n v :
  h !! a = Some n →
  set_next (Some a) v h = Ok (tt, <[a:=mkNode (value n) v (previous n)]> h).
Proof.
  intros Ha. unfold set_next.
  rewrite (bind_Ok _ _ _ _ _ (load_Some _ _ _ Ha)). by apply store_Some with n.
Qed.

Lemma dl_set_previous_at h a n v :
  h !! a = Some n →
  set_previous (Some a) v h = Ok (tt, <[a:=mkNode (value n) (next n) v]> h).
Proof.
  intros Ha. unfold set_previous.
  rewrite (bind_Ok _ _ _ _ _ (load_Some _ _ _ Ha)). by apply store_Some with n.
Qed.

(** ** Segments *)

Lemma dl_dseg_app h b cs1 cs2 a :
  dseg h b (cs1 ++ cs2) a ↔
  dseg h b cs1 (first_loc cs2 a) ∧ dseg h (last_loc cs1 b) cs2 a.
Proof.
  revert b. induction cs1 as [|c cs1 IH]; intros b; simpl.
  - unfold last_loc; simpl. tauto.
  - rewrite IH, first_loc_app, last_loc_cons. tauto.
Qed.

Lemma dl_dseg_frame h h' b cs a :
  (∀ c, c ∈ cs → h' !! c.1 = h !! c.1) → dseg h b cs a → dseg h' b cs a.
Proof.
  revert b. induction cs as [|c cs IH]; intros b Hsame; simpl; [done|].
  intros [Hc Hrest]. split.
  - rewrite Hsame; [done|]. apply list_elem_of_here.
  - apply IH; [|done]. intros c' Hc'. apply Hsame. by apply list_elem_of_further.
Qed.

Lemma dl_dseg_alloc h b cs a c :
  dseg h b cs a → c ∈ cs → is_Some (h !! c.1).
Proof.
  revert b. induction cs as [|c' cs IH]; intros b; simpl; [by intros _ ?%elem_of_nil|].
  intros [Hc Hrest] [->|Hin]%elem_of_cons; eauto.
Qed.

Lemma dl_dseg_lookup h b cs a i c :
  dseg h b cs a → cs !! i = Some c →
  h !! c.1 = Some (mkNode c.2 (first_loc (drop (S i) cs) a) (last_loc (take i cs) b)).
Proof.
  intros Hseg Hc.
  rewrite <- (take_drop_middle _ _ _ Hc) in Hseg.
  apply dl_dseg_app in Hseg as [_ Hseg]. by destruct Hseg as [Hnode _].
Qed.

(** ** Walking along the links *)

Lemma dl_walk_next h b cs a k :
  dseg h b cs a → (k ≤ length cs)%nat →
  repeatM k get_next (first_loc cs a) h = Ok (first_loc (drop k cs) a, h).
Proof.
  revert b cs. induction k as [|k IH]; intros b cs Hseg Hk.
  - by rewrite drop_0.
  - destruct cs as [|c cs]; simpl in Hk; [lia|].
    destruct Hseg as [Hc Hrest].
    rewrite (repeatM_S_Ok _ _ _ _ _ _ (dl_get_next_at _ _ _ Hc)). simpl.
    apply (IH _ _ Hrest). lia.
Qed.

Lemma dl_walk_previous h b cs a k :
  dseg h b cs a → (k ≤ length cs)%nat →
  repeatM k get_previous (last_loc cs b) h
  = Ok (last_loc (take (length cs - k) cs) b, h).
Proof.
  revert cs a. induction k as [|k IH]; intros cs a Hseg Hk.
  - by rewrite Nat.sub_0_r, firstn_all.
  - induction cs as [|c cs _] using rev_ind; simpl in Hk; [lia|].
    rewrite length_app in Hk. simpl in Hk.
    apply dl_dseg_app in Hseg as [Hfront [Hc _]]. simpl in Hc, Hfront.
    rewrite last_loc_snoc.
    rewrite (repeatM_S_Ok _ _ _ _ _ _ (dl_get_previous_at _ _ _ Hc)). simpl.
    rewrite (IH _ _ Hfront) by lia.
    rewrite length_app. simpl.
    rewrite take_app_le by lia.
    by replace (length cs + 1 - S k)%nat with (length cs - k)%nat by lia.
Qed.

(** [walk_to] stops on the cell at [index]. *)
Lemma dl_walk_to_at this h cs (i : nat) c :
  Rep this h cs → cs !! i = Some c →
  walk_to (N.of_nat i) this h = Ok (Some c.1, h).
Proof.
  intros [Hnd Hsize Hbound Hhead Htail Hseg] Hc.
  pose proof (lookup_lt_Some _ _ _ Hc) as Hi.
  unfold walk_to. rewrite closer_to_end_in_range by lia.
  destruct (_ <? _).
  - rewrite for_down_repeat by (rewrite size_sub_le; lia).
    rewrite size_sub_le by lia. rewrite Htail.
    rewrite (dl_walk_previous _ _ _ _ _ Hseg) by lia.
    replace (length cs - N.to_nat (size_ this - 1 - N.of_nat i))%nat with (S i) by lia.
    by rewrite (last_loc_take _ _ _ _ Hc).
  - rewrite for_up_repeat by lia. rewrite Hhead, Nat2N.id.
    rewrite (dl_walk_next _ _ _ _ _ Hseg) by lia.
    by rewrite (first_loc_drop _ _ _ _ Hc).
Qed.

Lemma dl_naive_lookup_at this h cs (i : nat) c :
  Rep this h cs → cs !! i = Some c →
  naive_lookup (N.of_nat i) this h = Ok (c.2, h).
Proof.
  intros [Hnd Hsize Hbound Hhead Htail Hseg] Hc.
  pose proof (lookup_lt_Some _ _ _ Hc) as Hi.
  unfold naive_lookup. erewrite bind_Ok; cycle 1.
  { rewrite for_up_repeat by lia. rewrite Hhead, Nat2N.id.
    rewrite (dl_walk_next _ _ _ _ _ Hseg) by lia.
    by rewrite (first_loc_drop _ _ _ _ Hc). }
  by rewrite (dl_get_value_at _ _ _ (dl_dseg_lookup _ _ _ _ _ _ Hseg Hc)).
Qed.

Lemma dl_operator_index_at this h cs (i : nat) c :
  Rep this h cs → cs !! i = Some c →
  operator_index (N.of_nat i) this h = Ok (c.2, h).
Proof.
  intros HR Hc. unfold operator_index.
  rewrite (bind_Ok _ _ _ _ _ (dl_walk_to_at _ _ _ _ _ HR Hc)).
  by rewrite (dl_get_value_at _ _ _ (dl_dseg_lookup _ _ _ _ _ _ (rep_seg _ _ _ HR) Hc)).
Qed.

(** ** One step of a member function *)

Lemma dl_new_node_fresh (v : T) h :
  new_node v h = Ok (Some (fresh (dom h)), <[fresh (dom h):=mkNode v None None]> h).
Proof. done. Qed.

Ltac solve_lookup :=
  repeat first
    [ rewrite lookup_insert_eq
    | rewrite lookup_insert_ne by (done || congruence)
    | rewrite lookup_delete_ne by (done || congruence) ];
  first [ reflexivity | eassumption | idtac ].

Ltac mstep :=
  erewrite bind_Ok; cycle 1;
  [ first [ apply dl_get_value_at | apply dl_get_next_at | apply dl_get_previous_at
          | apply dl_set_next_at | apply dl_set_previous_at | eapply delete_Some
          | apply dl_new_node_fresh ];
    solve_lookup
  | simpl ].

Lemma dl_dseg_unused h b cs x a : dseg h b cs x → h !! a = None → a ∉ cs.*1.
Proof.
  intros Hseg Ha [c [-> Hc]]%list_elem_of_fmap.
  destruct (dl_dseg_alloc _ _ _ _ _ Hseg Hc) as [n Hn]. congruence.
Qed.

Lemma dl_Rep_alloc this h cs c : Rep this h cs → c ∈ cs → is_Some (h !! c.1).
Proof. intros HR. apply dl_dseg_alloc with None None, HR. Qed.

Lemma dl_Rep_unused this h cs a : Rep this h cs → h !! a = None → a ∉ cs.*1.
Proof.
  intros HR Ha [c [-> Hc]]%list_elem_of_fmap.
  destruct (dl_Rep_alloc _ _ _ _ HR Hc) as [n Hn]. congruence.
Qed.

Lemma dl_NoDup_fst_snoc cs c : NoDup cs.*1 → c.1 ∉ cs.*1 → NoDup (cs ++ [c]).*1.
Proof.
  intros Hnd Hc. rewrite fmap_app. apply NoDup_app. split; [done|]. split.
  - intros a Ha [->|[]%elem_of_nil]%elem_of_cons. done.
  - apply NoDup_singleton.
Qed.

Lemma dl_dseg_insert_ne h b cs a x n :
  x ∉ cs.*1 → dseg h b cs a → dseg (<[x:=n]> h) b cs a.
Proof.
  intros Hx. apply dl_dseg_frame. intros c Hc. apply lookup_insert_ne.
  intros ->. apply Hx, list_elem_of_fmap. eauto.
Qed.

Lemma dl_dseg_delete_ne h b cs a x :
  x ∉ cs.*1 → dseg h b cs a → dseg (base.delete x h) b cs a.
Proof.
  intros Hx. apply dl_dseg_frame. intros c Hc. apply lookup_delete_ne.
  intros ->. apply Hx, list_elem_of_fmap. eauto.
Qed.

Lemma dl_Rep_frame this h h' cs :
  (∀ c, c ∈ cs → h' !! c.1 = h !! c.1) → Rep this h cs → Rep this h' cs.
Proof. intros Hsame [? ? ? ? ? ?]. constructor; eauto using dl_dseg_frame. Qed.

Ltac frame_seg :=
  repeat first [ apply dl_dseg_insert_ne; [done|] | apply dl_dseg_delete_ne; [done|] ];
  try done.

Lemma dl_push_back_spec this h cs v :
  Rep this h cs → N.of_nat (length cs) < SIZE_MAX →
  ∃ a this' h',
    push_back v this h = Ok (this', h') ∧ h !! a = None
    ∧ Rep this' h' (cs ++ [(a, v)]) ∧ others_kept cs h h'.
Proof.
  intros HR Hlt. pose proof HR as [Hnd Hsize Hbound Hhead Htail Hseg].
  set (a := fresh (dom h)).
  assert (h !! a = None) as Ha by apply fresh_unused.
  assert (a ∉ cs.*1) as Hout by eauto using dl_Rep_unused.
  exists a. unfold push_back.
  rewrite (bind_Ok _ _ _ _ _ (dl_new_node_fresh v h)). fold a.
  rewrite (bind_Ok _ _ _ _ _ (dl_set_next_at _ a _ None (lookup_insert_eq _ _ _))).
  rewrite insert_insert_eq. simpl.
  rewrite (bind_Ok _ _ _ _ _ (dl_set_previous_at _ a _ (tail_ this) (lookup_insert_eq _ _ _))).
  rewrite insert_insert_eq. simpl.
  induction cs as [|t cs _] using rev_ind.
  - rewrite Hsize. simpl. eexists _, _. split; [done|]. split; [done|].
    split.
    + constructor; simpl.
      * apply NoDup_singleton.
      * by rewrite size_incr_small.
      * unfold SIZE_MAX; lia.
      * done.
      * done.
      * rewrite Htail. split; [|done]. apply lookup_insert_eq.
    + intros b n _ Hb. rewrite lookup_insert_ne; [done|congruence].
  - rewrite length_app in *. simpl in *.
    replace (size_ this =? 0) with false by (symmetry; apply N.eqb_neq; lia).
    rewrite last_loc_snoc in Htail. rewrite Htail.
    apply dl_dseg_app in Hseg as [Hfront [Ht _]]. simpl in Hfront, Ht.
    assert (t.1 ≠ a) as Hta by congruence.
    erewrite bind_Ok; cycle 1.
    { apply dl_set_next_at. rewrite lookup_insert_ne by done. apply Ht. }
    simpl. eexists _, _. split; [done|]. split; [done|].
    pose proof Hnd as Hnd0. pose proof Hout as Hout0.
    rewrite fmap_app in Hnd, Hout. apply NoDup_app in Hnd as (Hnd & Hsep & _).
    split.
    + constructor; simpl.
      * by apply dl_NoDup_fst_snoc.
      * rewrite size_incr_small by lia. rewrite !length_app. simpl. lia.
      * rewrite !length_app. simpl. lia.
      * by rewrite Hhead, <- app_assoc, !first_loc_app.
      * by rewrite last_loc_snoc.
      * rewrite <- app_assoc. apply dl_dseg_app. split.
        -- apply dl_dseg_frame with h; [|done]. intros c Hc.
           assert (c.1 ∈ cs.*1) as Hc1 by (apply list_elem_of_fmap; eauto).
           rewrite !lookup_insert_ne; [done|..].
           ++ intros Heq. apply Hout, elem_of_app. left. by rewrite Heq.
           ++ intros Heq. apply (Hsep _ Hc1). rewrite <- Heq. apply list_elem_of_here.
        -- simpl. rewrite lookup_insert_eq.
           rewrite lookup_insert_ne by done. by rewrite lookup_insert_eq.
    + intros b n Hb Hbn. rewrite !lookup_insert_ne; [done|congruence|].
      intros Heq. apply Hb. rewrite fmap_app, <- Heq. apply elem_of_app. right.
      apply list_elem_of_here.
Qed.

Lemma dl_push_front_spec this h cs v :
  Rep this h cs → N.of_nat (length cs) < SIZE_MAX →
  ∃ a this' h',
    push_front v this h = Ok (this', h') ∧ h !! a = None
    ∧ Rep this' h' ((a, v) :: cs) ∧ others_kept cs h h'.
Proof.
  intros HR Hlt. pose proof HR as [Hnd Hsize Hbound Hhead Htail Hseg].
  set (a := fresh (dom h)).
  assert (h !! a = None) as Ha by apply fresh_unused.
  assert (a ∉ cs.*1) as Hout by eauto using dl_Rep_unused.
  exists a. unfold push_front.
  rewrite (bind_Ok _ _ _ _ _ (dl_new_node_fresh v h)). fold a.
  mstep. mstep. rewrite !insert_insert_eq.
  destruct cs as [|t cs].
  - rewrite Hsize. simpl. eexists _, _. split; [done|]. split; [done|].
    split.
    + constructor; simpl.
      * apply NoDup_singleton.
      * by rewrite size_incr_small.
      * unfold SIZE_MAX; lia.
      * done.
      * done.
      * rewrite Hhead. split; [|done]. apply lookup_insert_eq.
    + intros b n _ Hb. rewrite lookup_insert_ne; [done|congruence].
  - simpl in *.
    replace (size_ this =? 0) with false by (symmetry; apply N.eqb_neq; lia).
    rewrite Hhead. destruct Hseg as [Ht Hrest].
    apply not_elem_of_cons in Hout as [Hat Hout].
    apply NoDup_cons in Hnd as [Htcs Hnd].
    mstep. simpl. eexists _, _. split; [done|]. split; [done|].
    split.
    + constructor; simpl.
      * apply NoDup_cons. split; [by apply not_elem_of_cons|]. by apply NoDup_cons.
      * rewrite size_incr_small by lia. lia.
      * lia.
      * done.
      * by rewrite Htail, !last_loc_cons.
      * split; [by solve_lookup|]. split; [by solve_lookup|].
        by do 2 (apply dl_dseg_insert_ne; [done|]).
    + intros b n Hb Hbn. apply not_elem_of_cons in Hb as [Hbt Hb].
      by solve_lookup.
Qed.

Lemma dl_pop_front_cons this h t cs :
  Rep this h (t :: cs) →
  ∃ this' h',
    pop_front this h = Ok (this', h') ∧ Rep this' h' cs
    ∧ others_kept (t :: cs) h h'.
Proof.
  intros [Hnd Hsize Hbound Hhead Htail Hseg]. unfold pop_front.
  simpl in *. destruct Hseg as [Ht Hrest].
  apply NoDup_cons in Hnd as [Htcs Hnd].
  replace (size_ this =? 0) with false by (symmetry; apply N.eqb_neq; lia).
  rewrite Hhead. destruct cs as [|u cs]; simpl in *.
  - rewrite Hsize. simpl. mstep. eexists _, _. split; [done|]. split.
    + by constructor.
    + intros b n Hb Hbn. apply not_elem_of_cons in Hb as [Hbt _]. by solve_lookup.
  - replace (size_ this =? 1) with false by (symmetry; apply N.eqb_neq; lia).
    destruct Hrest as [Hu Hrest].
    apply not_elem_of_cons in Htcs as [Htu Htcs].
    apply NoDup_cons in Hnd as [Hucs Hnd'].
    mstep. mstep. mstep. eexists _, _. split; [done|]. split.
    + constructor; simpl.
      * by apply NoDup_cons.
      * rewrite size_decr_pos by lia. lia.
      * lia.
      * done.
      * by rewrite Htail, !last_loc_cons.
      * split; [by solve_lookup|].
        apply dl_dseg_delete_ne; [done|]. by apply dl_dseg_insert_ne.
    + intros b n Hb Hbn. apply not_elem_of_cons in Hb as [Hbt Hb].
      apply not_elem_of_cons in Hb as [Hbu Hb]. by solve_lookup.
Qed.

Lemma dl_pop_back_snoc this h cs t :
  Rep this h (cs ++ [t]) →
  ∃ this' h',
    pop_back this h = Ok (this', h') ∧ Rep this' h' cs
    ∧ others_kept (cs ++ [t]) h h'.
Proof.
  intros [Hnd Hsize Hbound Hhead Htail Hseg]. unfold pop_back.
  rewrite length_app in *. simpl in *.
  rewrite fmap_app in Hnd. apply NoDup_app in Hnd as (Hnd & Hsep & _).
  assert (t.1 ∉ cs.*1) as Htcs.
  { intros Hin. apply (Hsep _ Hin). apply list_elem_of_here. }
  apply dl_dseg_app in Hseg as [Hfront [Ht _]]. simpl in Hfront, Ht.
  replace (size_ this =? 0) with false by (symmetry; apply N.eqb_neq; lia).
  rewrite last_loc_snoc in Htail. rewrite Htail.
  induction cs as [|p cs _] using rev_ind; simpl in *.
  - rewrite Hsize. simpl. mstep. eexists _, _. split; [done|]. split.
    + by constructor.
    + intros b n Hb Hbn. apply not_elem_of_cons in Hb as [Hbt _]. by solve_lookup.
  - rewrite length_app in *. simpl in *.
    replace (size_ this =? 1) with false by (symmetry; apply N.eqb_neq; lia).
    rewrite last_loc_snoc in Ht.
    rewrite fmap_app in Hnd, Htcs.
    apply not_elem_of_app in Htcs as [Htcs Htp].
    apply not_elem_of_cons in Htp as [Htp _].
    apply dl_dseg_app in Hfront as [Hfront [Hp _]]. simpl in Hfront, Hp.
    pose proof Hnd as Hnd0.
    apply NoDup_app in Hnd as (Hnd & Hsep' & _).
    assert (p.1 ∉ cs.*1) as Hpcs.
    { intros Hin. apply (Hsep' _ Hin). apply list_elem_of_here. }
    mstep. mstep. mstep. eexists _, _. split; [done|]. split.
    + constructor; simpl.
      * by rewrite fmap_app.
      * rewrite size_decr_pos by lia. rewrite length_app. simpl. lia.
      * rewrite length_app. simpl. lia.
      * by rewrite Hhead, <- app_assoc, !first_loc_app.
      * by rewrite last_loc_snoc.
      * apply dl_dseg_app. split.
        -- apply dl_dseg_delete_ne; [done|]. by apply dl_dseg_insert_ne.
        -- simpl. split; [by solve_lookup|done].
    + intros b n Hb Hbn. rewrite !fmap_app in Hb.
      apply not_elem_of_app in Hb as [Hb Hbt].
      apply not_elem_of_app in Hb as [Hb Hbp].
      apply not_elem_of_cons in Hbt as [Hbt _].
      apply not_elem_of_cons in Hbp as [Hbp _]. by solve_lookup.
Qed.

Lemma dl_pop_front_empty this h : size_ this = 0 → pop_front this h = Ok (this, h).
Proof. unfold pop_front. by intros ->. Qed.

Lemma dl_pop_back_empty this h : size_ this = 0 → pop_back this h = Ok (this, h).
Proof. unfold pop_back. by intros ->. Qed.

Lemma dl_insert_middle this h l1 p c l2 v :
  Rep this h (l1 ++ p :: c :: l2) →
  N.of_nat (length (l1 ++ p :: c :: l2)) < SIZE_MAX →
  ∃ a this' h',
    insert (N.of_nat (S (length l1))) v this h = Ok (this', h')
    ∧ h !! a = None
    ∧ Rep this' h' (l1 ++ p :: (a, v) :: c :: l2)
    ∧ others_kept (l1 ++ p :: c :: l2) h h'.
Proof.
  intros HR Hlt. pose proof HR as [Hnd Hsize Hbound Hhead Htail Hseg].
  set (a := fresh (dom h)).
  assert (h !! a = None) as Ha by apply fresh_unused.
  assert (a ∉ (l1 ++ p :: c :: l2).*1) as Hout by eauto using dl_Rep_unused.
  exists a. unfold insert.
  rewrite length_app in Hsize, Hlt, Hbound. simpl in Hsize, Hlt, Hbound.
  replace (_ <=? _) with true by (symmetry; apply N.leb_le; lia).
  replace (_ =? 0) with false by (symmetry; apply N.eqb_neq; lia).
  replace (_ =? _) with false by (symmetry; apply N.eqb_neq; lia).
  rewrite (bind_Ok _ _ _ _ _ (dl_new_node_fresh v h)). fold a.
  erewrite bind_Ok; cycle 1.
  { apply dl_walk_to_at with (cs := l1 ++ p :: c :: l2) (c := c).
    - apply dl_Rep_frame with h; [|done]. intros x Hx. apply lookup_insert_ne.
      intros Heq. apply Hout. rewrite Heq. apply list_elem_of_fmap. eauto.
    - rewrite (lookup_app_r _ _ (S (length l1))) by lia.
      by replace (S (length l1) - length l1)%nat with 1%nat by lia. }
  simpl.
  apply dl_dseg_app in Hseg as (Hfront & Hp & Hc & Hback). simpl in Hfront, Hp, Hc.
  pose proof Hnd as (Hpl1 & Hpl2 & Hnd1)%NoDup_fst_middle.
  pose proof Hnd1 as (Hcl1 & Hcl2 & Hnd2)%NoDup_fst_middle.
  apply not_elem_of_cons in Hpl2 as [Hpc Hpl2].
  pose proof Hout as Hout0. rewrite fmap_app in Hout.
  apply not_elem_of_app in Hout as [Hal1 Hout].
  apply not_elem_of_cons in Hout as [Hap Hout].
  apply not_elem_of_cons in Hout as [Hac Hal2].
  mstep. mstep. mstep. mstep. mstep. mstep.
  eexists _, _. split; [done|]. split; [done|]. split.
  - constructor; simpl.
    + rewrite (cons_middle p), app_assoc.
      apply NoDup_fst_insert; by rewrite <- app_assoc.
    + rewrite size_incr_small by lia. rewrite length_app. simpl. lia.
    + rewrite length_app. simpl. lia.
    + by rewrite Hhead, !first_loc_app.
    + rewrite Htail, !last_loc_app. by rewrite !last_loc_cons.
    + apply dl_dseg_app. simpl. split; [frame_seg|].
      split; [by solve_lookup|]. split; [by solve_lookup|].
      split; [by solve_lookup|]. frame_seg.
  - intros b n Hb Hbn. rewrite fmap_app in Hb.
    apply not_elem_of_app in Hb as [Hbl1 Hb].
    apply not_elem_of_cons in Hb as [Hbp Hb].
    apply not_elem_of_cons in Hb as [Hbc Hbl2]. by solve_lookup.
Qed.

Lemma dl_remove_middle this h l1 p c n l2 :
  Rep this h (l1 ++ p :: c :: n :: l2) →
  ∃ this' h',
    remove (N.of_nat (S (length l1))) this h = Ok (this', h')
    ∧ Rep this' h' (l1 ++ p :: n :: l2)
    ∧ others_kept (l1 ++ p :: c :: n :: l2) h h'.
Proof.
  intros HR. pose proof HR as [Hnd Hsize Hbound Hhead Htail Hseg].
  unfold remove.
  rewrite length_app in Hsize, Hbound. simpl in Hsize, Hbound.
  replace (_ <? _) with true by (symmetry; apply N.ltb_lt; lia).
  replace (_ =? 0) with false by (symmetry; apply N.eqb_neq; lia).
  rewrite size_sub_le by lia.
  replace (_ =? _) with false by (symmetry; apply N.eqb_neq; lia).
  erewrite bind_Ok; cycle 1.
  { apply dl_walk_to_at with (cs := l1 ++ p :: c :: n :: l2) (c := c); [done|].
    rewrite (lookup_app_r _ _ (S (length l1))) by lia.
    by replace (S (length l1) - length l1)%nat with 1%nat by lia. }
  simpl.
  apply dl_dseg_app in Hseg as (Hfront & Hp & Hc & Hn & Hback).
  simpl in Hfront, Hp, Hc, Hn.
  assert (NoDup (l1 ++ p :: n :: l2).*1) as Hnd'.
  { pose proof Hnd as H0. rewrite (cons_middle p), app_assoc in H0.
    apply NoDup_fst_middle in H0 as (_ & _ & H0). by rewrite <- app_assoc in H0. }
  pose proof Hnd as (Hpl1 & Hpl2 & Hnd1)%NoDup_fst_middle.
  pose proof Hnd1 as (Hcl1 & Hcl2 & Hnd2)%NoDup_fst_middle.
  pose proof Hnd2 as (Hnl1 & Hnl2 & Hnd3)%NoDup_fst_middle.
  apply not_elem_of_cons in Hpl2 as [Hpc Hpl2].
  apply not_elem_of_cons in Hpl2 as [Hpn Hpl2].
  apply not_elem_of_cons in Hcl2 as [Hcn Hcl2].
  mstep. mstep. mstep. mstep. mstep. mstep. mstep.
  eexists _, _. split; [done|]. split.
  - constructor; simpl.
    + done.
    + rewrite size_decr_pos by lia. rewrite length_app. simpl. lia.
    + rewrite length_app. simpl. lia.
    + by rewrite Hhead, !first_loc_app.
    + rewrite Htail, !last_loc_app. by rewrite !last_loc_cons.
    + apply dl_dseg_app. simpl. split; [frame_seg|].
      split; [by solve_lookup|]. split; [by solve_lookup|]. frame_seg.
  - intros b m Hb Hbm. rewrite fmap_app in Hb.
    apply not_elem_of_app in Hb as [Hbl1 Hb].
    apply not_elem_of_cons in Hb as [Hbp Hb].
    apply not_elem_of_cons in Hb as [Hbc Hb].
    apply not_elem_of_cons in Hb as [Hbn Hbl2]. by solve_lookup.
Qed.

(** ** [insert] and [remove] at any index *)

Lemma dl_insert_zero this h (v : T) : insert 0 v this h = push_front v this h.
Proof. unfold insert. by rewrite (proj2 (N.leb_le 0 _)) by lia. Qed.

Lemma dl_insert_size this h (v : T) :
  size_ this ≠ 0 → insert (size_ this) v this h = push_back v this h.
Proof.
  intros Hne. unfold insert. rewrite N.leb_refl, N.eqb_refl.
  by apply N.eqb_neq in Hne as ->.
Qed.

Lemma dl_push_front_empty this h (v : T) :
  Rep this h [] → push_front v this h = push_back v this h.
Proof.
  intros [_ Hsize _ Hhead Htail _]. simpl in *.
  unfold push_front, push_back.
  rewrite !(bind_Ok _ _ _ _ _ (dl_new_node_fresh v h)).
  rewrite Hsize, Hhead, Htail. simpl.
  do 2 mstep. symmetry. do 2 mstep. by rewrite !insert_insert_eq.
Qed.

Lemma dl_insert_past_end this h i (v : T) :
  size_ this < i → insert i v this h = Ok (this, h).
Proof. intros Hi. unfold insert. by apply N.leb_gt in Hi as ->. Qed.

Lemma dl_remove_past_end this h i :
  size_ this ≤ i → remove (T:=T) i this h = Ok (this, h).
Proof. intros Hi. unfold remove. by apply N.ltb_ge in Hi as ->. Qed.

Lemma dl_insert_spec this h cs (i : nat) v :
  Rep this h cs → (i ≤ length cs)%nat → N.of_nat (length cs) < SIZE_MAX →
  ∃ a this' h',
    insert (N.of_nat i) v this h = Ok (this', h') ∧ h !! a = None
    ∧ Rep this' h' (take i cs ++ (a, v) :: drop i cs)
    ∧ others_kept cs h h'.
Proof.
  intros HR Hi Hlt.
  destruct (decide (i = 0%nat)) as [->|Hi0].
  { rewrite dl_insert_zero. rewrite take_0, drop_0. by apply dl_push_front_spec. }
  destruct (decide (i = length cs)) as [->|Hilen].
  { rewrite <- (rep_size _ _ _ HR), dl_insert_size
      by (rewrite (rep_size _ _ _ HR); lia).
    rewrite firstn_all, drop_all. by apply dl_push_back_spec. }
  destruct (split_two cs i) as (l1 & p & c & l2 & -> & Hl1); [lia..|].
  replace i with (S (length l1)) by lia.
  destruct (dl_insert_middle _ _ _ _ _ _ v HR Hlt)
    as (a & this' & h' & Hrun & Ha & HR' & Hkept).
  exists a, this', h'. split; [done|]. split; [done|]. split; [|done].
  rewrite (cons_middle p l1), app_assoc.
  rewrite take_app_length', drop_app_length' by (rewrite length_app; simpl; lia).
  by rewrite <- app_assoc.
Qed.

Lemma dl_remove_spec this h cs (i : nat) :
  Rep this h cs →
  ∃ this' h',
    remove (N.of_nat i) this h = Ok (this', h')
    ∧ Rep this' h' (base.delete i cs) ∧ others_kept cs h h'.
Proof.
  intros HR. pose proof (rep_size _ _ _ HR) as Hsize.
  pose proof (rep_bound _ _ _ HR) as Hbound.
  destruct (decide (length cs ≤ i)%nat) as [Hge|Hlt].
  { rewrite dl_remove_past_end by lia. exists this, h. split; [done|].
    rewrite delete_take_drop, take_ge, drop_ge, app_nil_r by lia.
    split; [done|]. by intros a n _ Ha. }
  destruct (decide (i = 0%nat)) as [->|Hi0].
  { destruct cs as [|t cs]; simpl in Hlt; [lia|].
    unfold remove. rewrite Hsize. simpl.
    by apply dl_pop_front_cons. }
  destruct (decide (i = length cs - 1)%nat) as [Hlast|Hmid].
  { induction cs as [|t cs _] using rev_ind; simpl in Hlt; [lia|].
    rewrite length_app in Hlt, Hlast, Hsize, Hbound. simpl in *.
    replace i with (length cs) by lia. rewrite delete_middle, app_nil_r.
    unfold remove. rewrite Hsize.
    replace (_ <? _) with true by (symmetry; apply N.ltb_lt; lia).
    replace (_ =? 0) with false by (symmetry; apply N.eqb_neq; lia).
    rewrite size_sub_le by lia.
    replace (_ =? _) with true by (symmetry; apply N.eqb_eq; lia).
    by apply dl_pop_back_snoc. }
  destruct (split_three cs i) as (l1 & p & c & n & l2 & -> & Hl1); [lia..|].
  assert (i = S (length l1)) as -> by lia.
  replace (base.delete (S (length l1)) (l1 ++ p :: c :: n :: l2))
    with (l1 ++ p :: n :: l2).
  { by apply dl_remove_middle. }
  replace (S (length l1)) with (length (l1 ++ [p]))
    by (rewrite length_app; simpl; lia).
  transitivity (base.delete (length (l1 ++ [p])) ((l1 ++ [p]) ++ c :: n :: l2)).
  - by rewrite delete_middle, <- app_assoc.
  - by rewrite <- app_assoc.
Qed.

(** ** [clear] *)

Lemma dl_clear_walk h b cs :
  NoDup cs.*1 → dseg h b cs None →
  ∃ h',
    repeatM (length cs)
      (λ current, let* tmp := get_next current in
                  do delete current then ret tmp)
      (first_loc cs None) h = Ok (None, h')
    ∧ others_kept cs h h'.
Proof.
  revert h b. induction cs as [|c cs IH]; intros h b Hnd Hseg; simpl in *.
  - exists h. split; [done|]. by intros a n _ Ha.
  - destruct Hseg as [Hc Hrest]. apply NoDup_cons in Hnd as [Hccs Hnd].
    destruct (IH (base.delete c.1 h) (Some c.1)) as (h' & Hrun & Hkept);
      [done|frame_seg|].
    exists h'. split.
    { erewrite bind_Ok; [apply Hrun|]. mstep. by mstep. }
    intros a n Ha Han.
    apply not_elem_of_cons in Ha as [Hac Ha].
    apply Hkept; [done|]. by solve_lookup.
Qed.

Lemma dl_Rep_nil h : Rep default_ctor h [].
Proof. constructor; simpl; try done. apply NoDup_nil_2. Qed.

Lemma dl_Rep_nil_inv this h : Rep this h [] → this = default_ctor.
Proof. intros [_ Hsize _ Hhead Htail _]. destruct this. simpl in *. by subst. Qed.

Lemma dl_clear_spec this h cs :
  Rep this h cs →
  ∃ h', clear this h = Ok (default_ctor, h') ∧ others_kept cs h h'.
Proof.
  intros HR. pose proof HR as [Hnd Hsize Hbound Hhead Htail Hseg].
  unfold clear. destruct cs as [|c cs].
  - rewrite Hsize. simpl. rewrite (dl_Rep_nil_inv _ _ HR).
    exists h. split; [done|]. by intros a n _ Ha.
  - replace (size_ this =? 0) with false
      by (symmetry; apply N.eqb_neq; simpl in Hsize; lia).
    destruct (dl_clear_walk h None (c :: cs)) as (h' & Hrun & Hkept); [done..|].
    exists h'. split; [|done].
    erewrite bind_Ok; [done|].
    rewrite for_up_repeat by lia. rewrite Hsize, Nat2N.id, Hhead. apply Hrun.
Qed.

(** ** Copying *)

Lemma dl_copy_rest_exact rest : ∀ fuel h built cur oc bo,
  (length rest ≤ fuel)%nat →
  dseg h bo (oc :: rest) None →
  dseg h None (built ++ [cur]) None →
  NoDup (built ++ [cur]).*1 →
  cur.1 ∉ (oc :: rest).*1 →
  ∃ added h',
    copy_rest fuel (Some cur.1) (Some oc.1) h
    = Ok (last_loc (cur :: added) None, h')
    ∧ dseg h' None (built ++ cur :: added) None
    ∧ NoDup (built ++ cur :: added).*1
    ∧ added.*2 = rest.*2
    ∧ (∀ c, c ∈ added → h !! c.1 = None)
    ∧ (∀ a n, a ≠ cur.1 → h !! a = Some n → h' !! a = Some n)
    ∧ (∀ a, is_Some (h' !! a) → is_Some (h !! a) ∨ a ∈ added.*1).
Proof.
  induction rest as [|r rest IH]; intros fuel h built cur oc bo Hfuel Hother Hnew Hnd Hcur.
  - destruct Hother as [Hoc _]. simpl in Hoc.
    exists [], h. split.
    { destruct fuel; simpl; by mstep. }
    split; [done|]. split; [done|]. split; [done|].
    split; [by intros c ?%elem_of_nil|]. split; [done|by left].
  - destruct fuel as [|fuel]; simpl in Hfuel; [lia|].
    destruct Hother as [Hoc Hrest]. pose proof Hrest as [Hr _]. simpl in Hoc.
    set (a := fresh (dom h)).
    assert (h !! a = None) as Ha by apply fresh_unused.
    apply dl_dseg_app in Hnew as [Hbuilt [Hcurnode _]]. simpl in Hbuilt, Hcurnode.
    assert (a ∉ built.*1) as Habuilt by eauto using dl_dseg_unused.
    assert (a ∉ (r :: rest).*1) as Harest by eauto using dl_dseg_unused.
    assert (a ≠ cur.1) as Hacur by congruence.
    assert (a ≠ oc.1) as Haoc by congruence.
    apply not_elem_of_cons in Hcur as [Hcuroc Hcurrest].
    pose proof Hnd as Hnd0. rewrite fmap_app in Hnd.
    apply NoDup_app in Hnd as (Hndb & Hsep & _).
    assert (cur.1 ∉ built.*1) as Hcurbuilt.
    { intros Hin. apply (Hsep _ Hin). apply list_elem_of_here. }
    destruct (IH fuel
      (<[a:=mkNode r.2 None (Some cur.1)]>
        (<[a:=mkNode r.2 None (Some cur.1)]>
          (<[cur.1:=mkNode cur.2 (Some a) (last_loc built None)]>
            (<[a:=mkNode r.2 None None]> h))))
      (built ++ [cur]) (a, r.2) r (Some oc.1))
      as (added & h' & Hrun & Hseg' & Hnd' & Hvals & Hfresh & Hkept & Halloc).
    { lia. }
    { frame_seg. }
    { apply dl_dseg_app. simpl. split.
      - apply dl_dseg_app. simpl. split; [frame_seg|]. split; [by solve_lookup|done].
      - rewrite last_loc_snoc. split; [by solve_lookup|done]. }
    { apply (dl_NoDup_fst_snoc _ (a, r.2)); [done|]. simpl. rewrite fmap_app.
      apply not_elem_of_app. split; [done|].
      apply not_elem_of_cons. split; [done|apply not_elem_of_nil]. }
    { done. }
    exists ((a, r.2) :: added), h'. split.
    { simpl. do 10 mstep. fold a.
      simpl in Hrun. rewrite Hrun. by rewrite !last_loc_cons. }
    split; [by rewrite <- app_assoc in Hseg'|].
    split; [by rewrite <- app_assoc in Hnd'|].
    split; [by rewrite !fmap_cons, Hvals|]. split.
    + intros c [->|Hc]%elem_of_cons; [done|].
      specialize (Hfresh c Hc).
      destruct (decide (c.1 = a)) as [Heq|Hne].
      { rewrite Heq in Hfresh. by rewrite lookup_insert_eq in Hfresh. }
      destruct (decide (c.1 = cur.1)) as [Heq|Hne'].
      { rewrite Heq in Hfresh. rewrite !lookup_insert_ne in Hfresh by done.
        by rewrite lookup_insert_eq in Hfresh. }
      by rewrite !lookup_insert_ne in Hfresh by done.
    + split.
      * intros b n Hb Hbn. apply Hkept.
        -- simpl. congruence.
        -- by solve_lookup.
      * intros b Hb. rewrite fmap_cons. simpl.
        destruct (Halloc b Hb) as [Hs|Hin]; [|right; by apply list_elem_of_further].
        destruct (decide (b = a)) as [->|Hba]; [right; apply list_elem_of_here|].
        left. destruct (decide (b = cur.1)) as [->|Hbc]; [by eexists|].
        by rewrite !lookup_insert_ne in Hs by done.
Qed.

Lemma dl_copy_rest_spec rest : ∀ fuel h built cur oc bo,
  (length rest ≤ fuel)%nat →
  dseg h bo (oc :: rest) None →
  dseg h None (built ++ [cur]) None →
  NoDup (built ++ [cur]).*1 →
  cur.1 ∉ (oc :: rest).*1 →
  ∃ added h',
    copy_rest fuel (Some cur.1) (Some oc.1) h
    = Ok (last_loc (cur :: added) None, h')
    ∧ dseg h' None (built ++ cur :: added) None
    ∧ NoDup (built ++ cur :: added).*1
    ∧ added.*2 = rest.*2
    ∧ (∀ c, c ∈ added → h !! c.1 = None)
    ∧ (∀ a n, a ≠ cur.1 → h !! a = Some n → h' !! a = Some n).
Proof.
  intros. edestruct dl_copy_rest_exact as (added & h' & ? & ? & ? & ? & ? & ? & _);
    [done..|]. by exists added, h'.
Qed.

Lemma dl_Rep_kept this h h' cs :
  (∀ a n, h !! a = Some n → h' !! a = Some n) → Rep this h cs → Rep this h' cs.
Proof.
  intros Hkept HR. apply dl_Rep_frame with h; [|done]. intros c Hc.
  destruct (dl_Rep_alloc _ _ _ _ HR Hc) as [n Hn]. rewrite Hn. by apply Hkept.
Qed.

Lemma dl_copy_nodes_exact other h cs :
  Rep other h cs →
  ∃ this' h' cs',
    copy_nodes other h = Ok (this', h') ∧ Rep this' h' cs'
    ∧ cs'.*2 = cs.*2
    ∧ (∀ c, c ∈ cs' → h !! c.1 = None)
    ∧ (∀ a n, h !! a = Some n → h' !! a = Some n)
    ∧ (∀ a, is_Some (h' !! a) → is_Some (h !! a) ∨ a ∈ cs'.*1).
Proof.
  intros HR. pose proof HR as [Hnd Hsize Hbound Hhead Htail Hseg].
  unfold copy_nodes. destruct cs as [|o rest].
  - rewrite Hsize. simpl. exists default_ctor, h, []. split; [done|].
    split; [apply dl_Rep_nil|]. split; [done|].
    split; [by intros c ?%elem_of_nil|]. split; [done|by left].
  - replace (size_ other =? 0) with false
      by (symmetry; apply N.eqb_neq; simpl in Hsize; lia).
    set (a := fresh (dom h)).
    assert (h !! a = None) as Ha by apply fresh_unused.
    assert (a ∉ (o :: rest).*1) as Hout by eauto using dl_Rep_unused.
    pose proof Hseg as [Ho _]. simpl in Ho.
    destruct (dl_copy_rest_exact rest (S (base.size h))
                (<[a:=mkNode o.2 None None]> h) [] (a, o.2) o None)
      as (added & h' & Hrun & Hseg' & Hnd' & Hvals & Hfresh & Hkept & Halloc).
    { assert (length (o :: rest).*1 ≤ base.size h)%nat as Hle.
      { apply nodes_le_heap_size; [done|]. intros b [c [-> Hc]]%list_elem_of_fmap.
        by apply (dl_Rep_alloc _ _ _ _ HR). }
      rewrite length_fmap in Hle. simpl in Hle. lia. }
    { frame_seg. }
    { simpl. split; [by solve_lookup|done]. }
    { apply NoDup_singleton. }
    { done. }
    simpl in Hrun, Hseg', Hnd'.
    exists (mkList (Some a) (last_loc ((a, o.2) :: added) None) (size_ other)),
      h', ((a, o.2) :: added).
    split.
    { erewrite bind_Ok; [|done]. rewrite Hhead. simpl.
      do 4 mstep. fold a. rewrite !insert_insert_eq.
      erewrite bind_Ok; [|apply Hrun]. done. }
    split.
    { constructor; simpl; try done.
      - rewrite Hsize. simpl. apply (f_equal length) in Hvals.
        rewrite !length_fmap in Hvals. lia.
      - apply (f_equal length) in Hvals.
        rewrite !length_fmap in Hvals. simpl in Hbound. lia. }
    split; [by rewrite !fmap_cons, Hvals|]. split.
    + intros c [->|Hc]%elem_of_cons; [done|].
      by apply Hfresh, lookup_insert_None in Hc as [? _].
    + split.
      * intros b n Hbn. apply Hkept; [simpl; congruence|]. by solve_lookup.
      * intros b Hb. rewrite fmap_cons. simpl.
        destruct (Halloc b Hb) as [Hs|Hin]; [|right; by apply list_elem_of_further].
        destruct (decide (b = a)) as [->|Hba]; [right; apply list_elem_of_here|].
        left. by rewrite lookup_insert_ne in Hs by done.
Qed.

Lemma dl_copy_nodes_spec other h cs :
  Rep other h cs →
  ∃ this' h' cs',
    copy_nodes other h = Ok (this', h') ∧ Rep this' h' cs'
    ∧ cs'.*2 = cs.*2
    ∧ (∀ c, c ∈ cs' → h !! c.1 = None)
    ∧ (∀ a n, h !! a = Some n → h' !! a = Some n).
Proof.
  intros. edestruct dl_copy_nodes_exact as (this' & h' & cs' & ? & ? & ? & ? & ? & _);
    [done..|]. by exists this', h', cs'.
Qed.

(** ** Construction from an initializer list *)

Lemma dl_init_rest_exact rest : ∀ h built cur,
  dseg h None (built ++ [cur]) None →
  NoDup (built ++ [cur]).*1 →
  ∃ added h',
    init_rest rest (Some cur.1) h = Ok (last_loc (cur :: added) None, h')
    ∧ dseg h' None (built ++ cur :: added) None
    ∧ NoDup (built ++ cur :: added).*1
    ∧ added.*2 = rest
    ∧ (∀ c, c ∈ added → h !! c.1 = None)
    ∧ (∀ a n, a ≠ cur.1 → h !! a = Some n → h' !! a = Some n)
    ∧ (∀ a, is_Some (h' !! a) → is_Some (h !! a) ∨ a ∈ added.*1).
Proof.
  induction rest as [|r rest IH]; intros h built cur Hnew Hnd.
  - exists [], h. split; [done|].
    split; [done|]. split; [done|]. split; [done|].
    split; [by intros c ?%elem_of_nil|]. split; [done|by left].
  - set (a := fresh (dom h)).
    assert (h !! a = None) as Ha by apply fresh_unused.
    apply dl_dseg_app in Hnew as [Hbuilt [Hcurnode _]]. simpl in Hbuilt, Hcurnode.
    assert (a ∉ built.*1) as Habuilt by eauto using dl_dseg_unused.
    assert (a ≠ cur.1) as Hacur by congruence.
    pose proof Hnd as Hnd0. rewrite fmap_app in Hnd.
    apply NoDup_app in Hnd as (Hndb & Hsep & _).
    assert (cur.1 ∉ built.*1) as Hcurbuilt.
    { intros Hin. apply (Hsep _ Hin). apply list_elem_of_here. }
    destruct (IH
      (<[a:=mkNode r None (Some cur.1)]>
        (<[a:=mkNode r None (Some cur.1)]>
          (<[cur.1:=mkNode cur.2 (Some a) (last_loc built None)]>
            (<[a:=mkNode r None None]> h))))
      (built ++ [cur]) (a, r))
      as (added & h' & Hrun & Hseg' & Hnd' & Hvals & Hfresh & Hkept & Halloc).
    { apply dl_dseg_app. simpl. split.
      - apply dl_dseg_app. simpl. split; [frame_seg|]. split; [by solve_lookup|done].
      - rewrite last_loc_snoc. split; [by solve_lookup|done]. }
    { apply (dl_NoDup_fst_snoc _ (a, r)); [done|]. simpl. rewrite fmap_app.
      apply not_elem_of_app. split; [done|].
      apply not_elem_of_cons. split; [done|apply not_elem_of_nil]. }
    exists ((a, r) :: added), h'. split.
    { simpl. do 7 mstep. fold a.
      simpl in Hrun. rewrite Hrun. by rewrite !last_loc_cons. }
    split; [by rewrite <- app_assoc in Hseg'|].
    split; [by rewrite <- app_assoc in Hnd'|].
    split; [by rewrite !fmap_cons, Hvals|]. split.
    + intros c [->|Hc]%elem_of_cons; [done|].
      specialize (Hfresh c Hc).
      destruct (decide (c.1 = a)) as [Heq|Hne].
      { rewrite Heq in Hfresh. by rewrite lookup_insert_eq in Hfresh. }
      destruct (decide (c.1 = cur.1)) as [Heq|Hne'].
      { rewrite Heq in Hfresh. rewrite !lookup_insert_ne in Hfresh by done.
        by rewrite lookup_insert_eq in Hfresh. }
      by rewrite !lookup_insert_ne in Hfresh by done.
    + split.
      * intros b n Hb Hbn. apply Hkept.
        -- simpl. congruence.
        -- by solve_lookup.
      * intros b Hb. rewrite fmap_cons. simpl.
        destruct (Halloc b Hb) as [Hs|Hin]; [|right; by apply list_elem_of_further].
        destruct (decide (b = a)) as [->|Hba]; [right; apply list_elem_of_here|].
        left. destruct (decide (b = cur.1)) as [->|Hbc]; [by eexists|].
        by rewrite !lookup_insert_ne in Hs by done.
Qed.

Lemma dl_init_rest_spec rest : ∀ h built cur,
  dseg h None (built ++ [cur]) None →
  NoDup (built ++ [cur]).*1 →
  ∃ added h',
    init_rest rest (Some cur.1) h = Ok (last_loc (cur :: added) None, h')
    ∧ dseg h' None (built ++ cur :: added) None
    ∧ NoDup (built ++ cur :: added).*1
    ∧ added.*2 = rest
    ∧ (∀ c, c ∈ added → h !! c.1 = None)
    ∧ (∀ a n, a ≠ cur.1 → h !! a = Some n → h' !! a = Some n).
Proof.
  intros. edestruct dl_init_rest_exact as (added & h' & ? & ? & ? & ? & ? & ? & _);
    [done..|]. by exists added, h'.
Qed.

Lemma dl_init_ctor_exact (init_list : list T) h :
  N.of_nat (length init_list) ≤ SIZE_MAX →
  ∃ this' h' cs',
    init_ctor init_list h = Ok (this', h') ∧ Rep this' h' cs'
    ∧ cs'.*2 = init_list
    ∧ (∀ c, c ∈ cs' → h !! c.1 = None)
    ∧ (∀ a n, h !! a = Some n → h' !! a = Some n)
    ∧ (∀ a, is_Some (h' !! a) → is_Some (h !! a) ∨ a ∈ cs'.*1).
Proof.
  intros Hbound. unfold init_ctor. destruct init_list as [|x rest].
  - simpl. exists default_ctor, h, []. split; [done|].
    split; [apply dl_Rep_nil|]. split; [done|].
    split; [by intros c ?%elem_of_nil|]. split; [done|by left].
  - replace (N.of_nat (length (x :: rest)) =? 0) with false
      by (symmetry; apply N.eqb_neq; simpl; lia).
    set (a := fresh (dom h)).
    assert (h !! a = None) as Ha by apply fresh_unused.
    destruct (dl_init_rest_exact rest (<[a:=mkNode x None None]> h) [] (a, x))
      as (added & h' & Hrun & Hseg' & Hnd' & Hvals & Hfresh & Hkept & Halloc).
    { simpl. split; [by solve_lookup|done]. }
    { apply NoDup_singleton. }
    simpl in Hrun, Hseg', Hnd'.
    exists (mkList (Some a) (last_loc ((a, x) :: added) None)
              (N.of_nat (length (x :: rest)))),
      h', ((a, x) :: added).
    split.
    { do 3 mstep. fold a. rewrite !insert_insert_eq.
      erewrite bind_Ok; [|apply Hrun]. done. }
    split.
    { constructor; simpl; try done.
      - apply (f_equal length) in Hvals. rewrite length_fmap in Hvals. lia.
      - apply (f_equal length) in Hvals. rewrite length_fmap in Hvals.
        simpl in Hbound. lia. }
    split; [by rewrite !fmap_cons, Hvals|]. split.
    + intros c [->|Hc]%elem_of_cons; [done|].
      by apply Hfresh, lookup_insert_None in Hc as [? _].
    + split.
      * intros b n Hbn. apply Hkept; [simpl; congruence|]. by solve_lookup.
      * intros b Hb. rewrite fmap_cons. simpl.
        destruct (Halloc b Hb) as [Hs|Hin]; [|right; by apply list_elem_of_further].
        destruct (decide (b = a)) as [->|Hba]; [right; apply list_elem_of_here|].
        left. by rewrite lookup_insert_ne in Hs by done.
Qed.

Lemma dl_init_ctor_spec (init_list : list T) h :
  N.of_nat (length init_list) ≤ SIZE_MAX →
  ∃ this' h' cs',
    init_ctor init_list h = Ok (this', h') ∧ Rep this' h' cs'
    ∧ cs'.*2 = init_list
    ∧ (∀ c, c ∈ cs' → h !! c.1 = None)
    ∧ (∀ a n, h !! a = Some n → h' !! a = Some n).
Proof.
  intros. edestruct dl_init_ctor_exact as (this' & h' & cs' & ? & ? & ? & ? & ? & _);
    [done..|]. by exists this', h', cs'.
Qed.

(** ** Assignment and moves *)

Lemma dl_copy_assign_spec this other h cs1 cs2 :
  Rep this h cs1 → Rep other h cs2 → cs1.*1 ## cs2.*1 →
  ∃ this' h' cs',
    copy_assign false other this h = Ok (this', h')
    ∧ Rep this' h' cs' ∧ cs'.*2 = cs2.*2
    ∧ Rep other h' cs2 ∧ cs'.*1 ## cs2.*1.
Proof.
  intros HR1 HR2 Hdisj.
  destruct (dl_clear_spec _ _ _ HR1) as (h1 & Hclear & Hkept1).
  assert (Rep other h1 cs2) as HR2'.
  { apply dl_Rep_frame with h; [|done]. intros c Hc.
    destruct (dl_Rep_alloc _ _ _ _ HR2 Hc) as [n Hn]. rewrite Hn.
    apply Hkept1; [|done]. intros Hin. apply (Hdisj c.1); [done|].
    apply list_elem_of_fmap. eauto. }
  destruct (dl_copy_nodes_spec _ _ _ HR2')
    as (this' & h' & cs' & Hrun & HR' & Hvals & Hfresh & Hkept).
  exists this', h', cs'. split.
  { unfold copy_assign. rewrite (bind_Ok _ _ _ _ _ Hclear). simpl.
    destruct (size_ other =? 0) eqn:Hz; [|done].
    unfold copy_nodes in Hrun. by rewrite Hz in Hrun. }
  split; [done|]. split; [done|]. split; [by apply dl_Rep_kept with h1|].
  intros b [c [-> Hc]]%list_elem_of_fmap [c2 [Heq Hc2]]%list_elem_of_fmap.
  destruct (dl_Rep_alloc _ _ _ _ HR2' Hc2) as [n Hn].
  rewrite <- Heq, (Hfresh c Hc) in Hn. done.
Qed.

Lemma dl_copy_assign_self this other h :
  copy_assign (T:=T) true other this h = Ok (this, h).
Proof. done. Qed.

Lemma dl_move_ctor_spec other h cs :
  Rep other h cs →
  Rep (move_ctor other).1 h cs ∧ Rep (T:=T) (move_ctor other).2 h [].
Proof.
  intros HR. split; [by destruct other, HR|apply dl_Rep_nil].
Qed.

Lemma dl_move_assign_spec this other h cs1 cs2 :
  Rep this h cs1 → Rep other h cs2 → cs1.*1 ## cs2.*1 →
  ∃ this' other' h',
    move_assign false other this h = Ok ((this', other'), h')
    ∧ Rep this' h' cs2 ∧ Rep other' h' [].
Proof.
  intros HR1 HR2 Hdisj.
  destruct (dl_clear_spec _ _ _ HR1) as (h1 & Hclear & Hkept1).
  exists (mkList (head_ other) (tail_ other) (size_ other)), default_ctor, h1.
  split.
  { unfold move_assign. by rewrite (bind_Ok _ _ _ _ _ Hclear). }
  split; [|apply dl_Rep_nil].
  apply dl_Rep_frame with h; [|by destruct other, HR2]. intros c Hc.
  destruct (dl_Rep_alloc _ _ _ _ HR2 Hc) as [n Hn]. rewrite Hn.
  apply Hkept1; [|done]. intros Hin. apply (Hdisj c.1); [done|].
  apply list_elem_of_fmap. eauto.
Qed.

Lemma dl_move_assign_self this other h :
  move_assign (T:=T) true other this h = Ok ((this, this), h).
Proof. done. Qed.

(** ** The invariants of the data model *)

Lemma dl_reachable_cell h b cs a :
  dseg h b cs None → reachable h (first_loc cs None) a →
  ∃ i c, cs !! i = Some c ∧ c.1 = a.
Proof.
  intros Hseg Hreach. remember (first_loc cs None) as p eqn:Hp.
  revert b cs Hseg Hp.
  induction Hreach as [a|a n a' Han Hreach IH]; intros b cs Hseg Hp.
  - destruct cs as [|c cs]; [done|]. simpl in Hp. exists 0%nat, c.
    split; [done|]. congruence.
  - destruct cs as [|c cs]; [done|]. simpl in Hp. destruct Hseg as [Hc Hrest].
    assert (c.1 = a) as Hca by congruence. rewrite Hca in Hc.
    rewrite Han in Hc. injection Hc as ->. simpl in *.
    destruct (IH _ _ Hrest eq_refl) as (i & c' & Hi & Hc').
    by exists (S i), c'.
Qed.

Lemma dl_Rep_back_links this h cs : Rep this h cs → back_links this h.
Proof.
  intros [Hnd Hsize Hbound Hhead Htail Hseg] a n b Hreach Han Hnext.
  rewrite Hhead in Hreach.
  destruct (dl_reachable_cell _ _ _ _ Hseg Hreach) as (i & c & Hi & <-).
  rewrite (dl_dseg_lookup _ _ _ _ _ _ Hseg Hi) in Han. injection Han as <-.
  simpl in Hnext.
  destruct (drop (S i) cs) as [|c' rest] eqn:Hdrop; [done|].
  simpl in Hnext. injection Hnext as <-.
  assert (cs !! S i = Some c') as Hi'.
  { rewrite <- (Nat.add_0_r (S i)), <- lookup_drop. by rewrite Hdrop. }
  eexists. split; [apply (dl_dseg_lookup _ _ _ _ _ _ Hseg Hi')|].
  simpl. apply (last_loc_take _ _ _ _ Hi).
Qed.

Lemma dl_Rep_ends_closed this h cs : Rep this h cs → ends_closed this h.
Proof.
  intros [Hnd Hsize Hbound Hhead Htail Hseg]. split.
  - intros a n Ha Han. rewrite Hhead in Ha.
    destruct cs as [|c cs]; [done|]. simpl in Ha, Hseg.
    destruct Hseg as [Hc _]. injection Ha as <-. rewrite Hc in Han.
    by injection Han as <-.
  - intros a n Ha Han. rewrite Htail in Ha.
    induction cs as [|c cs _] using rev_ind; [done|].
    rewrite last_loc_snoc in Ha. injection Ha as <-.
    apply dl_dseg_app in Hseg as [_ [Hc _]]. rewrite Hc in Han.
    by injection Han as <-.
Qed.

Lemma dl_Rep_size_zero this h cs : Rep this h cs → size_zero_iff_no_head this.
Proof.
  intros [Hnd Hsize Hbound Hhead Htail Hseg]. unfold size_zero_iff_no_head.
  rewrite Hsize, Hhead. destruct cs; simpl; split; (done || lia).
Qed.

Lemma dl_Rep_no_head this h cs : Rep this h cs → no_head_iff_no_tail this.
Proof.
  intros [Hnd Hsize Hbound Hhead Htail Hseg]. unfold no_head_iff_no_tail.
  by rewrite Hhead, Htail, first_loc_None, last_loc_None.
Qed.

Lemma dl_Rep_size_one this h cs : Rep this h cs → size_one_iff_one_node this.
Proof.
  intros [Hnd Hsize Hbound Hhead Htail Hseg]. unfold size_one_iff_one_node.
  rewrite Hsize, Hhead, Htail. destruct cs as [|c [|c' cs]].
  - simpl. split; [lia|]. by intros [_ [? ?]].
  - simpl. split; [|done]. intros _. split; [done|]. by eexists.
  - split; [simpl; lia|]. intros [Heq _]. exfalso.
    rewrite last_loc_cons in Heq. simpl in Heq.
    rewrite fmap_cons in Hnd. apply NoDup_cons in Hnd as [Hc _]. apply Hc.
    destruct (last (c' :: cs)) as [d|] eqn:Hlast.
    + unfold last_loc in Heq. rewrite Hlast in Heq. injection Heq as ->.
      apply list_elem_of_fmap. exists d. split; [done|].
      apply last_Some in Hlast as [l' ->]. apply elem_of_app. right.
      apply list_elem_of_here.
    + by apply last_None in Hlast.
Qed.

(** ** Cursors *)

Lemma dl_incr_sentinel k h : incr (T:=T) (mkCursor k None) h = Ok (mkCursor k None, h).
Proof. done. Qed.

Lemma dl_decr_sentinel k h : decr (T:=T) (mkCursor k None) h = Ok (mkCursor k None, h).
Proof. done. Qed.

Lemma dl_incr_at k h a n :
  h !! a = Some n →
  incr (mkCursor k (Some a)) h
  = Ok (mkCursor k (if forward k then next n else previous n), h).
Proof. intros Ha. unfold incr. destruct k; simpl; by mstep. Qed.

Lemma dl_decr_at k h a n :
  h !! a = Some n →
  decr (mkCursor k (Some a)) h
  = Ok (mkCursor k (if forward k then previous n else next n), h).
Proof. intros Ha. unfold decr. destruct k; simpl; by mstep. Qed.



Lemma dl_plus_assign_repeat (n : N) it h :
  n ≤ SIZE_MAX → plus_assign (T:=T) n it h = repeatM (N.to_nat n) incr it h.
Proof. apply for_up_repeat. Qed.

Lemma dl_minus_assign_repeat (n : N) it h :
  n ≤ SIZE_MAX → minus_assign (T:=T) n it h = repeatM (N.to_nat n) decr it h.
Proof. apply for_up_repeat. Qed.

Lemma dl_visit_forward h b cs k k' fuel :
  dseg h b cs None → forward k = true → (length cs ≤ fuel)%nat →
  visit_until fuel (mkCursor k (first_loc cs None)) (mkCursor k' None) h
  = Ok (cs.*2, h).
Proof.
  revert b fuel. induction cs as [|c cs IH]; intros b fuel Hseg Hk Hfuel.
  - by destruct fuel.
  - destruct fuel as [|fuel]; simpl in Hfuel; [lia|].
    destruct Hseg as [Hc Hrest]. simpl.
    assert (length cs ≤ fuel)%nat as Hf by lia.
    unfold deref. simpl. mstep.
    rewrite (bind_Ok _ _ _ _ _ (dl_incr_at _ _ _ _ Hc)), Hk. simpl.
    rewrite (bind_Ok _ _ _ _ _ (IH _ _ Hrest Hk Hf)). done.
Qed.

Lemma dl_visit_backward h cs a k k' fuel :
  dseg h None cs a → forward k = false → (length cs ≤ fuel)%nat →
  visit_until fuel (mkCursor k (last_loc cs None)) (mkCursor k' None) h
  = Ok (reverse cs.*2, h).
Proof.
  revert a fuel. induction cs as [|c cs IH] using rev_ind; intros a fuel Hseg Hk Hfuel.
  - by destruct fuel.
  - rewrite length_app in Hfuel. simpl in Hfuel.
    destruct fuel as [|fuel]; [lia|].
    apply dl_dseg_app in Hseg as [Hfront [Hc _]]. simpl in Hfront, Hc.
    rewrite last_loc_snoc. simpl.
    assert (length cs ≤ fuel)%nat as Hf by lia.
    unfold deref. simpl. mstep.
    rewrite (bind_Ok _ _ _ _ _ (dl_incr_at _ _ _ _ Hc)), Hk. simpl.
    rewrite (bind_Ok _ _ _ _ _ (IH _ _ Hfront Hk Hf)).
    by rewrite fmap_snoc, reverse_snoc.
Qed.

(** [end()], [cend()], [rend()] and [crend()] read a link of the tail
    or of the head. *)
Lemma dl_past_the_end this h cs :
  Rep this h cs → cs ≠ [] →
  end_ this h = Ok (mkCursor Iterator None, h)
  ∧ cend this h = Ok (mkCursor ConstIterator None, h)
  ∧ rend this h = Ok (mkCursor ReverseIterator None, h)
  ∧ crend this h = Ok (mkCursor ConstReverseIterator None, h).
Proof.
  intros HR Hne. pose proof HR as [_ _ _ Hhead Htail Hseg].
  unfold end_, cend, rend, crend. rewrite Hhead, Htail.
  destruct cs as [|c cs]; [congruence|]. pose proof Hseg as [Hc _]. simpl.
  rewrite !(bind_Ok _ _ _ _ _ (dl_get_previous_at _ _ _ Hc)). simpl.
  destruct (exists_last (l:=c :: cs)) as (l & t & Heq); [done|].
  rewrite Heq in Hseg |- *.
  apply dl_dseg_app in Hseg as [_ [Ht _]]. rewrite last_loc_snoc.
  by rewrite !(bind_Ok _ _ _ _ _ (dl_get_next_at _ _ _ Ht)).
Qed.

Lemma dl_past_the_end_empty this (h : heap) :
  head_ this = None → tail_ this = None →
  end_ this h = Undefined ∧ cend this h = Undefined
  ∧ rend this h = Undefined ∧ crend this h = Undefined.
Proof. intros Hhead Htail. unfold end_, cend, rend, crend. by rewrite Hhead, Htail. Qed.

Lemma dl_heap_bounds_cells this h cs : Rep this h cs → (length cs ≤ base.size h)%nat.
Proof.
  intros HR. rewrite <- (length_fmap fst).
  apply nodes_le_heap_size; [apply HR|].
  intros b [c [-> Hc]]%list_elem_of_fmap. by apply (dl_Rep_alloc _ _ _ _ HR).
Qed.

Lemma dl_traverse_run (first last : object → M (Node:=Node) cursor) this h b e :
  first this h = Ok (b, h) → last this h = Ok (e, h) →
  traverse first last this h = visit_until (S (base.size h)) b e h.
Proof.
  intros Hb He. unfold traverse.
  erewrite bind_Ok; [|reflexivity].
  erewrite bind_Ok; [|apply Hb]. by erewrite bind_Ok; [|apply He].
Qed.

Lemma dl_traverse_spec this h cs :
  Rep this h cs → cs ≠ [] →
  traverse begin end_ this h = Ok (cs.*2, h)
  ∧ traverse cbegin cend this h = Ok (cs.*2, h)
  ∧ traverse rbegin rend this h = Ok (reverse cs.*2, h)
  ∧ traverse crbegin crend this h = Ok (reverse cs.*2, h).
Proof.
  intros HR Hne. pose proof (dl_heap_bounds_cells _ _ _ HR) as Hfuel.
  destruct (dl_past_the_end _ _ _ HR Hne) as (He & Hce & Hre & Hcre).
  pose proof HR as [_ _ _ Hhead Htail Hseg].
  rewrite (dl_traverse_run begin end_ _ _ _ _ eq_refl He).
  rewrite (dl_traverse_run cbegin cend _ _ _ _ eq_refl Hce).
  rewrite (dl_traverse_run rbegin rend _ _ _ _ eq_refl Hre).
  rewrite (dl_traverse_run crbegin crend _ _ _ _ eq_refl Hcre).
  rewrite Hhead, Htail.
  rewrite !(dl_visit_forward _ _ _ _ _ _ Hseg) by (done || lia).
  rewrite !(dl_visit_backward _ _ _ _ _ _ Hseg) by (done || lia). done.
Qed.

Lemma dl_traverse_empty this (h : heap) :
  head_ this = None → tail_ this = None →
  traverse begin end_ this h = Undefined
  ∧ traverse cbegin cend this h = Undefined
  ∧ traverse rbegin rend this h = Undefined
  ∧ traverse crbegin crend this h = Undefined.
Proof.
  intros Hhead Htail.
  destruct (dl_past_the_end_empty this h Hhead Htail) as (He & Hce & Hre & Hcre).
  unfold traverse, bind, heap_size, begin, cbegin, rbegin, crbegin, ret.
  by rewrite He, Hce, Hre, Hcre.
Qed.

(** ** The nodes visited by a lookup *)

Lemma dl_walk_to_visited_forget index this h :
  forget_visited (walk_to_visited index this h) = walk_to index this h.
Proof.
  unfold walk_to_visited, walk_to, for_up, for_down.
  destruct (closer_to_end _ _); [apply loop_down_visiting|apply loop_up_visiting].
Qed.

Lemma dl_walk_next_visited h b c cs a k vs :
  dseg h b (c :: cs) a → (k ≤ length cs)%nat →
  repeatM k (visiting get_next) (Some c.1, vs) h
  = Ok ((first_loc (drop k (c :: cs)) a, vs ++ (Some <$> (take k cs).*1)), h).
Proof.
  revert b c cs vs. induction k as [|k IH]; intros b c cs vs Hseg Hk.
  - simpl. by rewrite app_nil_r.
  - destruct cs as [|c' cs]; simpl in Hk; [lia|].
    destruct Hseg as [Hc Hrest]. simpl in Hc.
    erewrite repeatM_S_Ok; cycle 1.
    { unfold visiting. simpl. by mstep. }
    simpl. rewrite (IH _ _ _ _ Hrest) by lia.
    by rewrite <- app_assoc.
Qed.

Lemma dl_walk_previous_visited h b cs c a k vs :
  dseg h b (cs ++ [c]) a → (k ≤ length cs)%nat →
  repeatM k (visiting get_previous) (Some c.1, vs) h
  = Ok ((last_loc (take (length cs + 1 - k) (cs ++ [c])) b,
         vs ++ (Some <$> (reverse (drop (length cs - k) cs)).*1)), h).
Proof.
  revert cs c a vs. induction k as [|k IH]; intros cs c a vs Hseg Hk.
  - simpl. rewrite !Nat.sub_0_r, drop_all, app_nil_r.
    rewrite take_ge by (rewrite length_app; simpl; lia).
    by rewrite last_loc_snoc.
  - induction cs as [|c' cs _] using rev_ind; simpl in Hk; [lia|].
    rewrite length_app in Hk. simpl in Hk.
    apply dl_dseg_app in Hseg as [Hfront [Hc _]]. simpl in Hfront, Hc.
    rewrite last_loc_snoc in Hc.
    erewrite repeatM_S_Ok; cycle 1.
    { unfold visiting. simpl. by mstep. }
    simpl. rewrite (IH _ _ _ _ Hfront) by lia.
    rewrite length_app. rewrite <- app_assoc. simpl.
    replace (length cs + 1 + 1 - S k)%nat with (length cs + 1 - k)%nat by lia.
    rewrite (take_app_le (cs ++ [c'])) by (rewrite length_app; simpl; lia).
    replace (length cs + 1 - S k)%nat with (length cs - k)%nat by lia.
    rewrite (drop_app_le cs) by lia.
    by rewrite reverse_snoc.
Qed.

Lemma dl_walk_to_visited_at this h cs (i : nat) c :
  Rep this h cs → cs !! i = Some c →
  ∃ visited,
    walk_to_visited (N.of_nat i) this h = Ok ((Some c.1, visited), h)
    ∧ visited
      = (if closer_to_end (size_ this) (N.of_nat i)
         then Some <$> (reverse (drop i cs)).*1
         else Some <$> (take (S i) cs).*1).
Proof.
  intros [Hnd Hsize Hbound Hhead Htail Hseg] Hc.
  pose proof (lookup_lt_Some _ _ _ Hc) as Hi.
  unfold walk_to_visited. destruct (closer_to_end _ _) eqn:Hdir.
  - rewrite for_down_repeat by (rewrite size_sub_le; lia).
    rewrite size_sub_le by lia. rewrite Htail.
    destruct (exists_last (l:=cs)) as (l & t & ->); [by intros ->|].
    rewrite length_app in Hi, Hsize. simpl in Hi, Hsize.
    rewrite last_loc_snoc.
    rewrite (dl_walk_previous_visited _ _ _ _ _ _ _ Hseg) by lia.
    eexists. split.
    + replace (length l + 1 - N.to_nat (size_ this - 1 - N.of_nat i))%nat
        with (S i) by lia.
      by rewrite (last_loc_take _ _ _ _ Hc).
    + replace (length l - N.to_nat (size_ this - 1 - N.of_nat i))%nat with i by lia.
      rewrite (drop_app_le l) by lia. by rewrite reverse_snoc.
  - rewrite for_up_repeat by lia. rewrite Hhead, Nat2N.id.
    destruct cs as [|c0 cs]; [done|]. simpl in Hi |- *.
    rewrite (dl_walk_next_visited _ _ _ _ _ _ _ Hseg) by lia.
    eexists. split; [|done].
    by rewrite (first_loc_drop _ _ _ _ Hc).
Qed.
(** ** The nodes a lookup reads

    The cells [operator[]] reads through on its way to the cell at
    index [i]: the cells from [i] on when it walks backward from the
    tail, the cells up to [i] when it walks forward from the head. *)

Lemma dl_walk_next_stuck h b cs d k :
  dseg h b cs (Some d) → h !! d = None → (length cs ≤ k)%nat →
  bind (repeatM k get_next (first_loc cs (Some d))) get_value h = Undefined.
Proof.
  revert b k. induction cs as [|c cs IH]; intros b k Hseg Hd Hk.
  - assert (get_value (Some d) h = Undefined) as Hv
      by (unfold get_value, bind, load; by rewrite Hd).
    assert (get_next (Some d) h = Undefined) as Hn
      by (unfold get_next, bind, load; by rewrite Hd).
    destruct k as [|k]; simpl; [done|].
    unfold bind at 1. unfold bind at 1. by rewrite Hn.
  - destruct Hseg as [Hc Hrest]. destruct k as [|k]; simpl in Hk; [lia|].
    simpl. unfold bind at 1. unfold bind at 1.
    rewrite (dl_get_next_at _ _ _ Hc). simpl.
    apply (IH (Some c.1)); [done..|lia].
Qed.

Lemma dl_walk_previous_stuck h cs a d k :
  dseg h (Some d) cs a → h !! d = None → (length cs ≤ k)%nat →
  bind (repeatM k get_previous (last_loc cs (Some d))) get_value h = Undefined.
Proof.
  revert a k. induction cs as [|c cs IH] using rev_ind; intros a k Hseg Hd Hk.
  - assert (get_value (Some d) h = Undefined) as Hv
      by (unfold get_value, bind, load; by rewrite Hd).
    assert (get_previous (Some d) h = Undefined) as Hn
      by (unfold get_previous, bind, load; by rewrite Hd).
    change (last_loc [] (Some d)) with (Some d).
    destruct k as [|k]; simpl; [done|].
    unfold bind at 1. unfold bind at 1. by rewrite Hn.
  - apply dl_dseg_app in Hseg as [Hfront [Hc _]]. simpl in Hfront, Hc.
    rewrite length_app in Hk. simpl in Hk.
    destruct k as [|k]; [lia|]. rewrite last_loc_snoc.
    simpl. unfold bind at 1. unfold bind at 1.
    rewrite (dl_get_previous_at _ _ _ Hc). simpl.
    apply (IH (Some c.1)); [done..|lia].
Qed.

Lemma dl_read_by_lookup_length this h cs (i : nat) c :
  Rep this h cs → cs !! i = Some c →
  length (read_by_lookup this cs i) = ((S i) `min` (length cs - i))%nat.
Proof.
  intros [Hnd Hsize Hbound Hhead Htail Hseg] Hc.
  pose proof (lookup_lt_Some _ _ _ Hc) as Hi. unfold read_by_lookup.
  assert (closer_to_end (size_ this) (N.of_nat i)
          = (size_ this - 1 - N.of_nat i <? N.of_nat i)) as ->
    by (apply closer_to_end_in_range; lia).
  destruct (_ <? _) eqn:Hdir.
  - apply N.ltb_lt in Hdir. rewrite length_drop. lia.
  - apply N.ltb_ge in Hdir. rewrite length_take. lia.
Qed.

Lemma dl_lookup_reads_only this h cs (i : nat) c h' :
  Rep this h cs → cs !! i = Some c →
  (∀ d, d ∈ read_by_lookup this cs i → h' !! d.1 = h !! d.1) →
  operator_index (N.of_nat i) this h' = Ok (c.2, h').
Proof.
  intros [Hnd Hsize Hbound Hhead Htail Hseg] Hc Hagree.
  pose proof (lookup_lt_Some _ _ _ Hc) as Hi.
  unfold read_by_lookup in Hagree. unfold operator_index, walk_to.
  destruct (closer_to_end _ _) eqn:Hdir.
  - rewrite <- (take_drop i cs) in Hseg, Htail.
    apply dl_dseg_app in Hseg as [_ Hback].
    apply (dl_dseg_frame _ h') in Hback; [|done].
    rewrite last_loc_app in Htail.
    assert (for_down (size_sub (size_ this) 1) (N.of_nat i) get_previous
              (tail_ this) h' = Ok (Some c.1, h')) as Hwalk.
    { rewrite for_down_repeat by (rewrite size_sub_le; lia).
      rewrite size_sub_le by lia. rewrite Htail.
      rewrite (dl_walk_previous _ _ _ _ _ Hback) by (rewrite length_drop; lia).
      rewrite length_drop.
      replace (length cs - i - N.to_nat (size_ this - 1 - N.of_nat i))%nat
        with 1%nat by lia.
      by rewrite (drop_S _ _ _ Hc). }
    rewrite (bind_Ok _ _ _ _ _ Hwalk).
    rewrite (drop_S _ _ _ Hc) in Hback. destruct Hback as [Hnode _].
    by rewrite (dl_get_value_at _ _ _ Hnode).
  - rewrite <- (take_drop (S i) cs) in Hseg, Hhead.
    apply dl_dseg_app in Hseg as [Hfront _].
    apply (dl_dseg_frame _ h') in Hfront; [|done].
    rewrite first_loc_app in Hhead.
    assert ((take (S i) cs) !! i = Some c) as Hc'
      by (rewrite lookup_take_lt by lia; done).
    assert (for_up (N.of_nat i) get_next (head_ this) h' = Ok (Some c.1, h'))
      as Hwalk.
    { rewrite for_up_repeat by lia. rewrite Nat2N.id, Hhead.
      rewrite (dl_walk_next _ _ _ _ _ Hfront) by (rewrite length_take; lia).
      by rewrite (first_loc_drop _ _ _ _ Hc'). }
    rewrite (bind_Ok _ _ _ _ _ Hwalk).
    by rewrite (dl_get_value_at _ _ _ (dl_dseg_lookup _ _ _ _ _ _ Hfront Hc')).
Qed.

Lemma dl_lookup_needs this h cs (i j : nat) c d :
  Rep this h cs → cs !! i = Some c → cs !! j = Some d →
  (if closer_to_end (size_ this) (N.of_nat i) then i ≤ j else j ≤ i)%nat →
  operator_index (N.of_nat i) this (base.delete d.1 h) = Undefined.
Proof.
  intros [Hnd Hsize Hbound Hhead Htail Hseg] Hc Hd Hside.
  pose proof (lookup_lt_Some _ _ _ Hc) as Hi.
  pose proof (lookup_lt_Some _ _ _ Hd) as Hj.
  rewrite <- (take_drop_middle _ _ _ Hd) in Hnd, Hseg, Hhead, Htail.
  apply NoDup_fst_middle in Hnd as (Hbefore & Hafter & _).
  unfold operator_index, walk_to.
  destruct (closer_to_end _ _) eqn:Hdir.
  - rewrite (cons_middle d), app_assoc in Hseg, Htail.
    apply dl_dseg_app in Hseg as [_ Hback]. rewrite last_loc_snoc in Hback.
    rewrite last_loc_app, last_loc_snoc in Htail.
    apply (dl_dseg_delete_ne _ _ _ _ d.1) in Hback; [|done].
    unfold bind. rewrite for_down_repeat by (rewrite size_sub_le; lia).
    rewrite size_sub_le by lia. rewrite Htail.
    apply (dl_walk_previous_stuck _ _ _ _ _ Hback); [apply lookup_delete_eq|].
    rewrite length_drop. lia.
  - apply dl_dseg_app in Hseg as [Hfront _]. simpl in Hfront.
    rewrite first_loc_app in Hhead. simpl in Hhead.
    apply (dl_dseg_delete_ne _ _ _ _ d.1) in Hfront; [|done].
    unfold bind. rewrite for_up_repeat by lia. rewrite Nat2N.id, Hhead.
    apply (dl_walk_next_stuck _ _ _ _ _ Hfront); [apply lookup_delete_eq|].
    rewrite length_take. lia.
Qed.

Lemma dl_read_by_lookup_elem this cs (i j : nat) d :
  cs !! j = Some d →
  (if closer_to_end (size_ this) (N.of_nat i) then i ≤ j else j ≤ i)%nat →
  d ∈ read_by_lookup this cs i.
Proof.
  intros Hd Hside. unfold read_by_lookup. apply list_elem_of_lookup.
  destruct (closer_to_end _ _).
  - exists (j - i)%nat. rewrite lookup_drop. by replace (i + (j - i))%nat with j by lia.
  - exists j. by rewrite lookup_take_lt by lia.
Qed.

Lemma dl_read_by_lookup_inv this cs (i j : nat) d :
  NoDup cs.*1 → cs !! j = Some d → d.1 ∈ (read_by_lookup this cs i).*1 →
  (if closer_to_end (size_ this) (N.of_nat i) then i ≤ j else j ≤ i)%nat.
Proof.
  intros Hnd Hd [e [Heq He]]%list_elem_of_fmap. unfold read_by_lookup in He.
  apply list_elem_of_lookup in He as [k Hk].
  assert (∀ m, cs !! m = Some e → m = j) as Hsame.
  { intros m Hm. apply (NoDup_lookup cs.*1 m j d.1); [done|..].
    - by rewrite list_lookup_fmap, Hm, Heq.
    - by rewrite list_lookup_fmap, Hd. }
  destruct (closer_to_end _ _).
  - rewrite lookup_drop in Hk. specialize (Hsame _ Hk). lia.
  - destruct (decide (k < S i)%nat) as [Hlt|Hge].
    + rewrite lookup_take_lt in Hk by done. specialize (Hsame _ Hk). lia.
    + rewrite lookup_take_ge in Hk by lia. done.
Qed.

End Facts.
End DoublyLinkedListFacts.

(** * Facts about [manual::LinkedList] *)

Module LinkedListFacts.
Import LinkedList.
Section Facts.
Context {T : Type}.
Local Abbreviation Node := (Node T).
Local Abbreviation heap := (gmap loc Node).
Implicit Types (h : heap) (cs : list (loc * T)) (this : object).

(** ** Field access *)

Lemma sl_get_value_at h a n : h !! a = Some n → get_value (Some a) h = Ok (value n, h).
Proof. intros Ha. unfold get_value. by rewrite (bind_Ok _ _ _ _ _ (load_Some _ _ _ Ha)). Qed.

Lemma sl_get_next_at h a n : h !! a = Some n → get_next (Some a) h = Ok (next n, h).
Proof. intros Ha. unfold get_next. by rewrite (bind_Ok _ _ _ _ _ (load_Some _ _ _ Ha)). Qed.

Lemma sl_set_next_at h a n v :
  h !! a = Some n → set_next (Some a) v h = Ok (tt, <[a:=mkNode (value n) v]> h).
Proof.
  intros Ha. unfold set_next.
  rewrite (bind_Ok _ _ _ _ _ (load_Some _ _ _ Ha)). by apply store_Some with n.
Qed.

Lemma sl_new_node_fresh (v : T) h :
  new_node v h = Ok (Some (fresh (dom h)), <[fresh (dom h):=mkNode v None]> h).
Proof. done. Qed.

Ltac solve_lookup :=
  repeat first
    [ rewrite lookup_insert_eq
    | rewrite lookup_insert_ne by (done || congruence)
    | rewrite lookup_delete_ne by (done || congruence) ];
  first [ reflexivity | eassumption | idtac ].

Ltac mstep :=
  erewrite bind_Ok; cycle 1;
  [ first [ apply sl_get_value_at | apply sl_get_next_at | apply sl_set_next_at
          | eapply delete_Some | apply sl_new_node_fresh ];
    solve_lookup
  | simpl ].

(** ** Segments *)

Lemma sl_sseg_app h cs1 cs2 a :
  sseg h (cs1 ++ cs2) a ↔ sseg h cs1 (first_loc cs2 a) ∧ sseg h cs2 a.
Proof.
  induction cs1 as [|c cs1 IH]; simpl.
  - tauto.
  - rewrite IH, first_loc_app. tauto.
Qed.

Lemma sl_sseg_frame h h' cs a :
  (∀ c, c ∈ cs → h' !! c.1 = h !! c.1) → sseg h cs a → sseg h' cs a.
Proof.
  induction cs as [|c cs IH]; intros Hsame; simpl; [done|].
  intros [Hc Hrest]. split.
  - rewrite Hsame; [done|]. apply list_elem_of_here.
  - apply IH; [|done]. intros c' Hc'. apply Hsame. by apply list_elem_of_further.
Qed.

Lemma sl_sseg_alloc h cs a c : sseg h cs a → c ∈ cs → is_Some (h !! c.1).
Proof.
  induction cs as [|c' cs IH]; simpl; [by intros _ ?%elem_of_nil|].
  intros [Hc Hrest] [->|Hin]%elem_of_cons; eauto.
Qed.

Lemma sl_sseg_unused h cs x a : sseg h cs x → h !! a = None → a ∉ cs.*1.
Proof.
  intros Hseg Ha [c [-> Hc]]%list_elem_of_fmap.
  destruct (sl_sseg_alloc _ _ _ _ Hseg Hc) as [n Hn]. congruence.
Qed.

Lemma sl_sseg_lookup h cs a i c :
  sseg h cs a → cs !! i = Some c →
  h !! c.1 = Some (mkNode c.2 (first_loc (drop (S i) cs) a)).
Proof.
  intros Hseg Hc. rewrite <- (take_drop_middle _ _ _ Hc) in Hseg.
  apply sl_sseg_app in Hseg as [_ Hseg]. by destruct Hseg as [Hnode _].
Qed.

Lemma sl_sseg_insert_ne h cs a x n :
  x ∉ cs.*1 → sseg h cs a → sseg (<[x:=n]> h) cs a.
Proof.
  intros Hx. apply sl_sseg_frame. intros c Hc. apply lookup_insert_ne.
  intros ->. apply Hx, list_elem_of_fmap. eauto.
Qed.

Lemma sl_sseg_delete_ne h cs a x :
  x ∉ cs.*1 → sseg h cs a → sseg (base.delete x h) cs a.
Proof.
  intros Hx. apply sl_sseg_frame. intros c Hc. apply lookup_delete_ne.
  intros ->. apply Hx, list_elem_of_fmap. eauto.
Qed.

(** The link of a node counts only when the node is the last of the
    segment. *)
Lemma sl_sseg_relink h cs c a a' :
  sseg h (cs ++ [c]) a → c.1 ∉ cs.*1 →
  sseg (<[c.1:=mkNode c.2 a']> h) (cs ++ [c]) a'.
Proof.
  intros [Hfront _]%sl_sseg_app Hc. apply sl_sseg_app. simpl. split.
  - by apply sl_sseg_insert_ne.
  - by rewrite lookup_insert_eq.
Qed.

Ltac frame_seg :=
  repeat first [ apply sl_sseg_insert_ne; [done|] | apply sl_sseg_delete_ne; [done|] ];
  try done.

Lemma sl_Rep_alloc this h cs c : Rep this h cs → c ∈ cs → is_Some (h !! c.1).
Proof. intros HR. apply sl_sseg_alloc with None, HR. Qed.

Lemma sl_Rep_unused this h cs a : Rep this h cs → h !! a = None → a ∉ cs.*1.
Proof. intros HR. apply sl_sseg_unused with None, HR. Qed.

Lemma sl_Rep_frame this h h' cs :
  (∀ c, c ∈ cs → h' !! c.1 = h !! c.1) → Rep this h cs → Rep this h' cs.
Proof. intros Hsame [? ? ? ? ? ?]. constructor; eauto using sl_sseg_frame. Qed.

Lemma sl_Rep_kept this h h' cs :
  (∀ a n, h !! a = Some n → h' !! a = Some n) → Rep this h cs → Rep this h' cs.
Proof.
  intros Hkept HR. apply sl_Rep_frame with h; [|done]. intros c Hc.
  destruct (sl_Rep_alloc _ _ _ _ HR Hc) as [n Hn]. rewrite Hn. by apply Hkept.
Qed.

Lemma sl_Rep_nil h : Rep default_ctor h [].
Proof. constructor; simpl; try done. apply NoDup_nil_2. Qed.

Lemma sl_Rep_nil_inv this h : Rep this h [] → this = default_ctor.
Proof. intros [_ Hsize _ Hhead Htail _]. destruct this. simpl in *. by subst. Qed.

Lemma sl_heap_bounds_cells this h cs : Rep this h cs → (length cs ≤ base.size h)%nat.
Proof.
  intros HR. rewrite <- (length_fmap fst).
  apply nodes_le_heap_size; [apply HR|].
  intros b [c [-> Hc]]%list_elem_of_fmap. by apply (sl_Rep_alloc _ _ _ _ HR).
Qed.

(** ** Walking along [next] *)

Lemma sl_walk_next h cs a k :
  sseg h cs a → (k ≤ length cs)%nat →
  repeatM k get_next (first_loc cs a) h = Ok (first_loc (drop k cs) a, h).
Proof.
  revert cs. induction k as [|k IH]; intros cs Hseg Hk.
  - by rewrite drop_0.
  - destruct cs as [|c cs]; simpl in Hk; [lia|].
    destruct Hseg as [Hc Hrest].
    rewrite (repeatM_S_Ok _ _ _ _ _ _ (sl_get_next_at _ _ _ Hc)). simpl.
    apply (IH _ Hrest). lia.
Qed.

Lemma sl_operator_index_at this h cs (i : nat) c :
  Rep this h cs → cs !! i = Some c →
  operator_index (N.of_nat i) this h = Ok (c.2, h).
Proof.
  intros [Hnd Hsize Hbound Hhead Htail Hseg] Hc.
  pose proof (lookup_lt_Some _ _ _ Hc) as Hi.
  unfold operator_index. erewrite bind_Ok; cycle 1.
  { rewrite for_up_repeat by lia. rewrite Hhead, Nat2N.id.
    rewrite (sl_walk_next _ _ _ _ Hseg) by lia.
    by rewrite (first_loc_drop _ _ _ _ Hc). }
  by rewrite (sl_get_value_at _ _ _ (sl_sseg_lookup _ _ _ _ _ Hseg Hc)).
Qed.

(** [prev] and [current] after [j + 1] rounds of the loop of [insert]
    and [remove]. *)
Lemma sl_advance_walk h cs a (j : nat) c p0 :
  sseg h cs a → cs !! j = Some c →
  repeatM (S j) advance (p0, first_loc cs a) h
  = Ok ((Some c.1, first_loc (drop (S j) cs) a), h).
Proof.
  revert cs p0. induction j as [|j IH]; intros cs p0 Hseg Hc.
  - destruct cs as [|c0 cs]; [done|]. injection Hc as ->.
    destruct Hseg as [Hc _]. simpl. unfold advance at 1. simpl.
    erewrite bind_Ok; [|by mstep]. by rewrite drop_0.
  - destruct cs as [|c0 cs]; [done|]. simpl in Hc.
    destruct Hseg as [Hc0 Hrest].
    erewrite repeatM_S_Ok; cycle 1.
    { unfold advance. simpl. by mstep. }
    by rewrite (IH _ _ Hrest Hc).
Qed.

(** ** The modifiers *)

Lemma sl_NoDup_fst_snoc cs c : NoDup cs.*1 → c.1 ∉ cs.*1 → NoDup (cs ++ [c]).*1.
Proof.
  intros Hnd Hc. rewrite <- (app_nil_r (cs ++ [c])), <- app_assoc.
  apply NoDup_fst_insert; by rewrite app_nil_r.
Qed.

Lemma sl_push_back_spec this h cs v :
  Rep this h cs → N.of_nat (length cs) < SIZE_MAX →
  ∃ a this' h',
    push_back v this h = Ok (this', h') ∧ h !! a = None
    ∧ Rep this' h' (cs ++ [(a, v)]) ∧ others_kept cs h h'.
Proof.
  intros HR Hlt. pose proof HR as [Hnd Hsize Hbound Hhead Htail Hseg].
  set (a := fresh (dom h)).
  assert (h !! a = None) as Ha by apply fresh_unused.
  assert (a ∉ cs.*1) as Hout by eauto using sl_Rep_unused.
  exists a. unfold push_back. do 2 mstep. fold a. rewrite insert_insert_eq.
  destruct (exists_last_or_nil cs) as [->|(l & t & ->)].
  - rewrite Hsize. simpl. eexists _, _. split; [done|]. split; [done|]. split.
    + constructor; simpl.
      * apply NoDup_singleton.
      * by rewrite size_incr_small.
      * unfold SIZE_MAX; lia.
      * done.
      * done.
      * split; [|done]. apply lookup_insert_eq.
    + intros b n _ Hb. by solve_lookup.
  - rewrite length_app in *. simpl in *.
    replace (size_ this =? 0) with false by (symmetry; apply N.eqb_neq; lia).
    rewrite last_loc_snoc in Htail. rewrite Htail.
    pose proof Hseg as [Hfront [Ht _]]%sl_sseg_app. simpl in Hfront, Ht.
    assert (t.1 ≠ a) as Hta by congruence.
    pose proof Hnd as (Htl & _ & Hndl)%NoDup_fst_middle. rewrite app_nil_r in Hndl.
    mstep. eexists _, _. split; [done|]. split; [done|]. split.
    + constructor; simpl.
      * by apply sl_NoDup_fst_snoc.
      * rewrite size_incr_small by lia. rewrite !length_app. simpl. lia.
      * rewrite !length_app. simpl. lia.
      * by rewrite Hhead, <- app_assoc, !first_loc_app.
      * by rewrite last_loc_snoc.
      * apply sl_sseg_app. simpl. split.
        -- eapply sl_sseg_relink; [|done]. by apply sl_sseg_insert_ne.
        -- split; [by solve_lookup|done].
    + intros b n Hb Hbn. rewrite fmap_app in Hb.
      apply not_elem_of_app in Hb as [_ Hb].
      apply not_elem_of_cons in Hb as [Hb _]. by solve_lookup.
Qed.

Lemma sl_push_front_spec this h cs v :
  Rep this h cs → N.of_nat (length cs) < SIZE_MAX →
  ∃ a this' h',
    push_front v this h = Ok (this', h') ∧ h !! a = None
    ∧ Rep this' h' ((a, v) :: cs) ∧ others_kept cs h h'.
Proof.
  intros HR Hlt. pose proof HR as [Hnd Hsize Hbound Hhead Htail Hseg].
  set (a := fresh (dom h)).
  assert (h !! a = None) as Ha by apply fresh_unused.
  assert (a ∉ cs.*1) as Hout by eauto using sl_Rep_unused.
  exists a. unfold push_front. do 2 mstep. fold a. rewrite insert_insert_eq.
  assert (others_kept cs h (<[a:=mkNode v (head_ this)]> h)) as Hkept.
  { intros b n _ Hb. by solve_lookup. }
  destruct cs as [|t cs].
  - rewrite Hsize. simpl. eexists _, _. split; [done|]. split; [done|].
    split; [|done]. constructor; simpl.
    + apply NoDup_singleton.
    + by rewrite size_incr_small.
    + unfold SIZE_MAX; lia.
    + done.
    + done.
    + rewrite Hhead. split; [|done]. apply lookup_insert_eq.
  - simpl in Hsize, Hlt, Hbound.
    replace (size_ this =? 0) with false by (symmetry; apply N.eqb_neq; lia).
    eexists _, _. split; [done|]. split; [done|]. split; [|done].
    constructor.
    + rewrite fmap_cons. by apply NoDup_cons.
    + simpl. rewrite size_incr_small by lia. lia.
    + simpl. lia.
    + done.
    + simpl. by rewrite Htail, !last_loc_cons.
    + split; [rewrite Hhead; by solve_lookup|]. by apply sl_sseg_insert_ne.
Qed.

Lemma sl_pop_front_empty this h : size_ this = 0 → pop_front this h = Ok (this, h).
Proof. unfold pop_front. by intros ->. Qed.

Lemma sl_pop_back_empty this h : size_ this = 0 → pop_back this h = Ok (this, h).
Proof. unfold pop_back. by intros ->. Qed.

Lemma sl_pop_front_cons this h t cs :
  Rep this h (t :: cs) →
  ∃ this' h',
    pop_front this h = Ok (this', h') ∧ Rep this' h' cs
    ∧ others_kept (t :: cs) h h'.
Proof.
  intros [Hnd Hsize Hbound Hhead Htail Hseg]. unfold pop_front.
  destruct Hseg as [Ht Hrest]. simpl in Hsize, Hbound, Hhead.
  rewrite fmap_cons in Hnd. apply NoDup_cons in Hnd as [Htcs Hnd].
  replace (size_ this =? 0) with false by (symmetry; apply N.eqb_neq; lia).
  rewrite Hhead. do 2 mstep.
  assert (others_kept (t :: cs) h (base.delete t.1 h)) as Hkept.
  { intros b n Hb Hbn. rewrite fmap_cons in Hb.
    apply not_elem_of_cons in Hb as [Hbt _]. by solve_lookup. }
  destruct cs as [|u cs].
  - rewrite Hsize. simpl. eexists _, _. split; [done|]. split; [|done].
    by constructor.
  - simpl in Hsize, Hbound.
    replace (size_ this =? 1) with false by (symmetry; apply N.eqb_neq; lia).
    eexists _, _. split; [done|]. split; [|done]. constructor.
    + done.
    + simpl. rewrite size_decr_pos by lia. lia.
    + simpl. lia.
    + done.
    + simpl. by rewrite Htail, !last_loc_cons.
    + by apply sl_sseg_delete_ne.
Qed.

Lemma sl_before_tail_found h cs p t fuel :
  sseg h (cs ++ [p; t]) None → NoDup (cs ++ [p; t]).*1 →
  (length cs < fuel)%nat →
  before_tail fuel (Some t.1) (first_loc (cs ++ [p; t]) None) h = Ok (Some p.1, h).
Proof.
  revert fuel. induction cs as [|c cs IH]; intros fuel Hseg Hnd Hfuel;
    (destruct fuel as [|fuel]; simpl in Hfuel; [lia|]).
  - destruct Hseg as [Hp _]. simpl. mstep. by rewrite bool_decide_eq_true_2.
  - destruct Hseg as [Hc Hrest]. simpl. mstep.
    assert (NoDup (cs ++ [p; t]).*1) as Hnd'.
    { simpl in Hnd. by apply NoDup_cons in Hnd as [_ ?]. }
    rewrite bool_decide_eq_false_2.
    + apply IH; [done..|lia].
    + rewrite (cons_middle p), app_assoc in Hnd'.
      apply NoDup_fst_middle in Hnd' as (Ht & _ & _).
      rewrite (cons_middle p), app_assoc, first_loc_app.
      destruct (cs ++ [p]) as [|x l] eqn:Hx; [by destruct cs|].
      simpl. intros [= Heq]. apply Ht. rewrite fmap_cons, Heq.
      apply list_elem_of_here.
Qed.

Lemma sl_pop_back_snoc this h cs t :
  Rep this h (cs ++ [t]) →
  ∃ this' h',
    pop_back this h = Ok (this', h') ∧ Rep this' h' cs
    ∧ others_kept (cs ++ [t]) h h'.
Proof.
  intros HR. pose proof HR as [Hnd Hsize Hbound Hhead Htail Hseg].
  pose proof (sl_heap_bounds_cells _ _ _ HR) as Hfuel.
  unfold pop_back.
  rewrite length_app in Hsize, Hbound, Hfuel. simpl in Hsize, Hbound, Hfuel.
  pose proof Hnd as (Htcs & _ & Hnd1)%NoDup_fst_middle. rewrite app_nil_r in Hnd1.
  pose proof Hseg as [Hfront [Ht _]]%sl_sseg_app. simpl in Hfront, Ht.
  replace (size_ this =? 0) with false by (symmetry; apply N.eqb_neq; lia).
  rewrite last_loc_snoc in Htail.
  destruct (exists_last_or_nil cs) as [->|(l & p & ->)].
  - simpl in *. rewrite Hsize, Hhead. simpl. mstep.
    eexists _, _. split; [done|]. split; [by constructor|].
    intros b n Hb Hbn. apply not_elem_of_cons in Hb as [Hbt _]. by solve_lookup.
  - rewrite length_app in Hsize, Hbound, Hfuel. simpl in Hsize, Hbound, Hfuel.
    replace (size_ this =? 1) with false by (symmetry; apply N.eqb_neq; lia).
    rewrite <- app_assoc in Hseg, Hnd, Hhead. simpl in Hseg, Hnd, Hhead.
    pose proof Hnd1 as (Hpl & _ & Hnd2)%NoDup_fst_middle.
    rewrite fmap_app in Htcs. apply not_elem_of_app in Htcs as [Htl Htp].
    apply not_elem_of_cons in Htp as [Htp _].
    pose proof Hfront as [Hl [Hp _]]%sl_sseg_app. simpl in Hl, Hp.
    erewrite bind_Ok; [|reflexivity].
    erewrite bind_Ok; cycle 1.
    { rewrite Htail, Hhead. apply sl_before_tail_found; [done..|lia]. }
    simpl. do 3 mstep.
    eexists _, _. split; [done|]. split.
    + constructor; simpl.
      * done.
      * rewrite size_decr_pos by lia. rewrite length_app. simpl. lia.
      * rewrite length_app. simpl. lia.
      * by rewrite Hhead, !first_loc_app.
      * by rewrite last_loc_snoc.
      * eapply sl_sseg_relink; [|done]. apply sl_sseg_delete_ne; [|done].
        rewrite fmap_app. apply not_elem_of_app. split; [done|].
        apply not_elem_of_cons. split; [done|apply not_elem_of_nil].
    + intros b n Hb Hbn. rewrite !fmap_app in Hb.
      apply not_elem_of_app in Hb as [Hb Hbt].
      apply not_elem_of_app in Hb as [Hb Hbp].
      apply not_elem_of_cons in Hbt as [Hbt _].
      apply not_elem_of_cons in Hbp as [Hbp _]. by solve_lookup.
Qed.

Lemma sl_insert_middle this h l1 p c l2 v :
  Rep this h (l1 ++ p :: c :: l2) →
  N.of_nat (length (l1 ++ p :: c :: l2)) < SIZE_MAX →
  ∃ a this' h',
    insert (N.of_nat (S (length l1))) v this h = Ok (this', h')
    ∧ h !! a = None
    ∧ Rep this' h' (l1 ++ p :: (a, v) :: c :: l2)
    ∧ others_kept (l1 ++ p :: c :: l2) h h'.
Proof.
  intros HR Hlt. pose proof HR as [Hnd Hsize Hbound Hhead Htail Hseg].
  set (a := fresh (dom h)).
  assert (h !! a = None) as Ha by apply fresh_unused.
  assert (a ∉ (l1 ++ p :: c :: l2).*1) as Hout by eauto using sl_Rep_unused.
  exists a. unfold insert.
  rewrite length_app in Hsize, Hlt, Hbound. simpl in Hsize, Hlt, Hbound.
  replace (_ <=? _) with true by (symmetry; apply N.leb_le; lia).
  replace (_ =? 0) with false by (symmetry; apply N.eqb_neq; lia).
  replace (_ =? _) with false by (symmetry; apply N.eqb_neq; lia).
  mstep. fold a.
  erewrite bind_Ok; cycle 1.
  { rewrite for_up_repeat by lia. rewrite Nat2N.id, Hhead.
    apply sl_advance_walk with (c := p).
    - by apply sl_sseg_insert_ne.
    - by rewrite list_lookup_middle. }
  rewrite (cons_middle p), app_assoc.
  rewrite drop_app_length' by (rewrite length_app; simpl; lia).
  rewrite <- app_assoc. simpl.
  apply sl_sseg_app in Hseg as (Hfront & Hp & Hc & Hback). simpl in Hfront, Hp, Hc.
  pose proof Hnd as (Hpl1 & Hpl2 & Hnd1)%NoDup_fst_middle.
  pose proof Hnd1 as (Hcl1 & Hcl2 & Hnd2)%NoDup_fst_middle.
  rewrite fmap_cons in Hpl2. apply not_elem_of_cons in Hpl2 as [Hpc Hpl2].
  pose proof Hout as Hout0. rewrite fmap_app, !fmap_cons in Hout.
  apply not_elem_of_app in Hout as [Hal1 Hout].
  apply not_elem_of_cons in Hout as [Hap Hout].
  apply not_elem_of_cons in Hout as [Hac Hal2].
  do 2 mstep.
  eexists _, _. split; [done|]. split; [done|]. split.
  - constructor; simpl.
    + rewrite (cons_middle p), app_assoc.
      apply NoDup_fst_insert; by rewrite <- app_assoc.
    + rewrite size_incr_small by lia. rewrite length_app. simpl. lia.
    + rewrite length_app. simpl. lia.
    + by rewrite Hhead, !first_loc_app.
    + rewrite Htail, !last_loc_app. by rewrite !last_loc_cons.
    + apply sl_sseg_app. simpl. split; [frame_seg|].
      split; [by solve_lookup|]. split; [by solve_lookup|].
      split; [by solve_lookup|]. frame_seg.
  - intros b n Hb Hbn. rewrite fmap_app, !fmap_cons in Hb.
    apply not_elem_of_app in Hb as [Hbl1 Hb].
    apply not_elem_of_cons in Hb as [Hbp Hb]. by solve_lookup.
Qed.

Lemma sl_remove_middle this h l1 p c n l2 :
  Rep this h (l1 ++ p :: c :: n :: l2) →
  ∃ this' h',
    remove (N.of_nat (S (length l1))) this h = Ok (this', h')
    ∧ Rep this' h' (l1 ++ p :: n :: l2)
    ∧ others_kept (l1 ++ p :: c :: n :: l2) h h'.
Proof.
  intros HR. pose proof HR as [Hnd Hsize Hbound Hhead Htail Hseg].
  unfold remove.
  rewrite length_app in Hsize, Hbound. simpl in Hsize, Hbound.
  replace (_ <? _) with true by (symmetry; apply N.ltb_lt; lia).
  replace (_ =? 0) with false by (symmetry; apply N.eqb_neq; lia).
  rewrite size_sub_le by lia.
  replace (_ =? _) with false by (symmetry; apply N.eqb_neq; lia).
  erewrite bind_Ok; cycle 1.
  { rewrite for_up_repeat by lia. rewrite Nat2N.id, Hhead.
    apply sl_advance_walk with (c := p); [done|]. by rewrite list_lookup_middle. }
  rewrite (cons_middle p), app_assoc.
  rewrite drop_app_length' by (rewrite length_app; simpl; lia).
  rewrite <- app_assoc. simpl.
  apply sl_sseg_app in Hseg as (Hfront & Hp & Hc & Hn & Hback).
  simpl in Hfront, Hp, Hc, Hn.
  assert (NoDup (l1 ++ p :: n :: l2).*1) as Hnd'.
  { pose proof Hnd as H0. rewrite (cons_middle p), app_assoc in H0.
    apply NoDup_fst_middle in H0 as (_ & _ & H0). by rewrite <- app_assoc in H0. }
  pose proof Hnd as (Hpl1 & Hpl2 & Hnd1)%NoDup_fst_middle.
  pose proof Hnd1 as (Hcl1 & Hcl2 & Hnd2)%NoDup_fst_middle.
  rewrite !fmap_cons in Hpl2. apply not_elem_of_cons in Hpl2 as [Hpc Hpl2].
  assert (p.1 ∉ (n :: l2).*1) as Hpnl2 by done.
  do 3 mstep.
  eexists _, _. split; [done|]. split.
  - constructor; simpl.
    + done.
    + rewrite size_decr_pos by lia. rewrite length_app. simpl. lia.
    + rewrite length_app. simpl. lia.
    + by rewrite Hhead, !first_loc_app.
    + rewrite Htail, !last_loc_app. by rewrite !last_loc_cons.
    + apply sl_sseg_app. simpl. split; [frame_seg|].
      split; [by solve_lookup|]. change (sseg (base.delete c.1
        (<[p.1:=mkNode p.2 (Some n.1)]> h)) (n :: l2) None).
      frame_seg.
  - intros b m Hb Hbm. rewrite fmap_app, !fmap_cons in Hb.
    apply not_elem_of_app in Hb as [Hbl1 Hb].
    apply not_elem_of_cons in Hb as [Hbp Hb].
    apply not_elem_of_cons in Hb as [Hbc Hb]. by solve_lookup.
Qed.

(** ** [insert] and [remove] at any index *)

Lemma sl_insert_zero this h (v : T) : insert 0 v this h = push_front v this h.
Proof. unfold insert. by rewrite (proj2 (N.leb_le 0 _)) by lia. Qed.

Lemma sl_insert_size this h (v : T) :
  size_ this ≠ 0 → insert (size_ this) v this h = push_back v this h.
Proof.
  intros Hne. unfold insert. rewrite N.leb_refl, N.eqb_refl.
  by apply N.eqb_neq in Hne as ->.
Qed.

Lemma sl_push_front_empty this h (v : T) :
  Rep this h [] → push_front v this h = push_back v this h.
Proof.
  intros [_ Hsize _ Hhead Htail _]. simpl in *.
  unfold push_front, push_back. by rewrite Hsize, Hhead.
Qed.

Lemma sl_insert_past_end this h i (v : T) :
  size_ this < i → insert i v this h = Ok (this, h).
Proof. intros Hi. unfold insert. by apply N.leb_gt in Hi as ->. Qed.

Lemma sl_remove_past_end this h i :
  size_ this ≤ i → remove (T:=T) i this h = Ok (this, h).
Proof. intros Hi. unfold remove. by apply N.ltb_ge in Hi as ->. Qed.

Lemma sl_insert_spec this h cs (i : nat) v :
  Rep this h cs → (i ≤ length cs)%nat → N.of_nat (length cs) < SIZE_MAX →
  ∃ a this' h',
    insert (N.of_nat i) v this h = Ok (this', h') ∧ h !! a = None
    ∧ Rep this' h' (take i cs ++ (a, v) :: drop i cs)
    ∧ others_kept cs h h'.
Proof.
  intros HR Hi Hlt.
  destruct (decide (i = 0%nat)) as [->|Hi0].
  { rewrite sl_insert_zero. rewrite take_0, drop_0. by apply sl_push_front_spec. }
  destruct (decide (i = length cs)) as [->|Hilen].
  { rewrite <- (rep_size _ _ _ HR), sl_insert_size
      by (rewrite (rep_size _ _ _ HR); lia).
    rewrite firstn_all, drop_all. by apply sl_push_back_spec. }
  destruct (split_two cs i) as (l1 & p & c & l2 & -> & Hl1); [lia..|].
  replace i with (S (length l1)) by lia.
  destruct (sl_insert_middle _ _ _ _ _ _ v HR Hlt)
    as (a & this' & h' & Hrun & Ha & HR' & Hkept).
  exists a, this', h'. split; [done|]. split; [done|]. split; [|done].
  rewrite (cons_middle p l1), app_assoc.
  rewrite take_app_length', drop_app_length' by (rewrite length_app; simpl; lia).
  by rewrite <- app_assoc.
Qed.

Lemma sl_remove_spec this h cs (i : nat) :
  Rep this h cs →
  ∃ this' h',
    remove (N.of_nat i) this h = Ok (this', h')
    ∧ Rep this' h' (base.delete i cs) ∧ others_kept cs h h'.
Proof.
  intros HR. pose proof (rep_size _ _ _ HR) as Hsize.
  pose proof (rep_bound _ _ _ HR) as Hbound.
  destruct (decide (length cs ≤ i)%nat) as [Hge|Hlt].
  { rewrite sl_remove_past_end by lia. exists this, h. split; [done|].
    rewrite delete_take_drop, take_ge, drop_ge, app_nil_r by lia.
    split; [done|]. by intros a n _ Ha. }
  destruct (decide (i = 0%nat)) as [->|Hi0].
  { destruct cs as [|t cs]; simpl in Hlt; [lia|].
    unfold remove. rewrite Hsize. simpl.
    by apply sl_pop_front_cons. }
  destruct (decide (i = length cs - 1)%nat) as [Hlast|Hmid].
  { induction cs as [|t cs _] using rev_ind; simpl in Hlt; [lia|].
    rewrite length_app in Hlt, Hlast, Hsize, Hbound. simpl in *.
    replace i with (length cs) by lia. rewrite delete_middle, app_nil_r.
    unfold remove. rewrite Hsize.
    replace (_ <? _) with true by (symmetry; apply N.ltb_lt; lia).
    replace (_ =? 0) with false by (symmetry; apply N.eqb_neq; lia).
    rewrite size_sub_le by lia.
    replace (_ =? _) with true by (symmetry; apply N.eqb_eq; lia).
    by apply sl_pop_back_snoc. }
  destruct (split_three cs i) as (l1 & p & c & n & l2 & -> & Hl1); [lia..|].
  assert (i = S (length l1)) as -> by lia.
  replace (base.delete (S (length l1)) (l1 ++ p :: c :: n :: l2))
    with (l1 ++ p :: n :: l2).
  { by apply sl_remove_middle. }
  replace (S (length l1)) with (length (l1 ++ [p]))
    by (rewrite length_app; simpl; lia).
  transitivity (base.delete (length (l1 ++ [p])) ((l1 ++ [p]) ++ c :: n :: l2)).
  - by rewrite delete_middle, <- app_assoc.
  - by rewrite <- app_assoc.
Qed.

(** ** [clear] *)

Lemma sl_clear_walk h cs :
  NoDup cs.*1 → sseg h cs None →
  ∃ h',
    repeatM (length cs)
      (λ current, let* tmp := get_next current in
                  do delete current then ret tmp)
      (first_loc cs None) h = Ok (None, h')
    ∧ others_kept cs h h'.
Proof.
  revert h. induction cs as [|c cs IH]; intros h Hnd Hseg; simpl in *.
  - exists h. split; [done|]. by intros a n _ Ha.
  - destruct Hseg as [Hc Hrest]. apply NoDup_cons in Hnd as [Hccs Hnd].
    destruct (IH (base.delete c.1 h)) as (h' & Hrun & Hkept);
      [done|frame_seg|].
    exists h'. split.
    { erewrite bind_Ok; [apply Hrun|]. mstep. by mstep. }
    intros a n Ha Han.
    apply not_elem_of_cons in Ha as [Hac Ha].
    apply Hkept; [done|]. by solve_lookup.
Qed.

Lemma sl_clear_spec this h cs :
  Rep this h cs →
  ∃ h', clear this h = Ok (default_ctor, h') ∧ others_kept cs h h'.
Proof.
  intros HR. pose proof HR as [Hnd Hsize Hbound Hhead Htail Hseg].
  unfold clear. destruct cs as [|c cs].
  - rewrite Hsize. simpl. rewrite (sl_Rep_nil_inv _ _ HR).
    exists h. split; [done|]. by intros a n _ Ha.
  - replace (size_ this =? 0) with false
      by (symmetry; apply N.eqb_neq; simpl in Hsize; lia).
    destruct (sl_clear_walk h (c :: cs)) as (h' & Hrun & Hkept); [done..|].
    exists h'. split; [|done].
    erewrite bind_Ok; [done|].
    rewrite for_up_repeat by lia. rewrite Hsize, Nat2N.id, Hhead. apply Hrun.
Qed.

(** ** Copying *)

Lemma sl_copy_rest_exact rest : ∀ fuel h built cur oc,
  (length rest ≤ fuel)%nat →
  sseg h (oc :: rest) None →
  sseg h (built ++ [cur]) None →
  NoDup (built ++ [cur]).*1 →
  cur.1 ∉ (oc :: rest).*1 →
  ∃ added h',
    copy_rest fuel (Some cur.1) (Some oc.1) h
    = Ok (last_loc (cur :: added) None, h')
    ∧ sseg h' (built ++ cur :: added) None
    ∧ NoDup (built ++ cur :: added).*1
    ∧ added.*2 = rest.*2
    ∧ (∀ c, c ∈ added → h !! c.1 = None)
    ∧ (∀ a n, a ≠ cur.1 → h !! a = Some n → h' !! a = Some n)
    ∧ (∀ a, is_Some (h' !! a) → is_Some (h !! a) ∨ a ∈ added.*1).
Proof.
  induction rest as [|r rest IH]; intros fuel h built cur oc Hfuel Hother Hnew Hnd Hcur.
  - destruct Hother as [Hoc _]. simpl in Hoc.
    exists [], h. split.
    { destruct fuel; simpl; by mstep. }
    split; [done|]. split; [done|]. split; [done|].
    split; [by intros c ?%elem_of_nil|]. split; [done|by left].
  - destruct fuel as [|fuel]; simpl in Hfuel; [lia|].
    destruct Hother as [Hoc Hrest]. pose proof Hrest as [Hr _]. simpl in Hoc.
    set (a := fresh (dom h)).
    assert (h !! a = None) as Ha by apply fresh_unused.
    pose proof Hnew as [Hbuilt [Hcurnode _]]%sl_sseg_app. simpl in Hbuilt, Hcurnode.
    assert (a ∉ (built ++ [cur]).*1) as Habuilt by eauto using sl_sseg_unused.
    assert (a ∉ (r :: rest).*1) as Harest by eauto using sl_sseg_unused.
    assert (a ≠ cur.1) as Hacur by congruence.
    assert (a ≠ oc.1) as Haoc by congruence.
    rewrite fmap_cons in Hcur. apply not_elem_of_cons in Hcur as [Hcuroc Hcurrest].
    pose proof Hnd as (Hcurbuilt & _ & Hndb)%NoDup_fst_middle.
    destruct (IH fuel
      (<[a:=mkNode r.2 None]>
        (<[cur.1:=mkNode cur.2 (Some a)]>
          (<[a:=mkNode r.2 None]> h)))
      (built ++ [cur]) (a, r.2) r)
      as (added & h' & Hrun & Hseg' & Hnd' & Hvals & Hfresh & Hkept & Halloc).
    { lia. }
    { frame_seg. }
    { apply sl_sseg_app. simpl. split; [|split; [by solve_lookup|done]].
      apply sl_sseg_insert_ne; [done|]. eapply sl_sseg_relink; [|done].
      by apply sl_sseg_insert_ne. }
    { by apply (sl_NoDup_fst_snoc _ (a, r.2)). }
    { done. }
    exists ((a, r.2) :: added), h'. split.
    { simpl. do 8 mstep. fold a.
      simpl in Hrun. rewrite Hrun. by rewrite !last_loc_cons. }
    split; [by rewrite <- app_assoc in Hseg'|].
    split; [by rewrite <- app_assoc in Hnd'|].
    split; [by rewrite !fmap_cons, Hvals|]. split.
    + intros c [->|Hc]%elem_of_cons; [done|].
      specialize (Hfresh c Hc).
      apply lookup_insert_None in Hfresh as [Hfresh _].
      apply lookup_insert_None in Hfresh as [Hfresh _].
      by apply lookup_insert_None in Hfresh as [Hfresh _].
    + split.
      * intros b n Hb Hbn. apply Hkept.
        -- simpl. congruence.
        -- by solve_lookup.
      * intros b Hb. rewrite fmap_cons. simpl.
        destruct (Halloc b Hb) as [Hs|Hin]; [|right; by apply list_elem_of_further].
        destruct (decide (b = a)) as [->|Hba]; [right; apply list_elem_of_here|].
        left. destruct (decide (b = cur.1)) as [->|Hbc]; [by eexists|].
        by rewrite !lookup_insert_ne in Hs by done.
Qed.

Lemma sl_copy_rest_spec rest : ∀ fuel h built cur oc,
  (length rest ≤ fuel)%nat →
  sseg h (oc :: rest) None →
  sseg h (built ++ [cur]) None →
  NoDup (built ++ [cur]).*1 →
  cur.1 ∉ (oc :: rest).*1 →
  ∃ added h',
    copy_rest fuel (Some cur.1) (Some oc.1) h
    = Ok (last_loc (cur :: added) None, h')
    ∧ sseg h' (built ++ cur :: added) None
    ∧ NoDup (built ++ cur :: added).*1
    ∧ added.*2 = rest.*2
    ∧ (∀ c, c ∈ added → h !! c.1 = None)
    ∧ (∀ a n, a ≠ cur.1 → h !! a = Some n → h' !! a = Some n).
Proof.
  intros. edestruct sl_copy_rest_exact as (added & h' & ? & ? & ? & ? & ? & ? & _);
    [done..|]. by exists added, h'.
Qed.

Lemma sl_copy_nodes_exact other h cs :
  Rep other h cs →
  ∃ this' h' cs',
    copy_nodes other h = Ok (this', h') ∧ Rep this' h' cs'
    ∧ cs'.*2 = cs.*2
    ∧ (∀ c, c ∈ cs' → h !! c.1 = None)
    ∧ (∀ a n, h !! a = Some n → h' !! a = Some n)
    ∧ (∀ a, is_Some (h' !! a) → is_Some (h !! a) ∨ a ∈ cs'.*1).
Proof.
  intros HR. pose proof HR as [Hnd Hsize Hbound Hhead Htail Hseg].
  unfold copy_nodes. destruct cs as [|o rest].
  - rewrite Hsize. simpl. exists default_ctor, h, []. split; [done|].
    split; [apply sl_Rep_nil|]. split; [done|].
    split; [by intros c ?%elem_of_nil|]. split; [done|by left].
  - replace (size_ other =? 0) with false
      by (symmetry; apply N.eqb_neq; simpl in Hsize; lia).
    set (a := fresh (dom h)).
    assert (h !! a = None) as Ha by apply fresh_unused.
    assert (a ∉ (o :: rest).*1) as Hout by eauto using sl_Rep_unused.
    pose proof Hseg as [Ho _]. simpl in Ho.
    pose proof (sl_heap_bounds_cells _ _ _ HR) as Hle. simpl in Hle.
    destruct (sl_copy_rest_exact rest (S (base.size h))
                (<[a:=mkNode o.2 None]> h) [] (a, o.2) o)
      as (added & h' & Hrun & Hseg' & Hnd' & Hvals & Hfresh & Hkept & Halloc).
    { lia. }
    { frame_seg. }
    { simpl. split; [by solve_lookup|done]. }
    { apply NoDup_singleton. }
    { done. }
    simpl in Hrun, Hseg', Hnd'.
    exists (mkList (Some a) (last_loc ((a, o.2) :: added) None) (size_ other)),
      h', ((a, o.2) :: added).
    split.
    { erewrite bind_Ok; [|done]. rewrite Hhead. simpl.
      do 3 mstep. fold a. rewrite !insert_insert_eq.
      erewrite bind_Ok; [|apply Hrun]. done. }
    split.
    { constructor; simpl; try done.
      - rewrite Hsize. simpl. apply (f_equal length) in Hvals.
        rewrite !length_fmap in Hvals. lia.
      - apply (f_equal length) in Hvals.
        rewrite !length_fmap in Hvals. simpl in Hbound. lia. }
    split; [by rewrite !fmap_cons, Hvals|]. split.
    + intros c [->|Hc]%elem_of_cons; [done|].
      by apply Hfresh, lookup_insert_None in Hc as [? _].
    + split.
      * intros b n Hbn. apply Hkept; [simpl; congruence|]. by solve_lookup.
      * intros b Hb. rewrite fmap_cons. simpl.
        destruct (Halloc b Hb) as [Hs|Hin]; [|right; by apply list_elem_of_further].
        destruct (decide (b = a)) as [->|Hba]; [right; apply list_elem_of_here|].
        left. by rewrite lookup_insert_ne in Hs by done.
Qed.

Lemma sl_copy_nodes_spec other h cs :
  Rep other h cs →
  ∃ this' h' cs',
    copy_nodes other h = Ok (this', h') ∧ Rep this' h' cs'
    ∧ cs'.*2 = cs.*2
    ∧ (∀ c, c ∈ cs' → h !! c.1 = None)
    ∧ (∀ a n, h !! a = Some n → h' !! a = Some n).
Proof.
  intros. edestruct sl_copy_nodes_exact as (this' & h' & cs' & ? & ? & ? & ? & ? & _);
    [done..|]. by exists this', h', cs'.
Qed.

(** ** Construction from an initializer list *)

Lemma sl_init_rest_exact rest : ∀ h built cur,
  sseg h (built ++ [cur]) None →
  NoDup (built ++ [cur]).*1 →
  ∃ added h',
    init_rest rest (Some cur.1) h = Ok (last_loc (cur :: added) None, h')
    ∧ sseg h' (built ++ cur :: added) None
    ∧ NoDup (built ++ cur :: added).*1
    ∧ added.*2 = rest
    ∧ (∀ c, c ∈ added → h !! c.1 = None)
    ∧ (∀ a n, a ≠ cur.1 → h !! a = Some n → h' !! a = Some n)
    ∧ (∀ a, is_Some (h' !! a) → is_Some (h !! a) ∨ a ∈ added.*1).
Proof.
  induction rest as [|r rest IH]; intros h built cur Hnew Hnd.
  - exists [], h. split; [done|].
    split; [done|]. split; [done|]. split; [done|].
    split; [by intros c ?%elem_of_nil|]. split; [done|by left].
  - set (a := fresh (dom h)).
    assert (h !! a = None) as Ha by apply fresh_unused.
    pose proof Hnew as [Hbuilt [Hcurnode _]]%sl_sseg_app. simpl in Hbuilt, Hcurnode.
    assert (a ∉ (built ++ [cur]).*1) as Habuilt by eauto using sl_sseg_unused.
    assert (a ≠ cur.1) as Hacur by congruence.
    pose proof Hnd as (Hcurbuilt & _ & Hndb)%NoDup_fst_middle.
    destruct (IH
      (<[a:=mkNode r None]>
        (<[cur.1:=mkNode cur.2 (Some a)]>
          (<[a:=mkNode r None]> h)))
      (built ++ [cur]) (a, r))
      as (added & h' & Hrun & Hseg' & Hnd' & Hvals & Hfresh & Hkept & Halloc).
    { apply sl_sseg_app. simpl. split; [|split; [by solve_lookup|done]].
      apply sl_sseg_insert_ne; [done|]. eapply sl_sseg_relink; [|done].
      by apply sl_sseg_insert_ne. }
    { by apply (sl_NoDup_fst_snoc _ (a, r)). }
    exists ((a, r) :: added), h'. split.
    { simpl. do 5 mstep. fold a.
      simpl in Hrun. rewrite Hrun. by rewrite !last_loc_cons. }
    split; [by rewrite <- app_assoc in Hseg'|].
    split; [by rewrite <- app_assoc in Hnd'|].
    split; [by rewrite !fmap_cons, Hvals|]. split.
    + intros c [->|Hc]%elem_of_cons; [done|].
      specialize (Hfresh c Hc).
      apply lookup_insert_None in Hfresh as [Hfresh _].
      apply lookup_insert_None in Hfresh as [Hfresh _].
      by apply lookup_insert_None in Hfresh as [Hfresh _].
    + split.
      * intros b n Hb Hbn. apply Hkept.
        -- simpl. congruence.
        -- by solve_lookup.
      * intros b Hb. rewrite fmap_cons. simpl.
        destruct (Halloc b Hb) as [Hs|Hin]; [|right; by apply list_elem_of_further].
        destruct (decide (b = a)) as [->|Hba]; [right; apply list_elem_of_here|].
        left. destruct (decide (b = cur.1)) as [->|Hbc]; [by eexists|].
        by rewrite !lookup_insert_ne in Hs by done.
Qed.

Lemma sl_init_rest_spec rest : ∀ h built cur,
  sseg h (built ++ [cur]) None →
  NoDup (built ++ [cur]).*1 →
  ∃ added h',
    init_rest rest (Some cur.1) h = Ok (last_loc (cur :: added) None, h')
    ∧ sseg h' (built ++ cur :: added) None
    ∧ NoDup (built ++ cur :: added).*1
    ∧ added.*2 = rest
    ∧ (∀ c, c ∈ added → h !! c.1 = None)
    ∧ (∀ a n, a ≠ cur.1 → h !! a = Some n → h' !! a = Some n).
Proof.
  intros. edestruct sl_init_rest_exact as (added & h' & ? & ? & ? & ? & ? & ? & _);
    [done..|]. by exists added, h'.
Qed.

Lemma sl_init_ctor_exact (init_list : list T) h :
  N.of_nat (length init_list) ≤ SIZE_MAX →
  ∃ this' h' cs',
    init_ctor init_list h = Ok (this', h') ∧ Rep this' h' cs'
    ∧ cs'.*2 = init_list
    ∧ (∀ c, c ∈ cs' → h !! c.1 = None)
    ∧ (∀ a n, h !! a = Some n → h' !! a = Some n)
    ∧ (∀ a, is_Some (h' !! a) → is_Some (h !! a) ∨ a ∈ cs'.*1).
Proof.
  intros Hbound. unfold init_ctor. destruct init_list as [|x rest].
  - simpl. exists default_ctor, h, []. split; [done|].
    split; [apply sl_Rep_nil|]. split; [done|].
    split; [by intros c ?%elem_of_nil|]. split; [done|by left].
  - replace (N.of_nat (length (x :: rest)) =? 0) with false
      by (symmetry; apply N.eqb_neq; simpl; lia).
    set (a := fresh (dom h)).
    assert (h !! a = None) as Ha by apply fresh_unused.
    destruct (sl_init_rest_exact rest (<[a:=mkNode x None]> h) [] (a, x))
      as (added & h' & Hrun & Hseg' & Hnd' & Hvals & Hfresh & Hkept & Halloc).
    { simpl. split; [by solve_lookup|done]. }
    { apply NoDup_singleton. }
    simpl in Hrun, Hseg', Hnd'.
    exists (mkList (Some a) (last_loc ((a, x) :: added) None)
              (N.of_nat (length (x :: rest)))),
      h', ((a, x) :: added).
    split.
    { do 2 mstep. fold a. rewrite !insert_insert_eq.
      erewrite bind_Ok; [|apply Hrun]. done. }
    split.
    { constructor; simpl; try done.
      - apply (f_equal length) in Hvals. rewrite length_fmap in Hvals. lia.
      - apply (f_equal length) in Hvals. rewrite length_fmap in Hvals.
        simpl in Hbound. lia. }
    split; [by rewrite !fmap_cons, Hvals|]. split.
    + intros c [->|Hc]%elem_of_cons; [done|].
      by apply Hfresh, lookup_insert_None in Hc as [? _].
    + split.
      * intros b n Hbn. apply Hkept; [simpl; congruence|]. by solve_lookup.
      * intros b Hb. rewrite fmap_cons. simpl.
        destruct (Halloc b Hb) as [Hs|Hin]; [|right; by apply list_elem_of_further].
        destruct (decide (b = a)) as [->|Hba]; [right; apply list_elem_of_here|].
        left. by rewrite lookup_insert_ne in Hs by done.
Qed.

Lemma sl_init_ctor_spec (init_list : list T) h :
  N.of_nat (length init_list) ≤ SIZE_MAX →
  ∃ this' h' cs',
    init_ctor init_list h = Ok (this', h') ∧ Rep this' h' cs'
    ∧ cs'.*2 = init_list
    ∧ (∀ c, c ∈ cs' → h !! c.1 = None)
    ∧ (∀ a n, h !! a = Some n → h' !! a = Some n).
Proof.
  intros. edestruct sl_init_ctor_exact as (this' & h' & cs' & ? & ? & ? & ? & ? & _);
    [done..|]. by exists this', h', cs'.
Qed.

(** ** Assignment and moves *)

Lemma sl_copy_assign_spec this other h cs1 cs2 :
  Rep this h cs1 → Rep other h cs2 → cs1.*1 ## cs2.*1 →
  ∃ this' h' cs',
    copy_assign false other this h = Ok (this', h')
    ∧ Rep this' h' cs' ∧ cs'.*2 = cs2.*2
    ∧ Rep other h' cs2 ∧ cs'.*1 ## cs2.*1.
Proof.
  intros HR1 HR2 Hdisj.
  destruct (sl_clear_spec _ _ _ HR1) as (h1 & Hclear & Hkept1).
  assert (Rep other h1 cs2) as HR2'.
  { apply sl_Rep_frame with h; [|done]. intros c Hc.
    destruct (sl_Rep_alloc _ _ _ _ HR2 Hc) as [n Hn]. rewrite Hn.
    apply Hkept1; [|done]. intros Hin. apply (Hdisj c.1); [done|].
    apply list_elem_of_fmap. eauto. }
  destruct (sl_copy_nodes_spec _ _ _ HR2')
    as (this' & h' & cs' & Hrun & HR' & Hvals & Hfresh & Hkept).
  exists this', h', cs'. split.
  { unfold copy_assign. rewrite (bind_Ok _ _ _ _ _ Hclear). simpl.
    destruct (size_ other =? 0) eqn:Hz; [|done].
    unfold copy_nodes in Hrun. by rewrite Hz in Hrun. }
  split; [done|]. split; [done|]. split; [by apply sl_Rep_kept with h1|].
  intros b [c [-> Hc]]%list_elem_of_fmap [c2 [Heq Hc2]]%list_elem_of_fmap.
  destruct (sl_Rep_alloc _ _ _ _ HR2' Hc2) as [n Hn].
  rewrite <- Heq, (Hfresh c Hc) in Hn. done.
Qed.

Lemma sl_copy_assign_self this other h :
  copy_assign (T:=T) true other this h = Ok (this, h).
Proof. done. Qed.

Lemma sl_move_ctor_spec other h cs :
  Rep other h cs →
  Rep (move_ctor other).1 h cs ∧ Rep (T:=T) (move_ctor other).2 h [].
Proof.
  intros HR. split; [by destruct other, HR|apply sl_Rep_nil].
Qed.

Lemma sl_move_assign_spec this other h cs1 cs2 :
  Rep this h cs1 → Rep other h cs2 → cs1.*1 ## cs2.*1 →
  ∃ this' other' h',
    move_assign false other this h = Ok ((this', other'), h')
    ∧ Rep this' h' cs2 ∧ Rep other' h' [].
Proof.
  intros HR1 HR2 Hdisj.
  destruct (sl_clear_spec _ _ _ HR1) as (h1 & Hclear & Hkept1).
  exists (mkList (head_ other) (tail_ other) (size_ other)), default_ctor, h1.
  split.
  { unfold move_assign. by rewrite (bind_Ok _ _ _ _ _ Hclear). }
  split; [|apply sl_Rep_nil].
  apply sl_Rep_frame with h; [|by destruct other, HR2]. intros c Hc.
  destruct (sl_Rep_alloc _ _ _ _ HR2 Hc) as [n Hn]. rewrite Hn.
  apply Hkept1; [|done]. intros Hin. apply (Hdisj c.1); [done|].
  apply list_elem_of_fmap. eauto.
Qed.

Lemma sl_move_assign_self this other h :
  move_assign (T:=T) true other this h = Ok ((this, this), h).
Proof. done. Qed.

(** ** The invariants of the data model *)

Lemma sl_Rep_size_zero this h cs : Rep this h cs → size_zero_iff_no_head this.
Proof.
  intros [Hnd Hsize Hbound Hhead Htail Hseg]. unfold size_zero_iff_no_head.
  rewrite Hsize, Hhead. destruct cs; simpl; split; (done || lia).
Qed.

Lemma sl_Rep_no_head this h cs : Rep this h cs → no_head_iff_no_tail this.
Proof.
  intros [Hnd Hsize Hbound Hhead Htail Hseg]. unfold no_head_iff_no_tail.
  by rewrite Hhead, Htail, first_loc_None, last_loc_None.
Qed.

Lemma sl_Rep_size_one this h cs : Rep this h cs → size_one_iff_one_node this.
Proof.
  intros [Hnd Hsize Hbound Hhead Htail Hseg]. unfold size_one_iff_one_node.
  rewrite Hsize, Hhead, Htail. destruct cs as [|c [|c' cs]].
  - simpl. split; [lia|]. by intros [_ [? ?]].
  - simpl. split; [|done]. intros _. split; [done|]. by eexists.
  - split; [simpl; lia|]. intros [Heq _]. exfalso.
    rewrite last_loc_cons in Heq. simpl in Heq.
    rewrite fmap_cons in Hnd. apply NoDup_cons in Hnd as [Hc _]. apply Hc.
    destruct (last (c' :: cs)) as [d|] eqn:Hlast.
    + unfold last_loc in Heq. rewrite Hlast in Heq. injection Heq as ->.
      apply list_elem_of_fmap. exists d. split; [done|].
      apply last_Some in Hlast as [l' ->]. apply elem_of_app. right.
      apply list_elem_of_here.
    + by apply last_None in Hlast.
Qed.

(** ** Cursors *)

Lemma sl_incr_sentinel k h : incr (T:=T) (mkCursor k None) h = Ok (mkCursor k None, h).
Proof. done. Qed.

Lemma sl_incr_at k h a n :
  h !! a = Some n → incr (mkCursor k (Some a)) h = Ok (mkCursor k (next n), h).
Proof. intros Ha. unfold incr. simpl. by mstep. Qed.


Lemma sl_plus_assign_repeat (n : N) it h :
  n ≤ SIZE_MAX → plus_assign (T:=T) n it h = repeatM (N.to_nat n) incr it h.
Proof. apply for_up_repeat. Qed.

Lemma sl_visit_forward h cs k k' fuel :
  sseg h cs None → (length cs ≤ fuel)%nat →
  visit_until fuel (mkCursor k (first_loc cs None)) (mkCursor k' None) h
  = Ok (cs.*2, h).
Proof.
  revert fuel. induction cs as [|c cs IH]; intros fuel Hseg Hfuel.
  - by destruct fuel.
  - destruct fuel as [|fuel]; simpl in Hfuel; [lia|].
    destruct Hseg as [Hc Hrest]. simpl.
    assert (length cs ≤ fuel)%nat as Hf by lia.
    unfold deref. simpl. mstep.
    rewrite (bind_Ok _ _ _ _ _ (sl_incr_at _ _ _ _ Hc)). simpl.
    rewrite (bind_Ok _ _ _ _ _ (IH _ Hrest Hf)). done.
Qed.

Lemma sl_past_the_end this h cs :
  Rep this h cs → cs ≠ [] →
  end_ this h = Ok (mkCursor Iterator None, h)
  ∧ cend this h = Ok (mkCursor ConstIterator None, h).
Proof.
  intros [_ _ _ _ Htail Hseg] Hne. unfold end_, cend. rewrite Htail.
  destruct (exists_last_or_nil cs) as [->|(l & t & ->)]; [done|].
  apply sl_sseg_app in Hseg as [_ [Ht _]]. rewrite last_loc_snoc.
  by rewrite !(bind_Ok _ _ _ _ _ (sl_get_next_at _ _ _ Ht)).
Qed.

Lemma sl_past_the_end_empty this (h : heap) :
  tail_ this = None → end_ this h = Undefined ∧ cend this h = Undefined.
Proof. intros Htail. unfold end_, cend. by rewrite Htail. Qed.

Lemma sl_traverse_run (first last : object → M (Node:=Node) cursor) this h b e :
  first this h = Ok (b, h) → last this h = Ok (e, h) →
  traverse first last this h = visit_until (S (base.size h)) b e h.
Proof.
  intros Hb He. unfold traverse.
  erewrite bind_Ok; [|reflexivity].
  erewrite bind_Ok; [|apply Hb]. by erewrite bind_Ok; [|apply He].
Qed.

Lemma sl_traverse_spec this h cs :
  Rep this h cs → cs ≠ [] →
  traverse begin end_ this h = Ok (cs.*2, h)
  ∧ traverse cbegin cend this h = Ok (cs.*2, h).
Proof.
  intros HR Hne. pose proof (sl_heap_bounds_cells _ _ _ HR) as Hfuel.
  destruct (sl_past_the_end _ _ _ HR Hne) as (He & Hce).
  pose proof HR as [_ _ _ Hhead Htail Hseg].
  rewrite (sl_traverse_run begin end_ _ _ _ _ eq_refl He).
  rewrite (sl_traverse_run cbegin cend _ _ _ _ eq_refl Hce).
  rewrite Hhead.
  by rewrite !(sl_visit_forward _ _ _ _ _ Hseg) by lia.
Qed.

Lemma sl_traverse_empty this (h : heap) :
  tail_ this = None →
  traverse begin end_ this h = Undefined
  ∧ traverse cbegin cend this h = Undefined.
Proof.
  intros Htail. destruct (sl_past_the_end_empty this h Htail) as (He & Hce).
  unfold traverse, bind, heap_size, begin, cbegin, ret.
  by rewrite He, Hce.
Qed.
End Facts.
End LinkedListFacts.

(** * The properties of the specification *)

(** ** The sample containers are well formed *)

Lemma sample_cells_distinct : NoDup sample_cells.*1.
Proof. by apply (bool_decide_unpack _). Qed.

Lemma dl_sample_Rep : DoublyLinkedList.Rep dl_list dl_heap sample_cells.
Proof.
  constructor; [apply sample_cells_distinct|done|by vm_compute|done|done|].
  repeat split.
Qed.

Lemma sl_sample_Rep : LinkedList.Rep sl_list sl_heap sample_cells.
Proof.
  constructor; [apply sample_cells_distinct|done|by vm_compute|done|done|].
  repeat split.
Qed.

(** ** Checked access *)

Lemma dl_at_in_range {T} (this : DoublyLinkedList.object) (h : gmap loc (DoublyLinkedList.Node T)) cs index :
  DoublyLinkedList.Rep this h cs → index < DoublyLinkedList.size_ this →
  ∃ x, cs.*2 !! N.to_nat index = Some x
       ∧ DoublyLinkedList.at_ index this h = Ok (x, h)
       ∧ DoublyLinkedList.operator_index index this h = Ok (x, h).
Proof.
  intros HR Hlt. pose proof (DoublyLinkedList.rep_size _ _ _ HR) as Hsize.
  destruct (lookup_lt_is_Some_2 cs (N.to_nat index)) as [c Hc]; [lia|].
  pose proof (DoublyLinkedListFacts.dl_operator_index_at _ _ _ _ _ HR Hc) as Hop.
  rewrite N2Nat.id in Hop. exists c.2. split; [by rewrite list_lookup_fmap, Hc|].
  split; [|done]. unfold DoublyLinkedList.at_. by apply N.leb_gt in Hlt as ->.
Qed.

Lemma sl_at_in_range {T} (this : LinkedList.object) (h : gmap loc (LinkedList.Node T)) cs index :
  LinkedList.Rep this h cs → index < LinkedList.size_ this →
  ∃ x, cs.*2 !! N.to_nat index = Some x
       ∧ LinkedList.at_ index this h = Ok (x, h)
       ∧ LinkedList.operator_index index this h = Ok (x, h).
Proof.
  intros HR Hlt. pose proof (LinkedList.rep_size _ _ _ HR) as Hsize.
  destruct (lookup_lt_is_Some_2 cs (N.to_nat index)) as [c Hc]; [lia|].
  pose proof (LinkedListFacts.sl_operator_index_at _ _ _ _ _ HR Hc) as Hop.
  rewrite N2Nat.id in Hop. exists c.2. split; [by rewrite list_lookup_fmap, Hc|].
  split; [|done]. unfold LinkedList.at_. by apply N.leb_gt in Hlt as ->.
Qed.

(** C1.  On a well-formed container of either kind, [at(index)] throws
    exactly when [index >= size()], and what it throws is the
    [std::out_of_range] whose message spells the index and the size in
    decimal.  When [index < size()] it returns the element at [index] of
    the sequence, the same that [operator[]] returns, and the heap it
    leaves is the heap it found. *)
Theorem at_checked_access :
  (∀ T (this : DoublyLinkedList.object) (h : gmap loc (DoublyLinkedList.Node T)) cs index,
     DoublyLinkedList.Rep this h cs →
     ((∃ what, DoublyLinkedList.at_ index this h = Throws what) ↔ DoublyLinkedList.size this ≤ index)
     ∧ (DoublyLinkedList.size this ≤ index →
        DoublyLinkedList.at_ index this h
        = Throws ("[Out of range error] - manual::DoublyLinkedList::at() - (index: "
                    +:+ to_string index +:+ ", size: "
                    +:+ to_string (DoublyLinkedList.size this) +:+ ")."))
     ∧ (index < DoublyLinkedList.size this →
        ∃ x, cs.*2 !! N.to_nat index = Some x
             ∧ DoublyLinkedList.at_ index this h = Ok (x, h)
             ∧ DoublyLinkedList.operator_index index this h = Ok (x, h)))
  ∧ (∀ T (this : LinkedList.object) (h : gmap loc (LinkedList.Node T)) cs index,
       LinkedList.Rep this h cs →
       ((∃ what, LinkedList.at_ index this h = Throws what) ↔ LinkedList.size this ≤ index)
       ∧ (LinkedList.size this ≤ index →
          LinkedList.at_ index this h
          = Throws ("[Out of range error] - manual::LinkedList::at() - (index: "
                      +:+ to_string index +:+ ", size: "
                      +:+ to_string (LinkedList.size this) +:+ ")."))
       ∧ (index < LinkedList.size this →
          ∃ x, cs.*2 !! N.to_nat index = Some x
               ∧ LinkedList.at_ index this h = Ok (x, h)
               ∧ LinkedList.operator_index index this h = Ok (x, h))).
Proof.
  split; intros T this h cs index HR; unfold DoublyLinkedList.size, LinkedList.size.
  - assert (DoublyLinkedList.size_ this ≤ index →
            DoublyLinkedList.at_ index this h
            = Throws (DoublyLinkedList.out_of_range index (DoublyLinkedList.size_ this))) as Hthrow.
    { intros Hge. unfold DoublyLinkedList.at_. by apply N.leb_le in Hge as ->. }
    split; [|split; [done|by apply dl_at_in_range]].
    split; [|by eauto]. intros [what Hwhat].
    destruct (N.le_gt_cases (DoublyLinkedList.size_ this) index) as [|Hlt]; [done|].
    destruct (dl_at_in_range _ _ _ _ HR Hlt) as (x & _ & Hat & _). congruence.
  - assert (LinkedList.size_ this ≤ index →
            LinkedList.at_ index this h
            = Throws (LinkedList.out_of_range index (LinkedList.size_ this))) as Hthrow.
    { intros Hge. unfold LinkedList.at_. by apply N.leb_le in Hge as ->. }
    split; [|split; [done|by apply sl_at_in_range]].
    split; [|by eauto]. intros [what Hwhat].
    destruct (N.le_gt_cases (LinkedList.size_ this) index) as [|Hlt]; [done|].
    destruct (sl_at_in_range _ _ _ _ HR Hlt) as (x & _ & Hat & _). congruence.
Qed.

Lemma at_checked_access_witness :
  (DoublyLinkedList.Rep dl_list dl_heap sample_cells
   ∧ DoublyLinkedList.at_ 5 dl_list dl_heap
     = Throws "[Out of range error] - manual::DoublyLinkedList::at() - (index: 5, size: 3)."
   ∧ ∃ x, sample_cells.*2 !! 1%nat = Some x
          ∧ DoublyLinkedList.at_ 1 dl_list dl_heap = Ok (x, dl_heap)
          ∧ DoublyLinkedList.operator_index 1 dl_list dl_heap = Ok (x, dl_heap))
  ∧ (LinkedList.Rep sl_list sl_heap sample_cells
     ∧ LinkedList.at_ 5 sl_list sl_heap
       = Throws "[Out of range error] - manual::LinkedList::at() - (index: 5, size: 3)."
     ∧ ∃ x, sample_cells.*2 !! 1%nat = Some x
            ∧ LinkedList.at_ 1 sl_list sl_heap = Ok (x, sl_heap)
            ∧ LinkedList.operator_index 1 sl_list sl_heap = Ok (x, sl_heap)).
Proof.
  split.
  - split; [apply dl_sample_Rep|].
    destruct (proj1 at_checked_access nat dl_list dl_heap sample_cells 5
                dl_sample_Rep) as (_ & Hthrow & _).
    destruct (proj1 at_checked_access nat dl_list dl_heap sample_cells 1
                dl_sample_Rep) as (_ & _ & Hin).
    split; [apply Hthrow; by vm_compute|apply Hin; by vm_compute].
  - split; [apply sl_sample_Rep|].
    destruct (proj2 at_checked_access nat sl_list sl_heap sample_cells 5
                sl_sample_Rep) as (_ & Hthrow & _).
    destruct (proj2 at_checked_access nat sl_list sl_heap sample_cells 1
                sl_sample_Rep) as (_ & _ & Hin).
    split; [apply Hthrow; by vm_compute|apply Hin; by vm_compute].
Defined.

(** ** The lookup from the closest end *)

(** C2.  On a well-formed doubly-linked list, [operator[]] at an index
    below the size returns the element at that index of the sequence, and
    so does the walk that only goes forward from the head.  It walks
    backward from the tail exactly when [size - 1 - index < index], and
    forward from the head otherwise, the exact midpoint included.  The
    direction shows in what the lookup reads, in any heap: walking
    backward it is the loop from [tail_] along [previous], its result
    depends on no cell before [index], and it reads through every cell
    from [index] on (with any one of them released the lookup is
    undefined); walking forward it is the loop from [head_] along [next],
    its result depends on no cell after [index], and it reads through
    every cell up to [index]. *)
Theorem nearest_end_lookup_refines_forward_walk :
  ∀ T (this : DoublyLinkedList.object) (h : gmap loc (DoublyLinkedList.Node T)) cs index x,
    DoublyLinkedList.Rep this h cs → cs.*2 !! N.to_nat index = Some x →
    DoublyLinkedList.operator_index index this h = Ok (x, h)
    ∧ DoublyLinkedList.naive_lookup index this h = Ok (x, h)
    ∧ (closer_to_end (DoublyLinkedList.size this) index = true ↔ DoublyLinkedList.size this - 1 - index < index)
    ∧ (closer_to_end (DoublyLinkedList.size this) index = true →
       (∀ h' : gmap loc (DoublyLinkedList.Node T), DoublyLinkedList.walk_to index this h'
              = for_down (size_sub (DoublyLinkedList.size_ this) 1) index DoublyLinkedList.get_previous
                  (DoublyLinkedList.tail_ this) h')
       ∧ (∀ h' : gmap loc (DoublyLinkedList.Node T), (∀ d, d ∈ drop (N.to_nat index) cs → h' !! d.1 = h !! d.1) →
                DoublyLinkedList.operator_index index this h' = Ok (x, h'))
       ∧ (∀ d, d ∈ drop (N.to_nat index) cs →
               DoublyLinkedList.operator_index index this (base.delete d.1 h) = Undefined))
    ∧ (closer_to_end (DoublyLinkedList.size this) index = false →
       (∀ h' : gmap loc (DoublyLinkedList.Node T), DoublyLinkedList.walk_to index this h'
              = for_up index DoublyLinkedList.get_next (DoublyLinkedList.head_ this) h')
       ∧ (∀ h' : gmap loc (DoublyLinkedList.Node T), (∀ d, d ∈ take (S (N.to_nat index)) cs → h' !! d.1 = h !! d.1) →
                DoublyLinkedList.operator_index index this h' = Ok (x, h'))
       ∧ (∀ d, d ∈ take (S (N.to_nat index)) cs →
               DoublyLinkedList.operator_index index this (base.delete d.1 h) = Undefined))
    ∧ (DoublyLinkedList.size this - 1 - index = index → closer_to_end (DoublyLinkedList.size this) index = false).
Proof.
  intros T this h cs index x HR Hx. unfold DoublyLinkedList.size.
  rewrite list_lookup_fmap in Hx.
  destruct (cs !! N.to_nat index) as [c|] eqn:Hc; [|done]. injection Hx as <-.
  pose proof (lookup_lt_Some _ _ _ Hc) as Hi.
  pose proof (DoublyLinkedList.rep_size _ _ _ HR) as Hsize.
  pose proof (DoublyLinkedList.rep_bound _ _ _ HR) as Hbound.
  pose proof (DoublyLinkedListFacts.dl_operator_index_at _ _ _ _ _ HR Hc) as Hop.
  pose proof (DoublyLinkedListFacts.dl_naive_lookup_at _ _ _ _ _ HR Hc) as Hnaive.
  pose proof (λ h', DoublyLinkedListFacts.dl_lookup_reads_only this h cs _ c h' HR Hc) as Honly.
  pose proof (λ j d, DoublyLinkedListFacts.dl_lookup_needs this h cs _ j c d HR Hc) as Hneeds.
  unfold DoublyLinkedList.read_by_lookup in Honly.
  rewrite N2Nat.id in Hop, Hnaive, Honly, Hneeds.
  assert (closer_to_end (DoublyLinkedList.size_ this) index = (DoublyLinkedList.size_ this - 1 - index <? index))
    as Hdir by (apply closer_to_end_in_range; lia).
  split; [done|]. split; [done|]. split; [rewrite Hdir; apply N.ltb_lt|].
  split; [|split].
  - intros Hnear. rewrite Hnear in Honly, Hneeds. split_and!; [|done|].
    + intros h'. unfold DoublyLinkedList.walk_to. by rewrite Hnear.
    + intros d [k Hk]%list_elem_of_lookup. rewrite lookup_drop in Hk.
      apply (Hneeds _ _ Hk). lia.
  - intros Hfar. rewrite Hfar in Honly, Hneeds. split_and!; [|done|].
    + intros h'. unfold DoublyLinkedList.walk_to. by rewrite Hfar.
    + intros d [k Hk]%list_elem_of_lookup.
      destruct (decide (k < S (N.to_nat index))%nat) as [Hlt|Hge].
      * rewrite lookup_take_lt in Hk by done. apply (Hneeds _ _ Hk). lia.
      * rewrite lookup_take_ge in Hk by lia. done.
  - intros Hmid. rewrite Hdir. apply N.ltb_ge. lia.
Qed.

Lemma nearest_end_lookup_refines_forward_walk_witness :
  DoublyLinkedList.Rep dl_list dl_heap sample_cells
  ∧ sample_cells.*2 !! N.to_nat 2 = Some 30%nat
  ∧ sample_cells.*2 !! N.to_nat 1 = Some 20%nat
  ∧ DoublyLinkedList.operator_index 2 dl_list dl_heap = Ok (30%nat, dl_heap)
  ∧ DoublyLinkedList.naive_lookup 2 dl_list dl_heap = Ok (30%nat, dl_heap)
  ∧ DoublyLinkedList.operator_index 2 dl_list (base.delete 3%positive dl_heap) = Undefined
  ∧ DoublyLinkedList.operator_index 1 dl_list (base.delete 3%positive dl_heap)
    = Ok (20%nat, base.delete 3%positive dl_heap).
Proof.
  split; [apply dl_sample_Rep|]. split; [done|]. split; [done|].
  destruct (nearest_end_lookup_refines_forward_walk nat dl_list dl_heap
              sample_cells 2 30%nat dl_sample_Rep eq_refl)
    as (Hop & Hnaive & _ & Hback & _).
  destruct (nearest_end_lookup_refines_forward_walk nat dl_list dl_heap
              sample_cells 1 20%nat dl_sample_Rep eq_refl)
    as (_ & _ & _ & _ & Hforward & Hmid).
  split; [done|]. split; [done|]. split.
  - destruct Hback as (_ & _ & Hneeds); [by vm_compute|].
    apply (Hneeds (3%positive, 30%nat)). apply list_elem_of_here.
  - destruct Hforward as (_ & Honly & _); [apply Hmid; by vm_compute|].
    apply Honly. intros d Hd. apply lookup_delete_ne.
    change (d ∈ [(1%positive, 10%nat); (2%positive, 20%nat)]) in Hd.
    apply elem_of_cons in Hd as [->|Hd]; [done|].
    apply elem_of_cons in Hd as [->|Hd]; [done|].
    by apply elem_of_nil in Hd.
Defined.

(** ** Insertion *)

Lemma dl_insert_sequence {T} (this : DoublyLinkedList.object) (h : gmap loc (DoublyLinkedList.Node T)) cs index v :
  DoublyLinkedList.Rep this h cs → index ≤ DoublyLinkedList.size_ this → DoublyLinkedList.size_ this < SIZE_MAX →
  ∃ this' h' cs',
    DoublyLinkedList.insert index v this h = Ok (this', h') ∧ DoublyLinkedList.Rep this' h' cs'
    ∧ cs'.*2 = take (N.to_nat index) cs.*2 ++ [v] ++ drop (N.to_nat index) cs.*2
    ∧ DoublyLinkedList.size_ this' = DoublyLinkedList.size_ this + 1.
Proof.
  intros HR Hle Hlt. pose proof (DoublyLinkedList.rep_size _ _ _ HR) as Hsize.
  destruct (DoublyLinkedListFacts.dl_insert_spec this h cs (N.to_nat index) v HR)
    as (a & this' & h' & Hrun & _ & HR' & _); [lia..|].
  rewrite N2Nat.id in Hrun. eexists this', h', _.
  split; [done|]. split; [done|]. split.
  - by rewrite fmap_app, fmap_cons, fmap_take, fmap_drop.
  - rewrite (DoublyLinkedList.rep_size _ _ _ HR'), Hsize.
    rewrite length_app, length_take. simpl. rewrite length_drop. lia.
Qed.

Lemma sl_insert_sequence {T} (this : LinkedList.object) (h : gmap loc (LinkedList.Node T)) cs index v :
  LinkedList.Rep this h cs → index ≤ LinkedList.size_ this → LinkedList.size_ this < SIZE_MAX →
  ∃ this' h' cs',
    LinkedList.insert index v this h = Ok (this', h') ∧ LinkedList.Rep this' h' cs'
    ∧ cs'.*2 = take (N.to_nat index) cs.*2 ++ [v] ++ drop (N.to_nat index) cs.*2
    ∧ LinkedList.size_ this' = LinkedList.size_ this + 1.
Proof.
  intros HR Hle Hlt. pose proof (LinkedList.rep_size _ _ _ HR) as Hsize.
  destruct (LinkedListFacts.sl_insert_spec this h cs (N.to_nat index) v HR)
    as (a & this' & h' & Hrun & _ & HR' & _); [lia..|].
  rewrite N2Nat.id in Hrun. eexists this', h', _.
  split; [done|]. split; [done|]. split.
  - by rewrite fmap_app, fmap_cons, fmap_take, fmap_drop.
  - rewrite (LinkedList.rep_size _ _ _ HR'), Hsize.
    rewrite length_app, length_take. simpl. rewrite length_drop. lia.
Qed.

Lemma inserted_at_index {T} (xs : list T) (i : nat) v :
  (i ≤ length xs)%nat → (take i xs ++ [v] ++ drop i xs) !! i = Some v.
Proof.
  intros Hi. apply list_lookup_middle. rewrite length_take. lia.
Qed.

(** C3.  On a well-formed container of either kind whose size can still
    grow by one within [size_t], [insert(index, value)] with
    [index <= size()] ends normally on a well-formed container that holds
    the old elements before [index], then [value], then the old elements
    from [index] on; the size is one more; the element at [index] is
    [value]; [insert(0, value)] is [push_front(value)] and
    [insert(size(), value)] is [push_back(value)]. *)
Theorem insert_places_value :
  (∀ T (this : DoublyLinkedList.object) (h : gmap loc (DoublyLinkedList.Node T)) cs index v,
     DoublyLinkedList.Rep this h cs → index ≤ DoublyLinkedList.size this → DoublyLinkedList.size this < SIZE_MAX →
     (∃ this' h' cs',
        DoublyLinkedList.insert index v this h = Ok (this', h') ∧ DoublyLinkedList.Rep this' h' cs'
        ∧ cs'.*2 = take (N.to_nat index) cs.*2 ++ [v] ++ drop (N.to_nat index) cs.*2
        ∧ cs'.*2 !! N.to_nat index = Some v
        ∧ DoublyLinkedList.size this' = DoublyLinkedList.size this + 1)
     ∧ (index = 0 → DoublyLinkedList.insert index v this h = DoublyLinkedList.push_front v this h)
     ∧ (index = DoublyLinkedList.size this → DoublyLinkedList.insert index v this h = DoublyLinkedList.push_back v this h))
  ∧ (∀ T (this : LinkedList.object) (h : gmap loc (LinkedList.Node T)) cs index v,
       LinkedList.Rep this h cs → index ≤ LinkedList.size this → LinkedList.size this < SIZE_MAX →
       (∃ this' h' cs',
          LinkedList.insert index v this h = Ok (this', h') ∧ LinkedList.Rep this' h' cs'
          ∧ cs'.*2 = take (N.to_nat index) cs.*2 ++ [v] ++ drop (N.to_nat index) cs.*2
          ∧ cs'.*2 !! N.to_nat index = Some v
          ∧ LinkedList.size this' = LinkedList.size this + 1)
       ∧ (index = 0 → LinkedList.insert index v this h = LinkedList.push_front v this h)
       ∧ (index = LinkedList.size this → LinkedList.insert index v this h = LinkedList.push_back v this h)).
Proof.
  split; intros T this h cs index v HR Hle Hlt; unfold DoublyLinkedList.size, LinkedList.size in *.
  - pose proof (DoublyLinkedList.rep_size _ _ _ HR) as Hsize. split.
    { destruct (dl_insert_sequence _ _ _ _ v HR Hle Hlt)
        as (this' & h' & cs' & Hrun & HR' & Hseq & Hsz).
      exists this', h', cs'. repeat (split; [done|]). split; [|done].
      rewrite Hseq. apply inserted_at_index. rewrite length_fmap. lia. }
    split; [intros ->; apply DoublyLinkedListFacts.dl_insert_zero|]. intros ->.
    destruct (decide (DoublyLinkedList.size_ this = 0)) as [Hz|Hnz]; [|by apply DoublyLinkedListFacts.dl_insert_size].
    rewrite Hz, DoublyLinkedListFacts.dl_insert_zero. apply DoublyLinkedListFacts.dl_push_front_empty.
    by destruct cs; [|simpl in Hsize; lia].
  - pose proof (LinkedList.rep_size _ _ _ HR) as Hsize. split.
    { destruct (sl_insert_sequence _ _ _ _ v HR Hle Hlt)
        as (this' & h' & cs' & Hrun & HR' & Hseq & Hsz).
      exists this', h', cs'. repeat (split; [done|]). split; [|done].
      rewrite Hseq. apply inserted_at_index. rewrite length_fmap. lia. }
    split; [intros ->; apply LinkedListFacts.sl_insert_zero|]. intros ->.
    destruct (decide (LinkedList.size_ this = 0)) as [Hz|Hnz]; [|by apply LinkedListFacts.sl_insert_size].
    rewrite Hz, LinkedListFacts.sl_insert_zero. apply LinkedListFacts.sl_push_front_empty.
    by destruct cs; [|simpl in Hsize; lia].
Qed.

Lemma insert_places_value_witness :
  (DoublyLinkedList.Rep dl_list dl_heap sample_cells ∧ 1 ≤ DoublyLinkedList.size dl_list
   ∧ DoublyLinkedList.size dl_list < SIZE_MAX
   ∧ ∃ this' h' cs',
       DoublyLinkedList.insert 1 7%nat dl_list dl_heap = Ok (this', h') ∧ DoublyLinkedList.Rep this' h' cs'
       ∧ cs'.*2 = [10; 7; 20; 30]%nat)
  ∧ (LinkedList.Rep sl_list sl_heap sample_cells ∧ 1 ≤ LinkedList.size sl_list
     ∧ LinkedList.size sl_list < SIZE_MAX
     ∧ ∃ this' h' cs',
         LinkedList.insert 1 7%nat sl_list sl_heap = Ok (this', h') ∧ LinkedList.Rep this' h' cs'
         ∧ cs'.*2 = [10; 7; 20; 30]%nat).
Proof.
  split.
  - split; [apply dl_sample_Rep|]. split; [by vm_compute|]. split; [by vm_compute|].
    destruct (proj1 insert_places_value nat dl_list dl_heap sample_cells 1 7%nat
                dl_sample_Rep) as [(this' & h' & cs' & Hrun & HR' & Hseq & _) _];
      [by vm_compute..|].
    by exists this', h', cs'.
  - split; [apply sl_sample_Rep|]. split; [by vm_compute|]. split; [by vm_compute|].
    destruct (proj2 insert_places_value nat sl_list sl_heap sample_cells 1 7%nat
                sl_sample_Rep) as [(this' & h' & cs' & Hrun & HR' & Hseq & _) _];
      [by vm_compute..|].
    by exists this', h', cs'.
Defined.

(** ** Requests that do nothing *)

(** C4.  For either container, in any state: [insert] with
    [index > size()], [remove] with [index >= size()], and [pop_front] and
    [pop_back] when the size is zero, end normally (nothing is thrown,
    nothing is undefined) and leave the data members and the heap as they
    were. *)
Theorem silent_no_ops :
  (∀ T (this : DoublyLinkedList.object) (h : gmap loc (DoublyLinkedList.Node T)),
     (∀ index v, DoublyLinkedList.size this < index → DoublyLinkedList.insert index v this h = Ok (this, h))
     ∧ (∀ index, DoublyLinkedList.size this ≤ index → DoublyLinkedList.remove index this h = Ok (this, h))
     ∧ (DoublyLinkedList.size this = 0 →
        DoublyLinkedList.pop_front this h = Ok (this, h) ∧ DoublyLinkedList.pop_back this h = Ok (this, h)))
  ∧ (∀ T (this : LinkedList.object) (h : gmap loc (LinkedList.Node T)),
       (∀ index v, LinkedList.size this < index → LinkedList.insert index v this h = Ok (this, h))
       ∧ (∀ index, LinkedList.size this ≤ index → LinkedList.remove index this h = Ok (this, h))
       ∧ (LinkedList.size this = 0 →
          LinkedList.pop_front this h = Ok (this, h) ∧ LinkedList.pop_back this h = Ok (this, h))).
Proof.
  split; intros T this h; unfold DoublyLinkedList.size, LinkedList.size.
  - split; [intros; by apply DoublyLinkedListFacts.dl_insert_past_end|].
    split; [intros; by apply DoublyLinkedListFacts.dl_remove_past_end|].
    intros Hz. split; [by apply DoublyLinkedListFacts.dl_pop_front_empty|by apply DoublyLinkedListFacts.dl_pop_back_empty].
  - split; [intros; by apply LinkedListFacts.sl_insert_past_end|].
    split; [intros; by apply LinkedListFacts.sl_remove_past_end|].
    intros Hz. split; [by apply LinkedListFacts.sl_pop_front_empty|by apply LinkedListFacts.sl_pop_back_empty].
Qed.

Lemma silent_no_ops_witness :
  (DoublyLinkedList.size dl_list < 4 ∧ DoublyLinkedList.insert 4 7%nat dl_list dl_heap = Ok (dl_list, dl_heap))
  ∧ (DoublyLinkedList.size dl_list ≤ 3 ∧ DoublyLinkedList.remove 3 dl_list dl_heap = Ok (dl_list, dl_heap))
  ∧ (DoublyLinkedList.size (DoublyLinkedList.default_ctor) = 0
     ∧ DoublyLinkedList.pop_front DoublyLinkedList.default_ctor dl_heap = Ok (DoublyLinkedList.default_ctor, dl_heap)
     ∧ DoublyLinkedList.pop_back DoublyLinkedList.default_ctor dl_heap = Ok (DoublyLinkedList.default_ctor, dl_heap))
  ∧ (LinkedList.size sl_list < 4 ∧ LinkedList.insert 4 7%nat sl_list sl_heap = Ok (sl_list, sl_heap))
  ∧ (LinkedList.size sl_list ≤ 3 ∧ LinkedList.remove 3 sl_list sl_heap = Ok (sl_list, sl_heap))
  ∧ (LinkedList.size (LinkedList.default_ctor) = 0
     ∧ LinkedList.pop_front LinkedList.default_ctor sl_heap = Ok (LinkedList.default_ctor, sl_heap)
     ∧ LinkedList.pop_back LinkedList.default_ctor sl_heap = Ok (LinkedList.default_ctor, sl_heap)).
Proof.
  destruct (proj1 silent_no_ops nat dl_list dl_heap) as (Hi & Hr & _).
  destruct (proj1 silent_no_ops nat DoublyLinkedList.default_ctor dl_heap) as (_ & _ & Hp).
  destruct (proj2 silent_no_ops nat sl_list sl_heap) as (Hi' & Hr' & _).
  destruct (proj2 silent_no_ops nat LinkedList.default_ctor sl_heap) as (_ & _ & Hp').
  split; [split; [by vm_compute|apply Hi; by vm_compute]|].
  split; [split; [by vm_compute|apply Hr; by vm_compute]|].
  split; [split; [done|apply Hp; done]|].
  split; [split; [by vm_compute|apply Hi'; by vm_compute]|].
  split; [split; [by vm_compute|apply Hr'; by vm_compute]|].
  split; [done|apply Hp'; done].
Defined.

(** ** The invariants of the data model *)

Lemma dl_well_formed_invariants {T} (this : DoublyLinkedList.object) (h : gmap loc (DoublyLinkedList.Node T)) :
  DoublyLinkedList.well_formed this h → DoublyLinkedList.invariants this h.
Proof.
  intros [cs HR]. unfold DoublyLinkedList.invariants.
  eauto 10 using DoublyLinkedListFacts.dl_Rep_size_zero, DoublyLinkedListFacts.dl_Rep_no_head, DoublyLinkedListFacts.dl_Rep_size_one,
    DoublyLinkedListFacts.dl_Rep_back_links, DoublyLinkedListFacts.dl_Rep_ends_closed.
Qed.

Lemma sl_well_formed_invariants {T} (this : LinkedList.object) (h : gmap loc (LinkedList.Node T)) :
  LinkedList.well_formed this h → LinkedList.invariants this.
Proof.
  intros [cs HR]. unfold LinkedList.invariants.
  eauto 10 using LinkedListFacts.sl_Rep_size_zero, LinkedListFacts.sl_Rep_no_head, LinkedListFacts.sl_Rep_size_one.
Qed.

Lemma dl_preserves_intro {T} (op : DoublyLinkedList.object → M DoublyLinkedList.object) this
    (h : gmap loc (DoublyLinkedList.Node T)) this' h' cs' :
  op this h = Ok (this', h') → DoublyLinkedList.Rep this' h' cs' → DoublyLinkedList.preserves op this h.
Proof.
  intros Hrun HR. exists this', h'. split; [done|].
  split; [by exists cs'|]. apply dl_well_formed_invariants. by exists cs'.
Qed.

Lemma sl_preserves_intro {T} (op : LinkedList.object → M LinkedList.object) this
    (h : gmap loc (LinkedList.Node T)) this' h' cs' :
  op this h = Ok (this', h') → LinkedList.Rep this' h' cs' → LinkedList.preserves op this h.
Proof.
  intros Hrun HR. exists this', h'. split; [done|].
  split; [by exists cs'|]. apply (sl_well_formed_invariants _ h'). by exists cs'.
Qed.

Lemma dl_modifiers_preserve {T} (this : DoublyLinkedList.object) (h : gmap loc (DoublyLinkedList.Node T)) :
  DoublyLinkedList.well_formed this h →
  DoublyLinkedList.preserves DoublyLinkedList.pop_back this h ∧ DoublyLinkedList.preserves DoublyLinkedList.pop_front this h
  ∧ (∀ index, DoublyLinkedList.preserves (DoublyLinkedList.remove index) this h)
  ∧ DoublyLinkedList.preserves DoublyLinkedList.clear this h
  ∧ (DoublyLinkedList.size this < SIZE_MAX →
     ∀ v, DoublyLinkedList.preserves (DoublyLinkedList.push_back v) this h
          ∧ DoublyLinkedList.preserves (DoublyLinkedList.push_front v) this h
          ∧ ∀ index, DoublyLinkedList.preserves (DoublyLinkedList.insert index v) this h).
Proof.
  intros [cs HR]. pose proof (DoublyLinkedList.rep_size _ _ _ HR) as Hsize. unfold DoublyLinkedList.size.
  split.
  { destruct (exists_last_or_nil cs) as [->|(l & t & ->)].
    - eapply dl_preserves_intro; [by apply DoublyLinkedListFacts.dl_pop_back_empty|done].
    - destruct (DoublyLinkedListFacts.dl_pop_back_snoc _ _ _ _ HR) as (this' & h' & Hrun & HR' & _).
      by eapply dl_preserves_intro. }
  split.
  { destruct cs as [|t cs].
    - eapply dl_preserves_intro; [by apply DoublyLinkedListFacts.dl_pop_front_empty|done].
    - destruct (DoublyLinkedListFacts.dl_pop_front_cons _ _ _ _ HR) as (this' & h' & Hrun & HR' & _).
      by eapply dl_preserves_intro. }
  split.
  { intros index.
    destruct (DoublyLinkedListFacts.dl_remove_spec _ _ _ (N.to_nat index) HR)
      as (this' & h' & Hrun & HR' & _).
    rewrite N2Nat.id in Hrun. by eapply dl_preserves_intro. }
  split.
  { destruct (DoublyLinkedListFacts.dl_clear_spec _ _ _ HR) as (h' & Hrun & _).
    eapply dl_preserves_intro; [done|apply DoublyLinkedListFacts.dl_Rep_nil]. }
  intros Hlt v. split.
  { destruct (DoublyLinkedListFacts.dl_push_back_spec _ _ _ v HR) as (a & this' & h' & Hrun & _ & HR' & _);
      [lia|]. by eapply dl_preserves_intro. }
  split.
  { destruct (DoublyLinkedListFacts.dl_push_front_spec _ _ _ v HR) as (a & this' & h' & Hrun & _ & HR' & _);
      [lia|]. by eapply dl_preserves_intro. }
  intros index. destruct (N.le_gt_cases index (DoublyLinkedList.size_ this)) as [Hle|Hgt].
  - destruct (DoublyLinkedListFacts.dl_insert_spec _ _ _ (N.to_nat index) v HR)
      as (a & this' & h' & Hrun & _ & HR' & _); [lia..|].
    rewrite N2Nat.id in Hrun. by eapply dl_preserves_intro.
  - eapply dl_preserves_intro; [by apply DoublyLinkedListFacts.dl_insert_past_end|done].
Qed.

Lemma sl_modifiers_preserve {T} (this : LinkedList.object) (h : gmap loc (LinkedList.Node T)) :
  LinkedList.well_formed this h →
  LinkedList.preserves LinkedList.pop_back this h ∧ LinkedList.preserves LinkedList.pop_front this h
  ∧ (∀ index, LinkedList.preserves (LinkedList.remove index) this h)
  ∧ LinkedList.preserves LinkedList.clear this h
  ∧ (LinkedList.size this < SIZE_MAX →
     ∀ v, LinkedList.preserves (LinkedList.push_back v) this h
          ∧ LinkedList.preserves (LinkedList.push_front v) this h
          ∧ ∀ index, LinkedList.preserves (LinkedList.insert index v) this h).
Proof.
  intros [cs HR]. pose proof (LinkedList.rep_size _ _ _ HR) as Hsize. unfold LinkedList.size.
  split.
  { destruct (exists_last_or_nil cs) as [->|(l & t & ->)].
    - eapply sl_preserves_intro; [by apply LinkedListFacts.sl_pop_back_empty|done].
    - destruct (LinkedListFacts.sl_pop_back_snoc _ _ _ _ HR) as (this' & h' & Hrun & HR' & _).
      by eapply sl_preserves_intro. }
  split.
  { destruct cs as [|t cs].
    - eapply sl_preserves_intro; [by apply LinkedListFacts.sl_pop_front_empty|done].
    - destruct (LinkedListFacts.sl_pop_front_cons _ _ _ _ HR) as (this' & h' & Hrun & HR' & _).
      by eapply sl_preserves_intro. }
  split.
  { intros index.
    destruct (LinkedListFacts.sl_remove_spec _ _ _ (N.to_nat index) HR)
      as (this' & h' & Hrun & HR' & _).
    rewrite N2Nat.id in Hrun. by eapply sl_preserves_intro. }
  split.
  { destruct (LinkedListFacts.sl_clear_spec _ _ _ HR) as (h' & Hrun & _).
    eapply sl_preserves_intro; [done|apply LinkedListFacts.sl_Rep_nil]. }
  intros Hlt v. split.
  { destruct (LinkedListFacts.sl_push_back_spec _ _ _ v HR) as (a & this' & h' & Hrun & _ & HR' & _);
      [lia|]. by eapply sl_preserves_intro. }
  split.
  { destruct (LinkedListFacts.sl_push_front_spec _ _ _ v HR) as (a & this' & h' & Hrun & _ & HR' & _);
      [lia|]. by eapply sl_preserves_intro. }
  intros index. destruct (N.le_gt_cases index (LinkedList.size_ this)) as [Hle|Hgt].
  - destruct (LinkedListFacts.sl_insert_spec _ _ _ (N.to_nat index) v HR)
      as (a & this' & h' & Hrun & _ & HR' & _); [lia..|].
    rewrite N2Nat.id in Hrun. by eapply sl_preserves_intro.
  - eapply sl_preserves_intro; [by apply LinkedListFacts.sl_insert_past_end|done].
Qed.

Lemma dl_copies_and_moves_preserve {T} (this : DoublyLinkedList.object) (h : gmap loc (DoublyLinkedList.Node T)) :
  DoublyLinkedList.well_formed this h →
  (∃ fresh_list h', DoublyLinkedList.copy_ctor this h = Ok (fresh_list, h')
     ∧ DoublyLinkedList.well_formed fresh_list h' ∧ DoublyLinkedList.well_formed this h')
  ∧ (DoublyLinkedList.well_formed (DoublyLinkedList.move_ctor this).1 h ∧ DoublyLinkedList.well_formed (DoublyLinkedList.move_ctor this).2 h)
  ∧ (∀ other, DoublyLinkedList.preserves (DoublyLinkedList.copy_assign true other) this h)
  ∧ (∀ other, DoublyLinkedList.move_assign true other this h = Ok ((this, this), h))
  ∧ (∀ other, DoublyLinkedList.separate this other h →
       (∃ this' h', DoublyLinkedList.copy_assign false other this h = Ok (this', h')
          ∧ DoublyLinkedList.well_formed this' h' ∧ DoublyLinkedList.well_formed other h')
       ∧ (∃ this' other' h',
            DoublyLinkedList.move_assign false other this h = Ok ((this', other'), h')
            ∧ DoublyLinkedList.well_formed this' h' ∧ DoublyLinkedList.well_formed other' h')).
Proof.
  intros [cs HR]. split.
  { destruct (DoublyLinkedListFacts.dl_copy_nodes_spec _ _ _ HR)
      as (new & h' & cs' & Hrun & HR' & _ & _ & Hkept).
    exists new, h'. split; [done|]. split; [by exists cs'|].
    exists cs. by apply DoublyLinkedListFacts.dl_Rep_kept with h. }
  split.
  { destruct (DoublyLinkedListFacts.dl_move_ctor_spec _ _ _ HR) as [H1 H2]. split; by eexists. }
  split; [intros other; by eapply dl_preserves_intro|].
  split; [done|].
  intros other (cs1 & cs2 & HR1 & HR2 & Hdisj). split.
  - destruct (DoublyLinkedListFacts.dl_copy_assign_spec _ _ _ _ _ HR1 HR2 Hdisj)
      as (this' & h' & cs' & Hrun & HR' & _ & HRo & _).
    exists this', h'. split; [done|]. split; by eexists.
  - destruct (DoublyLinkedListFacts.dl_move_assign_spec _ _ _ _ _ HR1 HR2 Hdisj)
      as (this' & other' & h' & Hrun & HR' & HRo).
    exists this', other', h'. split; [done|]. split; by eexists.
Qed.

Lemma sl_copies_and_moves_preserve {T} (this : LinkedList.object) (h : gmap loc (LinkedList.Node T)) :
  LinkedList.well_formed this h →
  (∃ fresh_list h', LinkedList.copy_ctor this h = Ok (fresh_list, h')
     ∧ LinkedList.well_formed fresh_list h' ∧ LinkedList.well_formed this h')
  ∧ (LinkedList.well_formed (LinkedList.move_ctor this).1 h ∧ LinkedList.well_formed (LinkedList.move_ctor this).2 h)
  ∧ (∀ other, LinkedList.preserves (LinkedList.copy_assign true other) this h)
  ∧ (∀ other, LinkedList.move_assign true other this h = Ok ((this, this), h))
  ∧ (∀ other, LinkedList.separate this other h →
       (∃ this' h', LinkedList.copy_assign false other this h = Ok (this', h')
          ∧ LinkedList.well_formed this' h' ∧ LinkedList.well_formed other h')
       ∧ (∃ this' other' h',
            LinkedList.move_assign false other this h = Ok ((this', other'), h')
            ∧ LinkedList.well_formed this' h' ∧ LinkedList.well_formed other' h')).
Proof.
  intros [cs HR]. split.
  { destruct (LinkedListFacts.sl_copy_nodes_spec _ _ _ HR)
      as (new & h' & cs' & Hrun & HR' & _ & _ & Hkept).
    exists new, h'. split; [done|]. split; [by exists cs'|].
    exists cs. by apply LinkedListFacts.sl_Rep_kept with h. }
  split.
  { destruct (LinkedListFacts.sl_move_ctor_spec _ _ _ HR) as [H1 H2]. split; by eexists. }
  split; [intros other; by eapply sl_preserves_intro|].
  split; [done|].
  intros other (cs1 & cs2 & HR1 & HR2 & Hdisj). split.
  - destruct (LinkedListFacts.sl_copy_assign_spec _ _ _ _ _ HR1 HR2 Hdisj)
      as (this' & h' & cs' & Hrun & HR' & _ & HRo & _).
    exists this', h'. split; [done|]. split; by eexists.
  - destruct (LinkedListFacts.sl_move_assign_spec _ _ _ _ _ HR1 HR2 Hdisj)
      as (this' & other' & h' & Hrun & HR' & HRo).
    exists this', other', h'. split; [done|]. split; by eexists.
Qed.

(** C5, as amended.  A container of either kind that is well formed meets
    the invariants: [size == 0] iff the head is absent iff the tail is
    absent; [size == 1] iff head and tail are one node that is present;
    and, for the doubly-linked list, every node reached from the head has
    its successor pointing back to it, the head has no predecessor and
    the tail has no successor.  The empty container is well formed, and
    every modifier, run on a well-formed container, ends normally on a
    well-formed container: [pop_back], [pop_front], [remove], [clear];
    [push_back], [push_front] and [insert] while the size can still grow
    within [size_t]; copy and move construction; copy and move
    assignment, from itself or from a container that shares no node with
    it, which is left well formed too. *)
Theorem invariants_preserved :
  (∀ T (this : DoublyLinkedList.object) (h : gmap loc (DoublyLinkedList.Node T)),
     DoublyLinkedList.well_formed this h →
     DoublyLinkedList.invariants this h
     ∧ DoublyLinkedList.preserves DoublyLinkedList.pop_back this h ∧ DoublyLinkedList.preserves DoublyLinkedList.pop_front this h
     ∧ (∀ index, DoublyLinkedList.preserves (DoublyLinkedList.remove index) this h)
     ∧ DoublyLinkedList.preserves DoublyLinkedList.clear this h
     ∧ (DoublyLinkedList.size this < SIZE_MAX →
        ∀ v, DoublyLinkedList.preserves (DoublyLinkedList.push_back v) this h
             ∧ DoublyLinkedList.preserves (DoublyLinkedList.push_front v) this h
             ∧ ∀ index, DoublyLinkedList.preserves (DoublyLinkedList.insert index v) this h)
     ∧ (∃ fresh_list h', DoublyLinkedList.copy_ctor this h = Ok (fresh_list, h')
          ∧ DoublyLinkedList.well_formed fresh_list h' ∧ DoublyLinkedList.well_formed this h')
     ∧ (DoublyLinkedList.well_formed (DoublyLinkedList.move_ctor this).1 h
        ∧ DoublyLinkedList.well_formed (DoublyLinkedList.move_ctor this).2 h)
     ∧ (∀ other, DoublyLinkedList.preserves (DoublyLinkedList.copy_assign true other) this h)
     ∧ (∀ other, DoublyLinkedList.move_assign true other this h = Ok ((this, this), h))
     ∧ (∀ other, DoublyLinkedList.separate this other h →
          (∃ this' h', DoublyLinkedList.copy_assign false other this h = Ok (this', h')
             ∧ DoublyLinkedList.well_formed this' h' ∧ DoublyLinkedList.well_formed other h')
          ∧ (∃ this' other' h',
               DoublyLinkedList.move_assign false other this h = Ok ((this', other'), h')
               ∧ DoublyLinkedList.well_formed this' h' ∧ DoublyLinkedList.well_formed other' h')))
  ∧ (∀ T (h : gmap loc (DoublyLinkedList.Node T)), DoublyLinkedList.well_formed DoublyLinkedList.default_ctor h)
  ∧ (∀ T (this : LinkedList.object) (h : gmap loc (LinkedList.Node T)),
       LinkedList.well_formed this h →
       LinkedList.invariants this
       ∧ LinkedList.preserves LinkedList.pop_back this h ∧ LinkedList.preserves LinkedList.pop_front this h
       ∧ (∀ index, LinkedList.preserves (LinkedList.remove index) this h)
       ∧ LinkedList.preserves LinkedList.clear this h
       ∧ (LinkedList.size this < SIZE_MAX →
          ∀ v, LinkedList.preserves (LinkedList.push_back v) this h
               ∧ LinkedList.preserves (LinkedList.push_front v) this h
               ∧ ∀ index, LinkedList.preserves (LinkedList.insert index v) this h)
       ∧ (∃ fresh_list h', LinkedList.copy_ctor this h = Ok (fresh_list, h')
            ∧ LinkedList.well_formed fresh_list h' ∧ LinkedList.well_formed this h')
       ∧ (LinkedList.well_formed (LinkedList.move_ctor this).1 h
          ∧ LinkedList.well_formed (LinkedList.move_ctor this).2 h)
       ∧ (∀ other, LinkedList.preserves (LinkedList.copy_assign true other) this h)
       ∧ (∀ other, LinkedList.move_assign true other this h = Ok ((this, this), h))
       ∧ (∀ other, LinkedList.separate this other h →
            (∃ this' h', LinkedList.copy_assign false other this h = Ok (this', h')
               ∧ LinkedList.well_formed this' h' ∧ LinkedList.well_formed other h')
            ∧ (∃ this' other' h',
                 LinkedList.move_assign false other this h = Ok ((this', other'), h')
                 ∧ LinkedList.well_formed this' h' ∧ LinkedList.well_formed other' h')))
  ∧ (∀ T (h : gmap loc (LinkedList.Node T)), LinkedList.well_formed LinkedList.default_ctor h).
Proof.
  split; [|split; [|split]].
  - intros T this h Hwf.
    destruct (dl_modifiers_preserve this h Hwf) as (? & ? & ? & ? & ?).
    destruct (dl_copies_and_moves_preserve this h Hwf) as (? & ? & ? & ? & ?).
    split; [by apply dl_well_formed_invariants|]. by repeat (split; [done|]).
  - intros T h. exists []. apply DoublyLinkedListFacts.dl_Rep_nil.
  - intros T this h Hwf.
    destruct (sl_modifiers_preserve this h Hwf) as (? & ? & ? & ? & ?).
    destruct (sl_copies_and_moves_preserve this h Hwf) as (? & ? & ? & ? & ?).
    split; [by apply (sl_well_formed_invariants _ h)|]. by repeat (split; [done|]).
  - intros T h. exists []. apply LinkedListFacts.sl_Rep_nil.
Qed.

Lemma invariants_preserved_witness :
  (DoublyLinkedList.well_formed dl_list dl_heap ∧ DoublyLinkedList.invariants dl_list dl_heap
   ∧ DoublyLinkedList.preserves DoublyLinkedList.pop_back dl_list dl_heap)
  ∧ (LinkedList.well_formed sl_list sl_heap ∧ LinkedList.invariants sl_list
     ∧ LinkedList.preserves LinkedList.pop_back sl_list sl_heap).
Proof.
  assert (DoublyLinkedList.well_formed dl_list dl_heap) as Hdl
    by (exists sample_cells; apply dl_sample_Rep).
  assert (LinkedList.well_formed sl_list sl_heap) as Hsl
    by (exists sample_cells; apply sl_sample_Rep).
  destruct invariants_preserved as (Hd & _ & Hs & _).
  destruct (Hd nat dl_list dl_heap Hdl) as (Hinv & Hpop & _).
  destruct (Hs nat sl_list sl_heap Hsl) as (Hinv' & Hpop' & _).
  split; (split; [assumption|split; assumption]).
Defined.

(** C5, as stated: with [size == 1] iff [head == tail] read as it is
    written, the invariants hold of the one-element list that
    [push_back(10)] builds from the empty one, and fail after [pop_back]
    on it, where head and tail are both null, hence equal, and the size
    is 0. *)
Lemma size_one_iff_head_is_tail_broken_by_pop_back :
  (DoublyLinkedList.push_back 10%nat DoublyLinkedList.default_ctor ∅ = Ok (dl_list_one, dl_heap_one)
   ∧ DoublyLinkedList.claimed_invariants dl_list_one dl_heap_one
   ∧ DoublyLinkedList.pop_back dl_list_one dl_heap_one = Ok (DoublyLinkedList.default_ctor, ∅)
   ∧ ¬ DoublyLinkedList.claimed_invariants DoublyLinkedList.default_ctor (∅ : gmap loc (DoublyLinkedList.Node nat)))
  ∧ (LinkedList.push_back 10%nat LinkedList.default_ctor ∅ = Ok (sl_list_one, sl_heap_one)
     ∧ LinkedList.claimed_invariants sl_list_one
     ∧ LinkedList.pop_back sl_list_one sl_heap_one = Ok (LinkedList.default_ctor, ∅)
     ∧ ¬ LinkedList.claimed_invariants LinkedList.default_ctor).
Proof.
  split.
  - split; [by vm_compute|]. split.
    + assert (DoublyLinkedList.Rep dl_list_one dl_heap_one [(1%positive, 10%nat)]) as HR.
      { constructor; [apply NoDup_singleton|done|by vm_compute|done|done|].
        by split. }
      destruct (dl_well_formed_invariants dl_list_one dl_heap_one)
        as (H0 & Hht & _ & Hback & Hends); [by eexists|].
      split; [done|]. split; [done|]. split; [|by split]. by split.
    + split; [by vm_compute|]. intros (_ & _ & [_ Hone] & _).
      by specialize (Hone eq_refl).
  - split; [by vm_compute|]. split.
    + split; [by split|]. by split; split.
    + split; [by vm_compute|]. intros (_ & _ & [_ Hone]).
      by specialize (Hone eq_refl).
Qed.

(** ** Insertion undone by removal *)

Lemma delete_inserted {A} (l : list A) (i : nat) x :
  (i ≤ length l)%nat → base.delete i (take i l ++ x :: drop i l) = l.
Proof.
  intros Hi. rewrite <- (take_drop i l) at 3.
  rewrite <- (delete_middle (take i l) (drop i l) x).
  f_equal. rewrite length_take. lia.
Qed.

(** C6.  On a well-formed container of either kind whose size can still
    grow by one within [size_t], [insert(i, v)] with [i <= size()]
    followed by [remove(i)] ends normally on a well-formed container with
    the sequence and the size it had before the insertion. *)
Theorem insert_then_remove_restores :
  (∀ T (this : DoublyLinkedList.object) (h : gmap loc (DoublyLinkedList.Node T)) cs index v,
     DoublyLinkedList.Rep this h cs → index ≤ DoublyLinkedList.size this → DoublyLinkedList.size this < SIZE_MAX →
     ∃ this1 h1 this2 h2 cs2,
       DoublyLinkedList.insert index v this h = Ok (this1, h1)
       ∧ DoublyLinkedList.remove index this1 h1 = Ok (this2, h2)
       ∧ DoublyLinkedList.Rep this2 h2 cs2 ∧ cs2.*2 = cs.*2 ∧ DoublyLinkedList.size this2 = DoublyLinkedList.size this)
  ∧ (∀ T (this : LinkedList.object) (h : gmap loc (LinkedList.Node T)) cs index v,
       LinkedList.Rep this h cs → index ≤ LinkedList.size this → LinkedList.size this < SIZE_MAX →
       ∃ this1 h1 this2 h2 cs2,
         LinkedList.insert index v this h = Ok (this1, h1)
         ∧ LinkedList.remove index this1 h1 = Ok (this2, h2)
         ∧ LinkedList.Rep this2 h2 cs2 ∧ cs2.*2 = cs.*2 ∧ LinkedList.size this2 = LinkedList.size this).
Proof.
  split; intros T this h cs index v HR Hle Hlt; unfold DoublyLinkedList.size, LinkedList.size in *.
  - pose proof (DoublyLinkedList.rep_size _ _ _ HR) as Hsize.
    destruct (DoublyLinkedListFacts.dl_insert_spec this h cs (N.to_nat index) v HR)
      as (a & this1 & h1 & Hins & _ & HR1 & _); [lia..|].
    destruct (DoublyLinkedListFacts.dl_remove_spec this1 h1 _ (N.to_nat index) HR1)
      as (this2 & h2 & Hrem & HR2 & _).
    rewrite delete_inserted in HR2 by lia. rewrite N2Nat.id in Hins, Hrem.
    exists this1, h1, this2, h2, cs. repeat (split; [done|]).
    by rewrite (DoublyLinkedList.rep_size _ _ _ HR2).
  - pose proof (LinkedList.rep_size _ _ _ HR) as Hsize.
    destruct (LinkedListFacts.sl_insert_spec this h cs (N.to_nat index) v HR)
      as (a & this1 & h1 & Hins & _ & HR1 & _); [lia..|].
    destruct (LinkedListFacts.sl_remove_spec this1 h1 _ (N.to_nat index) HR1)
      as (this2 & h2 & Hrem & HR2 & _).
    rewrite delete_inserted in HR2 by lia. rewrite N2Nat.id in Hins, Hrem.
    exists this1, h1, this2, h2, cs. repeat (split; [done|]).
    by rewrite (LinkedList.rep_size _ _ _ HR2).
Qed.

Lemma insert_then_remove_restores_witness :
  (DoublyLinkedList.Rep dl_list dl_heap sample_cells ∧ 2 ≤ DoublyLinkedList.size dl_list
   ∧ DoublyLinkedList.size dl_list < SIZE_MAX
   ∧ ∃ this1 h1 this2 h2 cs2,
       DoublyLinkedList.insert 2 7%nat dl_list dl_heap = Ok (this1, h1)
       ∧ DoublyLinkedList.remove 2 this1 h1 = Ok (this2, h2)
       ∧ DoublyLinkedList.Rep this2 h2 cs2 ∧ cs2.*2 = [10; 20; 30]%nat ∧ DoublyLinkedList.size this2 = 3)
  ∧ (LinkedList.Rep sl_list sl_heap sample_cells ∧ 2 ≤ LinkedList.size sl_list
     ∧ LinkedList.size sl_list < SIZE_MAX
     ∧ ∃ this1 h1 this2 h2 cs2,
         LinkedList.insert 2 7%nat sl_list sl_heap = Ok (this1, h1)
         ∧ LinkedList.remove 2 this1 h1 = Ok (this2, h2)
         ∧ LinkedList.Rep this2 h2 cs2 ∧ cs2.*2 = [10; 20; 30]%nat ∧ LinkedList.size this2 = 3).
Proof.
  split.
  - split; [apply dl_sample_Rep|]. split; [by vm_compute|]. split; [by vm_compute|].
    apply (proj1 insert_then_remove_restores nat dl_list dl_heap sample_cells 2 7%nat
             dl_sample_Rep); by vm_compute.
  - split; [apply sl_sample_Rep|]. split; [by vm_compute|]. split; [by vm_compute|].
    apply (proj2 insert_then_remove_restores nat sl_list sl_heap sample_cells 2 7%nat
             sl_sample_Rep); by vm_compute.
Defined.

(** ** Traversals *)

(** On a container that is not empty the traversals are as the
    specification says: from [begin()] to [end()] the elements in order,
    from [rbegin()] to [rend()] the same elements in the reverse order,
    [size()] of them each time. *)
Lemma traversal_of_nonempty_container :
  (∀ T (this : DoublyLinkedList.object) (h : gmap loc (DoublyLinkedList.Node T)) cs,
     DoublyLinkedList.Rep this h cs → cs ≠ [] →
     DoublyLinkedList.traverse DoublyLinkedList.begin DoublyLinkedList.end_ this h = Ok (cs.*2, h)
     ∧ DoublyLinkedList.traverse DoublyLinkedList.cbegin DoublyLinkedList.cend this h = Ok (cs.*2, h)
     ∧ DoublyLinkedList.traverse DoublyLinkedList.rbegin DoublyLinkedList.rend this h = Ok (reverse cs.*2, h)
     ∧ DoublyLinkedList.traverse DoublyLinkedList.crbegin DoublyLinkedList.crend this h = Ok (reverse cs.*2, h)
     ∧ N.of_nat (length cs.*2) = DoublyLinkedList.size this
     ∧ N.of_nat (length (reverse cs.*2)) = DoublyLinkedList.size this)
  ∧ (∀ T (this : LinkedList.object) (h : gmap loc (LinkedList.Node T)) cs,
       LinkedList.Rep this h cs → cs ≠ [] →
       LinkedList.traverse LinkedList.begin LinkedList.end_ this h = Ok (cs.*2, h)
       ∧ LinkedList.traverse LinkedList.cbegin LinkedList.cend this h = Ok (cs.*2, h)
       ∧ N.of_nat (length cs.*2) = LinkedList.size this).
Proof.
  split; intros T this h cs HR Hne.
  - destruct (DoublyLinkedListFacts.dl_traverse_spec _ _ _ HR Hne) as (? & ? & ? & ?).
    repeat (split; [done|]). unfold DoublyLinkedList.size.
    by rewrite length_reverse, length_fmap, (DoublyLinkedList.rep_size _ _ _ HR).
  - destruct (LinkedListFacts.sl_traverse_spec _ _ _ HR Hne) as (? & ?).
    repeat (split; [done|]). unfold LinkedList.size.
    by rewrite length_fmap, (LinkedList.rep_size _ _ _ HR).
Qed.

(** C7 fails on the empty container.  There [end()], [cend()], [rend()]
    and [crend()] read a link of a null tail or head, so the traversal
    loop of a caller is undefined before its first comparison, in any
    heap, instead of visiting no element. *)
Theorem traversal_of_empty_container_undefined :
  (∀ T (h : gmap loc (DoublyLinkedList.Node T)),
     DoublyLinkedList.traverse DoublyLinkedList.begin DoublyLinkedList.end_ DoublyLinkedList.default_ctor h = Undefined
     ∧ DoublyLinkedList.traverse DoublyLinkedList.cbegin DoublyLinkedList.cend DoublyLinkedList.default_ctor h = Undefined
     ∧ DoublyLinkedList.traverse DoublyLinkedList.rbegin DoublyLinkedList.rend DoublyLinkedList.default_ctor h = Undefined
     ∧ DoublyLinkedList.traverse DoublyLinkedList.crbegin DoublyLinkedList.crend DoublyLinkedList.default_ctor h = Undefined)
  ∧ (∀ T (h : gmap loc (LinkedList.Node T)),
       LinkedList.traverse LinkedList.begin LinkedList.end_ LinkedList.default_ctor h = Undefined
       ∧ LinkedList.traverse LinkedList.cbegin LinkedList.cend LinkedList.default_ctor h = Undefined).
Proof.
  split; intros T h.
  - by apply DoublyLinkedListFacts.dl_traverse_empty.
  - by apply LinkedListFacts.sl_traverse_empty.
Qed.

(** ** Cursors *)



(** ** The cost of a lookup *)

(** C9.  On a well-formed doubly-linked list of size [N], [operator[]]
    at an index [i < N] visits [min (i + 1) (N - i)] nodes, the node it
    starts on and the node it stops on included: the first [i + 1] nodes
    from the head when it walks forward, the last [N - i] nodes from the
    tail when it walks backward.  These are the nodes the lookup reads
    through: its result is the same in every heap that agrees with this
    one on them, and of the nodes of the list they are exactly those
    that make the lookup undefined when released.  They are also the
    nodes [current] points to, in the order of the walk. *)
Theorem lookup_visits_nearest_end :
  ∀ T (this : DoublyLinkedList.object) (h : gmap loc (DoublyLinkedList.Node T)) cs index c,
    DoublyLinkedList.Rep this h cs → cs !! N.to_nat index = Some c →
    let visited := DoublyLinkedList.read_by_lookup this cs (N.to_nat index) in
    DoublyLinkedList.operator_index index this h = Ok (c.2, h)
    ∧ NoDup visited.*1
    ∧ N.of_nat (length visited) = N.min (index + 1) (DoublyLinkedList.size this - index)
    ∧ (∀ h' : gmap loc (DoublyLinkedList.Node T), (∀ d, d ∈ visited → h' !! d.1 = h !! d.1) →
             DoublyLinkedList.operator_index index this h' = Ok (c.2, h'))
    ∧ (∀ d, d ∈ cs →
            DoublyLinkedList.operator_index index this (base.delete d.1 h)
            = if decide (d.1 ∈ visited.*1) then Undefined
              else Ok (c.2, base.delete d.1 h))
    ∧ (closer_to_end (DoublyLinkedList.size this) index = false →
       visited = take (S (N.to_nat index)) cs
       ∧ N.of_nat (length visited) = index + 1)
    ∧ (closer_to_end (DoublyLinkedList.size this) index = true →
       visited = drop (N.to_nat index) cs
       ∧ N.of_nat (length visited) = DoublyLinkedList.size this - index)
    ∧ ∃ record,
        DoublyLinkedList.walk_to_visited index this h = Ok ((Some c.1, record), h)
        ∧ forget_visited (DoublyLinkedList.walk_to_visited index this h) = DoublyLinkedList.walk_to index this h
        ∧ record = Some <$> (if closer_to_end (DoublyLinkedList.size this) index
                             then reverse visited else visited).*1.
Proof.
  intros T this h cs index c HR Hc visited. unfold DoublyLinkedList.size.
  pose proof (lookup_lt_Some _ _ _ Hc) as Hi.
  pose proof (DoublyLinkedList.rep_size _ _ _ HR) as Hsize.
  pose proof (DoublyLinkedList.rep_bound _ _ _ HR) as Hbound.
  pose proof (DoublyLinkedList.rep_nodup _ _ _ HR) as Hnd.
  destruct (DoublyLinkedListFacts.dl_walk_to_visited_at _ _ _ _ _ HR Hc) as (record & Hrun & Hrec).
  pose proof (DoublyLinkedListFacts.dl_operator_index_at _ _ _ _ _ HR Hc) as Hop.
  pose proof (λ h', DoublyLinkedListFacts.dl_lookup_reads_only this h cs _ c h' HR Hc) as Honly.
  pose proof (DoublyLinkedListFacts.dl_read_by_lookup_length _ _ _ _ _ HR Hc) as Hlen.
  fold visited in Honly, Hlen.
  assert (visited = if closer_to_end (DoublyLinkedList.size_ this) index
                    then drop (N.to_nat index) cs
                    else take (S (N.to_nat index)) cs) as Hvisited.
  { unfold visited, DoublyLinkedList.read_by_lookup. by rewrite N2Nat.id. }
  rewrite N2Nat.id in Hrun, Hrec, Hop, Honly.
  assert (closer_to_end (DoublyLinkedList.size_ this) index = (DoublyLinkedList.size_ this - 1 - index <? index))
    as Hdir by (apply closer_to_end_in_range; lia).
  split; [done|]. split.
  { rewrite Hvisited. destruct (closer_to_end _ _).
    - rewrite fmap_drop. eapply sublist_NoDup; [done|apply sublist_drop].
    - rewrite fmap_take. eapply sublist_NoDup; [done|apply sublist_take]. }
  split; [lia|]. split; [done|]. split.
  { intros d [j Hj]%list_elem_of_lookup.
    destruct (decide (d.1 ∈ visited.*1)) as [Hin|Hout].
    - pose proof (DoublyLinkedListFacts.dl_read_by_lookup_inv this cs _ j d Hnd Hj Hin) as Hside.
      pose proof (DoublyLinkedListFacts.dl_lookup_needs this h cs _ j c d HR Hc Hj Hside) as Hneeds.
      by rewrite N2Nat.id in Hneeds.
    - apply Honly. intros e He. apply lookup_delete_ne. intros Heq.
      apply Hout. rewrite Heq. apply list_elem_of_fmap. eauto. }
  destruct (closer_to_end (DoublyLinkedList.size_ this) index).
  - symmetry in Hdir. apply N.ltb_lt in Hdir.
    split; [done|]. split; [split; [done|lia]|].
    exists record. split; [done|]. split; [apply DoublyLinkedListFacts.dl_walk_to_visited_forget|].
    by rewrite Hrec, Hvisited.
  - symmetry in Hdir. apply N.ltb_ge in Hdir.
    split; [split; [done|lia]|]. split; [done|].
    exists record. split; [done|]. split; [apply DoublyLinkedListFacts.dl_walk_to_visited_forget|].
    by rewrite Hrec, Hvisited.
Qed.

Lemma lookup_visits_nearest_end_witness :
  DoublyLinkedList.Rep dl_list dl_heap sample_cells
  ∧ sample_cells !! N.to_nat 2 = Some (3%positive, 30%nat)
  ∧ N.of_nat (length (DoublyLinkedList.read_by_lookup dl_list sample_cells (N.to_nat 2)))
    = N.min (2 + 1) (DoublyLinkedList.size dl_list - 2)
  ∧ DoublyLinkedList.operator_index 2 dl_list (base.delete 1%positive dl_heap)
    = Ok (30%nat, base.delete 1%positive dl_heap)
  ∧ DoublyLinkedList.operator_index 2 dl_list (base.delete 3%positive dl_heap) = Undefined.
Proof.
  split; [apply dl_sample_Rep|]. split; [reflexivity|].
  destruct (lookup_visits_nearest_end nat dl_list dl_heap sample_cells 2
              (3%positive, 30%nat) dl_sample_Rep eq_refl)
    as (_ & _ & Hlen & _ & Hdel & _).
  split; [done|]. split.
  - apply (Hdel (1%positive, 10%nat)). apply list_elem_of_here.
  - apply (Hdel (3%positive, 30%nat)). by vm_compute; set_solver.
Defined.

(** ** [end()] and its kin on the empty container *)

Lemma dl_empty_iff {T} (this : DoublyLinkedList.object) (h : gmap loc (DoublyLinkedList.Node T)) cs :
  DoublyLinkedList.Rep this h cs → DoublyLinkedList.empty this = true ↔ cs = [].
Proof.
  intros HR. unfold DoublyLinkedList.empty. rewrite (DoublyLinkedList.rep_head _ _ _ HR).
  destruct cs as [|c cs]; simpl; by split.
Qed.

Lemma sl_empty_iff {T} (this : LinkedList.object) (h : gmap loc (LinkedList.Node T)) cs :
  LinkedList.Rep this h cs → LinkedList.empty this = true ↔ cs = [].
Proof.
  intros HR. unfold LinkedList.empty. rewrite (LinkedList.rep_head _ _ _ HR).
  destruct cs as [|c cs]; simpl; by split.
Qed.

(** C10.  On a well-formed container for which [empty()] is true,
    [end()] and [cend()] (both containers) and [rend()] and [crend()]
    (doubly-linked) read through a null pointer and are undefined, while
    [begin()], [cbegin()], [rbegin()] and [crbegin()] return the
    sentinel; when [empty()] is false, the four return the sentinel. *)
Theorem past_the_end_needs_elements :
  (∀ T (this : DoublyLinkedList.object) (h : gmap loc (DoublyLinkedList.Node T)),
     DoublyLinkedList.well_formed this h →
     (DoublyLinkedList.empty this = true →
      DoublyLinkedList.end_ this h = Undefined ∧ DoublyLinkedList.cend this h = Undefined
      ∧ DoublyLinkedList.rend this h = Undefined ∧ DoublyLinkedList.crend this h = Undefined
      ∧ DoublyLinkedList.begin this h = Ok (DoublyLinkedList.mkCursor DoublyLinkedList.Iterator None, h)
      ∧ DoublyLinkedList.cbegin this h = Ok (DoublyLinkedList.mkCursor DoublyLinkedList.ConstIterator None, h)
      ∧ DoublyLinkedList.rbegin this h = Ok (DoublyLinkedList.mkCursor DoublyLinkedList.ReverseIterator None, h)
      ∧ DoublyLinkedList.crbegin this h = Ok (DoublyLinkedList.mkCursor DoublyLinkedList.ConstReverseIterator None, h))
     ∧ (DoublyLinkedList.empty this = false →
        DoublyLinkedList.end_ this h = Ok (DoublyLinkedList.mkCursor DoublyLinkedList.Iterator None, h)
        ∧ DoublyLinkedList.cend this h = Ok (DoublyLinkedList.mkCursor DoublyLinkedList.ConstIterator None, h)
        ∧ DoublyLinkedList.rend this h = Ok (DoublyLinkedList.mkCursor DoublyLinkedList.ReverseIterator None, h)
        ∧ DoublyLinkedList.crend this h = Ok (DoublyLinkedList.mkCursor DoublyLinkedList.ConstReverseIterator None, h)))
  ∧ (∀ T (this : LinkedList.object) (h : gmap loc (LinkedList.Node T)),
       LinkedList.well_formed this h →
       (LinkedList.empty this = true →
        LinkedList.end_ this h = Undefined ∧ LinkedList.cend this h = Undefined
        ∧ LinkedList.begin this h = Ok (LinkedList.mkCursor LinkedList.Iterator None, h)
        ∧ LinkedList.cbegin this h = Ok (LinkedList.mkCursor LinkedList.ConstIterator None, h))
       ∧ (LinkedList.empty this = false →
          LinkedList.end_ this h = Ok (LinkedList.mkCursor LinkedList.Iterator None, h)
          ∧ LinkedList.cend this h = Ok (LinkedList.mkCursor LinkedList.ConstIterator None, h))).
Proof.
  split; intros T this h [cs HR].
  - pose proof (dl_empty_iff _ _ _ HR) as Hempty. split; intros He.
    + apply Hempty in He as ->. rewrite (DoublyLinkedListFacts.dl_Rep_nil_inv _ _ HR).
      by repeat split.
    + apply DoublyLinkedListFacts.dl_past_the_end with cs; [done|].
      intros Hnil. apply Hempty in Hnil. congruence.
  - pose proof (sl_empty_iff _ _ _ HR) as Hempty. split; intros He.
    + apply Hempty in He as ->. rewrite (LinkedListFacts.sl_Rep_nil_inv _ _ HR).
      by repeat split.
    + apply LinkedListFacts.sl_past_the_end with cs; [done|].
      intros Hnil. apply Hempty in Hnil. congruence.
Qed.

Lemma past_the_end_needs_elements_witness :
  (DoublyLinkedList.well_formed DoublyLinkedList.default_ctor dl_heap ∧ DoublyLinkedList.empty DoublyLinkedList.default_ctor = true
   ∧ DoublyLinkedList.end_ DoublyLinkedList.default_ctor dl_heap = Undefined
   ∧ DoublyLinkedList.rend DoublyLinkedList.default_ctor dl_heap = Undefined)
  ∧ (DoublyLinkedList.well_formed dl_list dl_heap ∧ DoublyLinkedList.empty dl_list = false
     ∧ DoublyLinkedList.end_ dl_list dl_heap = Ok (DoublyLinkedList.mkCursor DoublyLinkedList.Iterator None, dl_heap))
  ∧ (LinkedList.well_formed LinkedList.default_ctor sl_heap ∧ LinkedList.empty LinkedList.default_ctor = true
     ∧ LinkedList.end_ LinkedList.default_ctor sl_heap = Undefined)
  ∧ (LinkedList.well_formed sl_list sl_heap ∧ LinkedList.empty sl_list = false
     ∧ LinkedList.end_ sl_list sl_heap = Ok (LinkedList.mkCursor LinkedList.Iterator None, sl_heap)).
Proof.
  assert (DoublyLinkedList.well_formed DoublyLinkedList.default_ctor dl_heap) as Hd0
    by (exists []; apply DoublyLinkedListFacts.dl_Rep_nil).
  assert (DoublyLinkedList.well_formed dl_list dl_heap) as Hd
    by (exists sample_cells; apply dl_sample_Rep).
  assert (LinkedList.well_formed LinkedList.default_ctor sl_heap) as Hs0
    by (exists []; apply LinkedListFacts.sl_Rep_nil).
  assert (LinkedList.well_formed sl_list sl_heap) as Hs
    by (exists sample_cells; apply sl_sample_Rep).
  destruct past_the_end_needs_elements as [Hdl Hsl].
  destruct (Hdl nat DoublyLinkedList.default_ctor dl_heap Hd0) as [He _].
  destruct (He eq_refl) as (Hend & _ & Hrend & _).
  destruct (Hdl nat dl_list dl_heap Hd) as [_ Hne].
  destruct (Hne eq_refl) as (Hend' & _).
  destruct (Hsl nat LinkedList.default_ctor sl_heap Hs0) as [Hse _].
  destruct (Hse eq_refl) as (Hsend & _).
  destruct (Hsl nat sl_list sl_heap Hs) as [_ Hsne].
  destruct (Hsne eq_refl) as (Hsend' & _).
  split; [by repeat split|]. split; [by repeat split|].
  split; by repeat split.
Defined.

(** * Further properties of the two containers *)

(** ** The ends of a container *)

Lemma dl_front_at {T} (this : DoublyLinkedList.object) (h : gmap loc (DoublyLinkedList.Node T)) c cs :
  DoublyLinkedList.Rep this h (c :: cs) → DoublyLinkedList.front this h = Ok (c.2, h).
Proof.
  intros [_ _ _ Hhead _ [Hc _]]. unfold DoublyLinkedList.front. rewrite Hhead. simpl.
  by rewrite (DoublyLinkedListFacts.dl_get_value_at _ _ _ Hc).
Qed.

Lemma dl_back_at {T} (this : DoublyLinkedList.object) (h : gmap loc (DoublyLinkedList.Node T)) cs c :
  DoublyLinkedList.Rep this h (cs ++ [c]) → DoublyLinkedList.back this h = Ok (c.2, h).
Proof.
  intros [_ _ _ _ Htail Hseg]. unfold DoublyLinkedList.back. rewrite Htail, last_loc_snoc.
  apply DoublyLinkedListFacts.dl_dseg_app in Hseg as [_ [Hc _]].
  by rewrite (DoublyLinkedListFacts.dl_get_value_at _ _ _ Hc).
Qed.

Lemma sl_front_at {T} (this : LinkedList.object) (h : gmap loc (LinkedList.Node T)) c cs :
  LinkedList.Rep this h (c :: cs) → LinkedList.front this h = Ok (c.2, h).
Proof.
  intros [_ _ _ Hhead _ [Hc _]]. unfold LinkedList.front. rewrite Hhead. simpl.
  by rewrite (LinkedListFacts.sl_get_value_at _ _ _ Hc).
Qed.

Lemma sl_back_at {T} (this : LinkedList.object) (h : gmap loc (LinkedList.Node T)) cs c :
  LinkedList.Rep this h (cs ++ [c]) → LinkedList.back this h = Ok (c.2, h).
Proof.
  intros [_ _ _ _ Htail Hseg]. unfold LinkedList.back. rewrite Htail, last_loc_snoc.
  apply LinkedListFacts.sl_sseg_app in Hseg as [_ [Hc _]].
  by rewrite (LinkedListFacts.sl_get_value_at _ _ _ Hc).
Qed.

(** X1.  On a well-formed container of either kind whose size can still
    grow within [size_t], [push_back(val)] ends normally on a well-formed
    container that holds the old sequence followed by [val]; the size is
    one more and [back()] returns [val]. *)
Theorem push_back_appends :
  (∀ T (this : DoublyLinkedList.object) (h : gmap loc (DoublyLinkedList.Node T)) cs v,
     DoublyLinkedList.Rep this h cs → DoublyLinkedList.size this < SIZE_MAX →
     ∃ this' h' cs',
       DoublyLinkedList.push_back v this h = Ok (this', h') ∧ DoublyLinkedList.Rep this' h' cs'
       ∧ cs'.*2 = cs.*2 ++ [v] ∧ DoublyLinkedList.size this' = DoublyLinkedList.size this + 1
       ∧ DoublyLinkedList.back this' h' = Ok (v, h'))
  ∧ (∀ T (this : LinkedList.object) (h : gmap loc (LinkedList.Node T)) cs v,
       LinkedList.Rep this h cs → LinkedList.size this < SIZE_MAX →
       ∃ this' h' cs',
         LinkedList.push_back v this h = Ok (this', h') ∧ LinkedList.Rep this' h' cs'
         ∧ cs'.*2 = cs.*2 ++ [v] ∧ LinkedList.size this' = LinkedList.size this + 1
         ∧ LinkedList.back this' h' = Ok (v, h')).
Proof.
  split; intros T this h cs v HR Hlt; unfold DoublyLinkedList.size, LinkedList.size in *.
  - pose proof (DoublyLinkedList.rep_size _ _ _ HR) as Hsize.
    destruct (DoublyLinkedListFacts.dl_push_back_spec _ _ _ v HR) as (a & this' & h' & Hrun & _ & HR' & _);
      [lia|].
    exists this', h', (cs ++ [(a, v)]). split; [done|]. split; [done|].
    split; [by rewrite fmap_app|]. split; [|by apply (dl_back_at _ _ _ _ HR')].
    rewrite (DoublyLinkedList.rep_size _ _ _ HR'), Hsize, length_app. simpl. lia.
  - pose proof (LinkedList.rep_size _ _ _ HR) as Hsize.
    destruct (LinkedListFacts.sl_push_back_spec _ _ _ v HR) as (a & this' & h' & Hrun & _ & HR' & _);
      [lia|].
    exists this', h', (cs ++ [(a, v)]). split; [done|]. split; [done|].
    split; [by rewrite fmap_app|]. split; [|by apply (sl_back_at _ _ _ _ HR')].
    rewrite (LinkedList.rep_size _ _ _ HR'), Hsize, length_app. simpl. lia.
Qed.

Lemma push_back_appends_witness :
  (DoublyLinkedList.Rep dl_list dl_heap sample_cells ∧ DoublyLinkedList.size dl_list < SIZE_MAX
   ∧ ∃ this' h' cs',
       DoublyLinkedList.push_back 7%nat dl_list dl_heap = Ok (this', h') ∧ DoublyLinkedList.Rep this' h' cs'
       ∧ cs'.*2 = [10; 20; 30; 7]%nat)
  ∧ (LinkedList.Rep sl_list sl_heap sample_cells ∧ LinkedList.size sl_list < SIZE_MAX
     ∧ ∃ this' h' cs',
         LinkedList.push_back 7%nat sl_list sl_heap = Ok (this', h') ∧ LinkedList.Rep this' h' cs'
         ∧ cs'.*2 = [10; 20; 30; 7]%nat).
Proof.
  split.
  - split; [apply dl_sample_Rep|]. split; [by vm_compute|].
    destruct (proj1 push_back_appends nat dl_list dl_heap sample_cells 7%nat
                dl_sample_Rep) as (this' & h' & cs' & Hrun & HR' & Hseq & _);
      [by vm_compute|].
    by exists this', h', cs'.
  - split; [apply sl_sample_Rep|]. split; [by vm_compute|].
    destruct (proj2 push_back_appends nat sl_list sl_heap sample_cells 7%nat
                sl_sample_Rep) as (this' & h' & cs' & Hrun & HR' & Hseq & _);
      [by vm_compute|].
    by exists this', h', cs'.
Defined.

(** X2.  Likewise [push_front(val)] ends on a well-formed container that
    holds [val] followed by the old sequence; the size is one more and
    [front()] returns [val]. *)
Theorem push_front_prepends :
  (∀ T (this : DoublyLinkedList.object) (h : gmap loc (DoublyLinkedList.Node T)) cs v,
     DoublyLinkedList.Rep this h cs → DoublyLinkedList.size this < SIZE_MAX →
     ∃ this' h' cs',
       DoublyLinkedList.push_front v this h = Ok (this', h') ∧ DoublyLinkedList.Rep this' h' cs'
       ∧ cs'.*2 = v :: cs.*2 ∧ DoublyLinkedList.size this' = DoublyLinkedList.size this + 1
       ∧ DoublyLinkedList.front this' h' = Ok (v, h'))
  ∧ (∀ T (this : LinkedList.object) (h : gmap loc (LinkedList.Node T)) cs v,
       LinkedList.Rep this h cs → LinkedList.size this < SIZE_MAX →
       ∃ this' h' cs',
         LinkedList.push_front v this h = Ok (this', h') ∧ LinkedList.Rep this' h' cs'
         ∧ cs'.*2 = v :: cs.*2 ∧ LinkedList.size this' = LinkedList.size this + 1
         ∧ LinkedList.front this' h' = Ok (v, h')).
Proof.
  split; intros T this h cs v HR Hlt; unfold DoublyLinkedList.size, LinkedList.size in *.
  - pose proof (DoublyLinkedList.rep_size _ _ _ HR) as Hsize.
    destruct (DoublyLinkedListFacts.dl_push_front_spec _ _ _ v HR) as (a & this' & h' & Hrun & _ & HR' & _);
      [lia|].
    exists this', h', ((a, v) :: cs). split; [done|]. split; [done|].
    split; [done|]. split; [|by apply (dl_front_at _ _ _ _ HR')].
    rewrite (DoublyLinkedList.rep_size _ _ _ HR'), Hsize. simpl. lia.
  - pose proof (LinkedList.rep_size _ _ _ HR) as Hsize.
    destruct (LinkedListFacts.sl_push_front_spec _ _ _ v HR) as (a & this' & h' & Hrun & _ & HR' & _);
      [lia|].
    exists this', h', ((a, v) :: cs). split; [done|]. split; [done|].
    split; [done|]. split; [|by apply (sl_front_at _ _ _ _ HR')].
    rewrite (LinkedList.rep_size _ _ _ HR'), Hsize. simpl. lia.
Qed.

Lemma push_front_prepends_witness :
  (DoublyLinkedList.Rep dl_list dl_heap sample_cells ∧ DoublyLinkedList.size dl_list < SIZE_MAX
   ∧ ∃ this' h' cs',
       DoublyLinkedList.push_front 7%nat dl_list dl_heap = Ok (this', h') ∧ DoublyLinkedList.Rep this' h' cs'
       ∧ cs'.*2 = [7; 10; 20; 30]%nat)
  ∧ (LinkedList.Rep sl_list sl_heap sample_cells ∧ LinkedList.size sl_list < SIZE_MAX
     ∧ ∃ this' h' cs',
         LinkedList.push_front 7%nat sl_list sl_heap = Ok (this', h') ∧ LinkedList.Rep this' h' cs'
         ∧ cs'.*2 = [7; 10; 20; 30]%nat).
Proof.
  split.
  - split; [apply dl_sample_Rep|]. split; [by vm_compute|].
    destruct (proj1 push_front_prepends nat dl_list dl_heap sample_cells 7%nat
                dl_sample_Rep) as (this' & h' & cs' & Hrun & HR' & Hseq & _);
      [by vm_compute|].
    by exists this', h', cs'.
  - split; [apply sl_sample_Rep|]. split; [by vm_compute|].
    destruct (proj2 push_front_prepends nat sl_list sl_heap sample_cells 7%nat
                sl_sample_Rep) as (this' & h' & cs' & Hrun & HR' & Hseq & _);
      [by vm_compute|].
    by exists this', h', cs'.
Defined.

(** ** Removal at the ends and in the middle *)

Lemma cells_snoc {T} (cs : list (loc * T)) xs x :
  cs.*2 = xs ++ [x] → ∃ l t, cs = l ++ [t] ∧ l.*2 = xs ∧ t.2 = x.
Proof.
  intros Hxs. destruct (exists_last_or_nil cs) as [->|(l & t & ->)].
  - by destruct xs.
  - rewrite fmap_snoc in Hxs. apply app_inj_tail in Hxs as [? ?]. by exists l, t.
Qed.

(** X3.  On a well-formed container of either kind that holds a
    sequence ending in [x], [pop_back()] ends normally on a well-formed
    container that holds the sequence without [x], of size one less; and
    a [push_back(v)] after it puts [v] right after the new last element.
    The singly-linked list gets there by walking from the head to the
    node before the tail. *)
Theorem pop_back_drops_last :
  (∀ T (this : DoublyLinkedList.object) (h : gmap loc (DoublyLinkedList.Node T)) cs xs x v,
     DoublyLinkedList.Rep this h cs → cs.*2 = xs ++ [x] →
     ∃ this1 h1 cs1 this2 h2 cs2,
       DoublyLinkedList.pop_back this h = Ok (this1, h1) ∧ DoublyLinkedList.Rep this1 h1 cs1
       ∧ cs1.*2 = xs ∧ DoublyLinkedList.size this1 = DoublyLinkedList.size this - 1
       ∧ DoublyLinkedList.push_back v this1 h1 = Ok (this2, h2) ∧ DoublyLinkedList.Rep this2 h2 cs2
       ∧ cs2.*2 = xs ++ [v])
  ∧ (∀ T (this : LinkedList.object) (h : gmap loc (LinkedList.Node T)) cs xs x v,
       LinkedList.Rep this h cs → cs.*2 = xs ++ [x] →
       ∃ this1 h1 cs1 this2 h2 cs2,
         LinkedList.pop_back this h = Ok (this1, h1) ∧ LinkedList.Rep this1 h1 cs1
         ∧ cs1.*2 = xs ∧ LinkedList.size this1 = LinkedList.size this - 1
         ∧ LinkedList.push_back v this1 h1 = Ok (this2, h2) ∧ LinkedList.Rep this2 h2 cs2
         ∧ cs2.*2 = xs ++ [v]).
Proof.
  split; intros T this h cs xs x v HR Hxs; unfold DoublyLinkedList.size, LinkedList.size;
    destruct (cells_snoc _ _ _ Hxs) as (l & t & -> & Hl & _).
  - pose proof (DoublyLinkedList.rep_size _ _ _ HR) as Hsize.
    pose proof (DoublyLinkedList.rep_bound _ _ _ HR) as Hbound.
    rewrite length_app in Hsize, Hbound. simpl in Hsize, Hbound.
    destruct (DoublyLinkedListFacts.dl_pop_back_snoc _ _ _ _ HR) as (this1 & h1 & Hpop & HR1 & _).
    pose proof (DoublyLinkedList.rep_size _ _ _ HR1) as Hsize1.
    destruct (DoublyLinkedListFacts.dl_push_back_spec _ _ _ v HR1)
      as (a & this2 & h2 & Hpush & _ & HR2 & _); [lia|].
    exists this1, h1, l, this2, h2, (l ++ [(a, v)]).
    repeat (split; [done || lia|]). by rewrite fmap_snoc, Hl.
  - pose proof (LinkedList.rep_size _ _ _ HR) as Hsize.
    pose proof (LinkedList.rep_bound _ _ _ HR) as Hbound.
    rewrite length_app in Hsize, Hbound. simpl in Hsize, Hbound.
    destruct (LinkedListFacts.sl_pop_back_snoc _ _ _ _ HR) as (this1 & h1 & Hpop & HR1 & _).
    pose proof (LinkedList.rep_size _ _ _ HR1) as Hsize1.
    destruct (LinkedListFacts.sl_push_back_spec _ _ _ v HR1)
      as (a & this2 & h2 & Hpush & _ & HR2 & _); [lia|].
    exists this1, h1, l, this2, h2, (l ++ [(a, v)]).
    repeat (split; [done || lia|]). by rewrite fmap_snoc, Hl.
Qed.

Lemma pop_back_drops_last_witness :
  (DoublyLinkedList.Rep dl_list dl_heap sample_cells ∧ sample_cells.*2 = [10; 20]%nat ++ [30%nat]
   ∧ ∃ this1 h1 cs1, DoublyLinkedList.pop_back dl_list dl_heap = Ok (this1, h1)
                     ∧ DoublyLinkedList.Rep this1 h1 cs1 ∧ cs1.*2 = [10; 20]%nat)
  ∧ (LinkedList.Rep sl_list sl_heap sample_cells ∧ sample_cells.*2 = [10; 20]%nat ++ [30%nat]
     ∧ ∃ this1 h1 cs1, LinkedList.pop_back sl_list sl_heap = Ok (this1, h1)
                       ∧ LinkedList.Rep this1 h1 cs1 ∧ cs1.*2 = [10; 20]%nat).
Proof.
  split.
  - split; [apply dl_sample_Rep|]. split; [reflexivity|].
    destruct (proj1 pop_back_drops_last nat dl_list dl_heap sample_cells
                [10; 20]%nat 30%nat 0%nat dl_sample_Rep eq_refl)
      as (this1 & h1 & cs1 & _ & _ & _ & Hrun & HR1 & Hseq & _).
    by exists this1, h1, cs1.
  - split; [apply sl_sample_Rep|]. split; [reflexivity|].
    destruct (proj2 pop_back_drops_last nat sl_list sl_heap sample_cells
                [10; 20]%nat 30%nat 0%nat sl_sample_Rep eq_refl)
      as (this1 & h1 & cs1 & _ & _ & _ & Hrun & HR1 & Hseq & _).
    by exists this1, h1, cs1.
Defined.

(** X4.  On a well-formed container of either kind that holds a
    sequence starting with [x], [pop_front()] ends normally on a
    well-formed container that holds the rest, of size one less. *)
Theorem pop_front_drops_first :
  (∀ T (this : DoublyLinkedList.object) (h : gmap loc (DoublyLinkedList.Node T)) cs x xs,
     DoublyLinkedList.Rep this h cs → cs.*2 = x :: xs →
     ∃ this' h' cs',
       DoublyLinkedList.pop_front this h = Ok (this', h') ∧ DoublyLinkedList.Rep this' h' cs'
       ∧ cs'.*2 = xs ∧ DoublyLinkedList.size this' = DoublyLinkedList.size this - 1)
  ∧ (∀ T (this : LinkedList.object) (h : gmap loc (LinkedList.Node T)) cs x xs,
       LinkedList.Rep this h cs → cs.*2 = x :: xs →
       ∃ this' h' cs',
         LinkedList.pop_front this h = Ok (this', h') ∧ LinkedList.Rep this' h' cs'
         ∧ cs'.*2 = xs ∧ LinkedList.size this' = LinkedList.size this - 1).
Proof.
  split; intros T this h cs x xs HR Hxs; unfold DoublyLinkedList.size, LinkedList.size;
    (destruct cs as [|t cs]; [done|]); injection Hxs as _ Hxs.
  - pose proof (DoublyLinkedList.rep_size _ _ _ HR) as Hsize. simpl in Hsize.
    destruct (DoublyLinkedListFacts.dl_pop_front_cons _ _ _ _ HR) as (this' & h' & Hpop & HR' & _).
    exists this', h', cs. repeat (split; [done|]).
    rewrite (DoublyLinkedList.rep_size _ _ _ HR'). lia.
  - pose proof (LinkedList.rep_size _ _ _ HR) as Hsize. simpl in Hsize.
    destruct (LinkedListFacts.sl_pop_front_cons _ _ _ _ HR) as (this' & h' & Hpop & HR' & _).
    exists this', h', cs. repeat (split; [done|]).
    rewrite (LinkedList.rep_size _ _ _ HR'). lia.
Qed.

Lemma pop_front_drops_first_witness :
  (DoublyLinkedList.Rep dl_list dl_heap sample_cells ∧ sample_cells.*2 = 10%nat :: [20; 30]%nat
   ∧ ∃ this' h' cs', DoublyLinkedList.pop_front dl_list dl_heap = Ok (this', h')
                     ∧ DoublyLinkedList.Rep this' h' cs' ∧ cs'.*2 = [20; 30]%nat)
  ∧ (LinkedList.Rep sl_list sl_heap sample_cells ∧ sample_cells.*2 = 10%nat :: [20; 30]%nat
     ∧ ∃ this' h' cs', LinkedList.pop_front sl_list sl_heap = Ok (this', h')
                       ∧ LinkedList.Rep this' h' cs' ∧ cs'.*2 = [20; 30]%nat).
Proof.
  split.
  - split; [apply dl_sample_Rep|]. split; [reflexivity|].
    destruct (proj1 pop_front_drops_first nat dl_list dl_heap sample_cells
                10%nat [20; 30]%nat dl_sample_Rep eq_refl)
      as (this' & h' & cs' & Hrun & HR' & Hseq & _).
    by exists this', h', cs'.
  - split; [apply sl_sample_Rep|]. split; [reflexivity|].
    destruct (proj2 pop_front_drops_first nat sl_list sl_heap sample_cells
                10%nat [20; 30]%nat sl_sample_Rep eq_refl)
      as (this' & h' & cs' & Hrun & HR' & Hseq & _).
    by exists this', h', cs'.
Defined.

Lemma dl_pops_agree_on_one {T} (this : DoublyLinkedList.object) (h : gmap loc (DoublyLinkedList.Node T)) cs :
  DoublyLinkedList.Rep this h cs → DoublyLinkedList.size_ this = 1 → DoublyLinkedList.pop_front this h = DoublyLinkedList.pop_back this h.
Proof.
  intros [_ Hsize _ Hhead Htail _] Hone. unfold DoublyLinkedList.pop_front, DoublyLinkedList.pop_back.
  rewrite Hone, Hhead, Htail. simpl.
  destruct cs as [|c [|c' cs]]; simpl in Hsize; [lia|done|lia].
Qed.

Lemma sl_pops_agree_on_one {T} (this : LinkedList.object) (h : gmap loc (LinkedList.Node T)) cs :
  LinkedList.Rep this h cs → LinkedList.size_ this = 1 → LinkedList.pop_front this h = LinkedList.pop_back this h.
Proof.
  intros [_ Hsize _ Hhead Htail Hseg] Hone. unfold LinkedList.pop_front, LinkedList.pop_back.
  rewrite Hone, Hhead. simpl.
  destruct cs as [|c [|c' cs]]; simpl in Hsize; [lia| |lia].
  destruct Hseg as [Hc _]. simpl.
  rewrite (bind_Ok _ _ _ _ _ (LinkedListFacts.sl_get_next_at _ _ _ Hc)). done.
Qed.

(** X5.  On a well-formed container of either kind, [remove(index)] with
    [index < size()] ends normally on a well-formed container that holds
    the sequence without its element at [index]: the elements before keep
    their index, the elements after move one index down, and the size is
    one less.  [remove(0)] is [pop_front()] and [remove(size() - 1)] is
    [pop_back()]. *)
Theorem remove_deletes_element :
  (∀ T (this : DoublyLinkedList.object) (h : gmap loc (DoublyLinkedList.Node T)) cs index,
     DoublyLinkedList.Rep this h cs → index < DoublyLinkedList.size this →
     (∃ this' h' cs',
        DoublyLinkedList.remove index this h = Ok (this', h') ∧ DoublyLinkedList.Rep this' h' cs'
        ∧ cs'.*2 = base.delete (N.to_nat index) cs.*2
        ∧ (∀ j, (j < N.to_nat index)%nat → cs'.*2 !! j = cs.*2 !! j)
        ∧ (∀ j, (N.to_nat index ≤ j)%nat → cs'.*2 !! j = cs.*2 !! S j)
        ∧ DoublyLinkedList.size this' = DoublyLinkedList.size this - 1)
     ∧ (index = 0 → DoublyLinkedList.remove index this h = DoublyLinkedList.pop_front this h)
     ∧ (index = DoublyLinkedList.size this - 1 → DoublyLinkedList.remove index this h = DoublyLinkedList.pop_back this h))
  ∧ (∀ T (this : LinkedList.object) (h : gmap loc (LinkedList.Node T)) cs index,
       LinkedList.Rep this h cs → index < LinkedList.size this →
       (∃ this' h' cs',
          LinkedList.remove index this h = Ok (this', h') ∧ LinkedList.Rep this' h' cs'
          ∧ cs'.*2 = base.delete (N.to_nat index) cs.*2
          ∧ (∀ j, (j < N.to_nat index)%nat → cs'.*2 !! j = cs.*2 !! j)
          ∧ (∀ j, (N.to_nat index ≤ j)%nat → cs'.*2 !! j = cs.*2 !! S j)
          ∧ LinkedList.size this' = LinkedList.size this - 1)
       ∧ (index = 0 → LinkedList.remove index this h = LinkedList.pop_front this h)
       ∧ (index = LinkedList.size this - 1 → LinkedList.remove index this h = LinkedList.pop_back this h)).
Proof.
  split; intros T this h cs index HR Hlt; unfold DoublyLinkedList.size, LinkedList.size in *.
  - pose proof (DoublyLinkedList.rep_size _ _ _ HR) as Hsize.
    pose proof (DoublyLinkedList.rep_bound _ _ _ HR) as Hbound. split.
    { destruct (DoublyLinkedListFacts.dl_remove_spec _ _ _ (N.to_nat index) HR)
        as (this' & h' & Hrun & HR' & _).
      rewrite N2Nat.id in Hrun. eexists this', h', _.
      split; [done|]. split; [done|].
      rewrite list_fmap_delete. split; [done|].
      split; [intros j Hj; by apply list_lookup_delete_lt|].
      split; [intros j Hj; by apply list_lookup_delete_ge|].
      rewrite (DoublyLinkedList.rep_size _ _ _ HR'), length_delete
        by (apply lookup_lt_is_Some_2; lia). lia. }
    unfold DoublyLinkedList.remove. apply N.ltb_lt in Hlt as Hltb. rewrite Hltb.
    split; [by intros ->|]. intros ->.
    rewrite size_sub_le by lia. rewrite N.eqb_refl.
    destruct (_ =? 0) eqn:Hz; [|done]. apply N.eqb_eq in Hz.
    apply (dl_pops_agree_on_one _ _ cs); [done|lia].
  - pose proof (LinkedList.rep_size _ _ _ HR) as Hsize.
    pose proof (LinkedList.rep_bound _ _ _ HR) as Hbound. split.
    { destruct (LinkedListFacts.sl_remove_spec _ _ _ (N.to_nat index) HR)
        as (this' & h' & Hrun & HR' & _).
      rewrite N2Nat.id in Hrun. eexists this', h', _.
      split; [done|]. split; [done|].
      rewrite list_fmap_delete. split; [done|].
      split; [intros j Hj; by apply list_lookup_delete_lt|].
      split; [intros j Hj; by apply list_lookup_delete_ge|].
      rewrite (LinkedList.rep_size _ _ _ HR'), length_delete
        by (apply lookup_lt_is_Some_2; lia). lia. }
    unfold LinkedList.remove. apply N.ltb_lt in Hlt as Hltb. rewrite Hltb.
    split; [by intros ->|]. intros ->.
    rewrite size_sub_le by lia. rewrite N.eqb_refl.
    destruct (_ =? 0) eqn:Hz; [|done]. apply N.eqb_eq in Hz.
    apply (sl_pops_agree_on_one _ _ cs); [done|lia].
Qed.

Lemma remove_deletes_element_witness :
  (DoublyLinkedList.Rep dl_list dl_heap sample_cells ∧ 1 < DoublyLinkedList.size dl_list
   ∧ ∃ this' h' cs', DoublyLinkedList.remove 1 dl_list dl_heap = Ok (this', h')
                     ∧ DoublyLinkedList.Rep this' h' cs' ∧ cs'.*2 = [10; 30]%nat)
  ∧ (LinkedList.Rep sl_list sl_heap sample_cells ∧ 1 < LinkedList.size sl_list
     ∧ ∃ this' h' cs', LinkedList.remove 1 sl_list sl_heap = Ok (this', h')
                       ∧ LinkedList.Rep this' h' cs' ∧ cs'.*2 = [10; 30]%nat).
Proof.
  split.
  - split; [apply dl_sample_Rep|]. split; [by vm_compute|].
    destruct (proj1 remove_deletes_element nat dl_list dl_heap sample_cells 1
                dl_sample_Rep) as [(this' & h' & cs' & Hrun & HR' & Hseq & _) _];
      [by vm_compute|].
    by exists this', h', cs'.
  - split; [apply sl_sample_Rep|]. split; [by vm_compute|].
    destruct (proj2 remove_deletes_element nat sl_list sl_heap sample_cells 1
                sl_sample_Rep) as [(this' & h' & cs' & Hrun & HR' & Hseq & _) _];
      [by vm_compute|].
    by exists this', h', cs'.
Defined.

(** ** Releasing the nodes *)

Ltac heap_lookup :=
  repeat first
    [ rewrite lookup_insert_eq
    | rewrite lookup_insert_ne by (done || congruence)
    | rewrite lookup_delete_ne by (done || congruence) ];
  first [ reflexivity | eassumption | idtac ].

Ltac dl_step :=
  erewrite bind_Ok; cycle 1;
  [ first [ apply DoublyLinkedListFacts.dl_get_value_at | apply DoublyLinkedListFacts.dl_get_next_at
          | apply DoublyLinkedListFacts.dl_get_previous_at | apply DoublyLinkedListFacts.dl_set_next_at
          | apply DoublyLinkedListFacts.dl_set_previous_at | eapply delete_Some
          | apply DoublyLinkedListFacts.dl_new_node_fresh ];
    heap_lookup
  | simpl ].

Ltac sl_step :=
  erewrite bind_Ok; cycle 1;
  [ first [ apply LinkedListFacts.sl_get_value_at | apply LinkedListFacts.sl_get_next_at
          | apply LinkedListFacts.sl_set_next_at | eapply delete_Some
          | apply LinkedListFacts.sl_new_node_fresh ];
    heap_lookup
  | simpl ].

Lemma dl_release_walk {T} (h : gmap loc (DoublyLinkedList.Node T)) b cs :
  NoDup cs.*1 → DoublyLinkedList.dseg h b cs None →
  ∃ h',
    repeatM (length cs)
      (λ current, let* tmp := DoublyLinkedList.get_next current in
                  do delete current then ret tmp)
      (first_loc cs None) h = Ok (None, h')
    ∧ ∀ a, h' !! a = if decide (a ∈ cs.*1) then None else h !! a.
Proof.
  revert h b. induction cs as [|c cs IH]; intros h b Hnd Hseg.
  - exists h. split; [done|]. intros a. rewrite decide_False; [done|].
    apply not_elem_of_nil.
  - destruct Hseg as [Hc Hrest]. rewrite fmap_cons in Hnd.
    apply NoDup_cons in Hnd as [Hccs Hnd].
    destruct (IH (base.delete c.1 h) (Some c.1)) as (h' & Hrun & Hh'); [done| |].
    { by apply DoublyLinkedListFacts.dl_dseg_delete_ne. }
    exists h'. split.
    { simpl. erewrite bind_Ok; [apply Hrun|]. dl_step. by dl_step. }
    intros a. rewrite Hh', fmap_cons.
    destruct (decide (a = c.1)) as [->|Hne].
    + rewrite lookup_delete_eq, (decide_True (P:=_ ∈ _ :: _)) by apply list_elem_of_here.
      by destruct (decide _).
    + rewrite lookup_delete_ne by done.
      destruct (decide (a ∈ cs.*1)) as [Hin|Hout].
      * rewrite decide_True; [done|]. by apply list_elem_of_further.
      * rewrite decide_False; [done|]. by apply not_elem_of_cons.
Qed.

Lemma sl_release_walk {T} (h : gmap loc (LinkedList.Node T)) cs :
  NoDup cs.*1 → LinkedList.sseg h cs None →
  ∃ h',
    repeatM (length cs)
      (λ current, let* tmp := LinkedList.get_next current in
                  do delete current then ret tmp)
      (first_loc cs None) h = Ok (None, h')
    ∧ ∀ a, h' !! a = if decide (a ∈ cs.*1) then None else h !! a.
Proof.
  revert h. induction cs as [|c cs IH]; intros h Hnd Hseg.
  - exists h. split; [done|]. intros a. rewrite decide_False; [done|].
    apply not_elem_of_nil.
  - destruct Hseg as [Hc Hrest]. rewrite fmap_cons in Hnd.
    apply NoDup_cons in Hnd as [Hccs Hnd].
    destruct (IH (base.delete c.1 h)) as (h' & Hrun & Hh'); [done| |].
    { by apply LinkedListFacts.sl_sseg_delete_ne. }
    exists h'. split.
    { simpl. erewrite bind_Ok; [apply Hrun|]. sl_step. by sl_step. }
    intros a. rewrite Hh', fmap_cons.
    destruct (decide (a = c.1)) as [->|Hne].
    + rewrite lookup_delete_eq, (decide_True (P:=_ ∈ _ :: _)) by apply list_elem_of_here.
      by destruct (decide _).
    + rewrite lookup_delete_ne by done.
      destruct (decide (a ∈ cs.*1)) as [Hin|Hout].
      * rewrite decide_True; [done|]. by apply list_elem_of_further.
      * rewrite decide_False; [done|]. by apply not_elem_of_cons.
Qed.

Lemma dl_clear_releases {T} (this : DoublyLinkedList.object) (h : gmap loc (DoublyLinkedList.Node T)) cs :
  DoublyLinkedList.Rep this h cs →
  ∃ h',
    DoublyLinkedList.clear this h = Ok (DoublyLinkedList.default_ctor, h')
    ∧ DoublyLinkedList.dtor this h = Ok (tt, h')
    ∧ ∀ a, h' !! a = if decide (a ∈ cs.*1) then None else h !! a.
Proof.
  intros HR. pose proof HR as [Hnd Hsize Hbound Hhead Htail Hseg].
  destruct (dl_release_walk h None cs Hnd Hseg) as (h' & Hrun & Hh').
  exists h'. unfold DoublyLinkedList.clear, DoublyLinkedList.dtor.
  destruct cs as [|c cs].
  - rewrite Hsize. simpl in *. injection Hrun as <-.
    by rewrite (DoublyLinkedListFacts.dl_Rep_nil_inv _ _ HR).
  - replace (DoublyLinkedList.size_ this =? 0) with false
      by (symmetry; apply N.eqb_neq; simpl in Hsize; lia).
    assert (for_up (DoublyLinkedList.size_ this)
              (λ current, let* tmp := DoublyLinkedList.get_next current in
                          do delete current then ret tmp)
              (DoublyLinkedList.head_ this) h = Ok (None, h')) as Hloop.
    { rewrite for_up_repeat by lia. by rewrite Hsize, Nat2N.id, Hhead. }
    by rewrite !(bind_Ok _ _ _ _ _ Hloop).
Qed.

Lemma sl_clear_releases {T} (this : LinkedList.object) (h : gmap loc (LinkedList.Node T)) cs :
  LinkedList.Rep this h cs →
  ∃ h',
    LinkedList.clear this h = Ok (LinkedList.default_ctor, h')
    ∧ LinkedList.dtor this h = Ok (tt, h')
    ∧ ∀ a, h' !! a = if decide (a ∈ cs.*1) then None else h !! a.
Proof.
  intros HR. pose proof HR as [Hnd Hsize Hbound Hhead Htail Hseg].
  destruct (sl_release_walk h cs Hnd Hseg) as (h' & Hrun & Hh').
  exists h'. unfold LinkedList.clear, LinkedList.dtor.
  destruct cs as [|c cs].
  - rewrite Hsize. simpl in *. injection Hrun as <-.
    by rewrite (LinkedListFacts.sl_Rep_nil_inv _ _ HR).
  - replace (LinkedList.size_ this =? 0) with false
      by (symmetry; apply N.eqb_neq; simpl in Hsize; lia).
    assert (for_up (LinkedList.size_ this)
              (λ current, let* tmp := LinkedList.get_next current in
                          do delete current then ret tmp)
              (LinkedList.head_ this) h = Ok (None, h')) as Hloop.
    { rewrite for_up_repeat by lia. by rewrite Hsize, Nat2N.id, Hhead. }
    by rewrite !(bind_Ok _ _ _ _ _ Hloop).
Qed.

(** X6.  On a well-formed container of either kind, [clear()] and the
    destructor end normally and release exactly the nodes of the
    container: afterwards none of them is in use, every other address is
    as it was, and nothing was allocated.  [clear()] leaves the data
    members of an empty container; a cursor kept on one of the released
    nodes dangles, and reading through it is undefined. *)
Theorem clear_and_destructor_release_nodes :
  (∀ T (this : DoublyLinkedList.object) (h : gmap loc (DoublyLinkedList.Node T)) cs,
     DoublyLinkedList.Rep this h cs →
     ∃ h',
       DoublyLinkedList.clear this h = Ok (DoublyLinkedList.default_ctor, h')
       ∧ DoublyLinkedList.dtor this h = Ok (tt, h')
       ∧ (∀ a, h' !! a = if decide (a ∈ cs.*1) then None else h !! a)
       ∧ (∀ k a, a ∈ cs.*1 → DoublyLinkedList.deref (DoublyLinkedList.mkCursor k (Some a)) h' = Undefined))
  ∧ (∀ T (this : LinkedList.object) (h : gmap loc (LinkedList.Node T)) cs,
       LinkedList.Rep this h cs →
       ∃ h',
         LinkedList.clear this h = Ok (LinkedList.default_ctor, h')
         ∧ LinkedList.dtor this h = Ok (tt, h')
         ∧ (∀ a, h' !! a = if decide (a ∈ cs.*1) then None else h !! a)
         ∧ (∀ k a, a ∈ cs.*1 → LinkedList.deref (LinkedList.mkCursor k (Some a)) h' = Undefined)).
Proof.
  split; intros T this h cs HR.
  - destruct (dl_clear_releases _ _ _ HR) as (h' & Hclear & Hdtor & Hh').
    exists h'. split_and!; try done.
    intros k a Ha. unfold DoublyLinkedList.deref, DoublyLinkedList.get_value, bind, load. simpl.
    by rewrite Hh', decide_True.
  - destruct (sl_clear_releases _ _ _ HR) as (h' & Hclear & Hdtor & Hh').
    exists h'. split_and!; try done.
    intros k a Ha. unfold LinkedList.deref, LinkedList.get_value, bind, load. simpl.
    by rewrite Hh', decide_True.
Qed.

Lemma clear_and_destructor_release_nodes_witness :
  (DoublyLinkedList.Rep dl_list dl_heap sample_cells
   ∧ DoublyLinkedList.clear dl_list dl_heap = Ok (DoublyLinkedList.default_ctor, ∅)
   ∧ DoublyLinkedList.dtor dl_list dl_heap = Ok (tt, ∅))
  ∧ (LinkedList.Rep sl_list sl_heap sample_cells
     ∧ LinkedList.clear sl_list sl_heap = Ok (LinkedList.default_ctor, ∅)
     ∧ LinkedList.dtor sl_list sl_heap = Ok (tt, ∅)).
Proof.
  split.
  - split; [apply dl_sample_Rep|].
    destruct (proj1 clear_and_destructor_release_nodes nat dl_list dl_heap
                sample_cells dl_sample_Rep) as (h' & Hclear & Hdtor & Hh' & _).
    assert (h' = ∅) as ->; [|by split].
    apply map_eq. intros a. rewrite Hh', lookup_empty.
    destruct (decide _) as [|Hout]; [done|].
    unfold dl_heap. apply lookup_insert_None. split.
    + apply lookup_insert_None. split.
      * apply lookup_insert_None. split; [done|].
        intros <-. apply Hout. by vm_compute; set_solver.
      * intros <-. apply Hout. by vm_compute; set_solver.
    + intros <-. apply Hout. by vm_compute; set_solver.
  - split; [apply sl_sample_Rep|].
    destruct (proj2 clear_and_destructor_release_nodes nat sl_list sl_heap
                sample_cells sl_sample_Rep) as (h' & Hclear & Hdtor & Hh' & _).
    assert (h' = ∅) as ->; [|by split].
    apply map_eq. intros a. rewrite Hh', lookup_empty.
    destruct (decide _) as [|Hout]; [done|].
    unfold sl_heap. apply lookup_insert_None. split.
    + apply lookup_insert_None. split.
      * apply lookup_insert_None. split; [done|].
        intros <-. apply Hout. by vm_compute; set_solver.
      * intros <-. apply Hout. by vm_compute; set_solver.
    + intros <-. apply Hout. by vm_compute; set_solver.
Defined.

(** ** Copies and moves *)

Lemma fmap_snd_length {T} (cs cs' : list (loc * T)) :
  cs'.*2 = cs.*2 → length cs' = length cs.
Proof. intros Heq. by rewrite <- (length_fmap snd cs'), Heq, length_fmap. Qed.

(** X7.  The copy constructor of either container, given a well-formed
    container, ends normally on a well-formed container that holds the
    same sequence and has the same size, built only from nodes that were
    not in use before; the two containers share no node, and the original
    is still well-formed on the very same nodes. *)
Theorem copy_constructor_is_deep :
  (∀ T (other : DoublyLinkedList.object) (h : gmap loc (DoublyLinkedList.Node T)) cs,
     DoublyLinkedList.Rep other h cs →
     ∃ this' h' cs',
       DoublyLinkedList.copy_ctor other h = Ok (this', h') ∧ DoublyLinkedList.Rep this' h' cs'
       ∧ cs'.*2 = cs.*2 ∧ DoublyLinkedList.size this' = DoublyLinkedList.size other
       ∧ (∀ a, a ∈ cs'.*1 → h !! a = None)
       ∧ cs'.*1 ## cs.*1 ∧ DoublyLinkedList.Rep other h' cs)
  ∧ (∀ T (other : LinkedList.object) (h : gmap loc (LinkedList.Node T)) cs,
       LinkedList.Rep other h cs →
       ∃ this' h' cs',
         LinkedList.copy_ctor other h = Ok (this', h') ∧ LinkedList.Rep this' h' cs'
         ∧ cs'.*2 = cs.*2 ∧ LinkedList.size this' = LinkedList.size other
         ∧ (∀ a, a ∈ cs'.*1 → h !! a = None)
         ∧ cs'.*1 ## cs.*1 ∧ LinkedList.Rep other h' cs).
Proof.
  split; intros T other h cs HR.
  - destruct (DoublyLinkedListFacts.dl_copy_nodes_spec _ _ _ HR)
      as (this' & h' & cs' & Hrun & HR' & Hvals & Hfresh & Hkept).
    assert (∀ a, a ∈ cs'.*1 → h !! a = None) as Hnew.
    { intros a [c [-> Hc]]%list_elem_of_fmap. by apply Hfresh. }
    exists this', h', cs'. split_and!; try done.
    + unfold DoublyLinkedList.size. by rewrite (DoublyLinkedList.rep_size _ _ _ HR'), (DoublyLinkedList.rep_size _ _ _ HR),
        (fmap_snd_length _ _ Hvals).
    + intros a Ha [c [-> Hc]]%list_elem_of_fmap.
      destruct (DoublyLinkedListFacts.dl_Rep_alloc _ _ _ _ HR Hc) as [n Hn].
      rewrite (Hnew _ Ha) in Hn. done.
    + by apply DoublyLinkedListFacts.dl_Rep_kept with h.
  - destruct (LinkedListFacts.sl_copy_nodes_spec _ _ _ HR)
      as (this' & h' & cs' & Hrun & HR' & Hvals & Hfresh & Hkept).
    assert (∀ a, a ∈ cs'.*1 → h !! a = None) as Hnew.
    { intros a [c [-> Hc]]%list_elem_of_fmap. by apply Hfresh. }
    exists this', h', cs'. split_and!; try done.
    + unfold LinkedList.size. by rewrite (LinkedList.rep_size _ _ _ HR'), (LinkedList.rep_size _ _ _ HR),
        (fmap_snd_length _ _ Hvals).
    + intros a Ha [c [-> Hc]]%list_elem_of_fmap.
      destruct (LinkedListFacts.sl_Rep_alloc _ _ _ _ HR Hc) as [n Hn].
      rewrite (Hnew _ Ha) in Hn. done.
    + by apply LinkedListFacts.sl_Rep_kept with h.
Qed.

Lemma copy_constructor_is_deep_witness :
  (DoublyLinkedList.Rep dl_list dl_heap sample_cells
   ∧ ∃ this' h' cs', DoublyLinkedList.copy_ctor dl_list dl_heap = Ok (this', h')
                     ∧ DoublyLinkedList.Rep this' h' cs' ∧ cs'.*2 = [10; 20; 30]%nat)
  ∧ (LinkedList.Rep sl_list sl_heap sample_cells
     ∧ ∃ this' h' cs', LinkedList.copy_ctor sl_list sl_heap = Ok (this', h')
                       ∧ LinkedList.Rep this' h' cs' ∧ cs'.*2 = [10; 20; 30]%nat).
Proof.
  split.
  - split; [apply dl_sample_Rep|].
    destruct (proj1 copy_constructor_is_deep nat dl_list dl_heap sample_cells
                dl_sample_Rep) as (this' & h' & cs' & Hrun & HR' & Hseq & _).
    by exists this', h', cs'.
  - split; [apply sl_sample_Rep|].
    destruct (proj2 copy_constructor_is_deep nat sl_list sl_heap sample_cells
                sl_sample_Rep) as (this' & h' & cs' & Hrun & HR' & Hseq & _).
    by exists this', h', cs'.
Defined.

(** X8.  Copy assignment between two well-formed containers of one kind
    that share no node ends normally: the target becomes a well-formed
    container holding the sequence of the source, of the same size, the
    source is unchanged, and the two still share no node.  Assigning a
    container to itself changes nothing. *)
Theorem copy_assignment_replaces_contents :
  (∀ T (this other : DoublyLinkedList.object) (h : gmap loc (DoublyLinkedList.Node T)) cs1 cs2,
     DoublyLinkedList.Rep this h cs1 → DoublyLinkedList.Rep other h cs2 → cs1.*1 ## cs2.*1 →
     (∃ this' h' cs',
        DoublyLinkedList.copy_assign false other this h = Ok (this', h')
        ∧ DoublyLinkedList.Rep this' h' cs' ∧ cs'.*2 = cs2.*2
        ∧ DoublyLinkedList.size this' = DoublyLinkedList.size other
        ∧ DoublyLinkedList.Rep other h' cs2 ∧ cs'.*1 ## cs2.*1)
     ∧ DoublyLinkedList.copy_assign true this this h = Ok (this, h))
  ∧ (∀ T (this other : LinkedList.object) (h : gmap loc (LinkedList.Node T)) cs1 cs2,
       LinkedList.Rep this h cs1 → LinkedList.Rep other h cs2 → cs1.*1 ## cs2.*1 →
       (∃ this' h' cs',
          LinkedList.copy_assign false other this h = Ok (this', h')
          ∧ LinkedList.Rep this' h' cs' ∧ cs'.*2 = cs2.*2
          ∧ LinkedList.size this' = LinkedList.size other
          ∧ LinkedList.Rep other h' cs2 ∧ cs'.*1 ## cs2.*1)
       ∧ LinkedList.copy_assign true this this h = Ok (this, h)).
Proof.
  split; intros T this other h cs1 cs2 HR1 HR2 Hdisj; (split; [|done]).
  - destruct (DoublyLinkedListFacts.dl_copy_assign_spec _ _ _ _ _ HR1 HR2 Hdisj)
      as (this' & h' & cs' & Hrun & HR' & Hvals & HRo & Hsep).
    exists this', h', cs'. split_and!; try done.
    unfold DoublyLinkedList.size. by rewrite (DoublyLinkedList.rep_size _ _ _ HR'), (DoublyLinkedList.rep_size _ _ _ HR2),
      (fmap_snd_length _ _ Hvals).
  - destruct (LinkedListFacts.sl_copy_assign_spec _ _ _ _ _ HR1 HR2 Hdisj)
      as (this' & h' & cs' & Hrun & HR' & Hvals & HRo & Hsep).
    exists this', h', cs'. split_and!; try done.
    unfold LinkedList.size. by rewrite (LinkedList.rep_size _ _ _ HR'), (LinkedList.rep_size _ _ _ HR2),
      (fmap_snd_length _ _ Hvals).
Qed.

Lemma copy_assignment_replaces_contents_witness :
  (DoublyLinkedList.Rep DoublyLinkedList.default_ctor dl_heap [] ∧ DoublyLinkedList.Rep dl_list dl_heap sample_cells
   ∧ ∃ this' h' cs', DoublyLinkedList.copy_assign false dl_list DoublyLinkedList.default_ctor dl_heap
                     = Ok (this', h')
                     ∧ DoublyLinkedList.Rep this' h' cs' ∧ cs'.*2 = [10; 20; 30]%nat)
  ∧ (LinkedList.Rep LinkedList.default_ctor sl_heap [] ∧ LinkedList.Rep sl_list sl_heap sample_cells
     ∧ ∃ this' h' cs', LinkedList.copy_assign false sl_list LinkedList.default_ctor sl_heap
                       = Ok (this', h')
                       ∧ LinkedList.Rep this' h' cs' ∧ cs'.*2 = [10; 20; 30]%nat).
Proof.
  split.
  - split; [apply DoublyLinkedListFacts.dl_Rep_nil|]. split; [apply dl_sample_Rep|].
    destruct (proj1 copy_assignment_replaces_contents nat DoublyLinkedList.default_ctor dl_list
                dl_heap [] sample_cells (DoublyLinkedListFacts.dl_Rep_nil _) dl_sample_Rep)
      as [(this' & h' & cs' & Hrun & HR' & Hseq & _) _].
    { intros a Ha. by apply not_elem_of_nil in Ha. }
    by exists this', h', cs'.
  - split; [apply LinkedListFacts.sl_Rep_nil|]. split; [apply sl_sample_Rep|].
    destruct (proj2 copy_assignment_replaces_contents nat LinkedList.default_ctor sl_list
                sl_heap [] sample_cells (LinkedListFacts.sl_Rep_nil _) sl_sample_Rep)
      as [(this' & h' & cs' & Hrun & HR' & Hseq & _) _].
    { intros a Ha. by apply not_elem_of_nil in Ha. }
    by exists this', h', cs'.
Defined.

(** X9.  Moves take the nodes over instead of copying them.  The move
    constructor yields a container that is well-formed on the very nodes
    of its source and leaves the source empty, without touching the
    nodes.  Move assignment between two well-formed containers that share
    no node first releases exactly the nodes of the target, then does the
    same; moving a container onto itself changes nothing. *)
Theorem moves_take_over_nodes :
  (∀ T (this other : DoublyLinkedList.object) (h : gmap loc (DoublyLinkedList.Node T)) cs1 cs2,
     DoublyLinkedList.Rep this h cs1 → DoublyLinkedList.Rep other h cs2 → cs1.*1 ## cs2.*1 →
     (DoublyLinkedList.Rep (DoublyLinkedList.move_ctor other).1 h cs2 ∧ DoublyLinkedList.Rep (DoublyLinkedList.move_ctor other).2 h [])
     ∧ (∃ this' other' h',
          DoublyLinkedList.move_assign false other this h = Ok ((this', other'), h')
          ∧ DoublyLinkedList.Rep this' h' cs2 ∧ DoublyLinkedList.Rep other' h' []
          ∧ ∀ a, h' !! a = if decide (a ∈ cs1.*1) then None else h !! a)
     ∧ DoublyLinkedList.move_assign true this this h = Ok ((this, this), h))
  ∧ (∀ T (this other : LinkedList.object) (h : gmap loc (LinkedList.Node T)) cs1 cs2,
       LinkedList.Rep this h cs1 → LinkedList.Rep other h cs2 → cs1.*1 ## cs2.*1 →
       (LinkedList.Rep (LinkedList.move_ctor other).1 h cs2 ∧ LinkedList.Rep (LinkedList.move_ctor other).2 h [])
       ∧ (∃ this' other' h',
            LinkedList.move_assign false other this h = Ok ((this', other'), h')
            ∧ LinkedList.Rep this' h' cs2 ∧ LinkedList.Rep other' h' []
            ∧ ∀ a, h' !! a = if decide (a ∈ cs1.*1) then None else h !! a)
       ∧ LinkedList.move_assign true this this h = Ok ((this, this), h)).
Proof.
  split; intros T this other h cs1 cs2 HR1 HR2 Hdisj.
  - split; [by apply DoublyLinkedListFacts.dl_move_ctor_spec|]. split; [|done].
    destruct (dl_clear_releases _ _ _ HR1) as (h' & Hclear & _ & Hh').
    assert (DoublyLinkedList.Rep other h' cs2) as HR2'.
    { apply DoublyLinkedListFacts.dl_Rep_frame with h; [|done]. intros c Hc. rewrite Hh'.
      rewrite decide_False; [done|]. intros Hin. apply (Hdisj c.1); [done|].
      apply list_elem_of_fmap. eauto. }
    eexists _, _, h'. split.
    { unfold DoublyLinkedList.move_assign. by rewrite (bind_Ok _ _ _ _ _ Hclear). }
    split_and!; [|apply DoublyLinkedListFacts.dl_Rep_nil|done].
    by apply (DoublyLinkedListFacts.dl_move_ctor_spec other h' cs2).
  - split; [by apply LinkedListFacts.sl_move_ctor_spec|]. split; [|done].
    destruct (sl_clear_releases _ _ _ HR1) as (h' & Hclear & _ & Hh').
    assert (LinkedList.Rep other h' cs2) as HR2'.
    { apply LinkedListFacts.sl_Rep_frame with h; [|done]. intros c Hc. rewrite Hh'.
      rewrite decide_False; [done|]. intros Hin. apply (Hdisj c.1); [done|].
      apply list_elem_of_fmap. eauto. }
    eexists _, _, h'. split.
    { unfold LinkedList.move_assign. by rewrite (bind_Ok _ _ _ _ _ Hclear). }
    split_and!; [|apply LinkedListFacts.sl_Rep_nil|done].
    by apply (LinkedListFacts.sl_move_ctor_spec other h' cs2).
Qed.

Lemma moves_take_over_nodes_witness :
  (DoublyLinkedList.Rep DoublyLinkedList.default_ctor dl_heap [] ∧ DoublyLinkedList.Rep dl_list dl_heap sample_cells
   ∧ ∃ this' other' h',
       DoublyLinkedList.move_assign false dl_list DoublyLinkedList.default_ctor dl_heap
       = Ok ((this', other'), h')
       ∧ DoublyLinkedList.Rep this' h' sample_cells ∧ DoublyLinkedList.Rep other' h' [])
  ∧ (LinkedList.Rep LinkedList.default_ctor sl_heap [] ∧ LinkedList.Rep sl_list sl_heap sample_cells
     ∧ ∃ this' other' h',
         LinkedList.move_assign false sl_list LinkedList.default_ctor sl_heap
         = Ok ((this', other'), h')
         ∧ LinkedList.Rep this' h' sample_cells ∧ LinkedList.Rep other' h' []).
Proof.
  split.
  - split; [apply DoublyLinkedListFacts.dl_Rep_nil|]. split; [apply dl_sample_Rep|].
    destruct (proj1 moves_take_over_nodes nat DoublyLinkedList.default_ctor dl_list
                dl_heap [] sample_cells (DoublyLinkedListFacts.dl_Rep_nil _) dl_sample_Rep)
      as (_ & (this' & other' & h' & Hrun & HR' & HRo & _) & _).
    { intros a Ha. by apply not_elem_of_nil in Ha. }
    by exists this', other', h'.
  - split; [apply LinkedListFacts.sl_Rep_nil|]. split; [apply sl_sample_Rep|].
    destruct (proj2 moves_take_over_nodes nat LinkedList.default_ctor sl_list
                sl_heap [] sample_cells (LinkedListFacts.sl_Rep_nil _) sl_sample_Rep)
      as (_ & (this' & other' & h' & Hrun & HR' & HRo & _) & _).
    { intros a Ha. by apply not_elem_of_nil in Ha. }
    by exists this', other', h'.
Defined.

(** ** Capacity and the ends *)

(** X10.  On a well-formed container of either kind [size()] is the
    number of elements held, and [empty()], which looks at the head
    pointer, is true exactly when [size()], which reads the counter, is
    zero. *)
Theorem size_and_empty_agree :
  (∀ T (this : DoublyLinkedList.object) (h : gmap loc (DoublyLinkedList.Node T)) cs,
     DoublyLinkedList.Rep this h cs →
     DoublyLinkedList.size this = N.of_nat (length cs.*2)
     ∧ (DoublyLinkedList.empty this = true ↔ DoublyLinkedList.size this = 0))
  ∧ (∀ T (this : LinkedList.object) (h : gmap loc (LinkedList.Node T)) cs,
       LinkedList.Rep this h cs →
       LinkedList.size this = N.of_nat (length cs.*2)
       ∧ (LinkedList.empty this = true ↔ LinkedList.size this = 0)).
Proof.
  split; intros T this h cs HR.
  - unfold DoublyLinkedList.size. rewrite (DoublyLinkedList.rep_size _ _ _ HR), length_fmap. split; [done|].
    rewrite (dl_empty_iff _ _ _ HR). destruct cs; simpl; split; (done || lia).
  - unfold LinkedList.size. rewrite (LinkedList.rep_size _ _ _ HR), length_fmap. split; [done|].
    rewrite (sl_empty_iff _ _ _ HR). destruct cs; simpl; split; (done || lia).
Qed.

Lemma size_and_empty_agree_witness :
  (DoublyLinkedList.Rep dl_list dl_heap sample_cells ∧ DoublyLinkedList.size dl_list = 3
   ∧ (DoublyLinkedList.empty dl_list = true ↔ DoublyLinkedList.size dl_list = 0))
  ∧ (LinkedList.Rep sl_list sl_heap sample_cells ∧ LinkedList.size sl_list = 3
     ∧ (LinkedList.empty sl_list = true ↔ LinkedList.size sl_list = 0)).
Proof.
  split.
  - split; [apply dl_sample_Rep|].
    apply (proj1 size_and_empty_agree nat dl_list dl_heap sample_cells dl_sample_Rep).
  - split; [apply sl_sample_Rep|].
    apply (proj2 size_and_empty_agree nat sl_list sl_heap sample_cells sl_sample_Rep).
Defined.

Lemma cells_cons {T} (cs : list (loc * T)) v rest :
  cs.*2 = v :: rest → ∃ c cs', cs = c :: cs' ∧ c.2 = v.
Proof. destruct cs as [|c cs']; [done|]. intros [= <- _]. eauto. Qed.

(** X11.  On a well-formed container of either kind that holds
    [v :: rest], [front()] returns [v], as the unchecked and the checked
    access at index 0 do; on one that holds [rest ++ [v]], [back()]
    returns [v], as the accesses at index [size() - 1] do.  None of them
    changes the heap.  On an empty container [front()] and [back()] read
    through a null pointer, which is undefined. *)
Theorem front_and_back_are_the_ends :
  (∀ T (this : DoublyLinkedList.object) (h : gmap loc (DoublyLinkedList.Node T)) cs,
     DoublyLinkedList.Rep this h cs →
     (∀ v rest, cs.*2 = v :: rest →
        DoublyLinkedList.front this h = Ok (v, h) ∧ DoublyLinkedList.operator_index 0 this h = Ok (v, h)
        ∧ DoublyLinkedList.at_ 0 this h = Ok (v, h))
     ∧ (∀ v rest, cs.*2 = rest ++ [v] →
          DoublyLinkedList.back this h = Ok (v, h)
          ∧ DoublyLinkedList.operator_index (DoublyLinkedList.size this - 1) this h = Ok (v, h)
          ∧ DoublyLinkedList.at_ (DoublyLinkedList.size this - 1) this h = Ok (v, h))
     ∧ (cs = [] → DoublyLinkedList.front this h = Undefined ∧ DoublyLinkedList.back this h = Undefined))
  ∧ (∀ T (this : LinkedList.object) (h : gmap loc (LinkedList.Node T)) cs,
       LinkedList.Rep this h cs →
       (∀ v rest, cs.*2 = v :: rest →
          LinkedList.front this h = Ok (v, h) ∧ LinkedList.operator_index 0 this h = Ok (v, h)
          ∧ LinkedList.at_ 0 this h = Ok (v, h))
       ∧ (∀ v rest, cs.*2 = rest ++ [v] →
            LinkedList.back this h = Ok (v, h)
            ∧ LinkedList.operator_index (LinkedList.size this - 1) this h = Ok (v, h)
            ∧ LinkedList.at_ (LinkedList.size this - 1) this h = Ok (v, h))
       ∧ (cs = [] → LinkedList.front this h = Undefined ∧ LinkedList.back this h = Undefined)).
Proof.
  split; intros T this h cs HR.
  - split_and!.
    + intros v rest Hseq. destruct (cells_cons _ _ _ Hseq) as (c & cs' & -> & <-).
      split; [by apply dl_front_at with cs'|].
      assert (DoublyLinkedList.operator_index 0 this h = Ok (c.2, h)) as Hop.
      { by apply (DoublyLinkedListFacts.dl_operator_index_at this h (c :: cs') 0 c). }
      split; [done|]. unfold DoublyLinkedList.at_.
      replace (DoublyLinkedList.size_ this <=? 0) with false; [done|].
      symmetry. apply N.leb_gt. rewrite (DoublyLinkedList.rep_size _ _ _ HR). simpl. lia.
    + intros v rest Hseq. destruct (cells_snoc _ _ _ Hseq) as (cs' & c & -> & _ & <-).
      split; [by apply dl_back_at with cs'|].
      assert (DoublyLinkedList.size this - 1 = N.of_nat (length cs')) as ->.
      { unfold DoublyLinkedList.size. rewrite (DoublyLinkedList.rep_size _ _ _ HR), length_app. simpl. lia. }
      assert (DoublyLinkedList.operator_index (N.of_nat (length cs')) this h = Ok (c.2, h)) as Hop.
      { apply DoublyLinkedListFacts.dl_operator_index_at with (cs' ++ [c]); [done|].
        by rewrite lookup_app_r, Nat.sub_diag. }
      split; [done|]. unfold DoublyLinkedList.at_.
      replace (DoublyLinkedList.size_ this <=? _) with false; [done|].
      symmetry. apply N.leb_gt. rewrite (DoublyLinkedList.rep_size _ _ _ HR), length_app. simpl. lia.
    + intros ->. by rewrite (DoublyLinkedListFacts.dl_Rep_nil_inv _ _ HR).
  - split_and!.
    + intros v rest Hseq. destruct (cells_cons _ _ _ Hseq) as (c & cs' & -> & <-).
      split; [by apply sl_front_at with cs'|].
      assert (LinkedList.operator_index 0 this h = Ok (c.2, h)) as Hop.
      { by apply (LinkedListFacts.sl_operator_index_at this h (c :: cs') 0 c). }
      split; [done|]. unfold LinkedList.at_.
      replace (LinkedList.size_ this <=? 0) with false; [done|].
      symmetry. apply N.leb_gt. rewrite (LinkedList.rep_size _ _ _ HR). simpl. lia.
    + intros v rest Hseq. destruct (cells_snoc _ _ _ Hseq) as (cs' & c & -> & _ & <-).
      split; [by apply sl_back_at with cs'|].
      assert (LinkedList.size this - 1 = N.of_nat (length cs')) as ->.
      { unfold LinkedList.size. rewrite (LinkedList.rep_size _ _ _ HR), length_app. simpl. lia. }
      assert (LinkedList.operator_index (N.of_nat (length cs')) this h = Ok (c.2, h)) as Hop.
      { apply LinkedListFacts.sl_operator_index_at with (cs' ++ [c]); [done|].
        by rewrite lookup_app_r, Nat.sub_diag. }
      split; [done|]. unfold LinkedList.at_.
      replace (LinkedList.size_ this <=? _) with false; [done|].
      symmetry. apply N.leb_gt. rewrite (LinkedList.rep_size _ _ _ HR), length_app. simpl. lia.
    + intros ->. by rewrite (LinkedListFacts.sl_Rep_nil_inv _ _ HR).
Qed.

Lemma front_and_back_are_the_ends_witness :
  (DoublyLinkedList.Rep dl_list dl_heap sample_cells
   ∧ DoublyLinkedList.front dl_list dl_heap = Ok (10%nat, dl_heap)
   ∧ DoublyLinkedList.back dl_list dl_heap = Ok (30%nat, dl_heap))
  ∧ (LinkedList.Rep sl_list sl_heap sample_cells
     ∧ LinkedList.front sl_list sl_heap = Ok (10%nat, sl_heap)
     ∧ LinkedList.back sl_list sl_heap = Ok (30%nat, sl_heap)).
Proof.
  split.
  - split; [apply dl_sample_Rep|].
    destruct (proj1 front_and_back_are_the_ends nat dl_list dl_heap sample_cells
                dl_sample_Rep) as (Hfront & Hback & _).
    split.
    + by apply (Hfront 10%nat [20; 30]%nat).
    + by apply (Hback 30%nat [10; 20]%nat).
  - split; [apply sl_sample_Rep|].
    destruct (proj2 front_and_back_are_the_ends nat sl_list sl_heap sample_cells
                sl_sample_Rep) as (Hfront & Hback & _).
    split.
    + by apply (Hfront 10%nat [20; 30]%nat).
    + by apply (Hback 30%nat [10; 20]%nat).
Defined.

(** ** Unchecked access outside the container *)

Lemma repeatM_plus {Node St} (body : St → @M Node St) j k s h :
  repeatM (j + k) body s h = bind (repeatM j body s) (repeatM k body) h.
Proof.
  revert s h. induction j as [|j IH]; intros s h; [done|].
  simpl. unfold bind at 1. unfold bind at 1. unfold bind at 1.
  destruct (body s h) as [[s' h']| |]; [|done..].
  rewrite IH. done.
Qed.

Lemma dl_walk_off_the_end {T} (h : gmap loc (DoublyLinkedList.Node T)) b cs k :
  DoublyLinkedList.dseg h b cs None → (length cs ≤ k)%nat →
  bind (repeatM k DoublyLinkedList.get_next (first_loc cs None)) DoublyLinkedList.get_value h = Undefined.
Proof.
  intros Hseg Hk. replace k with (length cs + (k - length cs))%nat by lia.
  unfold bind at 1. rewrite repeatM_plus.
  erewrite bind_Ok; [|by eapply DoublyLinkedListFacts.dl_walk_next].
  rewrite drop_all. simpl. by destruct (k - length cs)%nat.
Qed.

Lemma sl_walk_off_the_end {T} (h : gmap loc (LinkedList.Node T)) cs k :
  LinkedList.sseg h cs None → (length cs ≤ k)%nat →
  bind (repeatM k LinkedList.get_next (first_loc cs None)) LinkedList.get_value h = Undefined.
Proof.
  intros Hseg Hk. replace k with (length cs + (k - length cs))%nat by lia.
  unfold bind at 1. rewrite repeatM_plus.
  erewrite bind_Ok; [|by eapply LinkedListFacts.sl_walk_next].
  rewrite drop_all. simpl. by destruct (k - length cs)%nat.
Qed.

Lemma closer_to_end_past (size index : N) :
  size ≤ index → index ≤ SIZE_MAX →
  closer_to_end size index = true ↔ size_modulus + size ≤ 2 * index.
Proof.
  intros Hle Hmax. unfold closer_to_end, size_sub, SIZE_MAX, size_modulus in *.
  rewrite N.ltb_lt. destruct (decide (size = 0)) as [->|Hpos].
  - rewrite (N.mod_small (0 + _ - 1)) by lia.
    replace (0 + 18446744073709551616 - 1 + 18446744073709551616 - index)
      with (18446744073709551616 - 1 - index + 1 * 18446744073709551616) by lia.
    rewrite N.Div0.mod_add, N.mod_small by lia. lia.
  - replace (size + 18446744073709551616 - 1)
      with (size - 1 + 1 * 18446744073709551616) by lia.
    rewrite N.Div0.mod_add, (N.mod_small (size - 1)) by lia.
    rewrite N.mod_small by lia. lia.
Qed.

(** X12.  Unchecked access [operator[]] with an index that is not below
    [size()], on a well-formed container.  In the singly-linked list, and
    in the doubly-linked list when the test "closer to the end" fails,
    the forward walk runs off the end of the chain: undefined.  In a
    doubly-linked list that is not empty, an index so large that
    [size() - 1 - index] wraps around to a value below it passes the test,
    the backward loop does not run at all, and the call returns the last
    element as if nothing were wrong; this is the case exactly when
    [2^64 + size() <= 2 * index].  On an empty doubly-linked list every
    index is undefined. *)
Theorem unchecked_access_past_the_end :
  (∀ T (this : DoublyLinkedList.object) (h : gmap loc (DoublyLinkedList.Node T)) cs index,
     DoublyLinkedList.Rep this h cs → DoublyLinkedList.size this ≤ index → index ≤ SIZE_MAX →
     (closer_to_end (DoublyLinkedList.size this) index = true
      ↔ size_modulus + DoublyLinkedList.size this ≤ 2 * index)
     ∧ (closer_to_end (DoublyLinkedList.size this) index = false →
        DoublyLinkedList.operator_index index this h = Undefined)
     ∧ (closer_to_end (DoublyLinkedList.size this) index = true → cs ≠ [] →
        DoublyLinkedList.operator_index index this h = DoublyLinkedList.back this h
        ∧ ∃ v, last cs.*2 = Some v ∧ DoublyLinkedList.operator_index index this h = Ok (v, h))
     ∧ (cs = [] → DoublyLinkedList.operator_index index this h = Undefined))
  ∧ (∀ T (this : LinkedList.object) (h : gmap loc (LinkedList.Node T)) cs index,
       LinkedList.Rep this h cs → LinkedList.size this ≤ index → index ≤ SIZE_MAX →
       LinkedList.operator_index index this h = Undefined).
Proof.
  split; intros T this h cs index HR Hle Hmax.
  - pose proof HR as [Hnd Hsize Hbound Hhead Htail Hseg].
    unfold DoublyLinkedList.size in *.
    assert (closer_to_end (DoublyLinkedList.size_ this) index = false →
            DoublyLinkedList.operator_index index this h = Undefined) as Hforward.
    { intros Hfar. unfold DoublyLinkedList.operator_index, DoublyLinkedList.walk_to. rewrite Hfar.
      unfold bind. rewrite for_up_repeat by done. rewrite Hhead.
      apply (dl_walk_off_the_end h None cs); [done|]. lia. }
    split_and!; [by apply closer_to_end_past|done| |].
    + intros Hnear Hne.
      destruct (exists_last_or_nil cs) as [->|(l & t & ->)]; [done|].
      assert (DoublyLinkedList.size_ this = N.of_nat (length l) + 1) as Hsize'.
      { rewrite Hsize, length_app. simpl. lia. }
      rewrite Hsize' in Hle. rewrite <- Hsize, Hsize' in Hbound.
      assert (DoublyLinkedList.operator_index index this h = Ok (t.2, h)) as Hop.
      { unfold DoublyLinkedList.operator_index, DoublyLinkedList.walk_to. rewrite Hnear.
        assert (size_sub (DoublyLinkedList.size_ this) 1 = N.of_nat (length l)) as ->.
        { rewrite size_sub_le by lia. lia. }
        unfold for_down.
        replace (N.of_nat (length l) - index) with 0 by lia.
        unfold bind. simpl.
        replace (index <? N.of_nat (length l)) with false
          by (symmetry; apply N.ltb_ge; lia).
        simpl. rewrite Htail, last_loc_snoc.
        apply DoublyLinkedListFacts.dl_dseg_app in Hseg as [_ [Ht _]].
        by rewrite (DoublyLinkedListFacts.dl_get_value_at _ _ _ Ht). }
      split; [by rewrite Hop, (dl_back_at _ _ _ _ HR)|].
      exists t.2. split; [|done]. rewrite fmap_app. apply last_snoc.
    + intros ->. rewrite (DoublyLinkedListFacts.dl_Rep_nil_inv _ _ HR).
      destruct (closer_to_end (DoublyLinkedList.size_ DoublyLinkedList.default_ctor) index) eqn:Hc.
      * unfold DoublyLinkedList.operator_index, DoublyLinkedList.walk_to. rewrite Hc. simpl.
        unfold bind, for_down.
        assert (size_sub 0 1 = SIZE_MAX) as -> by (by vm_compute).
        destruct (N.to_nat (SIZE_MAX - index)) as [|fuel] eqn:Hfuel; simpl.
        -- by destruct (index <? SIZE_MAX).
        -- replace (index <? SIZE_MAX) with true; [done|].
           symmetry. apply N.ltb_lt. lia.
      * rewrite (DoublyLinkedListFacts.dl_Rep_nil_inv _ _ HR) in Hforward. by apply Hforward.
  - pose proof HR as [Hnd Hsize Hbound Hhead Htail Hseg].
    unfold LinkedList.size in *. unfold LinkedList.operator_index.
    unfold bind. rewrite for_up_repeat by done. rewrite Hhead.
    apply (sl_walk_off_the_end h cs); [done|]. lia.
Qed.

Lemma unchecked_access_past_the_end_witness :
  (DoublyLinkedList.Rep dl_list dl_heap sample_cells ∧ DoublyLinkedList.size dl_list ≤ SIZE_MAX
   ∧ DoublyLinkedList.operator_index SIZE_MAX dl_list dl_heap = DoublyLinkedList.back dl_list dl_heap)
  ∧ (LinkedList.Rep sl_list sl_heap sample_cells ∧ LinkedList.size sl_list ≤ 3 ∧ 3 ≤ SIZE_MAX
     ∧ LinkedList.operator_index 3 sl_list sl_heap = Undefined).
Proof.
  split.
  - split; [apply dl_sample_Rep|]. split; [by vm_compute|].
    destruct (proj1 unchecked_access_past_the_end nat dl_list dl_heap sample_cells
                SIZE_MAX dl_sample_Rep) as (_ & _ & Hnear & _);
      [by vm_compute|done|].
    by apply Hnear.
  - split; [apply sl_sample_Rep|]. split; [by vm_compute|]. split; [by vm_compute|].
    apply (proj2 unchecked_access_past_the_end nat sl_list sl_heap sample_cells
             3 sl_sample_Rep); by vm_compute.
Defined.

(** ** Construction from an initializer list *)

(** X13.  The constructor from an initializer list (whose length is a
    [size_t]) ends normally on a well-formed container that holds exactly
    the elements of the list, in order, with [size()] the length of the
    list: checked access at each position returns the element of the list
    at that position.  The container is built from nodes that were not in
    use, and no node already in use is changed. *)
Theorem initializer_list_constructor_builds_the_list :
  (∀ T (init_list : list T) (h : gmap loc (DoublyLinkedList.Node T)),
     N.of_nat (length init_list) ≤ SIZE_MAX →
     ∃ this' h' cs',
       DoublyLinkedList.init_ctor init_list h = Ok (this', h') ∧ DoublyLinkedList.Rep this' h' cs'
       ∧ cs'.*2 = init_list
       ∧ DoublyLinkedList.size this' = N.of_nat (length init_list)
       ∧ (∀ (i : nat) x, init_list !! i = Some x →
            DoublyLinkedList.at_ (N.of_nat i) this' h' = Ok (x, h'))
       ∧ (∀ a, a ∈ cs'.*1 → h !! a = None)
       ∧ (∀ a n, h !! a = Some n → h' !! a = Some n))
  ∧ (∀ T (init_list : list T) (h : gmap loc (LinkedList.Node T)),
       N.of_nat (length init_list) ≤ SIZE_MAX →
       ∃ this' h' cs',
         LinkedList.init_ctor init_list h = Ok (this', h') ∧ LinkedList.Rep this' h' cs'
         ∧ cs'.*2 = init_list
         ∧ LinkedList.size this' = N.of_nat (length init_list)
         ∧ (∀ (i : nat) x, init_list !! i = Some x →
              LinkedList.at_ (N.of_nat i) this' h' = Ok (x, h'))
         ∧ (∀ a, a ∈ cs'.*1 → h !! a = None)
         ∧ (∀ a n, h !! a = Some n → h' !! a = Some n)).
Proof.
  split; intros T init_list h Hbound.
  - destruct (DoublyLinkedListFacts.dl_init_ctor_spec init_list h Hbound)
      as (this' & h' & cs' & Hrun & HR' & Hvals & Hfresh & Hkept).
    exists this', h', cs'. split_and!; try done.
    + unfold DoublyLinkedList.size. by rewrite (DoublyLinkedList.rep_size _ _ _ HR'), <- Hvals, length_fmap.
    + intros i x Hi.
      destruct (dl_at_in_range this' h' cs' (N.of_nat i) HR')
        as (y & Hy & Hat & _).
      { rewrite (DoublyLinkedList.rep_size _ _ _ HR'). apply lookup_lt_Some in Hi.
        rewrite <- Hvals, length_fmap in Hi. lia. }
      rewrite Nat2N.id, Hvals, Hi in Hy. by injection Hy as <-.
    + intros a [c [-> Hc]]%list_elem_of_fmap. by apply Hfresh.
  - destruct (LinkedListFacts.sl_init_ctor_spec init_list h Hbound)
      as (this' & h' & cs' & Hrun & HR' & Hvals & Hfresh & Hkept).
    exists this', h', cs'. split_and!; try done.
    + unfold LinkedList.size. by rewrite (LinkedList.rep_size _ _ _ HR'), <- Hvals, length_fmap.
    + intros i x Hi.
      destruct (sl_at_in_range this' h' cs' (N.of_nat i) HR')
        as (y & Hy & Hat & _).
      { rewrite (LinkedList.rep_size _ _ _ HR'). apply lookup_lt_Some in Hi.
        rewrite <- Hvals, length_fmap in Hi. lia. }
      rewrite Nat2N.id, Hvals, Hi in Hy. by injection Hy as <-.
    + intros a [c [-> Hc]]%list_elem_of_fmap. by apply Hfresh.
Qed.

Lemma initializer_list_constructor_builds_the_list_witness :
  (N.of_nat (length [10; 20; 30]%nat) ≤ SIZE_MAX
   ∧ ∃ this' h' cs',
       DoublyLinkedList.init_ctor [10; 20; 30]%nat ∅ = Ok (this', h') ∧ DoublyLinkedList.Rep this' h' cs'
       ∧ cs'.*2 = [10; 20; 30]%nat)
  ∧ (N.of_nat (length [10; 20; 30]%nat) ≤ SIZE_MAX
     ∧ ∃ this' h' cs',
         LinkedList.init_ctor [10; 20; 30]%nat ∅ = Ok (this', h') ∧ LinkedList.Rep this' h' cs'
         ∧ cs'.*2 = [10; 20; 30]%nat).
Proof.
  split.
  - split; [by vm_compute|].
    destruct (proj1 initializer_list_constructor_builds_the_list nat
                [10; 20; 30]%nat ∅) as (this' & h' & cs' & Hrun & HR' & Hseq & _);
      [by vm_compute|].
    by exists this', h', cs'.
  - split; [by vm_compute|].
    destruct (proj2 initializer_list_constructor_builds_the_list nat
                [10; 20; 30]%nat ∅) as (this' & h' & cs' & Hrun & HR' & Hseq & _);
      [by vm_compute|].
    by exists this', h', cs'.
Defined.

(** ** Cursor arithmetic *)

Lemma dl_steps_along_next {T} (h : gmap loc (DoublyLinkedList.Node T)) cs k
    (op : DoublyLinkedList.cursor → M DoublyLinkedList.cursor) :
  DoublyLinkedList.dseg h None cs None →
  (∀ a n, h !! a = Some n →
     op (DoublyLinkedList.mkCursor k (Some a)) h = Ok (DoublyLinkedList.mkCursor k (DoublyLinkedList.next n), h)) →
  op (DoublyLinkedList.mkCursor k None) h = Ok (DoublyLinkedList.mkCursor k None, h) →
  ∀ n i,
    repeatM n op (DoublyLinkedList.mkCursor k (first_loc (drop i cs) None)) h
    = Ok (DoublyLinkedList.mkCursor k (first_loc (drop (i + n) cs) None), h).
Proof.
  intros Hseg Hop Hnull. induction n as [|n IH]; intros i.
  - by rewrite Nat.add_0_r.
  - replace (i + S n)%nat with (S i + n)%nat by lia.
    destruct (cs !! i) as [c|] eqn:Hi.
    + rewrite (first_loc_drop _ _ _ _ Hi). simpl.
      erewrite bind_Ok; [|apply Hop; by eapply DoublyLinkedListFacts.dl_dseg_lookup].
      simpl. apply IH.
    + apply lookup_ge_None in Hi.
      rewrite <- (IH (S i)). rewrite !drop_ge by lia. simpl.
      by rewrite (bind_Ok _ _ _ _ _ Hnull).
Qed.

Lemma dl_steps_along_previous {T} (h : gmap loc (DoublyLinkedList.Node T)) cs k
    (op : DoublyLinkedList.cursor → M DoublyLinkedList.cursor) :
  DoublyLinkedList.dseg h None cs None →
  (∀ a n, h !! a = Some n →
     op (DoublyLinkedList.mkCursor k (Some a)) h = Ok (DoublyLinkedList.mkCursor k (DoublyLinkedList.previous n), h)) →
  op (DoublyLinkedList.mkCursor k None) h = Ok (DoublyLinkedList.mkCursor k None, h) →
  ∀ n i, (i ≤ length cs)%nat →
    repeatM n op (DoublyLinkedList.mkCursor k (last_loc (take i cs) None)) h
    = Ok (DoublyLinkedList.mkCursor k (last_loc (take (i - n) cs) None), h).
Proof.
  intros Hseg Hop Hnull. induction n as [|n IH]; intros i Hi.
  - by rewrite Nat.sub_0_r.
  - destruct i as [|j].
    + specialize (IH 0%nat (Nat.le_0_l _)). simpl in *.
      by rewrite (bind_Ok _ _ _ _ _ Hnull).
    + destruct (lookup_lt_is_Some_2 cs j) as [c Hj]; [lia|].
      rewrite (last_loc_take _ _ _ _ Hj). simpl.
      erewrite bind_Ok; [|apply Hop; by eapply DoublyLinkedListFacts.dl_dseg_lookup].
      simpl. apply IH. lia.
Qed.

Lemma sl_steps_along_next {T} (h : gmap loc (LinkedList.Node T)) cs k :
  LinkedList.sseg h cs None →
  ∀ n i,
    repeatM n LinkedList.incr (LinkedList.mkCursor k (first_loc (drop i cs) None)) h
    = Ok (LinkedList.mkCursor k (first_loc (drop (i + n) cs) None), h).
Proof.
  intros Hseg. induction n as [|n IH]; intros i.
  - by rewrite Nat.add_0_r.
  - replace (i + S n)%nat with (S i + n)%nat by lia.
    destruct (cs !! i) as [c|] eqn:Hi.
    + rewrite (first_loc_drop _ _ _ _ Hi). simpl.
      erewrite bind_Ok; [|apply LinkedListFacts.sl_incr_at; by eapply LinkedListFacts.sl_sseg_lookup].
      simpl. apply IH.
    + apply lookup_ge_None in Hi.
      rewrite <- (IH (S i)). rewrite !drop_ge by lia. done.
Qed.

Lemma dl_plus_forward {T} (h : gmap loc (DoublyLinkedList.Node T)) cs k n i :
  DoublyLinkedList.dseg h None cs None → DoublyLinkedList.forward k = true → n ≤ SIZE_MAX →
  DoublyLinkedList.plus (DoublyLinkedList.mkCursor k (first_loc (drop i cs) None)) n h
  = Ok (DoublyLinkedList.mkCursor k (first_loc (drop (i + N.to_nat n) cs) None), h).
Proof.
  intros Hseg Hk Hn. unfold DoublyLinkedList.plus. rewrite DoublyLinkedListFacts.dl_plus_assign_repeat by done.
  apply dl_steps_along_next; [done| |apply DoublyLinkedListFacts.dl_incr_sentinel].
  intros a x Ha. by rewrite (DoublyLinkedListFacts.dl_incr_at _ _ _ _ Ha), Hk.
Qed.

Lemma dl_minus_forward {T} (h : gmap loc (DoublyLinkedList.Node T)) cs k n i :
  DoublyLinkedList.dseg h None cs None → DoublyLinkedList.forward k = true → n ≤ SIZE_MAX →
  (i ≤ length cs)%nat →
  DoublyLinkedList.minus (DoublyLinkedList.mkCursor k (last_loc (take i cs) None)) n h
  = Ok (DoublyLinkedList.mkCursor k (last_loc (take (i - N.to_nat n) cs) None), h).
Proof.
  intros Hseg Hk Hn Hi. unfold DoublyLinkedList.minus. rewrite DoublyLinkedListFacts.dl_minus_assign_repeat by done.
  apply dl_steps_along_previous; [done| |apply DoublyLinkedListFacts.dl_decr_sentinel|done].
  intros a x Ha. by rewrite (DoublyLinkedListFacts.dl_decr_at _ _ _ _ Ha), Hk.
Qed.

Lemma dl_plus_reverse {T} (h : gmap loc (DoublyLinkedList.Node T)) cs k n i :
  DoublyLinkedList.dseg h None cs None → DoublyLinkedList.forward k = false → n ≤ SIZE_MAX →
  (i ≤ length cs)%nat →
  DoublyLinkedList.plus (DoublyLinkedList.mkCursor k (last_loc (take i cs) None)) n h
  = Ok (DoublyLinkedList.mkCursor k (last_loc (take (i - N.to_nat n) cs) None), h).
Proof.
  intros Hseg Hk Hn Hi. unfold DoublyLinkedList.plus. rewrite DoublyLinkedListFacts.dl_plus_assign_repeat by done.
  apply dl_steps_along_previous; [done| |apply DoublyLinkedListFacts.dl_incr_sentinel|done].
  intros a x Ha. by rewrite (DoublyLinkedListFacts.dl_incr_at _ _ _ _ Ha), Hk.
Qed.

Lemma dl_minus_reverse {T} (h : gmap loc (DoublyLinkedList.Node T)) cs k n i :
  DoublyLinkedList.dseg h None cs None → DoublyLinkedList.forward k = false → n ≤ SIZE_MAX →
  DoublyLinkedList.minus (DoublyLinkedList.mkCursor k (first_loc (drop i cs) None)) n h
  = Ok (DoublyLinkedList.mkCursor k (first_loc (drop (i + N.to_nat n) cs) None), h).
Proof.
  intros Hseg Hk Hn. unfold DoublyLinkedList.minus. rewrite DoublyLinkedListFacts.dl_minus_assign_repeat by done.
  apply dl_steps_along_next; [done| |apply DoublyLinkedListFacts.dl_decr_sentinel].
  intros a x Ha. by rewrite (DoublyLinkedListFacts.dl_decr_at _ _ _ _ Ha), Hk.
Qed.

Lemma sl_plus_forward {T} (h : gmap loc (LinkedList.Node T)) cs k n i :
  LinkedList.sseg h cs None → n ≤ SIZE_MAX →
  LinkedList.plus (LinkedList.mkCursor k (first_loc (drop i cs) None)) n h
  = Ok (LinkedList.mkCursor k (first_loc (drop (i + N.to_nat n) cs) None), h).
Proof.
  intros Hseg Hn. unfold LinkedList.plus. rewrite LinkedListFacts.sl_plus_assign_repeat by done.
  by apply sl_steps_along_next.
Qed.

Lemma dl_offset_from_head {T} (this : DoublyLinkedList.object) (h : gmap loc (DoublyLinkedList.Node T)) cs k n :
  DoublyLinkedList.Rep this h cs → DoublyLinkedList.forward k = true → n ≤ SIZE_MAX →
  DoublyLinkedList.plus (DoublyLinkedList.mkCursor k (DoublyLinkedList.head_ this)) n h
  = Ok (DoublyLinkedList.mkCursor k (first_loc (drop (N.to_nat n) cs) None), h).
Proof.
  intros HR Hk Hn. rewrite (DoublyLinkedList.rep_head _ _ _ HR).
  apply (dl_plus_forward h cs k n 0); [apply HR|done..].
Qed.

Lemma dl_offset_from_tail {T} (this : DoublyLinkedList.object) (h : gmap loc (DoublyLinkedList.Node T)) cs k n :
  DoublyLinkedList.Rep this h cs → DoublyLinkedList.forward k = false → n ≤ SIZE_MAX →
  DoublyLinkedList.plus (DoublyLinkedList.mkCursor k (DoublyLinkedList.tail_ this)) n h
  = Ok (DoublyLinkedList.mkCursor k (last_loc (take (length cs - N.to_nat n) cs) None), h).
Proof.
  intros HR Hk Hn. rewrite (DoublyLinkedList.rep_tail _ _ _ HR).
  rewrite <- (take_ge cs (length cs)) at 1 by done.
  apply dl_plus_reverse; [apply HR|done..].
Qed.

Lemma sl_offset_from_head {T} (this : LinkedList.object) (h : gmap loc (LinkedList.Node T)) cs k n :
  LinkedList.Rep this h cs → n ≤ SIZE_MAX →
  LinkedList.plus (LinkedList.mkCursor k (LinkedList.head_ this)) n h
  = Ok (LinkedList.mkCursor k (first_loc (drop (N.to_nat n) cs) None), h).
Proof.
  intros HR Hn. rewrite (LinkedList.rep_head _ _ _ HR).
  apply (sl_plus_forward h cs k n 0); [apply HR|done].
Qed.

Lemma dl_deref_cell {T} (this : DoublyLinkedList.object) (h : gmap loc (DoublyLinkedList.Node T)) cs k i c :
  DoublyLinkedList.Rep this h cs → cs !! i = Some c →
  DoublyLinkedList.deref (DoublyLinkedList.mkCursor k (Some c.1)) h = Ok (c.2, h).
Proof.
  intros HR Hi. unfold DoublyLinkedList.deref. simpl.
  by rewrite (DoublyLinkedListFacts.dl_get_value_at _ _ _
                (DoublyLinkedListFacts.dl_dseg_lookup _ _ _ _ _ _ (DoublyLinkedList.rep_seg _ _ _ HR) Hi)).
Qed.

Lemma sl_deref_cell {T} (this : LinkedList.object) (h : gmap loc (LinkedList.Node T)) cs k i c :
  LinkedList.Rep this h cs → cs !! i = Some c →
  LinkedList.deref (LinkedList.mkCursor k (Some c.1)) h = Ok (c.2, h).
Proof.
  intros HR Hi. unfold LinkedList.deref. simpl.
  by rewrite (LinkedListFacts.sl_get_value_at _ _ _
                (LinkedListFacts.sl_sseg_lookup _ _ _ _ _ (LinkedList.rep_seg _ _ _ HR) Hi)).
Qed.

Lemma dl_at_cell {T} (this : DoublyLinkedList.object) (h : gmap loc (DoublyLinkedList.Node T)) cs (i : nat) c :
  DoublyLinkedList.Rep this h cs → cs !! i = Some c → DoublyLinkedList.at_ (N.of_nat i) this h = Ok (c.2, h).
Proof.
  intros HR Hi. pose proof (lookup_lt_Some _ _ _ Hi) as Hlt.
  destruct (dl_at_in_range this h cs (N.of_nat i) HR) as (x & Hx & Hat & _).
  { rewrite (DoublyLinkedList.rep_size _ _ _ HR). lia. }
  rewrite Nat2N.id, list_lookup_fmap, Hi in Hx. by injection Hx as <-.
Qed.

Lemma sl_at_cell {T} (this : LinkedList.object) (h : gmap loc (LinkedList.Node T)) cs (i : nat) c :
  LinkedList.Rep this h cs → cs !! i = Some c → LinkedList.at_ (N.of_nat i) this h = Ok (c.2, h).
Proof.
  intros HR Hi. pose proof (lookup_lt_Some _ _ _ Hi) as Hlt.
  destruct (sl_at_in_range this h cs (N.of_nat i) HR) as (x & Hx & Hat & _).
  { rewrite (LinkedList.rep_size _ _ _ HR). lia. }
  rewrite Nat2N.id, list_lookup_fmap, Hi in Hx. by injection Hx as <-.
Qed.

(** X14.  Cursor arithmetic against indexes, on a well-formed container
    and for an offset [n] that is a [size_t].  For [n < size()] the
    element read through [begin() + n] (or [cbegin() + n]) is the one
    [at(n)] returns, and in the doubly-linked list the element read
    through [rbegin() + n] (or [crbegin() + n]) is the one
    [at(size() - 1 - n)] returns.  For [n >= size()] on a container that
    is not empty the sum is the past-the-end cursor of its kind, and
    reading through it is undefined. *)
Theorem cursor_offsets_match_indexes :
  (∀ T (this : DoublyLinkedList.object) (h : gmap loc (DoublyLinkedList.Node T)) cs n,
     DoublyLinkedList.Rep this h cs → n ≤ SIZE_MAX →
     (n < DoublyLinkedList.size this →
        DoublyLinkedList.element_at_offset DoublyLinkedList.begin n this h = DoublyLinkedList.at_ n this h
        ∧ DoublyLinkedList.element_at_offset DoublyLinkedList.cbegin n this h = DoublyLinkedList.at_ n this h
        ∧ DoublyLinkedList.element_at_offset DoublyLinkedList.rbegin n this h
          = DoublyLinkedList.at_ (DoublyLinkedList.size this - 1 - n) this h
        ∧ DoublyLinkedList.element_at_offset DoublyLinkedList.crbegin n this h
          = DoublyLinkedList.at_ (DoublyLinkedList.size this - 1 - n) this h
        ∧ ∃ x, cs.*2 !! N.to_nat n = Some x
               ∧ DoublyLinkedList.element_at_offset DoublyLinkedList.begin n this h = Ok (x, h))
     ∧ (DoublyLinkedList.size this ≤ n → cs ≠ [] →
          DoublyLinkedList.cursor_at_offset DoublyLinkedList.begin n this h = DoublyLinkedList.end_ this h
          ∧ DoublyLinkedList.cursor_at_offset DoublyLinkedList.cbegin n this h = DoublyLinkedList.cend this h
          ∧ DoublyLinkedList.cursor_at_offset DoublyLinkedList.rbegin n this h = DoublyLinkedList.rend this h
          ∧ DoublyLinkedList.cursor_at_offset DoublyLinkedList.crbegin n this h = DoublyLinkedList.crend this h
          ∧ DoublyLinkedList.element_at_offset DoublyLinkedList.begin n this h = Undefined
          ∧ DoublyLinkedList.element_at_offset DoublyLinkedList.rbegin n this h = Undefined))
  ∧ (∀ T (this : LinkedList.object) (h : gmap loc (LinkedList.Node T)) cs n,
       LinkedList.Rep this h cs → n ≤ SIZE_MAX →
       (n < LinkedList.size this →
          LinkedList.element_at_offset LinkedList.begin n this h = LinkedList.at_ n this h
          ∧ LinkedList.element_at_offset LinkedList.cbegin n this h = LinkedList.at_ n this h
          ∧ ∃ x, cs.*2 !! N.to_nat n = Some x
                 ∧ LinkedList.element_at_offset LinkedList.begin n this h = Ok (x, h))
       ∧ (LinkedList.size this ≤ n → cs ≠ [] →
            LinkedList.cursor_at_offset LinkedList.begin n this h = LinkedList.end_ this h
            ∧ LinkedList.cursor_at_offset LinkedList.cbegin n this h = LinkedList.cend this h
            ∧ LinkedList.element_at_offset LinkedList.begin n this h = Undefined)).
Proof.
  split; intros T this h cs n HR Hn.
  - pose proof (DoublyLinkedList.rep_size _ _ _ HR) as Hsize. unfold DoublyLinkedList.size.
    assert (∀ k, DoublyLinkedList.forward k = true →
              DoublyLinkedList.plus (DoublyLinkedList.mkCursor k (DoublyLinkedList.head_ this)) n h
              = Ok (DoublyLinkedList.mkCursor k (first_loc (drop (N.to_nat n) cs) None), h))
      as Hhead by (intros k Hk; by apply dl_offset_from_head).
    assert (∀ k, DoublyLinkedList.forward k = false →
              DoublyLinkedList.plus (DoublyLinkedList.mkCursor k (DoublyLinkedList.tail_ this)) n h
              = Ok (DoublyLinkedList.mkCursor k
                      (last_loc (take (length cs - N.to_nat n) cs) None), h))
      as Htail by (intros k Hk; by apply dl_offset_from_tail).
    unfold DoublyLinkedList.element_at_offset, DoublyLinkedList.cursor_at_offset, DoublyLinkedList.begin, DoublyLinkedList.cbegin,
      DoublyLinkedList.rbegin, DoublyLinkedList.crbegin.
    split.
    + intros Hlt.
      destruct (lookup_lt_is_Some_2 cs (N.to_nat n)) as [c Hc]; [lia|].
      destruct (lookup_lt_is_Some_2 cs (length cs - 1 - N.to_nat n)) as [d Hd]; [lia|].
      assert (DoublyLinkedList.at_ n this h = Ok (c.2, h)) as ->.
      { rewrite <- (N2Nat.id n). by apply dl_at_cell with cs. }
      assert (DoublyLinkedList.at_ (DoublyLinkedList.size_ this - 1 - n) this h = Ok (d.2, h)) as ->.
      { replace (DoublyLinkedList.size_ this - 1 - n) with (N.of_nat (length cs - 1 - N.to_nat n))
          by lia.
        by apply dl_at_cell with cs. }
      assert (∀ k, DoublyLinkedList.forward k = true →
                bind (bind (ret (DoublyLinkedList.mkCursor k (DoublyLinkedList.head_ this)))
                        (λ it, DoublyLinkedList.plus it n)) DoublyLinkedList.deref h = Ok (c.2, h)) as Hfwd.
      { intros k Hk. unfold bind at 1 2. simpl. rewrite (Hhead k Hk).
        rewrite (first_loc_drop _ _ _ _ Hc). by apply dl_deref_cell with this cs (N.to_nat n). }
      assert (∀ k, DoublyLinkedList.forward k = false →
                bind (bind (ret (DoublyLinkedList.mkCursor k (DoublyLinkedList.tail_ this)))
                        (λ it, DoublyLinkedList.plus it n)) DoublyLinkedList.deref h = Ok (d.2, h)) as Hbwd.
      { intros k Hk. unfold bind at 1 2. simpl. rewrite (Htail k Hk).
        replace (length cs - N.to_nat n)%nat with (S (length cs - 1 - N.to_nat n)) by lia.
        rewrite (last_loc_take _ _ _ _ Hd).
        by apply dl_deref_cell with this cs (length cs - 1 - N.to_nat n)%nat. }
      split_and!; [by apply Hfwd|by apply Hfwd|by apply Hbwd|by apply Hbwd|].
      exists c.2. split; [by rewrite list_lookup_fmap, Hc|by apply Hfwd].
    + intros Hge Hne.
      destruct (DoublyLinkedListFacts.dl_past_the_end _ _ _ HR Hne) as (-> & -> & -> & ->).
      unfold bind. simpl.
      rewrite !Hhead, !Htail by done.
      rewrite drop_ge by lia.
      replace (length cs - N.to_nat n)%nat with 0%nat by lia.
      by rewrite take_0.
  - pose proof (LinkedList.rep_size _ _ _ HR) as Hsize. unfold LinkedList.size.
    assert (∀ k, LinkedList.plus (LinkedList.mkCursor k (LinkedList.head_ this)) n h
              = Ok (LinkedList.mkCursor k (first_loc (drop (N.to_nat n) cs) None), h))
      as Hhead by (intros k; by apply sl_offset_from_head).
    unfold LinkedList.element_at_offset, LinkedList.cursor_at_offset, LinkedList.begin, LinkedList.cbegin.
    split.
    + intros Hlt.
      destruct (lookup_lt_is_Some_2 cs (N.to_nat n)) as [c Hc]; [lia|].
      assert (LinkedList.at_ n this h = Ok (c.2, h)) as ->.
      { rewrite <- (N2Nat.id n). by apply sl_at_cell with cs. }
      assert (∀ k, bind (bind (ret (LinkedList.mkCursor k (LinkedList.head_ this)))
                           (λ it, LinkedList.plus it n)) LinkedList.deref h = Ok (c.2, h)) as Hfwd.
      { intros k. unfold bind at 1 2. simpl. rewrite (Hhead k).
        rewrite (first_loc_drop _ _ _ _ Hc). by apply sl_deref_cell with this cs (N.to_nat n). }
      split_and!; [by apply Hfwd|by apply Hfwd|].
      exists c.2. split; [by rewrite list_lookup_fmap, Hc|by apply Hfwd].
    + intros Hge Hne.
      destruct (LinkedListFacts.sl_past_the_end _ _ _ HR Hne) as (-> & ->).
      unfold bind. simpl.
      rewrite !Hhead. by rewrite drop_ge by lia.
Qed.

Lemma cursor_offsets_match_indexes_witness :
  (DoublyLinkedList.Rep dl_list dl_heap sample_cells ∧ 1 ≤ SIZE_MAX ∧ 1 < DoublyLinkedList.size dl_list
   ∧ DoublyLinkedList.element_at_offset DoublyLinkedList.begin 1 dl_list dl_heap = DoublyLinkedList.at_ 1 dl_list dl_heap
   ∧ DoublyLinkedList.element_at_offset DoublyLinkedList.rbegin 1 dl_list dl_heap
     = DoublyLinkedList.at_ (DoublyLinkedList.size dl_list - 1 - 1) dl_list dl_heap)
  ∧ (LinkedList.Rep sl_list sl_heap sample_cells ∧ 1 ≤ SIZE_MAX ∧ 1 < LinkedList.size sl_list
     ∧ LinkedList.element_at_offset LinkedList.begin 1 sl_list sl_heap = LinkedList.at_ 1 sl_list sl_heap).
Proof.
  split.
  - split; [apply dl_sample_Rep|]. split; [by vm_compute|]. split; [by vm_compute|].
    destruct (proj1 cursor_offsets_match_indexes nat dl_list dl_heap sample_cells 1
                dl_sample_Rep) as [Hin _]; [by vm_compute|].
    destruct Hin as (Hb & _ & Hr & _); [by vm_compute|]. by split.
  - split; [apply sl_sample_Rep|]. split; [by vm_compute|]. split; [by vm_compute|].
    destruct (proj2 cursor_offsets_match_indexes nat sl_list sl_heap sample_cells 1
                sl_sample_Rep) as [Hin _]; [by vm_compute|].
    destruct Hin as (Hb & _); [by vm_compute|]. done.
Defined.

(** X15.  Going back over the steps of a cursor of the doubly-linked
    list.  From a cursor on the element at index [i] of a well-formed
    container, [(it + n) - n] is the cursor itself exactly when [it + n]
    is still on an element: for a forward cursor when [i + n] is below
    the size, for a reverse cursor when [n <= i]; otherwise [it + n] is
    the sentinel, which no step leaves, and the result is the sentinel.
    Stepping back from [begin()] also gives the sentinel, so that
    [--begin() == end()] holds.  The postfix forms return the cursor as it
    was, together with the cursor the prefix form yields, in both
    containers. *)
Theorem stepping_back_over_steps :
  (∀ T (this : DoublyLinkedList.object) (h : gmap loc (DoublyLinkedList.Node T)) cs k (i : nat) c n,
    DoublyLinkedList.Rep this h cs → cs !! i = Some c → n ≤ SIZE_MAX →
    let it := DoublyLinkedList.mkCursor k (Some c.1) in
    let there_and_back := (let* it' := DoublyLinkedList.plus it n in DoublyLinkedList.minus it' n) h in
    (DoublyLinkedList.forward k = true → (i + N.to_nat n < length cs)%nat →
       there_and_back = Ok (it, h))
    ∧ (DoublyLinkedList.forward k = true → (length cs ≤ i + N.to_nat n)%nat →
         there_and_back = Ok (DoublyLinkedList.mkCursor k None, h))
    ∧ (DoublyLinkedList.forward k = false → (N.to_nat n ≤ i)%nat →
         there_and_back = Ok (it, h))
    ∧ (DoublyLinkedList.forward k = false → (i < N.to_nat n)%nat →
         there_and_back = Ok (DoublyLinkedList.mkCursor k None, h))
    ∧ (let* b := DoublyLinkedList.begin this in
       let* b' := DoublyLinkedList.decr b in
       let* e := DoublyLinkedList.end_ this in
       ret (DoublyLinkedList.cursor_eq b' e)) h = Ok (true, h)
    ∧ (∃ it', DoublyLinkedList.incr it h = Ok (it', h) ∧ DoublyLinkedList.post_incr it h = Ok ((it, it'), h))
    ∧ (∃ it', DoublyLinkedList.decr it h = Ok (it', h) ∧ DoublyLinkedList.post_decr it h = Ok ((it, it'), h)))
  ∧ (∀ T (this : LinkedList.object) (h : gmap loc (LinkedList.Node T)) cs k (i : nat) c,
       LinkedList.Rep this h cs → cs !! i = Some c →
       let it := LinkedList.mkCursor k (Some c.1) in
       let it' := LinkedList.mkCursor k (first_loc (drop (S i) cs) None) in
       LinkedList.incr it h = Ok (it', h) ∧ LinkedList.post_incr it h = Ok ((it, it'), h)).
Proof.
  split; [|intros T this h cs k i c HR Hi it it'; subst it it';
           pose proof (LinkedListFacts.sl_sseg_lookup _ _ _ _ _ (LinkedList.rep_seg _ _ _ HR) Hi) as Hc;
           unfold LinkedList.post_incr;
           by rewrite (bind_Ok _ _ _ _ _ (LinkedListFacts.sl_incr_at k _ _ _ Hc)),
                (LinkedListFacts.sl_incr_at k _ _ _ Hc)].
  intros T this h cs k i c n HR Hi Hn it there_and_back.
  pose proof (DoublyLinkedList.rep_seg _ _ _ HR) as Hseg.
  pose proof (lookup_lt_Some _ _ _ Hi) as Hlt.
  pose proof (DoublyLinkedListFacts.dl_dseg_lookup _ _ _ _ _ _ Hseg Hi) as Hc.
  subst it there_and_back. split_and!.
  - intros Hk Hin.
    rewrite <- (first_loc_drop cs i c None Hi).
    rewrite (bind_Ok _ _ _ _ _ (dl_plus_forward h cs k n i Hseg Hk Hn)).
    destruct (lookup_lt_is_Some_2 cs (i + N.to_nat n)) as [d Hd]; [done|].
    rewrite (first_loc_drop _ _ _ _ Hd), <- (last_loc_take cs _ d None Hd).
    rewrite dl_minus_forward by (done || lia).
    replace (S (i + N.to_nat n) - N.to_nat n)%nat with (S i) by lia.
    by rewrite (last_loc_take _ _ _ _ Hi), (first_loc_drop _ _ _ _ Hi).
  - intros Hk Hout.
    rewrite <- (first_loc_drop cs i c None Hi).
    rewrite (bind_Ok _ _ _ _ _ (dl_plus_forward h cs k n i Hseg Hk Hn)).
    rewrite drop_ge by done.
    change (first_loc [] None) with (last_loc (take 0 cs) (@None loc)).
    by rewrite dl_minus_forward by (done || lia).
  - intros Hk Hin.
    rewrite <- (last_loc_take cs i c None Hi).
    rewrite (bind_Ok _ _ _ _ _ (dl_plus_reverse h cs k n (S i) Hseg Hk Hn Hlt)).
    destruct (lookup_lt_is_Some_2 cs (i - N.to_nat n)) as [d Hd]; [lia|].
    replace (S i - N.to_nat n)%nat with (S (i - N.to_nat n)) by lia.
    rewrite (last_loc_take _ _ _ _ Hd), <- (first_loc_drop cs _ d None Hd).
    rewrite dl_minus_reverse by done.
    replace (i - N.to_nat n + N.to_nat n)%nat with i by lia.
    by rewrite (first_loc_drop _ _ _ _ Hi), (last_loc_take _ _ _ _ Hi).
  - intros Hk Hout.
    rewrite <- (last_loc_take cs i c None Hi).
    rewrite (bind_Ok _ _ _ _ _ (dl_plus_reverse h cs k n (S i) Hseg Hk Hn Hlt)).
    replace (S i - N.to_nat n)%nat with 0%nat by lia.
    rewrite take_0.
    pose proof (dl_minus_reverse h cs k n (length cs) Hseg Hk Hn) as Hback.
    rewrite !drop_ge in Hback by lia. done.
  - assert (cs ≠ []) as Hne by (by destruct cs).
    destruct (DoublyLinkedListFacts.dl_past_the_end _ _ _ HR Hne) as (Hend & _).
    unfold DoublyLinkedList.begin, bind at 1. simpl. rewrite (DoublyLinkedList.rep_head _ _ _ HR).
    destruct cs as [|c0 cs']; [done|]. destruct Hseg as [Hc0 _]. simpl.
    rewrite (bind_Ok _ _ _ _ _ (DoublyLinkedListFacts.dl_decr_at DoublyLinkedList.Iterator _ _ _ Hc0)).
    by rewrite (bind_Ok _ _ _ _ _ Hend).
  - eexists. split; [by apply DoublyLinkedListFacts.dl_incr_at|].
    unfold DoublyLinkedList.post_incr. by rewrite (bind_Ok _ _ _ _ _ (DoublyLinkedListFacts.dl_incr_at k _ _ _ Hc)).
  - eexists. split; [by apply DoublyLinkedListFacts.dl_decr_at|].
    unfold DoublyLinkedList.post_decr. by rewrite (bind_Ok _ _ _ _ _ (DoublyLinkedListFacts.dl_decr_at k _ _ _ Hc)).
Qed.

Lemma stepping_back_over_steps_witness :
  (DoublyLinkedList.Rep dl_list dl_heap sample_cells
   ∧ sample_cells !! 0%nat = Some (1%positive, 10%nat) ∧ 2 ≤ SIZE_MAX
   ∧ DoublyLinkedList.forward DoublyLinkedList.Iterator = true ∧ (0 + N.to_nat 2 < length sample_cells)%nat
   ∧ (let* it' := DoublyLinkedList.plus (DoublyLinkedList.mkCursor DoublyLinkedList.Iterator (Some 1%positive)) 2 in
      DoublyLinkedList.minus it' 2) dl_heap
     = Ok (DoublyLinkedList.mkCursor DoublyLinkedList.Iterator (Some 1%positive), dl_heap))
  ∧ (LinkedList.Rep sl_list sl_heap sample_cells
     ∧ sample_cells !! 0%nat = Some (1%positive, 10%nat)
     ∧ LinkedList.post_incr (LinkedList.mkCursor LinkedList.Iterator (Some 1%positive)) sl_heap
       = Ok ((LinkedList.mkCursor LinkedList.Iterator (Some 1%positive),
              LinkedList.mkCursor LinkedList.Iterator (Some 2%positive)), sl_heap)).
Proof.
  split.
  - split; [apply dl_sample_Rep|]. split; [done|]. split; [by vm_compute|].
    split; [done|]. split; [by vm_compute|].
    destruct (proj1 stepping_back_over_steps nat dl_list dl_heap sample_cells
                DoublyLinkedList.Iterator 0%nat (1%positive, 10%nat) 2 dl_sample_Rep)
      as (Hround & _); [done|by vm_compute|].
    apply Hround; [done|by vm_compute].
  - split; [apply sl_sample_Rep|]. split; [done|].
    destruct (proj2 stepping_back_over_steps nat sl_list sl_heap sample_cells
                LinkedList.Iterator 0%nat (1%positive, 10%nat) sl_sample_Rep)
      as (_ & Hpost); [done|].
    apply Hpost.
Defined.

(** ** Cursor conversions *)

Lemma dl_iterator_cast_accepts (k : DoublyLinkedList.cursor_class) (it : DoublyLinkedList.cursor) :
  (DoublyLinkedList.is_const (DoublyLinkedList.class_of it) = true → DoublyLinkedList.is_const k = true) →
  DoublyLinkedList.iterator_cast k it = Some (DoublyLinkedList.mkCursor k (DoublyLinkedList.node it)).
Proof. destruct it as [[] p], k; simpl; intros Hc; try done; by specialize (Hc eq_refl). Qed.

Lemma dl_iterator_cast_refuses (k : DoublyLinkedList.cursor_class) (it : DoublyLinkedList.cursor) :
  DoublyLinkedList.is_const (DoublyLinkedList.class_of it) = true → DoublyLinkedList.is_const k = false →
  DoublyLinkedList.iterator_cast k it = None.
Proof. by destruct it as [[] p], k. Qed.

Lemma dl_cast_chain_spec (targets : list DoublyLinkedList.cursor_class) :
  ∀ (it : DoublyLinkedList.cursor),
    (is_Some (DoublyLinkedList.cast_chain targets it) ↔
     ∀ (i j : nat) ki kj,
       (i ≤ j)%nat → (DoublyLinkedList.class_of it :: targets) !! i = Some ki →
       (DoublyLinkedList.class_of it :: targets) !! j = Some kj →
       DoublyLinkedList.is_const ki = true → DoublyLinkedList.is_const kj = true)
    ∧ ∀ it', DoublyLinkedList.cast_chain targets it = Some it' →
        it' = DoublyLinkedList.mkCursor (default (DoublyLinkedList.class_of it) (last targets)) (DoublyLinkedList.node it).
Proof.
  induction targets as [|k rest IH]; intros it.
  - split.
    + split; [|by eexists]. intros _ i j ki kj Hij Hi Hj.
      destruct i, j; simpl in *; try done. congruence.
    + intros it' [= <-]. by destruct it.
  - destruct (DoublyLinkedList.is_const (DoublyLinkedList.class_of it) && negb (DoublyLinkedList.is_const k)) eqn:Hbad.
    + apply andb_true_iff in Hbad as [Hc Hm%negb_true_iff].
      simpl. rewrite (dl_iterator_cast_refuses k it Hc Hm). split.
      * split; [by intros [? ?]|]. intros Hmono.
        specialize (Hmono 0%nat 1%nat _ _ (Nat.le_0_l _) eq_refl eq_refl Hc).
        congruence.
      * done.
    + assert (DoublyLinkedList.is_const (DoublyLinkedList.class_of it) = true → DoublyLinkedList.is_const k = true) as Hok.
      { intros Hc. rewrite Hc in Hbad. by destruct (DoublyLinkedList.is_const k). }
      simpl. rewrite (dl_iterator_cast_accepts k it Hok).
      destruct (IH (DoublyLinkedList.mkCursor k (DoublyLinkedList.node it))) as [Hiff Hres]. simpl in *. split.
      * rewrite Hiff. split.
        -- intros Hmono i j ki kj Hij Hi Hj Hc.
           destruct i as [|i], j as [|j]; simpl in *; [congruence|..|lia|].
           ++ injection Hi as <-. by apply (Hmono 0%nat j k kj); [lia|..|apply Hok].
           ++ by apply (Hmono i j ki kj); [lia|..].
        -- intros Hmono i j ki kj Hij Hi Hj.
           by apply (Hmono (S i) (S j)); [lia|..].
      * intros it' Hit'. rewrite (Hres it' Hit'), last_cons.
        by destruct (last rest).
Qed.

Lemma sl_cast_chain_spec (targets : list LinkedList.cursor_class) :
  ∀ (it : LinkedList.cursor),
    (is_Some (LinkedList.cast_chain targets it) ↔
     ∀ (i : nat) ki,
       (i < length targets)%nat → (LinkedList.class_of it :: targets) !! i = Some ki →
       ki = LinkedList.Iterator)
    ∧ ∀ it', LinkedList.cast_chain targets it = Some it' →
        it' = LinkedList.mkCursor (default (LinkedList.class_of it) (last targets)) (LinkedList.node it).
Proof.
  induction targets as [|k rest IH]; intros it.
  - split.
    + split; [|by eexists]. intros _ i ki Hi. simpl in Hi. lia.
    + intros it' [= <-]. by destruct it.
  - destruct it as [[] p]; simpl.
    + destruct (IH (LinkedList.mkCursor k p)) as [Hiff Hres]. simpl in *. split.
      * rewrite Hiff. split.
        -- intros Hall i ki Hi Hki. destruct i as [|i]; simpl in *; [congruence|].
           apply (Hall i); [lia|done].
        -- intros Hall i ki Hi Hki. apply (Hall (S i)); [lia|done].
      * intros it' Hit'. rewrite (Hres it' Hit'), last_cons.
        by destruct (last rest).
    + split; [|done]. split; [by intros [? ?]|].
      intros Hall. specialize (Hall 0%nat _ (Nat.lt_0_succ _) eq_refl). done.
Qed.

(** X16.  Chains of [iterator_cast].  An accepted chain yields a cursor
    of the last target class on the node of the first cursor.  In the
    doubly-linked list a chain is accepted exactly when no class in it
    (the class of the first cursor included) is const and followed,
    anywhere later, by a class that is not: a cursor never becomes
    mutable again.  In the singly-linked list, whose only overload takes
    an [Iterator], a chain is accepted exactly when every cursor that is
    cast is an [Iterator]; already a cast from [ConstIterator] to
    [ConstIterator] is refused. *)
Theorem casts_never_restore_mutability :
  (∀ (targets : list DoublyLinkedList.cursor_class) (it : DoublyLinkedList.cursor),
     (is_Some (DoublyLinkedList.cast_chain targets it) ↔
      ∀ (i j : nat) ki kj,
        (i ≤ j)%nat → (DoublyLinkedList.class_of it :: targets) !! i = Some ki →
        (DoublyLinkedList.class_of it :: targets) !! j = Some kj →
        DoublyLinkedList.is_const ki = true → DoublyLinkedList.is_const kj = true)
     ∧ ∀ it', DoublyLinkedList.cast_chain targets it = Some it' →
         it' = DoublyLinkedList.mkCursor (default (DoublyLinkedList.class_of it) (last targets)) (DoublyLinkedList.node it))
  ∧ (∀ (targets : list LinkedList.cursor_class) (it : LinkedList.cursor),
       (is_Some (LinkedList.cast_chain targets it) ↔
        ∀ (i : nat) ki,
          (i < length targets)%nat → (LinkedList.class_of it :: targets) !! i = Some ki →
          ki = LinkedList.Iterator)
       ∧ ∀ it', LinkedList.cast_chain targets it = Some it' →
           it' = LinkedList.mkCursor (default (LinkedList.class_of it) (last targets)) (LinkedList.node it)).
Proof.
  split; intros targets it.
  - apply dl_cast_chain_spec.
  - apply sl_cast_chain_spec.
Qed.

Lemma casts_never_restore_mutability_witness :
  (is_Some (DoublyLinkedList.cast_chain [DoublyLinkedList.ConstIterator; DoublyLinkedList.ConstReverseIterator]
              (DoublyLinkedList.mkCursor DoublyLinkedList.Iterator (Some 1%positive)))
   ∧ ¬ is_Some (DoublyLinkedList.cast_chain [DoublyLinkedList.ConstIterator; DoublyLinkedList.ReverseIterator]
                  (DoublyLinkedList.mkCursor DoublyLinkedList.Iterator (Some 1%positive))))
  ∧ (is_Some (LinkedList.cast_chain [LinkedList.Iterator; LinkedList.ConstIterator]
                (LinkedList.mkCursor LinkedList.Iterator (Some 1%positive)))
     ∧ ¬ is_Some (LinkedList.cast_chain [LinkedList.ConstIterator; LinkedList.ConstIterator]
                    (LinkedList.mkCursor LinkedList.Iterator (Some 1%positive)))).
Proof.
  split.
  - split.
    + apply (proj1 casts_never_restore_mutability). intros i j ki kj Hij Hi Hj.
      destruct j as [|[|[|j]]]; simpl in Hj; [| | |done]; injection Hj as <-;
        [|done..].
      destruct i; [|lia]. by injection Hi as <-.
    + intros Hsome.
      apply (proj1 (proj1 casts_never_restore_mutability _ _)) with
        (i := 1%nat) (j := 2%nat) (ki := DoublyLinkedList.ConstIterator) (kj := DoublyLinkedList.ReverseIterator)
        in Hsome; [done|lia|done..].
  - split.
    + apply (proj2 casts_never_restore_mutability). intros i ki Hi Hki.
      destruct i as [|[|i]]; simpl in *; [by injection Hki|by injection Hki|lia].
    + intros Hsome.
      by apply (proj1 (proj2 casts_never_restore_mutability _ _)) with
        (i := 1%nat) (ki := LinkedList.ConstIterator) in Hsome; [|simpl; lia|].
Defined.

(** * The nodes in use *)

(** ** What a call does to the set of nodes in use *)

Lemma bind_Ok_inv {Node A B} (m : @M Node A) (f : A → @M Node B) h r :
  bind m f h = Ok r → ∃ a h1, m h = Ok (a, h1) ∧ f a h1 = Ok r.
Proof. unfold bind. destruct (m h) as [[a h1]| |]; [eauto|done..]. Qed.

Lemma load_unchanged {Node} (p : ptr) (h h' : gmap loc Node) n :
  load p h = Ok (n, h') → h' = h.
Proof.
  unfold load. destruct p as [a|]; [|done].
  destruct (h !! a); [|done]. by intros [= _ <-].
Qed.

Lemma store_same_nodes {Node} (p : ptr) (n : Node) (h h' : gmap loc Node) u :
  store p n h = Ok (u, h') → dom h' = dom h.
Proof.
  unfold store. destruct p as [a|]; [|done].
  destruct (h !! a) as [x|] eqn:Ha; [|done]. intros [= <- <-].
  rewrite dom_insert_L. apply elem_of_dom_2 in Ha.
  apply subseteq_union_1_L. by apply singleton_subseteq_l.
Qed.

Lemma new_one_node {Node} (n : Node) (h h' : gmap loc Node) p :
  new n h = Ok (p, h') → dom h' = {[fresh (dom h)]} ∪ dom h.
Proof. unfold new. intros [= _ <-]. by rewrite dom_insert_L. Qed.

Lemma delete_one_node {Node} (a : loc) (h h' : gmap loc Node) u :
  delete (Some a) h = Ok (u, h') → dom h' = dom h ∖ {[a]}.
Proof.
  unfold delete. destruct (h !! a); [|done]. intros [= _ <-].
  by rewrite dom_delete_L.
Qed.

Lemma loop_up_unchanged {Node St} (body : St → @M Node St) :
  (∀ s h s' h', body s h = Ok (s', h') → h' = h) →
  ∀ fuel i n s h s' h', loop_up fuel i n body s h = Ok (s', h') → h' = h.
Proof.
  intros Hbody. induction fuel as [|fuel IH]; intros i n s h s' h'; simpl.
  - destruct (i <? n); [done|]. by intros [= _ <-].
  - destruct (i <? n); [|by intros [= _ <-]].
    intros (s1 & h1 & Hs & Hrest)%bind_Ok_inv.
    apply Hbody in Hs as ->. by apply IH in Hrest.
Qed.

Lemma loop_down_unchanged {Node St} (body : St → @M Node St) :
  (∀ s h s' h', body s h = Ok (s', h') → h' = h) →
  ∀ fuel i n s h s' h', loop_down fuel i n body s h = Ok (s', h') → h' = h.
Proof.
  intros Hbody. induction fuel as [|fuel IH]; intros i n s h s' h'; simpl.
  - destruct (n <? i); [done|]. by intros [= _ <-].
  - destruct (n <? i); [|by intros [= _ <-]].
    intros (s1 & h1 & Hs & Hrest)%bind_Ok_inv.
    apply Hbody in Hs as ->. by apply IH in Hrest.
Qed.

Lemma dl_get_value_unchanged {T} p (h h' : gmap loc (DoublyLinkedList.Node T)) x :
  DoublyLinkedList.get_value p h = Ok (x, h') → h' = h.
Proof.
  intros (n & h1 & Hload & Hret)%bind_Ok_inv. apply load_unchanged in Hload as ->.
  by injection Hret as _ <-.
Qed.

Lemma dl_get_next_unchanged {T} p (h h' : gmap loc (DoublyLinkedList.Node T)) x :
  DoublyLinkedList.get_next p h = Ok (x, h') → h' = h.
Proof.
  intros (n & h1 & Hload & Hret)%bind_Ok_inv. apply load_unchanged in Hload as ->.
  by injection Hret as _ <-.
Qed.

Lemma dl_get_previous_unchanged {T} p (h h' : gmap loc (DoublyLinkedList.Node T)) x :
  DoublyLinkedList.get_previous p h = Ok (x, h') → h' = h.
Proof.
  intros (n & h1 & Hload & Hret)%bind_Ok_inv. apply load_unchanged in Hload as ->.
  by injection Hret as _ <-.
Qed.

Lemma dl_set_next_same_nodes {T} p v (h h' : gmap loc (DoublyLinkedList.Node T)) u :
  DoublyLinkedList.set_next p v h = Ok (u, h') → dom h' = dom h.
Proof.
  intros (n & h1 & Hload & Hstore)%bind_Ok_inv. apply load_unchanged in Hload as ->.
  by apply store_same_nodes in Hstore.
Qed.

Lemma dl_set_previous_same_nodes {T} p v (h h' : gmap loc (DoublyLinkedList.Node T)) u :
  DoublyLinkedList.set_previous p v h = Ok (u, h') → dom h' = dom h.
Proof.
  intros (n & h1 & Hload & Hstore)%bind_Ok_inv. apply load_unchanged in Hload as ->.
  by apply store_same_nodes in Hstore.
Qed.

Lemma dl_walk_to_unchanged {T} index this (h h' : gmap loc (DoublyLinkedList.Node T)) p :
  DoublyLinkedList.walk_to index this h = Ok (p, h') → h' = h.
Proof.
  unfold DoublyLinkedList.walk_to, for_down, for_up. destruct (closer_to_end _ _).
  - apply loop_down_unchanged. intros ????. apply dl_get_previous_unchanged.
  - apply loop_up_unchanged. intros ????. apply dl_get_next_unchanged.
Qed.

(** One step back through a run that ended normally. *)
Ltac dl_back H :=
  let x := fresh "x" in
  let h1 := fresh "h" in
  let Hstep := fresh "Hstep" in
  apply bind_Ok_inv in H as (x & h1 & Hstep & H);
  first
    [ apply dl_get_value_unchanged in Hstep as ->
    | apply dl_get_next_unchanged in Hstep as ->
    | apply dl_get_previous_unchanged in Hstep as ->
    | apply dl_walk_to_unchanged in Hstep as ->
    | apply dl_set_next_same_nodes in Hstep
    | apply dl_set_previous_same_nodes in Hstep
    | apply new_one_node in Hstep
    | apply delete_one_node in Hstep ].

Lemma dl_push_back_nodes {T} (v : T) this (h h' : gmap loc (DoublyLinkedList.Node T)) this' :
  DoublyLinkedList.push_back v this h = Ok (this', h') → dom h' = {[fresh (dom h)]} ∪ dom h.
Proof.
  unfold DoublyLinkedList.push_back, DoublyLinkedList.new_node. intros H. do 3 dl_back H.
  destruct (DoublyLinkedList.size_ this =? 0).
  - injection H as _ <-. congruence.
  - dl_back H. injection H as _ <-. congruence.
Qed.

Lemma dl_push_front_nodes {T} (v : T) this (h h' : gmap loc (DoublyLinkedList.Node T)) this' :
  DoublyLinkedList.push_front v this h = Ok (this', h') → dom h' = {[fresh (dom h)]} ∪ dom h.
Proof.
  unfold DoublyLinkedList.push_front, DoublyLinkedList.new_node. intros H. do 3 dl_back H.
  destruct (DoublyLinkedList.size_ this =? 0).
  - injection H as _ <-. congruence.
  - dl_back H. injection H as _ <-. congruence.
Qed.

Lemma dl_pop_back_nodes {T} this (h h' : gmap loc (DoublyLinkedList.Node T)) this' a :
  DoublyLinkedList.tail_ this = Some a → DoublyLinkedList.size_ this ≠ 0 →
  DoublyLinkedList.pop_back this h = Ok (this', h') → dom h' = dom h ∖ {[a]}.
Proof.
  unfold DoublyLinkedList.pop_back. intros -> Hsize H.
  destruct (DoublyLinkedList.size_ this =? 0) eqn:Hz; [by apply N.eqb_eq in Hz|].
  destruct (DoublyLinkedList.size_ this =? 1).
  - dl_back H. injection H as _ <-. done.
  - do 3 dl_back H. injection H as _ <-. congruence.
Qed.

Lemma dl_pop_front_nodes {T} this (h h' : gmap loc (DoublyLinkedList.Node T)) this' a :
  DoublyLinkedList.head_ this = Some a → DoublyLinkedList.size_ this ≠ 0 →
  DoublyLinkedList.pop_front this h = Ok (this', h') → dom h' = dom h ∖ {[a]}.
Proof.
  unfold DoublyLinkedList.pop_front. intros -> Hsize H.
  destruct (DoublyLinkedList.size_ this =? 0) eqn:Hz; [by apply N.eqb_eq in Hz|].
  destruct (DoublyLinkedList.size_ this =? 1).
  - dl_back H. injection H as _ <-. done.
  - do 3 dl_back H. injection H as _ <-. congruence.
Qed.

Lemma dl_insert_nodes {T} index (v : T) this (h h' : gmap loc (DoublyLinkedList.Node T)) this' :
  index ≤ DoublyLinkedList.size_ this →
  DoublyLinkedList.insert index v this h = Ok (this', h') → dom h' = {[fresh (dom h)]} ∪ dom h.
Proof.
  unfold DoublyLinkedList.insert. intros Hin H.
  replace (index <=? DoublyLinkedList.size_ this) with true in H
    by (symmetry; by apply N.leb_le).
  destruct (index =? 0); [by eapply dl_push_front_nodes|].
  destruct (index =? DoublyLinkedList.size_ this); [by eapply dl_push_back_nodes|].
  unfold DoublyLinkedList.new_node in H. do 8 dl_back H. injection H as _ <-. congruence.
Qed.

Lemma dl_remove_nodes {T} this (h h' : gmap loc (DoublyLinkedList.Node T)) cs (i : nat) c this' :
  DoublyLinkedList.Rep this h cs → cs !! i = Some c →
  DoublyLinkedList.remove (N.of_nat i) this h = Ok (this', h') → dom h' = dom h ∖ {[c.1]}.
Proof.
  intros HR Hi H. pose proof HR as [Hnd Hsize Hbound Hhead Htail Hseg].
  pose proof (lookup_lt_Some _ _ _ Hi) as Hlt.
  assert (DoublyLinkedList.size_ this ≠ 0) as Hpos by lia.
  unfold DoublyLinkedList.remove in H.
  replace (N.of_nat i <? DoublyLinkedList.size_ this) with true in H
    by (symmetry; apply N.ltb_lt; lia).
  destruct (N.of_nat i =? 0) eqn:Hz.
  { apply N.eqb_eq in Hz. assert (i = 0%nat) as -> by lia.
    destruct cs as [|c0 cs']; [done|]. injection Hi as ->.
    by apply dl_pop_front_nodes with this this'. }
  destruct (N.of_nat i =? size_sub (DoublyLinkedList.size_ this) 1) eqn:Hl.
  { apply N.eqb_eq in Hl. rewrite size_sub_le in Hl by lia.
    assert (i = (length cs - 1)%nat) as -> by lia.
    apply dl_pop_back_nodes with this this'; [|done..].
    rewrite Htail. destruct (exists_last_or_nil cs) as [->|(l & t & ->)]; [done|].
    rewrite last_loc_snoc. rewrite length_app in Hi. simpl in Hi.
    rewrite lookup_app_r in Hi by lia.
    replace (length l + 1 - 1 - length l)%nat with 0%nat in Hi by lia.
    by injection Hi as ->. }
  rewrite (bind_Ok _ _ _ _ _ (DoublyLinkedListFacts.dl_walk_to_at _ _ _ _ _ HR Hi)) in H.
  do 7 dl_back H. injection H as _ <-. congruence.
Qed.

Lemma sl_get_value_unchanged {T} p (h h' : gmap loc (LinkedList.Node T)) x :
  LinkedList.get_value p h = Ok (x, h') → h' = h.
Proof.
  intros (n & h1 & Hload & Hret)%bind_Ok_inv. apply load_unchanged in Hload as ->.
  by injection Hret as _ <-.
Qed.

Lemma sl_get_next_unchanged {T} p (h h' : gmap loc (LinkedList.Node T)) x :
  LinkedList.get_next p h = Ok (x, h') → h' = h.
Proof.
  intros (n & h1 & Hload & Hret)%bind_Ok_inv. apply load_unchanged in Hload as ->.
  by injection Hret as _ <-.
Qed.

Lemma sl_set_next_same_nodes {T} p v (h h' : gmap loc (LinkedList.Node T)) u :
  LinkedList.set_next p v h = Ok (u, h') → dom h' = dom h.
Proof.
  intros (n & h1 & Hload & Hstore)%bind_Ok_inv. apply load_unchanged in Hload as ->.
  by apply store_same_nodes in Hstore.
Qed.

Lemma sl_advance_unchanged {T} st (h h' : gmap loc (LinkedList.Node T)) st' :
  LinkedList.advance st h = Ok (st', h') → h' = h.
Proof.
  intros (n & h1 & Hnext & Hret)%bind_Ok_inv.
  apply sl_get_next_unchanged in Hnext as ->. by injection Hret as _ <-.
Qed.

Lemma sl_for_up_advance_unchanged {T} index st (h h' : gmap loc (LinkedList.Node T)) st' :
  for_up index LinkedList.advance st h = Ok (st', h') → h' = h.
Proof.
  unfold for_up. apply loop_up_unchanged. intros ????. apply sl_advance_unchanged.
Qed.

Ltac sl_back H :=
  let x := fresh "x" in
  let h1 := fresh "h" in
  let Hstep := fresh "Hstep" in
  apply bind_Ok_inv in H as (x & h1 & Hstep & H);
  first
    [ apply sl_get_value_unchanged in Hstep as ->
    | apply sl_get_next_unchanged in Hstep as ->
    | apply sl_for_up_advance_unchanged in Hstep as ->
    | apply sl_set_next_same_nodes in Hstep
    | apply new_one_node in Hstep
    | apply delete_one_node in Hstep ].

Lemma sl_push_back_nodes {T} (v : T) this (h h' : gmap loc (LinkedList.Node T)) this' :
  LinkedList.push_back v this h = Ok (this', h') → dom h' = {[fresh (dom h)]} ∪ dom h.
Proof.
  unfold LinkedList.push_back, LinkedList.new_node. intros H. do 2 sl_back H.
  destruct (LinkedList.size_ this =? 0).
  - injection H as _ <-. congruence.
  - sl_back H. injection H as _ <-. congruence.
Qed.

Lemma sl_push_front_nodes {T} (v : T) this (h h' : gmap loc (LinkedList.Node T)) this' :
  LinkedList.push_front v this h = Ok (this', h') → dom h' = {[fresh (dom h)]} ∪ dom h.
Proof.
  unfold LinkedList.push_front, LinkedList.new_node. intros H. do 2 sl_back H.
  destruct (LinkedList.size_ this =? 0); injection H as _ <-; congruence.
Qed.

Lemma sl_pop_front_nodes {T} this (h h' : gmap loc (LinkedList.Node T)) this' a :
  LinkedList.head_ this = Some a → LinkedList.size_ this ≠ 0 →
  LinkedList.pop_front this h = Ok (this', h') → dom h' = dom h ∖ {[a]}.
Proof.
  unfold LinkedList.pop_front. intros -> Hsize H.
  destruct (LinkedList.size_ this =? 0) eqn:Hz; [by apply N.eqb_eq in Hz|].
  do 2 sl_back H. destruct (LinkedList.size_ this =? 1); injection H as _ <-; done.
Qed.

Lemma sl_pop_back_nodes {T} this (h h' : gmap loc (LinkedList.Node T)) cs t this' :
  LinkedList.Rep this h (cs ++ [t]) →
  LinkedList.pop_back this h = Ok (this', h') → dom h' = dom h ∖ {[t.1]}.
Proof.
  intros HR H. pose proof HR as [Hnd Hsize Hbound Hhead Htail Hseg].
  pose proof (LinkedListFacts.sl_heap_bounds_cells _ _ _ HR) as Hfuel.
  unfold LinkedList.pop_back in H.
  rewrite length_app in Hsize, Hbound, Hfuel. simpl in Hsize, Hbound, Hfuel.
  replace (LinkedList.size_ this =? 0) with false in H by (symmetry; apply N.eqb_neq; lia).
  rewrite last_loc_snoc in Htail.
  destruct (exists_last_or_nil cs) as [->|(l & p & ->)].
  - simpl in *. rewrite Hsize, Hhead in H. simpl in H.
    sl_back H. by injection H as _ <-.
  - rewrite length_app in Hsize, Hbound, Hfuel. simpl in Hsize, Hbound, Hfuel.
    replace (LinkedList.size_ this =? 1) with false in H by (symmetry; apply N.eqb_neq; lia).
    rewrite <- app_assoc in Hseg, Hnd, Hhead. simpl in Hseg, Hnd, Hhead.
    pose proof Hseg as [_ [Hp _]]%LinkedListFacts.sl_sseg_app. simpl in Hp.
    erewrite bind_Ok in H; [|reflexivity].
    erewrite bind_Ok in H; cycle 1.
    { rewrite Htail, Hhead. apply LinkedListFacts.sl_before_tail_found; [done..|lia]. }
    erewrite bind_Ok in H; [|by apply LinkedListFacts.sl_get_next_at]. simpl in H.
    do 2 sl_back H. injection H as _ <-. congruence.
Qed.

Lemma sl_insert_nodes {T} index (v : T) this (h h' : gmap loc (LinkedList.Node T)) this' :
  index ≤ LinkedList.size_ this →
  LinkedList.insert index v this h = Ok (this', h') → dom h' = {[fresh (dom h)]} ∪ dom h.
Proof.
  unfold LinkedList.insert. intros Hin H.
  replace (index <=? LinkedList.size_ this) with true in H
    by (symmetry; by apply N.leb_le).
  destruct (index =? 0); [by eapply sl_push_front_nodes|].
  destruct (index =? LinkedList.size_ this); [by eapply sl_push_back_nodes|].
  unfold LinkedList.new_node in H. do 4 sl_back H. injection H as _ <-. congruence.
Qed.

Lemma sl_remove_nodes {T} this (h h' : gmap loc (LinkedList.Node T)) cs (i : nat) c this' :
  LinkedList.Rep this h cs → cs !! i = Some c →
  LinkedList.remove (N.of_nat i) this h = Ok (this', h') → dom h' = dom h ∖ {[c.1]}.
Proof.
  intros HR Hi H. pose proof HR as [Hnd Hsize Hbound Hhead Htail Hseg].
  pose proof (lookup_lt_Some _ _ _ Hi) as Hlt.
  assert (LinkedList.size_ this ≠ 0) as Hpos by lia.
  unfold LinkedList.remove in H.
  replace (N.of_nat i <? LinkedList.size_ this) with true in H
    by (symmetry; apply N.ltb_lt; lia).
  destruct (N.of_nat i =? 0) eqn:Hz.
  { apply N.eqb_eq in Hz. assert (i = 0%nat) as -> by lia.
    destruct cs as [|c0 cs']; [done|]. injection Hi as ->.
    by apply sl_pop_front_nodes with this this'. }
  apply N.eqb_neq in Hz.
  destruct (N.of_nat i =? size_sub (LinkedList.size_ this) 1) eqn:Hl.
  { apply N.eqb_eq in Hl. rewrite size_sub_le in Hl by lia.
    destruct (exists_last_or_nil cs) as [->|(l & t & ->)]; [done|].
    rewrite length_app in Hsize, Hlt. simpl in Hsize, Hlt.
    rewrite lookup_app_r in Hi by lia.
    replace (i - length l)%nat with 0%nat in Hi by lia.
    injection Hi as ->. by apply sl_pop_back_nodes with this l this'. }
  destruct i as [|j]; [lia|].
  destruct (lookup_lt_is_Some_2 cs j) as [b Hj]; [lia|].
  erewrite bind_Ok in H; cycle 1.
  { rewrite for_up_repeat by lia. rewrite Nat2N.id, Hhead.
    by apply LinkedListFacts.sl_advance_walk. }
  simpl in H. rewrite (first_loc_drop _ _ _ _ Hi) in H.
  do 3 sl_back H. injection H as _ <-. congruence.
Qed.

(** ** Sequences of calls *)

Lemma outside_from_accounting {Node T} (cs : list (loc * T)) cs' (h h' : gmap loc Node) :
  (∀ a n, a ∉ cs.*1 → h !! a = Some n → h' !! a = Some n) →
  (∀ a, a ∈ dom h' → a ∉ cs'.*1 → a ∈ dom h ∧ a ∉ cs.*1) →
  outside_unchanged cs cs' h h'.
Proof.
  intros Hkept Hacc a Ha. destruct (decide (a ∈ cs.*1)) as [Hin|Hout].
  - apply not_elem_of_dom. intros Hdom. by destruct (Hacc a Hdom Ha).
  - destruct (h !! a) as [n|] eqn:Han; [by apply Hkept|].
    apply not_elem_of_dom. intros Hdom. destruct (Hacc a Hdom Ha) as [Hd _].
    by apply not_elem_of_dom in Han.
Qed.

Lemma outside_after_growth {Node T} (cs : list (loc * T)) cs' (h h' : gmap loc Node) a0 :
  (∀ a n, a ∉ cs.*1 → h !! a = Some n → h' !! a = Some n) →
  dom h' = {[fresh (dom h)]} ∪ dom h →
  h !! a0 = None → a0 ∈ dom h' →
  (∀ a, a ∈ cs.*1 ∨ a = a0 → a ∈ cs'.*1) →
  outside_unchanged cs cs' h h'.
Proof.
  intros Hkept Hdom Ha0 Ha0' Hcs'. apply outside_from_accounting; [done|].
  intros a Ha Hout. split; [|intros Hin; apply Hout, Hcs'; by left].
  rewrite Hdom in Ha, Ha0'. apply elem_of_union in Ha as [Ha%elem_of_singleton|Ha]; [|done].
  apply elem_of_union in Ha0' as [Hf%elem_of_singleton|Hd].
  - destruct Hout. apply Hcs'. right. congruence.
  - by apply not_elem_of_dom in Ha0.
Qed.

Lemma outside_after_release {Node T} (cs : list (loc * T)) cs' (h h' : gmap loc Node) d :
  (∀ a n, a ∉ cs.*1 → h !! a = Some n → h' !! a = Some n) →
  dom h' = dom h ∖ {[d]} →
  (∀ a, a ∈ cs.*1 → a = d ∨ a ∈ cs'.*1) →
  outside_unchanged cs cs' h h'.
Proof.
  intros Hkept Hdom Hcs. apply outside_from_accounting; [done|].
  intros a Ha Hout. rewrite Hdom in Ha.
  apply elem_of_difference in Ha as [Ha Had%not_elem_of_singleton].
  split; [done|]. intros Hin. by destruct (Hcs a Hin).
Qed.

Lemma outside_same {Node T} (cs : list (loc * T)) (h : gmap loc Node) : outside_unchanged cs cs h h.
Proof. intros a Ha. by rewrite decide_False. Qed.

Lemma outside_trans {Node T} (cs : list (loc * T)) cs1 cs2 (h h1 h2 : gmap loc Node) :
  (∀ a, a ∈ cs1.*1 → a ∈ cs.*1 ∨ h !! a = None) →
  outside_unchanged cs cs1 h h1 → outside_unchanged cs1 cs2 h1 h2 →
  outside_unchanged cs cs2 h h2.
Proof.
  intros Hfrom H1 H2 a Ha. rewrite (H2 a Ha).
  destruct (decide (a ∈ cs1.*1)) as [Hin|Hout]; [|by apply H1].
  destruct (Hfrom a Hin) as [?|Hnone]; [by rewrite decide_True|].
  rewrite Hnone. by destruct (decide _).
Qed.

Lemma dl_perform_spec {T} (c : DoublyLinkedList.call T) (this : DoublyLinkedList.object)
    (h : gmap loc (DoublyLinkedList.Node T)) cs :
  DoublyLinkedList.Rep this h cs → N.of_nat (length cs) < SIZE_MAX →
  ∃ this' h' cs',
    DoublyLinkedList.perform c this h = Ok (this', h') ∧ DoublyLinkedList.Rep this' h' cs'
    ∧ cs'.*2 = DoublyLinkedList.effect cs.*2 c
    ∧ (length cs' ≤ S (length cs))%nat
    ∧ DoublyLinkedList.others_kept cs h h'
    ∧ (∀ a, a ∈ cs'.*1 → a ∈ cs.*1 ∨ h !! a = None)
    ∧ outside_unchanged cs cs' h h'.
Proof.
  intros HR Hroom. pose proof (DoublyLinkedList.rep_size _ _ _ HR) as Hsize.
  destruct c as [v|v| | |index v|index|]; simpl.
  - destruct (DoublyLinkedListFacts.dl_push_back_spec _ _ _ v HR Hroom)
      as (a & this' & h' & Hrun & Ha & HR' & Hkept).
    exists this', h', (cs ++ [(a, v)]).
    split_and!; [done|done|by rewrite fmap_app|rewrite length_app; simpl; lia|done| |].
    + intros b. rewrite fmap_app. intros [Hb|Hb%list_elem_of_singleton]%elem_of_app;
        [by left|right; by subst].
    + apply outside_after_growth with a; [done|by eapply dl_push_back_nodes|done| |].
      * apply elem_of_dom. apply (DoublyLinkedListFacts.dl_Rep_alloc _ _ _ (a, v) HR').
        apply elem_of_app. right. apply list_elem_of_here.
      * intros b Hb. rewrite fmap_app. apply elem_of_app.
        destruct Hb as [?| ->]; [by left|right; apply list_elem_of_here].
  - destruct (DoublyLinkedListFacts.dl_push_front_spec _ _ _ v HR Hroom)
      as (a & this' & h' & Hrun & Ha & HR' & Hkept).
    exists this', h', ((a, v) :: cs).
    split_and!; [done|done|done|simpl; lia|done| |].
    + intros b. rewrite fmap_cons. intros [->|Hb]%elem_of_cons; [by right|by left].
    + apply outside_after_growth with a; [done|by eapply dl_push_front_nodes|done| |].
      * apply elem_of_dom. apply (DoublyLinkedListFacts.dl_Rep_alloc _ _ _ (a, v) HR').
        apply list_elem_of_here.
      * intros b Hb. rewrite fmap_cons. apply elem_of_cons.
        destruct Hb as [?| ->]; [by right|by left].
  - destruct (exists_last_or_nil cs) as [->|(l & t & ->)].
    + exists this, h, [].
      split_and!; [by apply DoublyLinkedListFacts.dl_pop_back_empty|done|done|simpl; lia| | |].
      * by intros a n _ Ha.
      * by intros a Ha%elem_of_nil.
      * apply outside_same.
    + destruct (DoublyLinkedListFacts.dl_pop_back_snoc _ _ _ _ HR) as (this' & h' & Hrun & HR' & Hkept).
      exists this', h', l.
      split_and!; [done|done| |rewrite length_app; simpl; lia|done| |].
      * rewrite fmap_app, length_app. simpl.
        replace (length l.*2 + 1 - 1)%nat with (length l.*2) by lia.
        by rewrite take_app_length.
      * intros a Ha. left. rewrite fmap_app. apply elem_of_app. by left.
      * apply outside_after_release with t.1; [done| |].
        -- apply dl_pop_back_nodes with this this'; [|by rewrite Hsize, length_app; simpl; lia|done].
           by rewrite (DoublyLinkedList.rep_tail _ _ _ HR), last_loc_snoc.
        -- intros a. rewrite fmap_app.
           intros [?|?%list_elem_of_singleton]%elem_of_app; [by right|by left].
  - destruct cs as [|t cs].
    + exists this, h, [].
      split_and!; [by apply DoublyLinkedListFacts.dl_pop_front_empty|done|done|simpl; lia| | |].
      * by intros a n _ Ha.
      * by intros a Ha%elem_of_nil.
      * apply outside_same.
    + destruct (DoublyLinkedListFacts.dl_pop_front_cons _ _ _ _ HR) as (this' & h' & Hrun & HR' & Hkept).
      exists this', h', cs.
      split_and!; [done|done|done|simpl; lia|done| |].
      * intros a Ha. left. rewrite fmap_cons. by apply list_elem_of_further.
      * apply outside_after_release with t.1; [done| |].
        -- apply dl_pop_front_nodes with this this'; [|by rewrite Hsize; simpl; lia|done].
           by rewrite (DoublyLinkedList.rep_head _ _ _ HR).
        -- intros a. rewrite fmap_cons. intros [?|?]%elem_of_cons; [by left|by right].
  - rewrite length_fmap. destruct (decide (N.to_nat index ≤ length cs)%nat) as [Hin|Hout].
    + destruct (DoublyLinkedListFacts.dl_insert_spec _ _ _ (N.to_nat index) v HR Hin Hroom)
        as (a & this' & h' & Hrun & Ha & HR' & Hkept).
      rewrite N2Nat.id in Hrun.
      exists this', h', (take (N.to_nat index) cs ++ (a, v) :: drop (N.to_nat index) cs).
      assert (∀ b, b ∈ (take (N.to_nat index) cs
                         ++ (a, v) :: drop (N.to_nat index) cs).*1
                   ↔ b ∈ cs.*1 ∨ b = a) as Hnodes.
      { intros b. rewrite <- (take_drop (N.to_nat index) cs) at 3.
        rewrite !fmap_app, fmap_cons, !elem_of_app, elem_of_cons. simpl. tauto. }
      split_and!; [done|done| | |done| |].
      * by rewrite fmap_app, fmap_cons, fmap_take, fmap_drop.
      * rewrite length_app. simpl. rewrite length_take, length_drop. lia.
      * intros b [?| ->]%Hnodes; [by left|by right].
      * apply outside_after_growth with a; [done| |done| |].
        -- apply dl_insert_nodes with index v this this'; [lia|done].
        -- apply elem_of_dom. apply (DoublyLinkedListFacts.dl_Rep_alloc _ _ _ (a, v) HR').
           apply elem_of_app. right. apply list_elem_of_here.
        -- intros b Hb. by apply Hnodes.
    + exists this, h, cs.
      split_and!; [apply DoublyLinkedListFacts.dl_insert_past_end; lia|done|done|lia| | |].
      * by intros a n _ Ha.
      * by left.
      * apply outside_same.
  - destruct (DoublyLinkedListFacts.dl_remove_spec _ _ _ (N.to_nat index) HR)
      as (this' & h' & Hrun & HR' & Hkept).
    rewrite N2Nat.id in Hrun.
    exists this', h', (base.delete (N.to_nat index) cs).
    split_and!; [done|done| | |done| |].
    + by rewrite list_fmap_delete.
    + pose proof (sublist_length _ _ (sublist_delete cs (N.to_nat index))). lia.
    + intros a [c [-> Hc]]%list_elem_of_fmap. left.
      apply list_elem_of_fmap. exists c. split; [done|].
      apply (elem_of_sublist _ _ _ Hc), sublist_delete.
    + destruct (cs !! N.to_nat index) as [c|] eqn:Hc.
      * apply outside_after_release with c.1; [done| |].
        -- apply dl_remove_nodes with this cs (N.to_nat index) this'; [done..|].
           by rewrite N2Nat.id.
        -- intros a Ha. rewrite list_fmap_delete.
           assert (cs.*1 !! N.to_nat index = Some c.1) as Hc1
             by (by rewrite list_lookup_fmap, Hc).
           rewrite (delete_Permutation _ _ _ Hc1) in Ha.
           by apply elem_of_cons in Ha.
      * apply lookup_ge_None in Hc.
        assert (DoublyLinkedList.remove index this h = Ok (this, h)) as Hnop
          by (apply DoublyLinkedListFacts.dl_remove_past_end; lia).
        rewrite Hnop in Hrun. injection Hrun as <- <-.
        rewrite delete_take_drop, take_ge, drop_ge, app_nil_r by lia.
        apply outside_same.
  - destruct (dl_clear_releases _ _ _ HR) as (h' & Hrun & _ & Hh').
    exists DoublyLinkedList.default_ctor, h', [].
    split_and!; [done|apply DoublyLinkedListFacts.dl_Rep_nil|done|simpl; lia| | |].
    + intros a n Ha Han. by rewrite Hh', decide_False.
    + by intros a Ha%elem_of_nil.
    + intros a _. apply Hh'.
Qed.

Lemma sl_perform_spec {T} (c : LinkedList.call T) (this : LinkedList.object)
    (h : gmap loc (LinkedList.Node T)) cs :
  LinkedList.Rep this h cs → N.of_nat (length cs) < SIZE_MAX →
  ∃ this' h' cs',
    LinkedList.perform c this h = Ok (this', h') ∧ LinkedList.Rep this' h' cs'
    ∧ cs'.*2 = LinkedList.effect cs.*2 c
    ∧ (length cs' ≤ S (length cs))%nat
    ∧ LinkedList.others_kept cs h h'
    ∧ (∀ a, a ∈ cs'.*1 → a ∈ cs.*1 ∨ h !! a = None)
    ∧ outside_unchanged cs cs' h h'.
Proof.
  intros HR Hroom. pose proof (LinkedList.rep_size _ _ _ HR) as Hsize.
  destruct c as [v|v| | |index v|index|]; simpl.
  - destruct (LinkedListFacts.sl_push_back_spec _ _ _ v HR Hroom)
      as (a & this' & h' & Hrun & Ha & HR' & Hkept).
    exists this', h', (cs ++ [(a, v)]).
    split_and!; [done|done|by rewrite fmap_app|rewrite length_app; simpl; lia|done| |].
    + intros b. rewrite fmap_app. intros [Hb|Hb%list_elem_of_singleton]%elem_of_app;
        [by left|right; by subst].
    + apply outside_after_growth with a; [done|by eapply sl_push_back_nodes|done| |].
      * apply elem_of_dom. apply (LinkedListFacts.sl_Rep_alloc _ _ _ (a, v) HR').
        apply elem_of_app. right. apply list_elem_of_here.
      * intros b Hb. rewrite fmap_app. apply elem_of_app.
        destruct Hb as [?| ->]; [by left|right; apply list_elem_of_here].
  - destruct (LinkedListFacts.sl_push_front_spec _ _ _ v HR Hroom)
      as (a & this' & h' & Hrun & Ha & HR' & Hkept).
    exists this', h', ((a, v) :: cs).
    split_and!; [done|done|done|simpl; lia|done| |].
    + intros b. rewrite fmap_cons. intros [->|Hb]%elem_of_cons; [by right|by left].
    + apply outside_after_growth with a; [done|by eapply sl_push_front_nodes|done| |].
      * apply elem_of_dom. apply (LinkedListFacts.sl_Rep_alloc _ _ _ (a, v) HR').
        apply list_elem_of_here.
      * intros b Hb. rewrite fmap_cons. apply elem_of_cons.
        destruct Hb as [?| ->]; [by right|by left].
  - destruct (exists_last_or_nil cs) as [->|(l & t & ->)].
    + exists this, h, [].
      split_and!; [by apply LinkedListFacts.sl_pop_back_empty|done|done|simpl; lia| | |].
      * by intros a n _ Ha.
      * by intros a Ha%elem_of_nil.
      * apply outside_same.
    + destruct (LinkedListFacts.sl_pop_back_snoc _ _ _ _ HR) as (this' & h' & Hrun & HR' & Hkept).
      exists this', h', l.
      split_and!; [done|done| |rewrite length_app; simpl; lia|done| |].
      * rewrite fmap_app, length_app. simpl.
        replace (length l.*2 + 1 - 1)%nat with (length l.*2) by lia.
        by rewrite take_app_length.
      * intros a Ha. left. rewrite fmap_app. apply elem_of_app. by left.
      * apply outside_after_release with t.1; [done| |].
        -- by apply sl_pop_back_nodes with this l this'.
        -- intros a. rewrite fmap_app.
           intros [?|?%list_elem_of_singleton]%elem_of_app; [by right|by left].
  - destruct cs as [|t cs].
    + exists this, h, [].
      split_and!; [by apply LinkedListFacts.sl_pop_front_empty|done|done|simpl; lia| | |].
      * by intros a n _ Ha.
      * by intros a Ha%elem_of_nil.
      * apply outside_same.
    + destruct (LinkedListFacts.sl_pop_front_cons _ _ _ _ HR) as (this' & h' & Hrun & HR' & Hkept).
      exists this', h', cs.
      split_and!; [done|done|done|simpl; lia|done| |].
      * intros a Ha. left. rewrite fmap_cons. by apply list_elem_of_further.
      * apply outside_after_release with t.1; [done| |].
        -- apply sl_pop_front_nodes with this this'; [|by rewrite Hsize; simpl; lia|done].
           by rewrite (LinkedList.rep_head _ _ _ HR).
        -- intros a. rewrite fmap_cons. intros [?|?]%elem_of_cons; [by left|by right].
  - rewrite length_fmap. destruct (decide (N.to_nat index ≤ length cs)%nat) as [Hin|Hout].
    + destruct (LinkedListFacts.sl_insert_spec _ _ _ (N.to_nat index) v HR Hin Hroom)
        as (a & this' & h' & Hrun & Ha & HR' & Hkept).
      rewrite N2Nat.id in Hrun.
      exists this', h', (take (N.to_nat index) cs ++ (a, v) :: drop (N.to_nat index) cs).
      assert (∀ b, b ∈ (take (N.to_nat index) cs
                         ++ (a, v) :: drop (N.to_nat index) cs).*1
                   ↔ b ∈ cs.*1 ∨ b = a) as Hnodes.
      { intros b. rewrite <- (take_drop (N.to_nat index) cs) at 3.
        rewrite !fmap_app, fmap_cons, !elem_of_app, elem_of_cons. simpl. tauto. }
      split_and!; [done|done| | |done| |].
      * by rewrite fmap_app, fmap_cons, fmap_take, fmap_drop.
      * rewrite length_app. simpl. rewrite length_take, length_drop. lia.
      * intros b [?| ->]%Hnodes; [by left|by right].
      * apply outside_after_growth with a; [done| |done| |].
        -- apply sl_insert_nodes with index v this this'; [lia|done].
        -- apply elem_of_dom. apply (LinkedListFacts.sl_Rep_alloc _ _ _ (a, v) HR').
           apply elem_of_app. right. apply list_elem_of_here.
        -- intros b Hb. by apply Hnodes.
    + exists this, h, cs.
      split_and!; [apply LinkedListFacts.sl_insert_past_end; lia|done|done|lia| | |].
      * by intros a n _ Ha.
      * by left.
      * apply outside_same.
  - destruct (LinkedListFacts.sl_remove_spec _ _ _ (N.to_nat index) HR)
      as (this' & h' & Hrun & HR' & Hkept).
    rewrite N2Nat.id in Hrun.
    exists this', h', (base.delete (N.to_nat index) cs).
    split_and!; [done|done| | |done| |].
    + by rewrite list_fmap_delete.
    + pose proof (sublist_length _ _ (sublist_delete cs (N.to_nat index))). lia.
    + intros a [c [-> Hc]]%list_elem_of_fmap. left.
      apply list_elem_of_fmap. exists c. split; [done|].
      apply (elem_of_sublist _ _ _ Hc), sublist_delete.
    + destruct (cs !! N.to_nat index) as [c|] eqn:Hc.
      * apply outside_after_release with c.1; [done| |].
        -- apply sl_remove_nodes with this cs (N.to_nat index) this'; [done..|].
           by rewrite N2Nat.id.
        -- intros a Ha. rewrite list_fmap_delete.
           assert (cs.*1 !! N.to_nat index = Some c.1) as Hc1
             by (by rewrite list_lookup_fmap, Hc).
           rewrite (delete_Permutation _ _ _ Hc1) in Ha.
           by apply elem_of_cons in Ha.
      * apply lookup_ge_None in Hc.
        assert (LinkedList.remove index this h = Ok (this, h)) as Hnop
          by (apply LinkedListFacts.sl_remove_past_end; lia).
        rewrite Hnop in Hrun. injection Hrun as <- <-.
        rewrite delete_take_drop, take_ge, drop_ge, app_nil_r by lia.
        apply outside_same.
  - destruct (sl_clear_releases _ _ _ HR) as (h' & Hrun & _ & Hh').
    exists LinkedList.default_ctor, h', [].
    split_and!; [done|apply LinkedListFacts.sl_Rep_nil|done|simpl; lia| | |].
    + intros a n Ha Han. by rewrite Hh', decide_False.
    + by intros a Ha%elem_of_nil.
    + intros a _. apply Hh'.
Qed.

Lemma dl_perform_all_spec {T} (calls : list (DoublyLinkedList.call T)) :
  ∀ (this : DoublyLinkedList.object) (h : gmap loc (DoublyLinkedList.Node T)) cs,
    DoublyLinkedList.Rep this h cs → N.of_nat (length cs + length calls) ≤ SIZE_MAX →
    ∃ this' h' cs',
      DoublyLinkedList.perform_all calls this h = Ok (this', h') ∧ DoublyLinkedList.Rep this' h' cs'
      ∧ cs'.*2 = foldl DoublyLinkedList.effect cs.*2 calls
      ∧ DoublyLinkedList.others_kept cs h h'
      ∧ (∀ a, a ∈ cs'.*1 → a ∈ cs.*1 ∨ h !! a = None)
      ∧ outside_unchanged cs cs' h h'.
Proof.
  induction calls as [|c calls IH]; intros this h cs HR Hroom.
  - exists this, h, cs. split_and!; [done|done|done| |by left|apply outside_same].
    by intros a n _ Ha.
  - simpl in Hroom.
    destruct (dl_perform_spec c this h cs HR)
      as (this1 & h1 & cs1 & Hrun1 & HR1 & Hseq1 & Hlen1 & Hkept1 & Hfrom1 & Hout1);
      [lia|].
    destruct (IH this1 h1 cs1 HR1)
      as (this' & h' & cs' & Hrun & HR' & Hseq & Hkept & Hfrom & Hout); [lia|].
    exists this', h', cs'. split_and!; [|done| | | |].
    + simpl. by rewrite (bind_Ok _ _ _ _ _ Hrun1).
    + simpl. by rewrite <- Hseq1.
    + intros a n Ha Han. apply Hkept; [|by apply Hkept1].
      intros Hin. destruct (Hfrom1 a Hin) as [?|Hnone]; [done|congruence].
    + intros a Ha. destruct (Hfrom a Ha) as [Hin|Hnone]; [by apply Hfrom1|].
      destruct (decide (a ∈ cs.*1)) as [?|Hout']; [by left|right].
      destruct (h !! a) as [n|] eqn:Han; [|done].
      rewrite (Hkept1 a n Hout' Han) in Hnone. done.
    + by apply outside_trans with cs1 h1.
Qed.

Lemma sl_perform_all_spec {T} (calls : list (LinkedList.call T)) :
  ∀ (this : LinkedList.object) (h : gmap loc (LinkedList.Node T)) cs,
    LinkedList.Rep this h cs → N.of_nat (length cs + length calls) ≤ SIZE_MAX →
    ∃ this' h' cs',
      LinkedList.perform_all calls this h = Ok (this', h') ∧ LinkedList.Rep this' h' cs'
      ∧ cs'.*2 = foldl LinkedList.effect cs.*2 calls
      ∧ LinkedList.others_kept cs h h'
      ∧ (∀ a, a ∈ cs'.*1 → a ∈ cs.*1 ∨ h !! a = None)
      ∧ outside_unchanged cs cs' h h'.
Proof.
  induction calls as [|c calls IH]; intros this h cs HR Hroom.
  - exists this, h, cs. split_and!; [done|done|done| |by left|apply outside_same].
    by intros a n _ Ha.
  - simpl in Hroom.
    destruct (sl_perform_spec c this h cs HR)
      as (this1 & h1 & cs1 & Hrun1 & HR1 & Hseq1 & Hlen1 & Hkept1 & Hfrom1 & Hout1);
      [lia|].
    destruct (IH this1 h1 cs1 HR1)
      as (this' & h' & cs' & Hrun & HR' & Hseq & Hkept & Hfrom & Hout); [lia|].
    exists this', h', cs'. split_and!; [|done| | | |].
    + simpl. by rewrite (bind_Ok _ _ _ _ _ Hrun1).
    + simpl. by rewrite <- Hseq1.
    + intros a n Ha Han. apply Hkept; [|by apply Hkept1].
      intros Hin. destruct (Hfrom1 a Hin) as [?|Hnone]; [done|congruence].
    + intros a Ha. destruct (Hfrom a Ha) as [Hin|Hnone]; [by apply Hfrom1|].
      destruct (decide (a ∈ cs.*1)) as [?|Hout']; [by left|right].
      destruct (h !! a) as [n|] eqn:Han; [|done].
      rewrite (Hkept1 a n Hout' Han) in Hnone. done.
    + by apply outside_trans with cs1 h1.
Qed.

(** X17.  The modifiers implement the operations of a sequence.  On a
    well-formed container of either kind, any series of calls to
    [push_back], [push_front], [pop_back], [pop_front], [insert],
    [remove] and [clear] that cannot take the size past [SIZE_MAX] ends
    normally on a well-formed container; the sequence it holds is the one
    obtained by applying call after call to the sequence held at the
    start: append, prepend, drop the last, drop the first, insert at the
    index when it is at most the length, delete at the index, empty.
    The nodes of the result are nodes of the start or nodes that were not
    in use, and no node outside the container is changed. *)
Theorem modifiers_implement_sequence_operations :
  (∀ T (calls : list (DoublyLinkedList.call T)) (this : DoublyLinkedList.object) (h : gmap loc (DoublyLinkedList.Node T)) cs,
     DoublyLinkedList.Rep this h cs → N.of_nat (length cs + length calls) ≤ SIZE_MAX →
     ∃ this' h' cs',
       DoublyLinkedList.perform_all calls this h = Ok (this', h') ∧ DoublyLinkedList.Rep this' h' cs'
       ∧ cs'.*2 = foldl DoublyLinkedList.effect cs.*2 calls
       ∧ DoublyLinkedList.others_kept cs h h'
       ∧ (∀ a, a ∈ cs'.*1 → a ∈ cs.*1 ∨ h !! a = None))
  ∧ (∀ T (calls : list (LinkedList.call T)) (this : LinkedList.object) (h : gmap loc (LinkedList.Node T)) cs,
       LinkedList.Rep this h cs → N.of_nat (length cs + length calls) ≤ SIZE_MAX →
       ∃ this' h' cs',
         LinkedList.perform_all calls this h = Ok (this', h') ∧ LinkedList.Rep this' h' cs'
         ∧ cs'.*2 = foldl LinkedList.effect cs.*2 calls
         ∧ LinkedList.others_kept cs h h'
         ∧ (∀ a, a ∈ cs'.*1 → a ∈ cs.*1 ∨ h !! a = None)).
Proof.
  split; intros T calls this h cs HR Hroom.
  - destruct (dl_perform_all_spec calls this h cs HR Hroom)
      as (this' & h' & cs' & Hrun & HR' & Hseq & Hkept & Hfrom & _).
    by exists this', h', cs'.
  - destruct (sl_perform_all_spec calls this h cs HR Hroom)
      as (this' & h' & cs' & Hrun & HR' & Hseq & Hkept & Hfrom & _).
    by exists this', h', cs'.
Qed.

Lemma modifiers_implement_sequence_operations_witness :
  (DoublyLinkedList.Rep dl_list dl_heap sample_cells
   ∧ N.of_nat (length sample_cells + 4) ≤ SIZE_MAX
   ∧ ∃ this' h' cs',
       DoublyLinkedList.perform_all [DoublyLinkedList.PushBack 40%nat; DoublyLinkedList.Remove 0; DoublyLinkedList.Insert 1 5%nat; DoublyLinkedList.PopBack]
         dl_list dl_heap = Ok (this', h')
       ∧ DoublyLinkedList.Rep this' h' cs' ∧ cs'.*2 = [20; 5; 30]%nat)
  ∧ (LinkedList.Rep sl_list sl_heap sample_cells
     ∧ N.of_nat (length sample_cells + 4) ≤ SIZE_MAX
     ∧ ∃ this' h' cs',
         LinkedList.perform_all [LinkedList.PushBack 40%nat; LinkedList.Remove 0; LinkedList.Insert 1 5%nat; LinkedList.PopBack]
           sl_list sl_heap = Ok (this', h')
         ∧ LinkedList.Rep this' h' cs' ∧ cs'.*2 = [20; 5; 30]%nat).
Proof.
  split.
  - split; [apply dl_sample_Rep|]. split; [by vm_compute|].
    destruct (proj1 modifiers_implement_sequence_operations nat
                [DoublyLinkedList.PushBack 40%nat; DoublyLinkedList.Remove 0; DoublyLinkedList.Insert 1 5%nat; DoublyLinkedList.PopBack]
                dl_list dl_heap sample_cells dl_sample_Rep)
      as (this' & h' & cs' & Hrun & HR' & Hseq & _); [by vm_compute|].
    by exists this', h', cs'.
  - split; [apply sl_sample_Rep|]. split; [by vm_compute|].
    destruct (proj2 modifiers_implement_sequence_operations nat
                [LinkedList.PushBack 40%nat; LinkedList.Remove 0; LinkedList.Insert 1 5%nat; LinkedList.PopBack]
                sl_list sl_heap sample_cells sl_sample_Rep)
      as (this' & h' & cs' & Hrun & HR' & Hseq & _); [by vm_compute|].
    by exists this', h', cs'.
Defined.

(** X18.  Two well-formed containers of one kind that share no node do
    not interfere: whatever series of modifier calls (within [SIZE_MAX])
    is made on one of them, the other is still well-formed on the same
    nodes with the same elements, and the two still share no node.  This
    holds in particular for a container and the copy the copy constructor
    made of it. *)
Theorem separate_containers_do_not_interfere :
  (∀ T (calls : list (DoublyLinkedList.call T)) (this other : DoublyLinkedList.object)
     (h : gmap loc (DoublyLinkedList.Node T)) cs1 cs2,
     DoublyLinkedList.Rep this h cs1 → DoublyLinkedList.Rep other h cs2 → cs1.*1 ## cs2.*1 →
     N.of_nat (length cs1 + length calls) ≤ SIZE_MAX →
     ∃ this' h' cs',
       DoublyLinkedList.perform_all calls this h = Ok (this', h') ∧ DoublyLinkedList.Rep this' h' cs'
       ∧ DoublyLinkedList.Rep other h' cs2 ∧ cs'.*1 ## cs2.*1)
  ∧ (∀ T (calls : list (LinkedList.call T)) (this other : LinkedList.object)
       (h : gmap loc (LinkedList.Node T)) cs1 cs2,
       LinkedList.Rep this h cs1 → LinkedList.Rep other h cs2 → cs1.*1 ## cs2.*1 →
       N.of_nat (length cs1 + length calls) ≤ SIZE_MAX →
       ∃ this' h' cs',
         LinkedList.perform_all calls this h = Ok (this', h') ∧ LinkedList.Rep this' h' cs'
         ∧ LinkedList.Rep other h' cs2 ∧ cs'.*1 ## cs2.*1).
Proof.
  split; intros T calls this other h cs1 cs2 HR1 HR2 Hdisj Hroom.
  - destruct (dl_perform_all_spec calls this h cs1 HR1 Hroom)
      as (this' & h' & cs' & Hrun & HR' & _ & Hkept & Hfrom & _).
    exists this', h', cs'. split_and!; [done|done| |].
    + apply DoublyLinkedListFacts.dl_Rep_frame with h; [|done]. intros c Hc.
      destruct (DoublyLinkedListFacts.dl_Rep_alloc _ _ _ _ HR2 Hc) as [n Hn]. rewrite Hn.
      apply Hkept; [|done]. intros Hin. apply (Hdisj c.1); [done|].
      apply list_elem_of_fmap. eauto.
    + intros a Ha [c [-> Hc]]%list_elem_of_fmap.
      destruct (Hfrom _ Ha) as [Hin|Hnone].
      * apply (Hdisj c.1); [done|]. apply list_elem_of_fmap. eauto.
      * destruct (DoublyLinkedListFacts.dl_Rep_alloc _ _ _ _ HR2 Hc) as [n Hn]. congruence.
  - destruct (sl_perform_all_spec calls this h cs1 HR1 Hroom)
      as (this' & h' & cs' & Hrun & HR' & _ & Hkept & Hfrom & _).
    exists this', h', cs'. split_and!; [done|done| |].
    + apply LinkedListFacts.sl_Rep_frame with h; [|done]. intros c Hc.
      destruct (LinkedListFacts.sl_Rep_alloc _ _ _ _ HR2 Hc) as [n Hn]. rewrite Hn.
      apply Hkept; [|done]. intros Hin. apply (Hdisj c.1); [done|].
      apply list_elem_of_fmap. eauto.
    + intros a Ha [c [-> Hc]]%list_elem_of_fmap.
      destruct (Hfrom _ Ha) as [Hin|Hnone].
      * apply (Hdisj c.1); [done|]. apply list_elem_of_fmap. eauto.
      * destruct (LinkedListFacts.sl_Rep_alloc _ _ _ _ HR2 Hc) as [n Hn]. congruence.
Qed.

Lemma separate_containers_do_not_interfere_witness :
  (DoublyLinkedList.Rep DoublyLinkedList.default_ctor dl_heap [] ∧ DoublyLinkedList.Rep dl_list dl_heap sample_cells
   ∧ N.of_nat (0 + 2) ≤ SIZE_MAX
   ∧ ∃ this' h' cs',
       DoublyLinkedList.perform_all [DoublyLinkedList.PushBack 7%nat; DoublyLinkedList.PushFront 8%nat]
         DoublyLinkedList.default_ctor dl_heap = Ok (this', h')
       ∧ DoublyLinkedList.Rep this' h' cs' ∧ DoublyLinkedList.Rep dl_list h' sample_cells)
  ∧ (LinkedList.Rep LinkedList.default_ctor sl_heap [] ∧ LinkedList.Rep sl_list sl_heap sample_cells
     ∧ N.of_nat (0 + 2) ≤ SIZE_MAX
     ∧ ∃ this' h' cs',
         LinkedList.perform_all [LinkedList.PushBack 7%nat; LinkedList.PushFront 8%nat]
           LinkedList.default_ctor sl_heap = Ok (this', h')
         ∧ LinkedList.Rep this' h' cs' ∧ LinkedList.Rep sl_list h' sample_cells).
Proof.
  split.
  - split; [apply DoublyLinkedListFacts.dl_Rep_nil|]. split; [apply dl_sample_Rep|].
    split; [by vm_compute|].
    destruct (proj1 separate_containers_do_not_interfere nat
                [DoublyLinkedList.PushBack 7%nat; DoublyLinkedList.PushFront 8%nat] DoublyLinkedList.default_ctor dl_list
                dl_heap [] sample_cells (DoublyLinkedListFacts.dl_Rep_nil _) dl_sample_Rep)
      as (this' & h' & cs' & Hrun & HR' & HRo & _).
    { intros a Ha. by apply not_elem_of_nil in Ha. }
    { by vm_compute. }
    by exists this', h', cs'.
  - split; [apply LinkedListFacts.sl_Rep_nil|]. split; [apply sl_sample_Rep|].
    split; [by vm_compute|].
    destruct (proj2 separate_containers_do_not_interfere nat
                [LinkedList.PushBack 7%nat; LinkedList.PushFront 8%nat] LinkedList.default_ctor sl_list
                sl_heap [] sample_cells (LinkedListFacts.sl_Rep_nil _) sl_sample_Rep)
      as (this' & h' & cs' & Hrun & HR' & HRo & _).
    { intros a Ha. by apply not_elem_of_nil in Ha. }
    { by vm_compute. }
    by exists this', h', cs'.
Defined.

(** X19.  The modifiers neither leak nor touch a node that is not theirs.
    After any series of modifier calls (within [SIZE_MAX]) on a
    well-formed container, an address outside the resulting container is
    in use exactly when it was in use outside the container before, with
    the same contents: a node that left the container has been released
    and nothing else has been allocated or released.  The destructor then
    releases the rest: the heap is the initial heap without the nodes the
    container had at the start, so a container that started empty leaves
    the heap exactly as it found it. *)
Theorem modifiers_do_not_leak :
  (∀ T (calls : list (DoublyLinkedList.call T)) (this : DoublyLinkedList.object) (h : gmap loc (DoublyLinkedList.Node T)) cs,
     DoublyLinkedList.Rep this h cs → N.of_nat (length cs + length calls) ≤ SIZE_MAX →
     ∃ this' h' cs' h'',
       DoublyLinkedList.perform_all calls this h = Ok (this', h') ∧ DoublyLinkedList.Rep this' h' cs'
       ∧ outside_unchanged cs cs' h h'
       ∧ DoublyLinkedList.dtor this' h' = Ok (tt, h'')
       ∧ (∀ a, h'' !! a = if decide (a ∈ cs.*1) then None else h !! a)
       ∧ (cs = [] → h'' = h))
  ∧ (∀ T (calls : list (LinkedList.call T)) (this : LinkedList.object) (h : gmap loc (LinkedList.Node T)) cs,
       LinkedList.Rep this h cs → N.of_nat (length cs + length calls) ≤ SIZE_MAX →
       ∃ this' h' cs' h'',
         LinkedList.perform_all calls this h = Ok (this', h') ∧ LinkedList.Rep this' h' cs'
         ∧ outside_unchanged cs cs' h h'
         ∧ LinkedList.dtor this' h' = Ok (tt, h'')
         ∧ (∀ a, h'' !! a = if decide (a ∈ cs.*1) then None else h !! a)
         ∧ (cs = [] → h'' = h)).
Proof.
  split; intros T calls this h cs HR Hroom.
  - destruct (dl_perform_all_spec calls this h cs HR Hroom)
      as (this' & h' & cs' & Hrun & HR' & _ & _ & Hfrom & Hout).
    destruct (dl_clear_releases _ _ _ HR') as (h'' & _ & Hdtor & Hh'').
    assert (∀ a, h'' !! a = if decide (a ∈ cs.*1) then None else h !! a) as Hend.
    { intros a. rewrite Hh''. destruct (decide (a ∈ cs'.*1)) as [Hin|Hnot].
      - destruct (Hfrom a Hin) as [?|Hnone]; [by rewrite decide_True|].
        rewrite Hnone. by destruct (decide _).
      - by apply Hout. }
    exists this', h', cs', h''. split_and!; [done..|].
    intros ->. apply map_eq. intros a. rewrite Hend. apply decide_False, not_elem_of_nil.
  - destruct (sl_perform_all_spec calls this h cs HR Hroom)
      as (this' & h' & cs' & Hrun & HR' & _ & _ & Hfrom & Hout).
    destruct (sl_clear_releases _ _ _ HR') as (h'' & _ & Hdtor & Hh'').
    assert (∀ a, h'' !! a = if decide (a ∈ cs.*1) then None else h !! a) as Hend.
    { intros a. rewrite Hh''. destruct (decide (a ∈ cs'.*1)) as [Hin|Hnot].
      - destruct (Hfrom a Hin) as [?|Hnone]; [by rewrite decide_True|].
        rewrite Hnone. by destruct (decide _).
      - by apply Hout. }
    exists this', h', cs', h''. split_and!; [done..|].
    intros ->. apply map_eq. intros a. rewrite Hend. apply decide_False, not_elem_of_nil.
Qed.

Lemma modifiers_do_not_leak_witness :
  (DoublyLinkedList.Rep DoublyLinkedList.default_ctor dl_heap [] ∧ N.of_nat (0 + 3) ≤ SIZE_MAX
   ∧ (let* this' := DoublyLinkedList.perform_all [DoublyLinkedList.PushBack 7%nat; DoublyLinkedList.Insert 0 8%nat; DoublyLinkedList.PopBack]
                      DoublyLinkedList.default_ctor in
      DoublyLinkedList.dtor this') dl_heap = Ok (tt, dl_heap))
  ∧ (LinkedList.Rep LinkedList.default_ctor sl_heap [] ∧ N.of_nat (0 + 3) ≤ SIZE_MAX
     ∧ (let* this' := LinkedList.perform_all [LinkedList.PushBack 7%nat; LinkedList.Insert 0 8%nat; LinkedList.PopBack]
                        LinkedList.default_ctor in
        LinkedList.dtor this') sl_heap = Ok (tt, sl_heap)).
Proof.
  split.
  - split; [apply DoublyLinkedListFacts.dl_Rep_nil|]. split; [by vm_compute|].
    destruct (proj1 modifiers_do_not_leak nat
                [DoublyLinkedList.PushBack 7%nat; DoublyLinkedList.Insert 0 8%nat; DoublyLinkedList.PopBack]
                DoublyLinkedList.default_ctor dl_heap [] (DoublyLinkedListFacts.dl_Rep_nil _))
      as (this' & h' & cs' & h'' & Hrun & _ & _ & Hdtor & _ & Hsame);
      [by vm_compute|].
    rewrite (bind_Ok _ _ _ _ _ Hrun), Hdtor. by rewrite Hsame.
  - split; [apply LinkedListFacts.sl_Rep_nil|]. split; [by vm_compute|].
    destruct (proj2 modifiers_do_not_leak nat
                [LinkedList.PushBack 7%nat; LinkedList.Insert 0 8%nat; LinkedList.PopBack]
                LinkedList.default_ctor sl_heap [] (LinkedListFacts.sl_Rep_nil _))
      as (this' & h' & cs' & h'' & Hrun & _ & _ & Hdtor & _ & Hsame);
      [by vm_compute|].
    rewrite (bind_Ok _ _ _ _ _ Hrun), Hdtor. by rewrite Hsame.
Defined.

Lemma outside_after_allocation {Node T} (cs' : list (loc * T)) (h h' : gmap loc Node) :
  (∀ a n, h !! a = Some n → h' !! a = Some n) →
  (∀ a, is_Some (h' !! a) → is_Some (h !! a) ∨ a ∈ cs'.*1) →
  ∀ a, a ∉ cs'.*1 → h' !! a = h !! a.
Proof.
  intros Hkept Halloc a Ha. destruct (h !! a) as [n|] eqn:Han; [by apply Hkept|].
  destruct (h' !! a) as [n'|] eqn:Han'; [|done].
  destruct (Halloc a) as [[? ?]|?]; [by eexists|congruence|done].
Qed.

(** X20.  What the constructors and copy assignment allocate.  The copy
    constructor and the constructor from an initializer list end on a
    container whose nodes were not in use, and every address outside that
    container is exactly as before: nothing but the nodes of the result
    is allocated.  After copy assignment between two well-formed containers
    that share no node, an address outside the new target is in use
    exactly when it was in use outside the old target, with the same
    contents: the old nodes of the target have been released. *)
Theorem copies_allocate_exactly_their_nodes :
  (∀ T (this other : DoublyLinkedList.object) (h : gmap loc (DoublyLinkedList.Node T)) cs1 cs2 init_list,
     DoublyLinkedList.Rep this h cs1 → DoublyLinkedList.Rep other h cs2 → cs1.*1 ## cs2.*1 →
     N.of_nat (length init_list) ≤ SIZE_MAX →
     (∃ this' h' cs',
        DoublyLinkedList.copy_ctor other h = Ok (this', h') ∧ DoublyLinkedList.Rep this' h' cs'
        ∧ cs'.*2 = cs2.*2 ∧ ∀ a, a ∉ cs'.*1 → h' !! a = h !! a)
     ∧ (∃ this' h' cs',
          DoublyLinkedList.init_ctor init_list h = Ok (this', h') ∧ DoublyLinkedList.Rep this' h' cs'
          ∧ cs'.*2 = init_list ∧ ∀ a, a ∉ cs'.*1 → h' !! a = h !! a)
     ∧ (∃ this' h' cs',
          DoublyLinkedList.copy_assign false other this h = Ok (this', h') ∧ DoublyLinkedList.Rep this' h' cs'
          ∧ cs'.*2 = cs2.*2 ∧ outside_unchanged cs1 cs' h h'))
  ∧ (∀ T (this other : LinkedList.object) (h : gmap loc (LinkedList.Node T)) cs1 cs2 init_list,
       LinkedList.Rep this h cs1 → LinkedList.Rep other h cs2 → cs1.*1 ## cs2.*1 →
       N.of_nat (length init_list) ≤ SIZE_MAX →
       (∃ this' h' cs',
          LinkedList.copy_ctor other h = Ok (this', h') ∧ LinkedList.Rep this' h' cs'
          ∧ cs'.*2 = cs2.*2 ∧ ∀ a, a ∉ cs'.*1 → h' !! a = h !! a)
       ∧ (∃ this' h' cs',
            LinkedList.init_ctor init_list h = Ok (this', h') ∧ LinkedList.Rep this' h' cs'
            ∧ cs'.*2 = init_list ∧ ∀ a, a ∉ cs'.*1 → h' !! a = h !! a)
       ∧ (∃ this' h' cs',
            LinkedList.copy_assign false other this h = Ok (this', h') ∧ LinkedList.Rep this' h' cs'
            ∧ cs'.*2 = cs2.*2 ∧ outside_unchanged cs1 cs' h h')).
Proof.
  split; intros T this other h cs1 cs2 init_list HR1 HR2 Hdisj Hlen.
  - split_and!.
    + destruct (DoublyLinkedListFacts.dl_copy_nodes_exact _ _ _ HR2)
        as (this' & h' & cs' & Hrun & HR' & Hvals & _ & Hkept & Halloc).
      exists this', h', cs'. split_and!; [done..|].
      by apply outside_after_allocation.
    + destruct (DoublyLinkedListFacts.dl_init_ctor_exact init_list h Hlen)
        as (this' & h' & cs' & Hrun & HR' & Hvals & _ & Hkept & Halloc).
      exists this', h', cs'. split_and!; [done..|].
      by apply outside_after_allocation.
    + destruct (dl_clear_releases _ _ _ HR1) as (h1 & Hclear & _ & Hh1).
      assert (DoublyLinkedList.Rep other h1 cs2) as HR2'.
      { apply DoublyLinkedListFacts.dl_Rep_frame with h; [|done]. intros c Hc. rewrite Hh1.
        rewrite decide_False; [done|]. intros Hin. apply (Hdisj c.1); [done|].
        apply list_elem_of_fmap. eauto. }
      destruct (DoublyLinkedListFacts.dl_copy_nodes_exact _ _ _ HR2')
        as (this' & h' & cs' & Hrun & HR' & Hvals & _ & Hkept & Halloc).
      exists this', h', cs'. split_and!; [|done..|].
      * unfold DoublyLinkedList.copy_assign. rewrite (bind_Ok _ _ _ _ _ Hclear). simpl.
        destruct (DoublyLinkedList.size_ other =? 0) eqn:Hz; [|done].
        unfold DoublyLinkedList.copy_nodes in Hrun. by rewrite Hz in Hrun.
      * intros a Ha. rewrite (outside_after_allocation cs' h1 h' Hkept Halloc a Ha).
        apply Hh1.
  - split_and!.
    + destruct (LinkedListFacts.sl_copy_nodes_exact _ _ _ HR2)
        as (this' & h' & cs' & Hrun & HR' & Hvals & _ & Hkept & Halloc).
      exists this', h', cs'. split_and!; [done..|].
      by apply outside_after_allocation.
    + destruct (LinkedListFacts.sl_init_ctor_exact init_list h Hlen)
        as (this' & h' & cs' & Hrun & HR' & Hvals & _ & Hkept & Halloc).
      exists this', h', cs'. split_and!; [done..|].
      by apply outside_after_allocation.
    + destruct (sl_clear_releases _ _ _ HR1) as (h1 & Hclear & _ & Hh1).
      assert (LinkedList.Rep other h1 cs2) as HR2'.
      { apply LinkedListFacts.sl_Rep_frame with h; [|done]. intros c Hc. rewrite Hh1.
        rewrite decide_False; [done|]. intros Hin. apply (Hdisj c.1); [done|].
        apply list_elem_of_fmap. eauto. }
      destruct (LinkedListFacts.sl_copy_nodes_exact _ _ _ HR2')
        as (this' & h' & cs' & Hrun & HR' & Hvals & _ & Hkept & Halloc).
      exists this', h', cs'. split_and!; [|done..|].
      * unfold LinkedList.copy_assign. rewrite (bind_Ok _ _ _ _ _ Hclear). simpl.
        destruct (LinkedList.size_ other =? 0) eqn:Hz; [|done].
        unfold LinkedList.copy_nodes in Hrun. by rewrite Hz in Hrun.
      * intros a Ha. rewrite (outside_after_allocation cs' h1 h' Hkept Halloc a Ha).
        apply Hh1.
Qed.

Lemma copies_allocate_exactly_their_nodes_witness :
  (DoublyLinkedList.Rep DoublyLinkedList.default_ctor dl_heap [] ∧ DoublyLinkedList.Rep dl_list dl_heap sample_cells
   ∧ N.of_nat (length [4; 5]%nat) ≤ SIZE_MAX
   ∧ ∃ this' h' cs',
       DoublyLinkedList.copy_ctor dl_list dl_heap = Ok (this', h') ∧ DoublyLinkedList.Rep this' h' cs'
       ∧ cs'.*2 = [10; 20; 30]%nat)
  ∧ (LinkedList.Rep LinkedList.default_ctor sl_heap [] ∧ LinkedList.Rep sl_list sl_heap sample_cells
     ∧ N.of_nat (length [4; 5]%nat) ≤ SIZE_MAX
     ∧ ∃ this' h' cs',
         LinkedList.copy_ctor sl_list sl_heap = Ok (this', h') ∧ LinkedList.Rep this' h' cs'
         ∧ cs'.*2 = [10; 20; 30]%nat).
Proof.
  split.
  - split; [apply DoublyLinkedListFacts.dl_Rep_nil|]. split; [apply dl_sample_Rep|].
    split; [by vm_compute|].
    destruct (proj1 copies_allocate_exactly_their_nodes nat DoublyLinkedList.default_ctor dl_list
                dl_heap [] sample_cells [4; 5]%nat (DoublyLinkedListFacts.dl_Rep_nil _) dl_sample_Rep)
      as ((this' & h' & cs' & Hrun & HR' & Hseq & _) & _).
    { intros a Ha. by apply not_elem_of_nil in Ha. }
    { by vm_compute. }
    by exists this', h', cs'.
  - split; [apply LinkedListFacts.sl_Rep_nil|]. split; [apply sl_sample_Rep|].
    split; [by vm_compute|].
    destruct (proj2 copies_allocate_exactly_their_nodes nat LinkedList.default_ctor sl_list
                sl_heap [] sample_cells [4; 5]%nat (LinkedListFacts.sl_Rep_nil _) sl_sample_Rep)
      as ((this' & h' & cs' & Hrun & HR' & Hseq & _) & _).
    { intros a Ha. by apply not_elem_of_nil in Ha. }
    { by vm_compute. }
    by exists this', h', cs'.
Defined.

(** ** The counter at [SIZE_MAX] *)

(** X21.  The element counter is a [size_t] and wraps around.  On a
    container whose counter is [SIZE_MAX] and whose end nodes are in use,
    [push_back] and [push_front] still end normally and link the new
    node: it is the node allocated, it holds the value, it is linked to
    the old end node and the old end node to it, the other end pointer is
    kept and every other node is as it was.  But the counter is left at
    0: [size()] is then 0 although the head pointer is not null, so that
    [empty()] is false.  This is why the statements about growing a
    container ask for a size below [SIZE_MAX]. *)
Theorem counter_wraps_at_SIZE_MAX :
  (∀ T (v : T) (this : DoublyLinkedList.object) (h : gmap loc (DoublyLinkedList.Node T)) a b na nb,
     DoublyLinkedList.size_ this = SIZE_MAX →
     DoublyLinkedList.head_ this = Some a → h !! a = Some na →
     DoublyLinkedList.tail_ this = Some b → h !! b = Some nb →
     let f := fresh (dom h) in
     (∃ this' h',
        DoublyLinkedList.push_back v this h = Ok (this', h')
        ∧ this' = DoublyLinkedList.mkList (DoublyLinkedList.head_ this) (Some f) 0
        ∧ h !! f = None
        ∧ h' !! f = Some (DoublyLinkedList.mkNode v None (Some b))
        ∧ h' !! b = Some (DoublyLinkedList.mkNode (DoublyLinkedList.value nb) (Some f) (DoublyLinkedList.previous nb))
        ∧ (∀ x, x ≠ f → x ≠ b → h' !! x = h !! x)
        ∧ DoublyLinkedList.size this' = 0 ∧ DoublyLinkedList.empty this' = false)
     ∧ (∃ this' h',
          DoublyLinkedList.push_front v this h = Ok (this', h')
          ∧ this' = DoublyLinkedList.mkList (Some f) (DoublyLinkedList.tail_ this) 0
          ∧ h !! f = None
          ∧ h' !! f = Some (DoublyLinkedList.mkNode v (Some a) None)
          ∧ h' !! a = Some (DoublyLinkedList.mkNode (DoublyLinkedList.value na) (DoublyLinkedList.next na) (Some f))
          ∧ (∀ x, x ≠ f → x ≠ a → h' !! x = h !! x)
          ∧ DoublyLinkedList.size this' = 0 ∧ DoublyLinkedList.empty this' = false))
  ∧ (∀ T (v : T) (this : LinkedList.object) (h : gmap loc (LinkedList.Node T)) a b na nb,
       LinkedList.size_ this = SIZE_MAX →
       LinkedList.head_ this = Some a → h !! a = Some na →
       LinkedList.tail_ this = Some b → h !! b = Some nb →
       let f := fresh (dom h) in
       (∃ this' h',
          LinkedList.push_back v this h = Ok (this', h')
          ∧ this' = LinkedList.mkList (LinkedList.head_ this) (Some f) 0
          ∧ h !! f = None
          ∧ h' !! f = Some (LinkedList.mkNode v None)
          ∧ h' !! b = Some (LinkedList.mkNode (LinkedList.value nb) (Some f))
          ∧ (∀ x, x ≠ f → x ≠ b → h' !! x = h !! x)
          ∧ LinkedList.size this' = 0 ∧ LinkedList.empty this' = false)
       ∧ (∃ this' h',
            LinkedList.push_front v this h = Ok (this', h')
            ∧ this' = LinkedList.mkList (Some f) (LinkedList.tail_ this) 0
            ∧ h !! f = None
            ∧ h' !! f = Some (LinkedList.mkNode v (Some a))
            ∧ (∀ x, x ≠ f → h' !! x = h !! x)
            ∧ LinkedList.size this' = 0 ∧ LinkedList.empty this' = false)).
Proof.
  split; intros T v this h a b na nb Hsize Hhead Ha Htail Hb f;
    pose proof (fresh_unused h) as Hf; fold f in Hf;
    assert (f ≠ a) as Hfa by congruence;
    assert (f ≠ b) as Hfb by congruence.
  - split.
    + eexists _, _. split.
      { unfold DoublyLinkedList.push_back. rewrite Hsize, Htail. do 3 dl_step.
        dl_step. reflexivity. }
      fold f. rewrite Hhead. split_and!; [done|done| | | |done|done].
      * by rewrite lookup_insert_ne, !lookup_insert_eq by done.
      * by rewrite lookup_insert_eq.
      * intros x Hxf Hxb. by rewrite !lookup_insert_ne by done.
    + eexists _, _. split.
      { unfold DoublyLinkedList.push_front. rewrite Hsize, Hhead. do 3 dl_step.
        dl_step. reflexivity. }
      fold f. rewrite Htail. split_and!; [done|done| | | |done|done].
      * by rewrite lookup_insert_ne, !lookup_insert_eq by done.
      * by rewrite lookup_insert_eq.
      * intros x Hxf Hxa. by rewrite !lookup_insert_ne by done.
  - split.
    + eexists _, _. split.
      { unfold LinkedList.push_back. rewrite Hsize, Htail. do 2 sl_step.
        sl_step. reflexivity. }
      fold f. rewrite Hhead. split_and!; [done|done| | | |done|done].
      * by rewrite lookup_insert_ne, !lookup_insert_eq by done.
      * by rewrite lookup_insert_eq.
      * intros x Hxf Hxb. by rewrite !lookup_insert_ne by done.
    + eexists _, _. split.
      { unfold LinkedList.push_front. rewrite Hsize, Hhead. do 2 sl_step. reflexivity. }
      fold f. rewrite Htail. split_and!; [done|done| | |done|done].
      * by rewrite !lookup_insert_eq.
      * intros x Hxf. by rewrite !lookup_insert_ne by done.
Qed.

Lemma counter_wraps_at_SIZE_MAX_witness :
  (DoublyLinkedList.size_ (DoublyLinkedList.mkList (Some 1%positive) (Some 3%positive) SIZE_MAX) = SIZE_MAX
   ∧ dl_heap !! 1%positive = Some (DoublyLinkedList.mkNode 10%nat (Some 2%positive) None)
   ∧ dl_heap !! 3%positive = Some (DoublyLinkedList.mkNode 30%nat None (Some 2%positive))
   ∧ ∃ this' h',
       DoublyLinkedList.push_back 40%nat (DoublyLinkedList.mkList (Some 1%positive) (Some 3%positive) SIZE_MAX)
         dl_heap = Ok (this', h')
       ∧ h' !! 3%positive
         = Some (DoublyLinkedList.mkNode 30%nat (Some (fresh (dom dl_heap))) (Some 2%positive))
       ∧ DoublyLinkedList.size this' = 0 ∧ DoublyLinkedList.empty this' = false)
  ∧ (LinkedList.size_ (LinkedList.mkList (Some 1%positive) (Some 3%positive) SIZE_MAX) = SIZE_MAX
     ∧ sl_heap !! 1%positive = Some (LinkedList.mkNode 10%nat (Some 2%positive))
     ∧ sl_heap !! 3%positive = Some (LinkedList.mkNode 30%nat None)
     ∧ ∃ this' h',
         LinkedList.push_back 40%nat (LinkedList.mkList (Some 1%positive) (Some 3%positive) SIZE_MAX)
           sl_heap = Ok (this', h')
         ∧ h' !! 3%positive = Some (LinkedList.mkNode 30%nat (Some (fresh (dom sl_heap))))
         ∧ LinkedList.size this' = 0 ∧ LinkedList.empty this' = false).
Proof.
  split.
  - split; [done|]. split; [by vm_compute|]. split; [by vm_compute|].
    destruct (proj1 counter_wraps_at_SIZE_MAX nat 40%nat
                (DoublyLinkedList.mkList (Some 1%positive) (Some 3%positive) SIZE_MAX) dl_heap
                1%positive 3%positive
                (DoublyLinkedList.mkNode 10%nat (Some 2%positive) None)
                (DoublyLinkedList.mkNode 30%nat None (Some 2%positive)))
      as [(this' & h' & Hrun & _ & _ & _ & Hlink & _ & Hsize & Hempty) _];
      [done|done|by vm_compute|done|by vm_compute|].
    by exists this', h'.
  - split; [done|]. split; [by vm_compute|]. split; [by vm_compute|].
    destruct (proj2 counter_wraps_at_SIZE_MAX nat 40%nat
                (LinkedList.mkList (Some 1%positive) (Some 3%positive) SIZE_MAX) sl_heap
                1%positive 3%positive
                (LinkedList.mkNode 10%nat (Some 2%positive))
                (LinkedList.mkNode 30%nat None))
      as [(this' & h' & Hrun & _ & _ & _ & Hlink & _ & Hsize & Hempty) _];
      [done|done|by vm_compute|done|by vm_compute|].
    by exists this', h'.
Defined.

(** ** From construction to traversal *)

(** X22.  A container built from an initializer list and then changed by
    any series of modifier calls (the whole within [SIZE_MAX]) holds the
    sequence [xs] obtained from the list by the matching list operations:
    checked access at each position returns the element of [xs] there
    and, when [xs] is not empty, the loop from [begin()] to [end()] reads
    [xs] in order and, in the doubly-linked list, the loop from
    [rbegin()] to [rend()] reads it in reverse. *)
Theorem construction_calls_and_traversal :
  (∀ T (init_list : list T) (calls : list (DoublyLinkedList.call T)) (h : gmap loc (DoublyLinkedList.Node T)),
     N.of_nat (length init_list + length calls) ≤ SIZE_MAX →
     let xs := foldl DoublyLinkedList.effect init_list calls in
     ∃ this' h',
       (let* this := DoublyLinkedList.init_ctor init_list in DoublyLinkedList.perform_all calls this) h
       = Ok (this', h')
       ∧ DoublyLinkedList.size this' = N.of_nat (length xs)
       ∧ (∀ (i : nat) x, xs !! i = Some x → DoublyLinkedList.at_ (N.of_nat i) this' h' = Ok (x, h'))
       ∧ (xs ≠ [] →
          DoublyLinkedList.traverse DoublyLinkedList.begin DoublyLinkedList.end_ this' h' = Ok (xs, h')
          ∧ DoublyLinkedList.traverse DoublyLinkedList.rbegin DoublyLinkedList.rend this' h' = Ok (reverse xs, h')))
  ∧ (∀ T (init_list : list T) (calls : list (LinkedList.call T)) (h : gmap loc (LinkedList.Node T)),
       N.of_nat (length init_list + length calls) ≤ SIZE_MAX →
       let xs := foldl LinkedList.effect init_list calls in
       ∃ this' h',
         (let* this := LinkedList.init_ctor init_list in LinkedList.perform_all calls this) h
         = Ok (this', h')
         ∧ LinkedList.size this' = N.of_nat (length xs)
         ∧ (∀ (i : nat) x, xs !! i = Some x → LinkedList.at_ (N.of_nat i) this' h' = Ok (x, h'))
         ∧ (xs ≠ [] → LinkedList.traverse LinkedList.begin LinkedList.end_ this' h' = Ok (xs, h'))).
Proof.
  split; intros T init_list calls h Hroom xs.
  - destruct (DoublyLinkedListFacts.dl_init_ctor_spec init_list h)
      as (this0 & h0 & cs0 & Hinit & HR0 & Hvals0 & _); [lia|].
    destruct (dl_perform_all_spec calls this0 h0 cs0 HR0)
      as (this' & h' & cs' & Hrun & HR' & Hseq & _).
    { rewrite <- (length_fmap snd cs0), Hvals0. done. }
    rewrite Hvals0 in Hseq. fold xs in Hseq.
    exists this', h'. split_and!.
    + by rewrite (bind_Ok _ _ _ _ _ Hinit).
    + unfold DoublyLinkedList.size. by rewrite (DoublyLinkedList.rep_size _ _ _ HR'), <- Hseq, length_fmap.
    + intros i x Hi. rewrite <- Hseq, list_lookup_fmap in Hi.
      destruct (cs' !! i) as [c|] eqn:Hc; [|done]. injection Hi as <-.
      by apply dl_at_cell with cs'.
    + intros Hne. assert (cs' ≠ []) as Hne' by (intros ->; by rewrite <- Hseq in Hne).
      destruct (DoublyLinkedListFacts.dl_traverse_spec _ _ _ HR' Hne') as (Hf & _ & Hr & _).
      by rewrite Hf, Hr, Hseq.
  - destruct (LinkedListFacts.sl_init_ctor_spec init_list h)
      as (this0 & h0 & cs0 & Hinit & HR0 & Hvals0 & _); [lia|].
    destruct (sl_perform_all_spec calls this0 h0 cs0 HR0)
      as (this' & h' & cs' & Hrun & HR' & Hseq & _).
    { rewrite <- (length_fmap snd cs0), Hvals0. done. }
    rewrite Hvals0 in Hseq. fold xs in Hseq.
    exists this', h'. split_and!.
    + by rewrite (bind_Ok _ _ _ _ _ Hinit).
    + unfold LinkedList.size. by rewrite (LinkedList.rep_size _ _ _ HR'), <- Hseq, length_fmap.
    + intros i x Hi. rewrite <- Hseq, list_lookup_fmap in Hi.
      destruct (cs' !! i) as [c|] eqn:Hc; [|done]. injection Hi as <-.
      by apply sl_at_cell with cs'.
    + intros Hne. assert (cs' ≠ []) as Hne' by (intros ->; by rewrite <- Hseq in Hne).
      destruct (LinkedListFacts.sl_traverse_spec _ _ _ HR' Hne') as (Hf & _).
      by rewrite Hf, Hseq.
Qed.

Lemma construction_calls_and_traversal_witness :
  (N.of_nat (length [1; 2]%nat + 2) ≤ SIZE_MAX
   ∧ ∃ this' h',
       (let* this := DoublyLinkedList.init_ctor [1; 2]%nat in
        DoublyLinkedList.perform_all [DoublyLinkedList.PushFront 0%nat; DoublyLinkedList.Remove 1] this) ∅ = Ok (this', h')
       ∧ DoublyLinkedList.traverse DoublyLinkedList.begin DoublyLinkedList.end_ this' h' = Ok ([0; 2]%nat, h')
       ∧ DoublyLinkedList.traverse DoublyLinkedList.rbegin DoublyLinkedList.rend this' h' = Ok ([2; 0]%nat, h'))
  ∧ (N.of_nat (length [1; 2]%nat + 2) ≤ SIZE_MAX
     ∧ ∃ this' h',
         (let* this := LinkedList.init_ctor [1; 2]%nat in
          LinkedList.perform_all [LinkedList.PushFront 0%nat; LinkedList.Remove 1] this) ∅ = Ok (this', h')
         ∧ LinkedList.traverse LinkedList.begin LinkedList.end_ this' h' = Ok ([0; 2]%nat, h')).
Proof.
  split.
  - split; [by vm_compute|].
    destruct (proj1 construction_calls_and_traversal nat [1; 2]%nat
                [DoublyLinkedList.PushFront 0%nat; DoublyLinkedList.Remove 1] ∅)
      as (this' & h' & Hrun & _ & _ & Htrav); [by vm_compute|].
    exists this', h'. split; [done|]. by apply Htrav.
  - split; [by vm_compute|].
    destruct (proj2 construction_calls_and_traversal nat [1; 2]%nat
                [LinkedList.PushFront 0%nat; LinkedList.Remove 1] ∅)
      as (this' & h' & Hrun & _ & _ & Htrav); [by vm_compute|].
    exists this', h'. split; [done|]. by apply Htrav.
Defined.
